(** * Multi-attribute linear-hashed files: the storage engine of [ass2]

    A shallow embedding of [src/ass2/reln.c] (insertion and the split
    protocol) and [src/ass2/query.c] (the partial-match scan), with the
    properties the specification states about them. *)

From Stdlib Require Import ZArith String Ascii List Lia Bool.
From stdpp Require Import base tactics option list.
Import ListNotations.
Local Open Scope Z_scope.

(** ** Machine integers

    [Count], [Offset], [PageID] and [Bits] are 32-bit unsigned integers;
    they are modelled as [Z] with the wrap-around written out. *)

Definition wrap (x : Z) : Z := x mod 2 ^ 32.

Abbreviation PageID := Z (only parsing).
Abbreviation Bits := Z (only parsing).
Abbreviation Count := Z (only parsing).
Abbreviation Offset := Z (only parsing).

(** The sentinel page id: all ones. *)
Definition NO_PAGE : PageID := 2 ^ 32 - 1.

Definition PAGESIZE : Z := 1024.
Definition MAXCHVEC : nat := 32.

(** [reln.c], line 13: [3*sizeof(Count)+sizeof(Offset)], with 4-byte
    counters; no function of [reln.c] or [query.c] uses it. *)
Definition HEADERSIZE : Z := 3 * 4 + 4.

(** Modelled from the spec: the header of a page ([page.c] is not among
    the sources).  Section 3: the header holds [ntuples], [free] and
    [ovflow], three 32-bit fields; the remainder of the page is the data
    area. *)
Definition HEADER : Z := 3 * 4.

(** ** Bit utilities *)

(** Modelled from the spec: [bitIsSet] of [bits.c], which is not among the
    sources.  Section 4.1: bit [i] of [v]. *)
Definition bitIsSet (v : Bits) (i : Z) : bool := Z.testbit v i.

(** Modelled from the spec: [setBit] of [bits.c].  Section 4.1: [v] with
    bit [i] forced on. *)
Definition setBit (v : Bits) (i : Z) : Bits := Z.lor v (wrap (Z.shiftl 1 i)).

(** Modelled from the spec: [getLower] of [bits.c].  Section 4.1: the low
    [k] bits of [v] (mask with [(1<<k)-1], 0 for [k = 0]). *)
Definition getLower (v : Bits) (k : Z) : Bits :=
  if k =? 0 then 0 else Z.land v (wrap (wrap (Z.shiftl 1 k) - 1)).

(** ** Tuples *)

Abbreviation Tuple := string (only parsing).

(** Modelled from the spec: [tupLength] of [tuple.c], which is not among
    the sources.  The serialized length of a tuple: its bytes and the
    terminating NUL. *)
Definition tupLength (t : Tuple) : Z := Z.of_nat (String.length t) + 1.

(** ** Pages *)

(** Modelled from the spec: the page of [page.c], which is not among the
    sources.  Sections 3 and 4.3: a page holds an overflow link and a
    packed run of NUL-terminated tuples; [ntuples] is the number of tuples
    of the run and [free] its length in bytes (the page invariant of
    section 3), so both are read off the run. *)
Record Page : Type := mkPage {
  pg_ovflow : PageID;
  pg_data : list Tuple
}.

(** Modelled from the spec: [newPage] of [page.c]: an empty page with no
    overflow link. *)
Definition newPage : Page := mkPage NO_PAGE [].

(** Modelled from the spec: the accessors of [page.c]. *)
Definition pageOvflow (p : Page) : PageID := pg_ovflow p.
Definition pageSetOvflow (p : Page) (id : PageID) : Page :=
  mkPage id (pg_data p).
Definition pageNTuples (p : Page) : Count := Z.of_nat (length (pg_data p)).
Definition pageData (p : Page) : list Tuple := pg_data p.

(** The bytes of a packed run of tuples. *)
Fixpoint runLength (ts : list Tuple) : Z :=
  match ts with
  | [] => 0
  | t :: ts' => tupLength t + runLength ts'
  end.

(** Modelled from the spec: the [free] offset of a page of [page.c], the
    bytes its tuples occupy. *)
Definition pageFree (p : Page) : Z := runLength (pg_data p).

(** Modelled from the spec: [pageFreeSpace] of [page.c]: the bytes of the
    data area that are not occupied. *)
Definition pageFreeSpace (p : Page) : Z := PAGESIZE - HEADER - pageFree p.

(** Modelled from the spec: [addToPage] of [page.c].  Section 4.3: appends
    the tuple iff its serialized length is at most the remaining free
    bytes; [None] is the failure status. *)
Definition addToPage (p : Page) (t : Tuple) : option Page :=
  if tupLength t <=? pageFreeSpace p
  then Some (mkPage (pg_ovflow p) (pg_data p ++ [t]))
  else None.

(** A file of pages; page [i] occupies bytes [i*PAGESIZE ..]. *)
Abbreviation File := (list Page) (only parsing).

(** Modelled from the spec: [getPage] of [page.c] seeks and reads one
    page; reading past the end of the file fails (the program stops on an
    assertion): [None]. *)
Definition getPage (f : File) (id : PageID) : option Page :=
  if (0 <=? id) && (id <? Z.of_nat (length f))
  then f !! Z.to_nat id else None.

(** Modelled from the spec: [putPage] of [page.c] writes one page in
    place.  Every call in [reln.c] writes a page that was read from the
    same position or just appended, so the position is inside the file. *)
Definition putPage (f : File) (id : PageID) (p : Page) : File :=
  <[Z.to_nat id := p]> f.

(** Modelled from the spec: [addPage] of [page.c] appends a fresh empty
    page and returns its id, a 32-bit [PageID]. *)
Definition addPage (f : File) : File * PageID :=
  (f ++ [newPage], wrap (Z.of_nat (length f))).

(** ** Tuple helpers *)

(** Modelled from the spec: [tupleVals] of [tuple.c], which is not among
    the sources.  A tuple is serialized as [v1,v2,...,vN]; [tupleVals]
    gives its comma-separated fields. *)
Fixpoint tupleVals (t : Tuple) : list string :=
  match t with
  | EmptyString => [EmptyString]
  | String ch rest =>
      if Ascii.eqb ch ","%char then EmptyString :: tupleVals rest
      else match tupleVals rest with
           | v :: vs => String ch v :: vs
           | [] => [String ch EmptyString]
           end
  end.

(** The [i]-th field, [None] outside the tuple. *)
Definition tupleField (t : Tuple) (i : nat) : option string :=
  tupleVals t !! i.

Definition isStar (v : string) : bool := String.eqb v "?".

(** ** The relation descriptor ([struct RelnRep]) with its two page files *)

Abbreviation ChVecItem := (Z * Z)%type (only parsing).   (* (att, bit) *)

Record Reln : Type := mkReln {
  nattrs : Count;
  depth : Count;
  sp : Offset;
  npages : Count;
  ntups : Count;
  c : Count;
  insertion : Count;
  splitting : bool;
  cv : list ChVecItem;
  data : File;
  ovflow : File
}.

Definition set_depth (r : Reln) (v : Count) : Reln :=
  mkReln (nattrs r) v (sp r) (npages r) (ntups r) (c r) (insertion r)
    (splitting r) (cv r) (data r) (ovflow r).
Definition set_sp (r : Reln) (v : Offset) : Reln :=
  mkReln (nattrs r) (depth r) v (npages r) (ntups r) (c r) (insertion r)
    (splitting r) (cv r) (data r) (ovflow r).
Definition set_npages (r : Reln) (v : Count) : Reln :=
  mkReln (nattrs r) (depth r) (sp r) v (ntups r) (c r) (insertion r)
    (splitting r) (cv r) (data r) (ovflow r).
Definition set_ntups (r : Reln) (v : Count) : Reln :=
  mkReln (nattrs r) (depth r) (sp r) (npages r) v (c r) (insertion r)
    (splitting r) (cv r) (data r) (ovflow r).
Definition set_insertion (r : Reln) (v : Count) : Reln :=
  mkReln (nattrs r) (depth r) (sp r) (npages r) (ntups r) (c r) v
    (splitting r) (cv r) (data r) (ovflow r).
Definition set_splitting (r : Reln) (v : bool) : Reln :=
  mkReln (nattrs r) (depth r) (sp r) (npages r) (ntups r) (c r) (insertion r)
    v (cv r) (data r) (ovflow r).
Definition set_data (r : Reln) (v : File) : Reln :=
  mkReln (nattrs r) (depth r) (sp r) (npages r) (ntups r) (c r) (insertion r)
    (splitting r) (cv r) v (ovflow r).
Definition set_ovflow (r : Reln) (v : File) : Reln :=
  mkReln (nattrs r) (depth r) (sp r) (npages r) (ntups r) (c r) (insertion r)
    (splitting r) (cv r) (data r) v.

(** Modelled from the spec: the test of one attribute by [tupleMatch]
    ([tuple.c]): the pattern's field is the wildcard or equals the field
    of the candidate. *)
Definition fieldMatch (pt t : Tuple) (i : nat) : bool :=
  match tupleField pt i with
  | Some pv =>
      isStar pv ||
      match tupleField t i with
      | Some v => String.eqb pv v
      | None => false
      end
  | None => false
  end.

(** Modelled from the spec: [tupleMatch] of [tuple.c].  Section 4.5.3:
    true iff, for every non-wildcard attribute [i], the [i]-th field of
    the candidate equals the [i]-th field of the pattern. *)
Definition tupleMatch (r : Reln) (pt t : Tuple) : bool :=
  forallb (fieldMatch pt t) (seq 0 (Z.to_nat (nattrs r))).

Section Engine.

(** [hash_any] of [hash.c] is not among the sources: it is a parameter of
    the development, an opaque deterministic 32-bit digest of a byte string
    (section 4.2). *)
Variable hash_any : string -> Bits.

(** The choice-vector item [i]; missing items are zero. *)
Definition cvItem (r : Reln) (i : nat) : ChVecItem :=
  nth i (cv r) (0, 0).

(** Modelled from the spec: [tupleHash] ([tuple.c]) is not among the
    sources.  Section 4.4.1: bit [i] of the composite hash is bit
    [cv[i].bit] of the hash of attribute [cv[i].att], for
    [i = 0..MAXCHVEC-1]. *)
Definition tupleHash (r : Reln) (t : Tuple) : Bits :=
  fold_left
    (fun h i =>
       let '(att, bit) := cvItem r i in
       if bitIsSet (hash_any (nth (Z.to_nat att) (tupleVals t) EmptyString)) bit
       then setBit h (Z.of_nat i) else h)
    (seq 0 MAXCHVEC) 0.

(** ** Insertion ([addToRelation], lines 135-216) *)

(** Lines 148-151: the bucket of a composite hash. *)
Definition bucketOf (r : Reln) (h : Bits) : Bits :=
  let p := getLower h (depth r) in
  if p <? sp r then getLower h (wrap (depth r + 1)) else p.

(** The counter update that follows every successful placement:
    [if (!r->splitting) { r->ntups++; r->insertion++; }]. *)
Definition countInsert (r : Reln) : Reln :=
  if splitting r then r
  else set_insertion (set_ntups r (wrap (ntups r + 1)))
         (wrap (insertion r + 1)).

(** The result of the scan of an overflow chain (lines 183-197). *)
Inductive ScanResult : Type :=
| Placed (ovp : PageID) (ovpg : Page)
    (* the tuple went into page [ovp], now [ovpg] *)
| ChainEnd (prevp : PageID) (prevpg : Page).
    (* every page is full; [prevp] is the tail of the chain *)

(** The [while (ovp != NO_PAGE)] loop.  Each round reads one page of the
    chain; a chain that does not revisit a page has at most as many pages
    as the file, which bounds the rounds.  [None]: a page outside the file
    (the read fails) or a chain that loops. *)
Fixpoint scanChain (rounds : nat) (ov : File) (t : Tuple)
    (ovp prevp : PageID) (prevpg : Page) : option ScanResult :=
  if ovp =? NO_PAGE then Some (ChainEnd prevp prevpg)
  else
    match rounds with
    | O => None
    | S k =>
        match getPage ov ovp with
        | None => None
        | Some ovpg =>
            match addToPage ovpg t with
            | None => scanChain k ov t (pageOvflow ovpg) ovp ovpg
            | Some ovpg' => Some (Placed ovp ovpg')
            end
        end
    end.

(** Lines 148-215: the placement of [t], after the split check.  The
    result is the relation and the returned page id ([NO_PAGE] when the
    insert fails completely); [None] when a page read fails. *)
Definition place (r : Reln) (t : Tuple) : option (Reln * PageID) :=
  let h := tupleHash r t in
  let p := bucketOf r h in
  match getPage (data r) p with
  | None => None
  | Some pg =>
      match addToPage pg t with
      | Some pg' =>
          Some (countInsert (set_data r (putPage (data r) p pg')), p)
      | None =>
          if pageOvflow pg =? NO_PAGE then
            (* add first overflow page in chain *)
            let '(ov1, newp) := addPage (ovflow r) in
            let r1 := set_ovflow r ov1 in
            let r2 := set_data r1 (putPage (data r1) p (pageSetOvflow pg newp)) in
            match getPage (ovflow r2) newp with
            | None => None
            | Some newpg =>
                match addToPage newpg t with
                | None => Some (r2, NO_PAGE)
                | Some newpg' =>
                    Some (countInsert
                            (set_ovflow r2 (putPage (ovflow r2) newp newpg')), p)
                end
            end
          else
            match scanChain (length (ovflow r)) (ovflow r) t
                    (pageOvflow pg) NO_PAGE pg with
            | None => None
            | Some (Placed ovp ovpg') =>
                Some (countInsert
                        (set_ovflow r (putPage (ovflow r) ovp ovpg')), p)
            | Some (ChainEnd prevp prevpg) =>
                let '(ov1, newp) := addPage (ovflow r) in
                let r1 := set_ovflow r ov1 in
                match getPage (ovflow r1) newp with
                | None => None
                | Some newpg =>
                    match addToPage newpg t with
                    | None => Some (r1, NO_PAGE)
                    | Some newpg' =>
                        let r2 := set_ovflow r1 (putPage (ovflow r1) newp newpg') in
                        let r3 := set_ovflow r2
                                    (putPage (ovflow r2) prevp
                                       (pageSetOvflow prevpg newp)) in
                        Some (countInsert r3, p)
                    end
                end
            end
      end
  end.

(** ** The split ([splitSp], lines 218-279)

    [splitSp] re-inserts with [addToRelation]; the two functions are
    mutually recursive, so the split takes the insertion it calls as
    [ins] and [addToRelation] below ties the knot. *)

Section Split.

Variable ins : Reln -> Tuple -> option (Reln * PageID).

(** The loops at lines 239-244 and 263-268: every tuple of the page held
    in memory is inserted again; the returned bucket is not looked at. *)
Fixpoint reinsert (r : Reln) (ts : list Tuple) : option Reln :=
  match ts with
  | [] => Some r
  | t :: ts' =>
      match ins r t with
      | None => None
      | Some (r', _) => reinsert r' ts'
      end
  end.

(** The loop at lines 251-269 over the overflow chain of the page held in
    memory: read the next page, overwrite it on disk with an empty page
    that keeps its link, insert its tuples again.  As in [scanChain] the
    rounds are bounded by the pages a chain without repetition can have. *)
Fixpoint splitChain (rounds : nat) (r : Reln) (currId : PageID) : option Reln :=
  if currId =? NO_PAGE then Some r
  else
    match rounds with
    | O => None
    | S k =>
        match getPage (ovflow r) currId with
        | None => None
        | Some currPage =>
            let new := pageSetOvflow newPage (pageOvflow currPage) in
            let r1 := set_ovflow r (putPage (ovflow r) currId new) in
            match reinsert r1 (pageData currPage) with
            | None => None
            | Some r2 => splitChain k r2 (pageOvflow currPage)
            end
        end
    end.

Definition splitSp (r : Reln) : option Reln :=
  (* add new buddy page *)
  let r1 := set_npages (set_data r (fst (addPage (data r))))
              (wrap (npages r + 1)) in
  (* get and remove all tuples in sp primary page *)
  match getPage (data r1) (sp r1) with
  | None => None
  | Some currPage =>
      let new := pageSetOvflow newPage (pageOvflow currPage) in
      let r2 := set_data r1 (putPage (data r1) (sp r1) new) in
      let r3 := set_sp r2 (wrap (sp r2 + 1)) in
      match reinsert r3 (pageData currPage) with
      | None => None
      | Some r4 =>
          match splitChain (length (ovflow r)) r4 (pageOvflow currPage) with
          | None => None
          | Some r5 =>
              (* if sp reaches 2^d, increment depth, reset sp to 0 *)
              if sp r5 =? wrap (Z.shiftl 1 (depth r5))
              then Some (set_sp (set_depth r5 (wrap (depth r5 + 1))) 0)
              else Some r5
          end
      end
  end.

End Split.

(** [addToRelation]: the split check of lines 141-146, then the placement.
    [fuel] bounds the nesting of [addToRelation] inside [splitSp] inside
    [addToRelation]; [None] is also the answer when it runs out. *)
Fixpoint addToRelation (fuel : nat) (r : Reln) (t : Tuple)
    : option (Reln * PageID) :=
  match fuel with
  | O => None
  | S k =>
      if insertion r =? c r then
        let r1 := set_splitting (set_insertion r 0) true in
        match splitSp (addToRelation k) r1 with
        | None => None
        | Some r2 => place (set_splitting r2 false) t
        end
      else place r t
  end.

(** A sequence of inserts; the results are the returned page ids. *)
Fixpoint addAll (fuel : nat) (r : Reln) (ts : list Tuple)
    : option (Reln * list PageID) :=
  match ts with
  | [] => Some (r, [])
  | t :: ts' =>
      match addToRelation fuel r t with
      | None => None
      | Some (r1, p) =>
          match addAll fuel r1 ts' with
          | None => None
          | Some (r2, ps) => Some (r2, p :: ps)
          end
      end
  end.

(** [newRelation] (lines 40-63): the descriptor and [npages] empty primary
    pages; the choice vector is the parsed one.  The product [10*nattrs]
    of line 46 is a 32-bit unsigned one, and the division by it has no
    result when it is zero. *)
Definition newRelation (nattrs npages d : Count) (cv : list ChVecItem)
    : option Reln :=
  let tenAttrs := wrap (10 * nattrs) in
  if tenAttrs =? 0 then None
  else
    Some (mkReln nattrs d 0 npages 0 (1024 / tenAttrs) 0 false cv
            (repeat newPage (Z.to_nat npages)) []).

(** ** The query scan ([query.c]) *)

(** [struct QueryRep].  [curtup] points at the tuple number [nTupleScanned]
    of the run of [curpage], so the counter stands for both.  [fetched] is
    not a field of the code: it records, in order, the page ids handed to
    [getPage] on the primary data file. *)
Record Query : Type := mkQuery {
  query : Tuple;
  rel : Reln;
  known : Bits;
  unknown : Bits;
  nstars : Z;
  starBits : list Z;
  bitSeq : Bits;
  bitSeqMax : Bits;
  curpage : Page;
  nTupleScanned : Count;
  fetched : list PageID
}.

(** Lines 64-74: known bits and star positions over [cv[0..depth]].
    [vals[cv[i].att]] outside the pattern's fields is a fault. *)
Fixpoint compilePattern (r : Reln) (vals : list string) (idx : list nat)
    (kn : Bits) (stars : list Z) : option (Bits * list Z) :=
  match idx with
  | [] => Some (kn, stars)
  | i :: idx' =>
      let '(att, bit) := cvItem r i in
      match vals !! Z.to_nat att with
      | None => None
      | Some v =>
          if negb (isStar v) then
            compilePattern r vals idx'
              (if bitIsSet (hash_any v) bit then setBit kn (Z.of_nat i) else kn)
              stars
          else
            compilePattern r vals idx' kn (stars ++ [Z.of_nat i mod 256])
      end
  end.

(** Lines 81-83: [nstars] one bits. *)
Definition starMask (n : Z) : Bits :=
  fold_left (fun m i => setBit m (Z.of_nat i)) (seq 0 (Z.to_nat n)) 0.

(** Lines 86-90 and 156-161: scatter [bitSeq] over the star positions. *)
Definition formUnknown (n : Z) (stars : list Z) (bs : Bits) : Bits :=
  fold_left
    (fun u i => if bitIsSet bs (Z.of_nat i) then setBit u (nth i stars 0) else u)
    (seq 0 (Z.to_nat n)) 0.

(** Lines 42-96 of [startQuery]: the compiled pattern and the id of the
    first page, before it is read. *)
Definition firstBucket (r : Reln) (q : Tuple)
    : option (Bits * list Z * PageID) :=
  let vals := tupleVals q in
  match compilePattern r vals (seq 0 (Z.to_nat (wrap (depth r + 1)))) 0 [] with
  | None => None
  | Some (kn, stars) =>
      let ns := Z.of_nat (length stars) in
      let unk := formUnknown ns stars 0 in
      let malHash := Z.lor unk kn in
      Some (kn, stars, bucketOf r malHash)
  end.

Definition startQuery (r : Reln) (q : Tuple) : option Query :=
  match firstBucket r q with
  | None => None
  | Some (kn, stars, p) =>
      let ns := Z.of_nat (length stars) in
      match getPage (data r) p with
      | None => None
      | Some pg =>
          Some (mkQuery q r kn (formUnknown ns stars 0) ns stars 0
                  (starMask ns) pg 0 [p])
      end
  end.

Definition set_scan (q : Query) (pg : Page) (n : Count) : Query :=
  mkQuery (query q) (rel q) (known q) (unknown q) (nstars q) (starBits q)
    (bitSeq q) (bitSeqMax q) pg n (fetched q).

(** The loops at lines 112-120 and 133-141 over the tuples of the current
    page from [curtup] on: stop behind the first match. *)
Fixpoint scanTuples (r : Reln) (pt : Tuple) (ts : list Tuple) (n : Count)
    : option Tuple * Count :=
  match ts with
  | [] => (None, n)
  | t :: ts' =>
      if tupleMatch r pt t then (Some t, wrap (n + 1))
      else scanTuples r pt ts' (wrap (n + 1))
  end.

Definition scanPage (q : Query) : option Tuple * Query :=
  let '(res, n) :=
    scanTuples (rel q) (query q)
      (drop (Z.to_nat (nTupleScanned q)) (pageData (curpage q)))
      (nTupleScanned q) in
  (res, set_scan q (curpage q) n).

(** Lines 125-142: the overflow pages of the bucket, in chain order. *)
Fixpoint scanOvflow (rounds : nat) (q : Query) : option (option Tuple * Query) :=
  if pageOvflow (curpage q) =? NO_PAGE then Some (None, q)
  else
    match rounds with
    | O => None
    | S k =>
        match getPage (ovflow (rel q)) (pageOvflow (curpage q)) with
        | None => None
        | Some pg =>
            match scanPage (set_scan q pg 0) with
            | (Some t, q') => Some (Some t, q')
            | (None, q') => scanOvflow k q'
            end
        end
    end.

(** Lines 154-189: the next value of [bitSeq] and the page of its bucket,
    if one is fetched. *)
Definition nextBucket (q : Query) : option (Query * option PageID) :=
  let bs := wrap (bitSeq q + 1) in
  let unk := formUnknown (nstars q) (starBits q) bs in
  let q1 := mkQuery (query q) (rel q) (known q) unk (nstars q) (starBits q)
              bs (bitSeqMax q) (curpage q) (nTupleScanned q) (fetched q) in
  let malHash := Z.lor unk (known q) in
  if (0 <=? nstars q - 1) then
    match starBits q !! Z.to_nat (nstars q - 1) with
    | None => None
    | Some top =>
        if negb (top =? depth (rel q)) then
          Some (q1, Some (bucketOf (rel q) malHash))
        else
          let p := getLower malHash (wrap (depth (rel q) + 1)) in
          if p <? npages (rel q) then Some (q1, Some p) else Some (q1, None)
    end
  else None.

Definition advance (q : Query) : option Query :=
  match nextBucket q with
  | None => None
  | Some (q1, None) => Some q1
  | Some (q1, Some p) =>
      match getPage (data (rel q1)) p with
      | None => None
      | Some pg =>
          Some (mkQuery (query q1) (rel q1) (known q1) (unknown q1) (nstars q1)
                  (starBits q1) (bitSeq q1) (bitSeqMax q1) pg 0
                  (fetched q1 ++ [p]))
      end
  end.

(** The [while (TRUE)] loop of [getNextTuple].  Each round that does not
    return moves [bitSeq] one step towards [bitSeqMax], which bounds the
    rounds.  The result is the tuple ([None] for the null result) and the
    query; the outer [None] is a failed page read. *)
Fixpoint getNextLoop (rounds : nat) (q : Query) : option (option Tuple * Query) :=
  match scanPage q with
  | (Some t, q1) => Some (Some t, q1)
  | (None, q1) =>
      match scanOvflow (length (ovflow (rel q1))) q1 with
      | None => None
      | Some (Some t, q2) => Some (Some t, q2)
      | Some (None, q2) =>
          if bitSeq q2 =? bitSeqMax q2 then Some (None, q2)
          else
            match rounds with
            | O => None
            | S k =>
                match advance q2 with
                | None => None
                | Some q3 => getNextLoop k q3
                end
            end
      end
  end.

Definition getNextTuple (q : Query) : option (option Tuple * Query) :=
  getNextLoop (Z.to_nat (wrap (bitSeqMax q - bitSeq q))) q.

(** Running a query to exhaustion: the tuples in the order returned.
    Every call but the last returns a tuple of one of the pages, so the
    calls are bounded by [calls]. *)
Fixpoint drain (calls : nat) (q : Query) : option (list Tuple * Query) :=
  match getNextTuple q with
  | None => None
  | Some (None, q') => Some ([], q')
  | Some (Some t, q') =>
      match calls with
      | O => None
      | S k =>
          match drain k q' with
          | None => None
          | Some (ts, q'') => Some (t :: ts, q'')
          end
      end
  end.

(** * Properties *)

(** ** Bits *)

Lemma wrap_small x : 0 <= x < 2 ^ 32 -> wrap x = x.
Proof. intros H. unfold wrap. apply Z.mod_small. exact H. Qed.

Lemma wrap_id x : 0 <= x < 4294967296 -> wrap x = x.
Proof. intros H. apply wrap_small. change (2 ^ 32) with 4294967296. exact H. Qed.

Lemma wrap_range x : 0 <= wrap x < 2 ^ 32.
Proof. unfold wrap. apply Z.mod_pos_bound. lia. Qed.

Lemma pow2_lt_32 k : 0 <= k < 32 -> 0 < 2 ^ k < 2 ^ 32.
Proof.
  intros H. split.
  - apply Z.pow_pos_nonneg; lia.
  - apply Z.pow_lt_mono_r; lia.
Qed.

Lemma getLower_mod v k : 0 <= k <= 32 -> getLower v k = v mod 2 ^ k.
Proof.
  intros Hk. unfold getLower. destruct (Z.eqb_spec k 0) as [->|Hn].
  - rewrite Z.pow_0_r, Z.mod_1_r. reflexivity.
  - rewrite Z.shiftl_1_l. rewrite <- Z.land_ones by lia. f_equal.
    rewrite Z.ones_equiv. destruct (Z.eq_dec k 32) as [->|Hk32].
    + reflexivity.
    + pose proof (pow2_lt_32 k ltac:(lia)) as Hp.
      rewrite (wrap_small (2 ^ k)) by lia.
      rewrite wrap_small by lia. lia.
Qed.

Lemma getLower_range v k : 0 <= k <= 32 -> 0 <= getLower v k < 2 ^ k.
Proof.
  intros Hk. rewrite getLower_mod by lia.
  apply Z.mod_pos_bound. apply Z.pow_pos_nonneg; lia.
Qed.

(** One more bit either keeps the address or adds [2^d] to it. *)
Lemma mod_pow2_succ h d :
  0 <= d ->
  h mod 2 ^ (d + 1) = h mod 2 ^ d \/ h mod 2 ^ (d + 1) = h mod 2 ^ d + 2 ^ d.
Proof.
  intros Hd. rewrite Z.pow_add_r, Z.pow_1_r by lia.
  assert (Hp : 0 < 2 ^ d) by (apply Z.pow_pos_nonneg; lia).
  rewrite Z.rem_mul_r by lia.
  pose proof (Z.mod_pos_bound (h / 2 ^ d) 2 ltac:(lia)) as Hb.
  assert (Hc : (h / 2 ^ d) mod 2 = 0 \/ (h / 2 ^ d) mod 2 = 1) by lia.
  destruct Hc as [-> | ->]; [left | right]; lia.
Qed.

Lemma getLower_succ h d :
  0 <= d < 32 ->
  getLower h (d + 1) = getLower h d \/
  getLower h (d + 1) = getLower h d + 2 ^ d.
Proof.
  intros Hd. rewrite !getLower_mod by lia. apply mod_pow2_succ. lia.
Qed.

(** ** Query soundness *)

Lemma scanTuples_match r pt ts n t n' :
  scanTuples r pt ts n = (Some t, n') -> tupleMatch r pt t = true.
Proof.
  revert n. induction ts as [|u ts IH]; intros n; simpl.
  - discriminate.
  - destruct (tupleMatch r pt u) eqn:E.
    + intros [= <- _]. exact E.
    + apply IH.
Qed.

Lemma scanPage_rel q res q' :
  scanPage q = (res, q') -> rel q' = rel q /\ query q' = query q.
Proof.
  unfold scanPage. destruct (scanTuples _ _ _ _) as [res0 n].
  intros [= _ <-]. split; reflexivity.
Qed.

Lemma scanPage_match q t q' :
  scanPage q = (Some t, q') -> tupleMatch (rel q) (query q) t = true.
Proof.
  unfold scanPage. destruct (scanTuples _ _ _ _) as [res0 n] eqn:E.
  intros [= -> _]. eapply scanTuples_match, E.
Qed.

Lemma scanOvflow_rel rounds q res q' :
  scanOvflow rounds q = Some (res, q') ->
  rel q' = rel q /\ query q' = query q.
Proof.
  revert q. induction rounds as [|k IH]; intros q; simpl.
  - destruct (_ =? _); [intros [= _ <-]; auto | discriminate].
  - destruct (_ =? _); [intros [= _ <-]; auto |].
    destruct (getPage _ _) as [pg|]; [|discriminate].
    destruct (scanPage (set_scan q pg 0)) as [[t|] q1] eqn:E.
    + intros [= _ <-]. apply scanPage_rel in E. exact E.
    + intros H. apply IH in H. apply scanPage_rel in E.
      destruct H as [H1 H2]. rewrite H1, H2. exact E.
Qed.

Lemma scanOvflow_match rounds q t q' :
  scanOvflow rounds q = Some (Some t, q') ->
  tupleMatch (rel q) (query q) t = true.
Proof.
  revert q. induction rounds as [|k IH]; intros q; simpl.
  - destruct (_ =? _); discriminate.
  - destruct (_ =? _); [discriminate|].
    destruct (getPage _ _) as [pg|]; [|discriminate].
    destruct (scanPage (set_scan q pg 0)) as [[u|] q1] eqn:E.
    + intros [= -> _]. apply scanPage_match in E. exact E.
    + intros H. apply IH in H. apply scanPage_rel in E.
      destruct E as [E1 E2]. rewrite E1, E2 in H. exact H.
Qed.

Lemma advance_rel q q' :
  advance q = Some q' -> rel q' = rel q /\ query q' = query q.
Proof.
  unfold advance, nextBucket.
  destruct (0 <=? nstars q - 1); [|discriminate].
  destruct (starBits q !! _) as [top|]; [|discriminate].
  destruct (negb _); simpl.
  - destruct (getPage _ _); [|discriminate]. intros [= <-]; auto.
  - destruct (_ <? _); simpl.
    + destruct (getPage _ _); [|discriminate]. intros [= <-]; auto.
    + intros [= <-]; auto.
Qed.

Lemma getNextLoop_match rounds q t q' :
  getNextLoop rounds q = Some (Some t, q') ->
  tupleMatch (rel q) (query q) t = true.
Proof.
  revert q. induction rounds as [|k IH]; intros q; simpl;
    destruct (scanPage q) as [[u|] q1] eqn:E1;
    try (intros [= -> _]; eapply scanPage_match, E1);
    apply scanPage_rel in E1; destruct E1 as [R1 Q1];
    destruct (scanOvflow _ q1) as [[[u|] q2]|] eqn:E2; try discriminate;
    try (intros [= -> _]; apply scanOvflow_match in E2;
         rewrite R1, Q1 in E2; exact E2);
    destruct (_ =? _); try discriminate.
  destruct (advance q2) as [q3|] eqn:E3; [|discriminate].
  intros H. apply IH in H. apply advance_rel in E3.
  apply scanOvflow_rel in E2.
  destruct E3 as [R3 Q3]. destruct E2 as [R2 Q2].
  rewrite R3, Q3, R2, Q2, R1, Q1 in H. exact H.
Qed.

Lemma tupleMatch_fields r pt t :
  tupleMatch r pt t = true ->
  forall (i : nat) (pv : string),
    (i < Z.to_nat (nattrs r))%nat ->
    tupleField pt i = Some pv -> pv <> "?"%string ->
    tupleField t i = Some pv.
Proof.
  unfold tupleMatch. rewrite forallb_forall. intros H i pv Hi Hp Hs.
  specialize (H i). rewrite in_seq in H.
  assert (Hm : fieldMatch pt t i = true) by (apply H; lia).
  unfold fieldMatch in Hm. rewrite Hp in Hm.
  unfold isStar in Hm. destruct (String.eqb_spec pv "?") as [|_];
    [contradiction|]. simpl in Hm.
  destruct (tupleField t i) as [v|]; [|discriminate].
  apply String.eqb_eq in Hm. congruence.
Qed.

(** C4.  Every tuple that [getNextTuple] returns on a query with pattern
    [query q] matches the pattern: for every attribute [i] whose pattern
    field is not the wildcard, the [i]-th comma-separated field of the
    returned tuple is the [i]-th field of the pattern. *)
Theorem getNextTuple_sound (q : Query) (t : Tuple) (q' : Query) :
  getNextTuple q = Some (Some t, q') ->
  tupleMatch (rel q) (query q) t = true /\
  forall (i : nat) (pv : string),
    (i < Z.to_nat (nattrs (rel q)))%nat ->
    tupleField (query q) i = Some pv -> pv <> "?"%string ->
    tupleField t i = Some pv.
Proof.
  unfold getNextTuple. intros H. apply getNextLoop_match in H.
  split; [exact H | apply tupleMatch_fields, H].
Qed.

(** ** The counters of the descriptor at rest (section 3) *)

Definition Counters (r : Reln) : Prop :=
  0 <= depth r /\ 0 <= sp r < 2 ^ depth r /\
  npages r = 2 ^ depth r + sp r /\ npages r < 2 ^ 32.

Lemma Counters_depth r : Counters r -> 0 <= depth r < 32.
Proof.
  intros (Hd & Hs & Hn & Hb). split; [exact Hd|].
  destruct (Z_lt_le_dec (depth r) 32) as [|Hge]; [assumption|].
  assert (2 ^ 32 <= 2 ^ depth r) by (apply Z.pow_le_mono_r; lia). lia.
Qed.

Lemma bucketOf_cases r h :
  0 <= depth r < 32 ->
  (bucketOf r h = getLower h (depth r) /\ sp r <= getLower h (depth r)) \/
  (getLower h (depth r) < sp r /\
   (bucketOf r h = getLower h (depth r) \/
    bucketOf r h = getLower h (depth r) + 2 ^ depth r)).
Proof.
  intros Hd. unfold bucketOf.
  destruct (Z.ltb_spec (getLower h (depth r)) (sp r)) as [Hlt|Hge].
  - right. split; [exact Hlt|].
    rewrite wrap_id by lia. apply getLower_succ. exact Hd.
  - left. split; [reflexivity | exact Hge].
Qed.

Lemma bucketOf_range r h :
  Counters r -> 0 <= bucketOf r h < npages r.
Proof.
  intros HC. pose proof (Counters_depth r HC) as Hd.
  destruct HC as (_ & Hs & Hn & _).
  pose proof (getLower_range h (depth r) ltac:(lia)) as Hl.
  destruct (bucketOf_cases r h Hd) as [[-> ?] | [? [-> | ->]]]; lia.
Qed.

(** ** The pages a query reads *)

Lemma scanPage_fields q res q' :
  scanPage q = (res, q') ->
  rel q' = rel q /\ fetched q' = fetched q /\ bitSeq q' = bitSeq q /\
  bitSeqMax q' = bitSeqMax q /\ nstars q' = nstars q /\
  starBits q' = starBits q /\ known q' = known q.
Proof.
  unfold scanPage. destruct (scanTuples _ _ _ _) as [res0 n].
  intros [= _ <-]. repeat split; reflexivity.
Qed.

Lemma scanOvflow_fields rounds q res q' :
  scanOvflow rounds q = Some (res, q') ->
  rel q' = rel q /\ fetched q' = fetched q /\ bitSeq q' = bitSeq q /\
  bitSeqMax q' = bitSeqMax q /\ nstars q' = nstars q /\
  starBits q' = starBits q /\ known q' = known q.
Proof.
  revert q. induction rounds as [|k IH]; intros q; simpl.
  - destruct (_ =? _); [intros [= _ <-]; repeat split; reflexivity
                       | discriminate].
  - destruct (_ =? _); [intros [= _ <-]; repeat split; reflexivity |].
    destruct (getPage _ _) as [pg|]; [|discriminate].
    destruct (scanPage (set_scan q pg 0)) as [[t|] q1] eqn:E;
      apply scanPage_fields in E; simpl in E.
    + intros [= _ <-]. exact E.
    + intros H. apply IH in H.
      destruct H as (-> & -> & -> & -> & -> & -> & ->). exact E.
Qed.

Lemma nextBucket_fields q q1 op :
  nextBucket q = Some (q1, op) ->
  rel q1 = rel q /\ fetched q1 = fetched q /\
  bitSeq q1 = wrap (bitSeq q + 1) /\ bitSeqMax q1 = bitSeqMax q /\
  nstars q1 = nstars q /\ starBits q1 = starBits q /\ known q1 = known q.
Proof.
  unfold nextBucket.
  destruct (0 <=? nstars q - 1); [|discriminate].
  destruct (starBits q !! _) as [top|]; [|discriminate].
  destruct (negb _).
  - intros [= <- _]. repeat split; reflexivity.
  - destruct (_ <? _); intros [= <- _]; repeat split; reflexivity.
Qed.

Lemma nextBucket_range q q1 p :
  Counters (rel q) -> nextBucket q = Some (q1, Some p) ->
  0 <= p < npages (rel q).
Proof.
  intros HC. unfold nextBucket.
  destruct (0 <=? nstars q - 1); [|discriminate].
  destruct (starBits q !! _) as [top|]; [|discriminate].
  destruct (negb _).
  - intros [= _ <-]. apply bucketOf_range, HC.
  - destruct (Z.ltb_spec (getLower (Z.lor (formUnknown (nstars q) (starBits q)
        (wrap (bitSeq q + 1))) (known q)) (wrap (depth (rel q) + 1)))
        (npages (rel q))) as [Hlt|]; [|discriminate].
    intros [= _ <-]. split; [|exact Hlt].
    pose proof (Counters_depth _ HC) as Hd.
    rewrite (wrap_id (depth (rel q) + 1)) by lia. apply getLower_range. lia.
Qed.

(** What [advance] adds to the pages read: nothing, or the id
    [nextBucket] chose. *)
Lemma advance_fetched q q' :
  advance q = Some q' ->
  exists q1 op, nextBucket q = Some (q1, op) /\
    rel q' = rel q /\ bitSeq q' = wrap (bitSeq q + 1) /\
    bitSeqMax q' = bitSeqMax q /\ nstars q' = nstars q /\
    starBits q' = starBits q /\ known q' = known q /\
    fetched q' = fetched q ++ match op with Some p => [p] | None => [] end.
Proof.
  unfold advance. destruct (nextBucket q) as [[q1 op]|] eqn:E; [|discriminate].
  pose proof (nextBucket_fields _ _ _ E) as (R & F & B & M & N & S & K).
  destruct op as [p|].
  - destruct (getPage _ _) as [pg|]; [|discriminate].
    intros [= <-]. exists q1, (Some p). simpl. rewrite F.
    repeat split; assumption.
  - intros [= <-]. exists q1, None. rewrite app_nil_r.
    repeat split; assumption.
Qed.

(** One call of the scan loop: the descriptor and the compiled pattern
    stay, [bitSeq] moves up towards [bitSeqMax], and the pages read are
    at most one per step of [bitSeq], each chosen by [nextBucket]. *)
Lemma getNextLoop_trace rounds q res q' :
  0 <= bitSeq q <= bitSeqMax q -> bitSeqMax q < 2 ^ 32 ->
  getNextLoop rounds q = Some (res, q') ->
  rel q' = rel q /\ bitSeqMax q' = bitSeqMax q /\ nstars q' = nstars q /\
  starBits q' = starBits q /\ known q' = known q /\
  bitSeq q <= bitSeq q' <= bitSeqMax q /\
  exists extra, fetched q' = fetched q ++ extra /\
    Z.of_nat (length extra) <= bitSeq q' - bitSeq q /\
    (Counters (rel q) -> Forall (fun p => 0 <= p < npages (rel q)) extra).
Proof.
  revert q. induction rounds as [|k IH]; intros q Hb Hm; simpl;
    destruct (scanPage q) as [[u|] q1] eqn:E1;
    apply scanPage_fields in E1; destruct E1 as (R1 & F1 & B1 & M1 & N1 & S1 & K1);
    try (intros [= _ <-]; rewrite R1, F1, B1, M1, N1, S1, K1;
         repeat split; try lia; try reflexivity;
         exists []; rewrite app_nil_r; simpl;
         repeat split; [lia | constructor]);
    (destruct (scanOvflow _ q1) as [[[u|] q2]|] eqn:E2; [| |discriminate]);
    apply scanOvflow_fields in E2;
    destruct E2 as (R2 & F2 & B2 & M2 & N2 & S2 & K2);
    try (intros [= _ <-]; rewrite R2, F2, B2, M2, N2, S2, K2,
                                  R1, F1, B1, M1, N1, S1, K1;
         repeat split; try lia; try reflexivity;
         exists []; rewrite app_nil_r; simpl;
         repeat split; [lia | constructor]);
    (destruct (Z.eqb_spec (bitSeq q2) (bitSeqMax q2)) as [He|Hne];
     [intros [= _ <-]; rewrite R2, F2, B2, M2, N2, S2, K2,
                               R1, F1, B1, M1, N1, S1, K1;
      repeat split; try lia; try reflexivity;
      exists []; rewrite app_nil_r; simpl;
      repeat split; [lia | constructor] |]);
    try discriminate.
  destruct (advance q2) as [q3|] eqn:E3; [|discriminate].
  apply advance_fetched in E3.
  destruct E3 as (qn & op & En & R3 & B3 & M3 & N3 & S3 & K3 & F3).
  assert (Hq2 : bitSeq q2 = bitSeq q) by congruence.
  assert (Hm2 : bitSeqMax q2 = bitSeqMax q) by congruence.
  change (2 ^ 32) with 4294967296 in Hm.
  rewrite wrap_id in B3 by lia.
  intros H. apply IH in H; [|lia|change (2 ^ 32) with 4294967296; lia].
  destruct H as (R & M & N & S & K & B & extra & F & L & P).
  assert (Rq : rel q2 = rel q) by congruence.
  repeat split; try congruence; try lia.
  exists (match op with Some p => [p] | None => [] end ++ extra).
  split; [rewrite F, F3, F2, F1, app_assoc; reflexivity|].
  split.
  - rewrite length_app. destruct op; simpl length; lia.
  - intros HC. apply Forall_app. split.
    + destruct op as [p|]; [|constructor].
      constructor; [|constructor].
      rewrite <- Rq. eapply nextBucket_range; [rewrite Rq; exact HC | exact En].
    + rewrite <- Rq, <- R3. apply P. rewrite R3, Rq. exact HC.
Qed.

Lemma setBit_ones k : 0 <= k < 32 -> setBit (Z.ones k) k = Z.ones (k + 1).
Proof.
  intros Hk. unfold setBit. rewrite Z.shiftl_1_l.
  pose proof (pow2_lt_32 k Hk) as Hp. rewrite wrap_small by lia.
  apply Z.bits_inj'. intros i Hi. rewrite Z.lor_spec, Z.pow2_bits_eqb by lia.
  destruct (Z.eqb_spec k i) as [->|Hne].
  - rewrite (Z.ones_spec_low (i + 1)) by lia. apply orb_true_r.
  - rewrite orb_false_r. destruct (Z_lt_le_dec i k).
    + rewrite !Z.ones_spec_low by lia. reflexivity.
    + rewrite !Z.ones_spec_high by lia. reflexivity.
Qed.

Lemma starMask_ones (n : nat) :
  (n <= 32)%nat -> starMask (Z.of_nat n) = Z.ones (Z.of_nat n).
Proof.
  unfold starMask. rewrite Nat2Z.id. induction n as [|n IH]; intros Hn.
  - reflexivity.
  - rewrite seq_S, fold_left_app. simpl. rewrite IH by lia.
    rewrite setBit_ones by lia. f_equal. lia.
Qed.

Lemma compilePattern_length r vals idx kn stars kn' stars' :
  compilePattern r vals idx kn stars = Some (kn', stars') ->
  (length stars' <= length stars + length idx)%nat.
Proof.
  revert kn stars. induction idx as [|i idx IH]; intros kn stars; simpl.
  - intros [= _ <-]. lia.
  - destruct (cvItem r i) as [att bit].
    destruct (vals !! Z.to_nat att) as [v|]; [|discriminate].
    destruct (negb (isStar v)).
    + intros H. apply IH in H. lia.
    + intros H. apply IH in H. rewrite length_app in H. simpl in H. lia.
Qed.

(** What [startQuery] sets up. *)
Lemma startQuery_fields r pt q :
  0 <= depth r < 32 -> startQuery r pt = Some q ->
  rel q = r /\ bitSeq q = 0 /\ 0 <= nstars q <= depth r + 1 /\
  bitSeqMax q = 2 ^ nstars q - 1 /\
  exists p, fetched q = [p] /\
    exists kn stars, firstBucket r pt = Some (kn, stars, p).
Proof.
  intros Hd. unfold startQuery.
  destruct (firstBucket r pt) as [[[kn stars] p]|] eqn:E; [|discriminate].
  destruct (getPage _ _) as [pg|]; [|discriminate].
  intros [= <-]. simpl.
  assert (Hl : (length stars <= Z.to_nat (depth r + 1))%nat).
  { unfold firstBucket in E.
    destruct (compilePattern _ _ _ _ _) as [[kn0 st0]|] eqn:Ec; [|discriminate].
    apply compilePattern_length in Ec. rewrite length_seq in Ec. simpl in Ec.
    rewrite wrap_id in Ec by lia. injection E as _ <- _. exact Ec. }
  repeat split; try lia.
  - rewrite starMask_ones by lia. rewrite Z.ones_equiv. lia.
  - exists p. split; [reflexivity|]. exists kn, stars. reflexivity.
Qed.

(** Successive calls of [getNextTuple] on one query. *)
Inductive QueryCalls : Query -> Query -> Prop :=
| QC_refl q : QueryCalls q q
| QC_step q res q1 q2 :
    getNextTuple q = Some (res, q1) -> QueryCalls q1 q2 -> QueryCalls q q2.

Lemma QueryCalls_trace q q' :
  QueryCalls q q' ->
  0 <= bitSeq q <= bitSeqMax q -> bitSeqMax q < 2 ^ 32 ->
  rel q' = rel q /\ bitSeqMax q' = bitSeqMax q /\ nstars q' = nstars q /\
  bitSeq q <= bitSeq q' <= bitSeqMax q /\
  exists extra, fetched q' = fetched q ++ extra /\
    Z.of_nat (length extra) <= bitSeq q' - bitSeq q /\
    (Counters (rel q) -> Forall (fun p => 0 <= p < npages (rel q)) extra).
Proof.
  induction 1 as [q | q res q1 q2 Hs Hc IH]; intros Hb Hm.
  - repeat split; try lia. exists []. rewrite app_nil_r. simpl.
    repeat split; [lia | constructor].
  - unfold getNextTuple in Hs. apply getNextLoop_trace in Hs; try assumption.
    destruct Hs as (R1 & M1 & N1 & _ & _ & B1 & e1 & F1 & L1 & P1).
    destruct IH as (R2 & M2 & N2 & B2 & e2 & F2 & L2 & P2);
      [lia | lia |].
    repeat split; try congruence; try lia.
    exists (e1 ++ e2). split; [rewrite F2, F1, app_assoc; reflexivity|].
    split; [rewrite length_app; lia|].
    intros HC. apply Forall_app. split; [apply P1, HC|].
    rewrite <- R1. apply P2. rewrite R1. exact HC.
Qed.

(** C10.  Under the invariants of the descriptor at rest
    ([0 <= sp < 2^d], [npages = 2^d + sp]) every page id that
    [startQuery] or [getNextTuple] hands to [getPage] on the primary data
    file is below [npages]: the id of the first page, the id [nextBucket]
    chooses at every later step, and so every id read in any sequence of
    calls. *)
Theorem query_fetch_below_npages (r : Reln) :
  Counters r ->
  (forall pt kn stars p,
      firstBucket r pt = Some (kn, stars, p) -> 0 <= p < npages r) /\
  (forall q q1 p,
      rel q = r -> nextBucket q = Some (q1, Some p) -> 0 <= p < npages r) /\
  (forall pt q q',
      startQuery r pt = Some q -> QueryCalls q q' ->
      Forall (fun p => 0 <= p < npages r) (fetched q')).
Proof.
  intros HC. split; [|split].
  - intros pt kn stars p. unfold firstBucket.
    destruct (compilePattern _ _ _ _ _) as [[kn0 st0]|]; [|discriminate].
    intros [= _ _ <-]. apply bucketOf_range, HC.
  - intros q q1 p <- H. eapply nextBucket_range; [exact HC | exact H].
  - intros pt q q' Hs Hc.
    pose proof (Counters_depth r HC) as Hd.
    pose proof (startQuery_fields r pt q Hd Hs)
      as (R & B & N & M & p & F & kn & stars & Hf).
    assert (Hp : 0 < 2 ^ nstars q <= 2 ^ 32).
    { split; [apply Z.pow_pos_nonneg; lia | apply Z.pow_le_mono_r; lia]. }
    apply QueryCalls_trace in Hc; [|lia|lia].
    destruct Hc as (_ & _ & _ & _ & extra & Fe & _ & P).
    rewrite Fe, F. apply Forall_app. split.
    + constructor; [|constructor]. unfold firstBucket in Hf.
      destruct (compilePattern _ _ _ _ _) as [[kn0 st0]|]; [|discriminate].
      injection Hf as _ _ <-. apply bucketOf_range, HC.
    + rewrite <- R. apply P. rewrite R. exact HC.
Qed.

(** ** The counters through an insertion *)

(** The fields a placement leaves alone, and its two outcomes. *)
Definition sameShape (r r' : Reln) : Prop :=
  nattrs r' = nattrs r /\ depth r' = depth r /\ sp r' = sp r /\
  npages r' = npages r /\ c r' = c r /\ splitting r' = splitting r /\
  cv r' = cv r.

Lemma sameShape_refl r : sameShape r r.
Proof. repeat split. Qed.

Lemma sameShape_trans r1 r2 r3 :
  sameShape r1 r2 -> sameShape r2 r3 -> sameShape r1 r3.
Proof. unfold sameShape. intuition congruence. Qed.

Lemma countInsert_shape r : sameShape r (countInsert r).
Proof. unfold countInsert. destruct (splitting r); repeat split. Qed.

Lemma place_counters r t r' p :
  place r t = Some (r', p) ->
  sameShape r r' /\
  ((p = NO_PAGE /\ ntups r' = ntups r /\ insertion r' = insertion r) \/
   (p = bucketOf r (tupleHash r t) /\
    ntups r' = ntups (countInsert r) /\
    insertion r' = insertion (countInsert r))).
Proof.
  unfold place.
  destruct (getPage (data r) _) as [pg|]; [|discriminate].
  destruct (addToPage pg t) as [pg'|].
  { intros [= <- <-]. split; [|right; split; [reflexivity|]];
      unfold countInsert; simpl; destruct (splitting r); repeat split. }
  destruct (pageOvflow pg =? NO_PAGE).
  - unfold addPage. cbv zeta. simpl ovflow.
    destruct (getPage _ _) as [newpg|]; [|discriminate].
    destruct (addToPage newpg t) as [newpg'|]; intros [= <- <-].
    + split; [|right; split; [reflexivity|]];
        unfold countInsert; simpl; destruct (splitting r); repeat split.
    + split; [repeat split | left; repeat split].
  - destruct (scanChain _ _ _ _ _ _) as [[ovp ovpg'|prevp prevpg]|];
      [| |discriminate].
    + intros [= <- <-]. split; [|right; split; [reflexivity|]];
        unfold countInsert; simpl; destruct (splitting r); repeat split.
    + unfold addPage. cbv zeta. simpl ovflow.
      destruct (getPage _ _) as [newpg|]; [|discriminate].
      destruct (addToPage newpg t) as [newpg'|]; intros [= <- <-].
      * split; [|right; split; [reflexivity|]];
          unfold countInsert; simpl; destruct (splitting r); repeat split.
      * split; [repeat split | left; repeat split].
Qed.

(** An insertion called from inside a split: it keeps the shape of the
    descriptor and does not count. *)
Definition Quiet (r r' : Reln) : Prop :=
  sameShape r r' /\ ntups r' = ntups r /\ insertion r' = insertion r.

Lemma Quiet_refl r : Quiet r r.
Proof. split; [apply sameShape_refl | split; reflexivity]. Qed.

Lemma Quiet_trans r1 r2 r3 : Quiet r1 r2 -> Quiet r2 r3 -> Quiet r1 r3.
Proof.
  intros (S1 & N1 & I1) (S2 & N2 & I2).
  split; [eapply sameShape_trans; eassumption | split; congruence].
Qed.

Definition InSplit (r : Reln) : Prop :=
  splitting r = true /\ insertion r = 0 /\ c r <> 0.

Lemma InSplit_Quiet r r' : InSplit r -> Quiet r r' -> InSplit r'.
Proof.
  intros (S & I & C) ((_ & _ & _ & _ & C' & S' & _) & _ & I').
  repeat split; congruence.
Qed.

Definition QuietIns (ins : Reln -> Tuple -> option (Reln * PageID)) : Prop :=
  forall r t r' p, InSplit r -> ins r t = Some (r', p) -> Quiet r r'.

Lemma place_Quiet r t r' p :
  splitting r = true -> place r t = Some (r', p) -> Quiet r r'.
Proof.
  intros Hs H. apply place_counters in H. destruct H as (Sh & H).
  split; [exact Sh|]. unfold countInsert in H. rewrite Hs in H.
  destruct H as [(_ & N & I) | (_ & N & I)]; split; assumption.
Qed.

Lemma addToRelation_nested fuel r t :
  insertion r <> c r ->
  addToRelation (S fuel) r t = place r t.
Proof.
  intros H. simpl. destruct (Z.eqb_spec (insertion r) (c r));
    [contradiction | reflexivity].
Qed.

Lemma addToRelation_QuietIns fuel : QuietIns (addToRelation fuel).
Proof.
  intros r t r' p (S & I & C). destruct fuel as [|k]; [discriminate|].
  rewrite addToRelation_nested by congruence. apply place_Quiet, S.
Qed.

Section SplitCounters.

Variable ins : Reln -> Tuple -> option (Reln * PageID).
Hypothesis ins_quiet : QuietIns ins.

Lemma reinsert_Quiet ts : forall r r',
  InSplit r -> reinsert ins r ts = Some r' -> Quiet r r'.
Proof.
  induction ts as [|t ts IH]; intros r r' Hi; simpl.
  - intros [= <-]. apply Quiet_refl.
  - destruct (ins r t) as [[r1 p]|] eqn:E; [|discriminate].
    intros H. apply ins_quiet in E; [|exact Hi].
    eapply Quiet_trans; [exact E|]. apply IH; [|exact H].
    eapply InSplit_Quiet; eassumption.
Qed.

Lemma splitChain_Quiet rounds : forall r id r',
  InSplit r -> splitChain ins rounds r id = Some r' -> Quiet r r'.
Proof.
  induction rounds as [|k IH]; intros r id r' Hi; simpl.
  - destruct (id =? NO_PAGE); [intros [= <-]; apply Quiet_refl | discriminate].
  - destruct (id =? NO_PAGE); [intros [= <-]; apply Quiet_refl |].
    destruct (getPage _ _) as [pg|]; [|discriminate].
    destruct (reinsert _ _ _) as [r2|] eqn:E; [|discriminate].
    intros H. apply reinsert_Quiet in E; [|exact Hi].
    assert (Hq : Quiet r r2) by exact E.
    eapply Quiet_trans; [exact Hq|]. eapply IH; [|exact H].
    eapply InSplit_Quiet; eassumption.
Qed.

(** The counters after a split: one more primary page, [sp] one further
    or, when it reaches [2^depth], back at 0 with [depth] one larger. *)
Lemma splitSp_counters r r' :
  InSplit r -> splitSp ins r = Some r' ->
  nattrs r' = nattrs r /\ c r' = c r /\ cv r' = cv r /\
  splitting r' = true /\ insertion r' = 0 /\ ntups r' = ntups r /\
  npages r' = wrap (npages r + 1) /\
  (if wrap (sp r + 1) =? wrap (Z.shiftl 1 (depth r))
   then sp r' = 0 /\ depth r' = wrap (depth r + 1)
   else sp r' = wrap (sp r + 1) /\ depth r' = depth r).
Proof.
  intros Hi. unfold splitSp.
  destruct (getPage _ _) as [pg|]; [|discriminate].
  match goal with |- context [reinsert ins ?x _] => set (r3 := x) end.
  assert (Hi3 : InSplit r3) by exact Hi.
  destruct (reinsert ins r3 _) as [r4|] eqn:E4; [|discriminate].
  apply reinsert_Quiet in E4; [|exact Hi3].
  destruct (splitChain _ _ _ _) as [r5|] eqn:E5; [|discriminate].
  apply splitChain_Quiet in E5; [|eapply InSplit_Quiet; eassumption].
  pose proof (Quiet_trans _ _ _ E4 E5) as Hq.
  destruct Hq as ((Na & De & Sp & Np & Cc & Sl & Cv) & Nt & In).
  destruct Hi as (His & Hii & _).
  simpl in Na, De, Sp, Np, Cc, Sl, Cv, Nt, In.
  rewrite Sp, De.
  destruct (_ =? _); intros [= <-]; simpl; repeat split; congruence.
Qed.

End SplitCounters.

Lemma addToRelation_unfold k r t :
  addToRelation (S k) r t =
  if insertion r =? c r then
    match splitSp (addToRelation k) (set_splitting (set_insertion r 0) true) with
    | None => None
    | Some r2 => place (set_splitting r2 false) t
    end
  else place r t.
Proof. reflexivity. Qed.

Lemma bucketOf_shape r r' h :
  sameShape r r' -> bucketOf r' h = bucketOf r h.
Proof.
  intros (_ & De & Sp & _). unfold bucketOf. rewrite De, Sp. reflexivity.
Qed.

Lemma tupleHash_shape r r' t :
  sameShape r r' -> tupleHash r' t = tupleHash r t.
Proof.
  intros (_ & _ & _ & _ & _ & _ & Cv). unfold tupleHash, cvItem.
  rewrite Cv. reflexivity.
Qed.

(** The counters after one top-level insertion. *)
Lemma addToRelation_counters fuel r t r' p :
  c r <> 0 -> splitting r = false ->
  addToRelation fuel r t = Some (r', p) ->
  nattrs r' = nattrs r /\ c r' = c r /\ cv r' = cv r /\
  splitting r' = false /\
  (if insertion r =? c r
   then npages r' = wrap (npages r + 1) /\
        (if wrap (sp r + 1) =? wrap (Z.shiftl 1 (depth r))
         then sp r' = 0 /\ depth r' = wrap (depth r + 1)
         else sp r' = wrap (sp r + 1) /\ depth r' = depth r)
   else npages r' = npages r /\ sp r' = sp r /\ depth r' = depth r) /\
  let i0 := if insertion r =? c r then 0 else insertion r in
  ((p = NO_PAGE /\ ntups r' = ntups r /\ insertion r' = i0) \/
   (p = bucketOf r' (tupleHash r' t) /\ ntups r' = wrap (ntups r + 1) /\
    insertion r' = wrap (i0 + 1))).
Proof.
  intros Hc Hs. destruct fuel as [|k]; [discriminate|].
  rewrite addToRelation_unfold. cbv zeta.
  destruct (insertion r =? c r).
  - destruct (splitSp _ _) as [r2|] eqn:E; [|discriminate].
    apply splitSp_counters in E;
      [|apply addToRelation_QuietIns | repeat split; assumption].
    destruct E as (Na & Cc & Cv & Sl & In & Nt & Np & Sd).
    intros H. pose proof (place_counters _ _ _ _ H) as (Sh & Hp).
    rewrite (bucketOf_shape _ _ _ Sh), (tupleHash_shape _ _ _ Sh).
    destruct Sh as (Na' & De' & Sp' & Np' & Cc' & Sl' & Cv').
    unfold countInsert in Hp.
    cbn [set_splitting set_insertion set_ntups nattrs depth sp npages ntups c insertion
         splitting cv] in *.
    split; [congruence|]. split; [congruence|]. split; [congruence|].
    split; [congruence|]. split.
    + split; [congruence|]. rewrite Sp', De'. exact Sd.
    + destruct Hp as [(P & N & I) | (P & N & I)]; [left | right];
        (split; [exact P|]); split; congruence.
  - intros H. pose proof (place_counters _ _ _ _ H) as (Sh & Hp).
    rewrite (bucketOf_shape _ _ _ Sh), (tupleHash_shape _ _ _ Sh).
    destruct Sh as (Na' & De' & Sp' & Np' & Cc' & Sl' & Cv').
    unfold countInsert in Hp. rewrite Hs in Hp.
    cbn [set_ntups set_insertion ntups insertion] in Hp.
    split; [congruence|]. split; [congruence|]. split; [congruence|].
    split; [congruence|]. split; [repeat split; congruence|].
    destruct Hp as [(P & N & I) | (P & N & I)]; [left | right];
      (split; [exact P|]); split; congruence.
Qed.

(** ** Count consistency *)

Lemma shiftl_1_depth d : 0 <= d < 32 -> wrap (Z.shiftl 1 d) = 2 ^ d.
Proof.
  intros Hd. rewrite Z.shiftl_1_l. apply wrap_small.
  pose proof (pow2_lt_32 d Hd). lia.
Qed.

Lemma addToRelation_Counters fuel r t r' p :
  Counters r -> c r <> 0 -> splitting r = false ->
  npages r + 1 < 2 ^ 32 ->
  addToRelation fuel r t = Some (r', p) ->
  Counters r' /\
  (if insertion r =? c r
   then npages r' = npages r + 1 /\
        (if sp r + 1 =? 2 ^ depth r
         then sp r' = 0 /\ depth r' = depth r + 1
         else sp r' = sp r + 1 /\ depth r' = depth r)
   else npages r' = npages r /\ sp r' = sp r /\ depth r' = depth r).
Proof.
  intros HC Hc Hs Hb H.
  pose proof (Counters_depth r HC) as Hd.
  destruct HC as (Hd0 & Hsp & Hn & Hn32).
  apply addToRelation_counters in H; [|assumption|assumption].
  destruct H as (_ & _ & _ & _ & H & _).
  change (2 ^ 32) with 4294967296 in *.
  rewrite shiftl_1_depth in H by lia.
  rewrite (wrap_id (npages r + 1)), (wrap_id (sp r + 1)),
    (wrap_id (depth r + 1)) in H by lia.
  destruct (insertion r =? c r).
  - destruct H as (Np & H). destruct (Z.eqb_spec (sp r + 1) (2 ^ depth r)).
    + destruct H as (Sp & De). split; [|repeat split; assumption].
      unfold Counters. rewrite Sp, De, Np.
      rewrite Z.pow_add_r, Z.pow_1_r by lia.
      change (2 ^ 32) with 4294967296. lia.
    + destruct H as (Sp & De). split; [|repeat split; assumption].
      unfold Counters. rewrite Sp, De, Np.
      change (2 ^ 32) with 4294967296. lia.
  - destruct H as (Np & Sp & De). split; [|repeat split; assumption].
    unfold Counters. rewrite Sp, De, Np.
    change (2 ^ 32) with 4294967296. lia.
Qed.

Lemma addToRelation_npages_le fuel r t r' p :
  Counters r -> c r <> 0 -> splitting r = false ->
  npages r + 1 < 2 ^ 32 ->
  addToRelation fuel r t = Some (r', p) ->
  npages r' <= npages r + 1 /\ c r' = c r /\ splitting r' = false.
Proof.
  intros HC Hc Hs Hb H.
  pose proof (addToRelation_Counters _ _ _ _ _ HC Hc Hs Hb H) as (_ & Hn).
  apply addToRelation_counters in H; [|assumption|assumption].
  destruct H as (_ & Cc & _ & Sl & _).
  split; [|split; assumption].
  destruct (insertion r =? c r); lia.
Qed.

Lemma addAll_Counters fuel ts : forall r r' ps,
  Counters r -> c r <> 0 -> splitting r = false ->
  npages r + Z.of_nat (length ts) < 2 ^ 32 ->
  addAll fuel r ts = Some (r', ps) ->
  Counters r'.
Proof.
  induction ts as [|t ts IH]; intros r r' ps HC Hc Hs Hb; simpl.
  - intros [= <- _]. exact HC.
  - destruct (addToRelation fuel r t) as [[r1 p]|] eqn:E; [|discriminate].
    destruct (addAll fuel r1 ts) as [[r2 ps']|] eqn:E2; [|discriminate].
    intros [= <- _].
    simpl length in Hb. rewrite Nat2Z.inj_succ in Hb.
    assert (Hb1 : npages r + 1 < 2 ^ 32) by lia.
    pose proof (addToRelation_Counters _ _ _ _ _ HC Hc Hs Hb1 E) as (HC1 & _).
    pose proof (addToRelation_npages_le _ _ _ _ _ HC Hc Hs Hb1 E)
      as (Hn & Cc & Sl).
    eapply IH; [exact HC1 | congruence | exact Sl | lia | exact E2].
Qed.

(** C3.  From a descriptor with [npages = 2^d + sp] (a created relation
    has [sp = 0] and [npages = 2^depth]) every sequence of insertions
    ends in a descriptor with [npages = 2^d + sp] and [0 <= sp < 2^d]; an
    insertion that splits adds one primary page and moves [sp] one up or,
    when that reaches [2^d], back to 0 with [d] one larger, and one that
    does not split leaves the three counters. *)
Theorem count_consistency (fuel : nat) (r : Reln) (ts : list Tuple)
    (r' : Reln) (ps : list PageID) :
  Counters r -> c r <> 0 -> splitting r = false ->
  npages r + Z.of_nat (length ts) < 2 ^ 32 ->
  addAll fuel r ts = Some (r', ps) ->
  (npages r' = 2 ^ depth r' + sp r' /\ 0 <= sp r' < 2 ^ depth r') /\
  (forall t r1 p, npages r + 1 < 2 ^ 32 ->
      addToRelation fuel r t = Some (r1, p) ->
      if insertion r =? c r
      then npages r1 = npages r + 1 /\
           (if sp r + 1 =? 2 ^ depth r
            then sp r1 = 0 /\ depth r1 = depth r + 1
            else sp r1 = sp r + 1 /\ depth r1 = depth r)
      else npages r1 = npages r /\ sp r1 = sp r /\ depth r1 = depth r).
Proof.
  intros HC Hc Hs Hb H. split.
  - apply addAll_Counters in H; try assumption.
    destruct H as (_ & Hsp & Hn & _). split; assumption.
  - intros t r1 p Hb1 H1.
    apply (addToRelation_Counters _ _ _ _ _ HC Hc Hs Hb1 H1).
Qed.

(** ** Tuple counting *)

(** The calls that did not fail with [NO_PAGE]. *)
Definition succeeded (ps : list PageID) : Z :=
  Z.of_nat (length (List.filter (fun p => negb (p =? NO_PAGE)) ps)).

Lemma addToRelation_ntups fuel r t r' p :
  Counters r -> c r <> 0 -> splitting r = false ->
  npages r + 1 < 2 ^ 32 ->
  addToRelation fuel r t = Some (r', p) ->
  let i0 := if insertion r =? c r then 0 else insertion r in
  (p = NO_PAGE /\ ntups r' = ntups r /\ insertion r' = i0) \/
  (p <> NO_PAGE /\ ntups r' = wrap (ntups r + 1) /\
   insertion r' = wrap (i0 + 1)).
Proof.
  intros HC Hc Hs Hb H.
  pose proof (addToRelation_Counters _ _ _ _ _ HC Hc Hs Hb H) as (HC' & _).
  apply addToRelation_counters in H; [|assumption|assumption].
  destruct H as (_ & _ & _ & _ & _ & H). cbv zeta in *.
  destruct H as [H | (P & N & I)]; [left; exact H | right].
  split; [|split; assumption].
  pose proof (bucketOf_range r' (tupleHash r' t) HC') as Hr.
  destruct HC' as (_ & _ & _ & Hn). rewrite <- P in Hr.
  unfold NO_PAGE. change (2 ^ 32) with 4294967296 in *. lia.
Qed.

Lemma addAll_ntups fuel ts : forall r r' ps,
  Counters r -> c r <> 0 -> splitting r = false ->
  npages r + Z.of_nat (length ts) < 2 ^ 32 ->
  0 <= ntups r -> ntups r + Z.of_nat (length ts) < 2 ^ 32 ->
  addAll fuel r ts = Some (r', ps) ->
  ntups r' = ntups r + succeeded ps.
Proof.
  induction ts as [|t ts IH]; intros r r' ps HC Hc Hs Hb Hn0 Hn; simpl.
  - intros [= <- <-]. unfold succeeded. simpl. lia.
  - destruct (addToRelation fuel r t) as [[r1 p]|] eqn:E; [|discriminate].
    destruct (addAll fuel r1 ts) as [[r2 ps']|] eqn:E2; [|discriminate].
    intros [= <- <-].
    simpl length in Hb, Hn. rewrite Nat2Z.inj_succ in Hb, Hn.
    assert (Hb1 : npages r + 1 < 2 ^ 32) by lia.
    pose proof (addToRelation_Counters _ _ _ _ _ HC Hc Hs Hb1 E) as (HC1 & _).
    pose proof (addToRelation_npages_le _ _ _ _ _ HC Hc Hs Hb1 E)
      as (Hnp & Cc & Sl).
    pose proof (addToRelation_ntups _ _ _ _ _ HC Hc Hs Hb1 E) as Ht.
    cbv zeta in Ht. change (2 ^ 32) with 4294967296 in *.
    assert (Hn1 : ntups r1 = ntups r + succeeded [p]).
    { unfold succeeded. simpl.
      destruct Ht as [(-> & N & _) | (P & N & _)].
      - simpl. lia.
      - destruct (Z.eqb_spec p NO_PAGE); [contradiction|]. simpl.
        rewrite wrap_id in N by lia. lia. }
    assert (Hs1 : 0 <= succeeded [p] <= 1).
    { unfold succeeded. simpl. destruct (negb _); simpl; lia. }
    rewrite (IH r1 r2 ps'); try assumption; try congruence; try lia.
    revert Hn1. unfold succeeded. simpl.
    destruct (negb (p =? NO_PAGE)); simpl; lia.
Qed.

(** C6.  After a sequence of insertions [ntups] has grown by the number
    of calls that did not return [NO_PAGE].  A call that succeeds adds one
    to [ntups] and to [insertion] (counted from 0 when the call split);
    the insertions made by a split change neither. *)
Theorem tuple_counting (fuel : nat) (r : Reln) (ts : list Tuple)
    (r' : Reln) (ps : list PageID) :
  Counters r -> c r <> 0 -> splitting r = false ->
  npages r + Z.of_nat (length ts) < 2 ^ 32 ->
  0 <= ntups r -> ntups r + Z.of_nat (length ts) < 2 ^ 32 ->
  addAll fuel r ts = Some (r', ps) ->
  ntups r' = ntups r + succeeded ps /\
  (forall t r1 p, npages r + 1 < 2 ^ 32 ->
      addToRelation fuel r t = Some (r1, p) ->
      let i0 := if insertion r =? c r then 0 else insertion r in
      (p = NO_PAGE /\ ntups r1 = ntups r /\ insertion r1 = i0) \/
      (p <> NO_PAGE /\ ntups r1 = wrap (ntups r + 1) /\
       insertion r1 = wrap (i0 + 1))) /\
  (forall k r2,
      splitSp (addToRelation k) (set_splitting (set_insertion r 0) true)
        = Some r2 ->
      ntups r2 = ntups r /\ insertion r2 = 0).
Proof.
  intros HC Hc Hs Hb Hn0 Hn H. split; [|split].
  - eapply addAll_ntups; eassumption.
  - intros t r1 p Hb1 H1.
    apply (addToRelation_ntups _ _ _ _ _ HC Hc Hs Hb1 H1).
  - intros k r2 H2. apply splitSp_counters in H2;
      [|apply addToRelation_QuietIns | repeat split; assumption].
    destruct H2 as (_ & _ & _ & _ & I & N & _). split; assumption.
Qed.

(** ** The page structure of a relation

    The overflow chains are described by a list [chains] with, for every
    bucket, the ids of its overflow pages in chain order. *)

Definition dataCap : Z := PAGESIZE - HEADER.

(** A tuple fits in a fresh empty page. *)
Definition fitsPage (t : Tuple) : Prop := tupLength t <= dataCap.

Definition wfPage (p : Page) : Prop := pageFree p <= dataCap.

Definition olinks (r : Reln) : list Z := pg_ovflow <$> ovflow r.

(** [Linked ol first ids]: following the links [ol] from [first] visits
    exactly the pages [ids] and then meets [NO_PAGE]. *)
Fixpoint Linked (ol : list Z) (first : Z) (ids : list Z) : Prop :=
  match ids with
  | [] => first = NO_PAGE
  | i :: rest =>
      first = i /\ i <> NO_PAGE /\ 0 <= i < Z.of_nat (length ol) /\
      Linked ol (nth (Z.to_nat i) ol NO_PAGE) rest
  end.

Record Structure (r : Reln) (chains : list (list Z)) : Prop := mkStructure {
  st_npages : Z.of_nat (length (data r)) = npages r;
  st_chains : length chains = length (data r);
  st_linked : forall (b : nat) pg ch,
      data r !! b = Some pg -> chains !! b = Some ch ->
      Linked (olinks r) (pg_ovflow pg) ch;
  st_nodup : NoDup (concat chains);
  st_wf_data : Forall wfPage (data r);
  st_wf_ovflow : Forall wfPage (ovflow r)
}.

(** The tuples of page [i] of a file (none outside the file). *)
Definition ptup (f : list Page) (i : Z) : list Tuple :=
  match getPage f i with
  | Some p => pg_data p
  | None => []
  end.

Lemma getPage_Some f i p :
  getPage f i = Some p <->
  0 <= i < Z.of_nat (length f) /\ f !! Z.to_nat i = Some p.
Proof.
  unfold getPage.
  destruct (Z.leb_spec 0 i) as [H0|H0];
    destruct (Z.ltb_spec i (Z.of_nat (length f))) as [H1|H1]; simpl.
  - split; [intros E; split; [lia | exact E] | intros [_ E]; exact E].
  - split; [discriminate | intros [E _]; lia].
  - split; [discriminate | intros [E _]; lia].
  - split; [discriminate | intros [E _]; lia].
Qed.

Lemma getPage_in_range f i :
  0 <= i < Z.of_nat (length f) -> exists p, getPage f i = Some p.
Proof.
  intros H. destruct (lookup_lt_is_Some_2 f (Z.to_nat i)) as [p Hp]; [lia|].
  exists p. apply getPage_Some. split; assumption.
Qed.

Lemma getPage_nat f (b : nat) p :
  getPage f (Z.of_nat b) = Some p <-> f !! b = Some p.
Proof.
  rewrite getPage_Some, Nat2Z.id. split; [intros [_ H]; exact H|].
  intros H. split; [|exact H]. apply lookup_lt_Some in H. lia.
Qed.

Lemma tupLength_pos t : 0 < tupLength t.
Proof. unfold tupLength. lia. Qed.

Lemma runLength_nonneg ts : 0 <= runLength ts.
Proof.
  induction ts as [|t ts IH]; simpl; [lia|].
  pose proof (tupLength_pos t). lia.
Qed.

Lemma runLength_app l1 l2 : runLength (l1 ++ l2) = runLength l1 + runLength l2.
Proof. induction l1 as [|t l1 IH]; simpl; lia. Qed.

Lemma pageFree_nonneg p : 0 <= pageFree p.
Proof. apply runLength_nonneg. Qed.

Lemma addToPage_Some p t p' :
  addToPage p t = Some p' <->
  pageFree p + tupLength t <= dataCap /\
  p' = mkPage (pg_ovflow p) (pg_data p ++ [t]).
Proof.
  unfold addToPage, pageFreeSpace, dataCap.
  destruct (Z.leb_spec (tupLength t) (PAGESIZE - HEADER - pageFree p));
    split; try (intros [? ?]; try lia); try discriminate.
  - intros [= <-]. split; [lia | reflexivity].
  - subst. reflexivity.
Qed.

Lemma addToPage_None p t :
  addToPage p t = None <-> dataCap < pageFree p + tupLength t.
Proof.
  unfold addToPage, pageFreeSpace, dataCap.
  destruct (Z.leb_spec (tupLength t) (PAGESIZE - HEADER - pageFree p));
    split; try discriminate; try lia. reflexivity.
Qed.

Lemma pageFree_app l t o :
  pageFree (mkPage o (l ++ [t])) = pageFree (mkPage o l) + tupLength t.
Proof. unfold pageFree. simpl. rewrite runLength_app. simpl. lia. Qed.

Lemma addToPage_wf p t p' : addToPage p t = Some p' -> wfPage p'.
Proof.
  rewrite addToPage_Some. intros [H ->]. unfold wfPage.
  rewrite pageFree_app. destruct p. exact H.
Qed.

Lemma addToPage_newPage t :
  fitsPage t -> addToPage newPage t = Some (mkPage NO_PAGE [t]).
Proof.
  intros H. apply addToPage_Some. split; [|reflexivity].
  unfold pageFree. simpl. exact H.
Qed.

(** ** The scan of an overflow chain *)

Definition noRoom (ov : list Page) (t : Tuple) (i : Z) : Prop :=
  forall pg, getPage ov i = Some pg -> addToPage pg t = None.

Lemma nth_links (ov : list Page) (i : Z) pg :
  getPage ov i = Some pg ->
  nth (Z.to_nat i) (pg_ovflow <$> ov) NO_PAGE = pg_ovflow pg.
Proof.
  rewrite getPage_Some. intros [_ H].
  rewrite nth_lookup, list_lookup_fmap, H. reflexivity.
Qed.

Lemma Linked_cons_page (ov : list Page) first i rest :
  Linked (pg_ovflow <$> ov) first (i :: rest) ->
  first = i /\ i <> NO_PAGE /\
  exists pg, getPage ov i = Some pg /\
    Linked (pg_ovflow <$> ov) (pg_ovflow pg) rest.
Proof.
  simpl. intros (-> & Hn & Hr & Hl). rewrite length_fmap in Hr.
  split; [reflexivity|]. split; [exact Hn|].
  destruct (getPage_in_range ov i Hr) as [pg Hpg].
  exists pg. split; [exact Hpg|]. rewrite (nth_links _ _ _ Hpg) in Hl. exact Hl.
Qed.

(** The scan stops at the first page of the chain with room for the
    tuple, or reaches the end with the tail of the chain in hand. *)
Lemma scanChain_Linked (ov : list Page) (t : Tuple) :
  forall ch first prevp prevpg rounds,
  Linked (pg_ovflow <$> ov) first ch -> (length ch <= rounds)%nat ->
  (exists c1 i c2 pg pg',
      ch = c1 ++ i :: c2 /\ Forall (noRoom ov t) c1 /\
      getPage ov i = Some pg /\ addToPage pg t = Some pg' /\
      scanChain rounds ov t first prevp prevpg = Some (Placed i pg')) \/
  (Forall (noRoom ov t) ch /\
   exists lp lpg,
      scanChain rounds ov t first prevp prevpg = Some (ChainEnd lp lpg) /\
      ((ch = [] /\ lp = prevp /\ lpg = prevpg) \/
       (exists c1, ch = c1 ++ [lp] /\ getPage ov lp = Some lpg))).
Proof.
  induction ch as [|i rest IH]; intros first prevp prevpg rounds HL Hr.
  - simpl in HL. subst first. right. split; [constructor|].
    exists prevp, prevpg. split; [|left; auto].
    destruct rounds; reflexivity.
  - apply Linked_cons_page in HL.
    destruct HL as (-> & Hn & pg & Hpg & HL).
    destruct rounds as [|k]; [simpl in Hr; lia|]. simpl in Hr.
    simpl scanChain. destruct (Z.eqb_spec i NO_PAGE) as [|_]; [contradiction|].
    rewrite Hpg. destruct (addToPage pg t) as [pg'|] eqn:Ea.
    + left. exists [], i, rest, pg, pg'. repeat split; auto.
    + destruct (IH (pageOvflow pg) i pg k HL ltac:(lia))
        as [(c1 & j & c2 & pj & pj' & -> & Hf & Hj & Haj & Hs)
           | (Hf & lp & lpg & Hs & Hend)].
      * left. exists (i :: c1), j, c2, pj, pj'. repeat split; auto.
        constructor; [|exact Hf]. intros pg0 H0. congruence.
      * right. split.
        { constructor; [|exact Hf]. intros pg0 H0. congruence. }
        exists lp, lpg. split; [exact Hs|]. right.
        destruct Hend as [(-> & -> & ->) | (c1 & -> & Hlp)].
        -- exists []. split; [reflexivity | exact Hpg].
        -- exists (i :: c1). split; [reflexivity | exact Hlp].
Qed.

(** ** Tuples of the pages, as multisets *)

Definition ocontent (ov : list Page) (ids : list Z) : list Tuple :=
  concat (ptup ov <$> ids).

Lemma ptup_insert_ne (ov : list Page) (i j : Z) pg' :
  0 <= i -> 0 <= j -> i <> j ->
  ptup (<[Z.to_nat i := pg']> ov) j = ptup ov j.
Proof.
  intros Hi Hj Hne. unfold ptup, getPage. rewrite length_insert.
  rewrite list_lookup_insert_ne by lia. reflexivity.
Qed.

Lemma ptup_insert_eq (ov : list Page) (i : Z) pg' :
  0 <= i < Z.of_nat (length ov) ->
  ptup (<[Z.to_nat i := pg']> ov) i = pg_data pg'.
Proof.
  intros Hi. unfold ptup.
  assert (H : getPage (<[Z.to_nat i := pg']> ov) i = Some pg').
  { apply getPage_Some. rewrite length_insert. split; [exact Hi|].
    apply list_lookup_insert_eq. lia. }
  rewrite H. reflexivity.
Qed.

Lemma ptup_app (ov l : list Page) (i : Z) :
  i < Z.of_nat (length ov) -> ptup (ov ++ l) i = ptup ov i.
Proof.
  intros Hi. unfold ptup, getPage. rewrite length_app.
  destruct (Z.leb_spec 0 i) as [H0|H0]; simpl; [|reflexivity].
  destruct (Z.ltb_spec i (Z.of_nat (length ov))) as [H1|H1]; [|lia].
  destruct (Z.ltb_spec i (Z.of_nat (length ov + length l))) as [H2|H2]; [|lia].
  rewrite lookup_app_l by lia. reflexivity.
Qed.

Lemma ocontent_insert_notin (ov : list Page) (ids : list Z) (i : Z) pg' :
  0 <= i -> Forall (fun j => 0 <= j) ids -> i ∉ ids ->
  ocontent (<[Z.to_nat i := pg']> ov) ids = ocontent ov ids.
Proof.
  intros Hi Hids Hn. unfold ocontent. f_equal.
  induction ids as [|j ids IH]; [reflexivity|].
  rewrite !fmap_cons. apply Forall_cons in Hids. destruct Hids as [Hj Hids].
  apply not_elem_of_cons in Hn. destruct Hn as [Hne Hn].
  rewrite ptup_insert_ne by assumption. f_equal. apply IH; assumption.
Qed.

(** Replacing one overflow page that is on a chain. *)
Lemma ocontent_insert (ov : list Page) (ids : list Z) (i : Z) pg pg' :
  NoDup ids -> Forall (fun j => 0 <= j) ids -> i ∈ ids ->
  getPage ov i = Some pg ->
  ocontent (<[Z.to_nat i := pg']> ov) ids ++ pg_data pg
    ≡ₚ ocontent ov ids ++ pg_data pg'.
Proof.
  intros Hnd Hids Hin Hpg. induction ids as [|j ids IH].
  - inversion Hin.
  - apply NoDup_cons in Hnd. destruct Hnd as [Hj Hnd].
    apply Forall_cons in Hids. destruct Hids as [Hj0 Hids].
    unfold ocontent in *. rewrite !fmap_cons, !concat_cons.
    apply elem_of_cons in Hin. destruct Hin as [->|Hin].
    + pose proof (ocontent_insert_notin ov ids j pg' Hj0 Hids Hj) as Hsame.
      unfold ocontent in Hsame. rewrite Hsame.
      apply getPage_Some in Hpg as Hr. destruct Hr as [Hr _].
      rewrite ptup_insert_eq by exact Hr.
      unfold ptup at 2. rewrite Hpg.
      rewrite <- !app_assoc.
      rewrite (Permutation_app_comm (pg_data pg') (_ ++ pg_data pg)).
      rewrite (Permutation_app_comm (pg_data pg) (_ ++ pg_data pg')).
      rewrite <- !app_assoc. apply Permutation_app_head.
      apply Permutation_app_comm.
    + assert (Hne : i <> j) by (intros ->; contradiction).
      apply getPage_Some in Hpg as Hr. destruct Hr as [Hr _].
      rewrite ptup_insert_ne by lia.
      rewrite <- !app_assoc. apply Permutation_app_head.
      apply IH; assumption.
Qed.

Lemma ocontent_app (ov l : list Page) (ids : list Z) :
  Forall (fun j => j < Z.of_nat (length ov)) ids ->
  ocontent (ov ++ l) ids = ocontent ov ids.
Proof.
  intros H. unfold ocontent. f_equal. induction H as [|j ids Hj _ IH];
    [reflexivity|].
  rewrite !fmap_cons, IH, ptup_app by exact Hj. reflexivity.
Qed.

(** ** Chains under updates of the link table *)

Definition validId (n : nat) (i : Z) : Prop :=
  0 <= i < Z.of_nat n /\ i <> NO_PAGE.

Lemma Linked_range ol : forall ch first,
  Linked ol first ch -> Forall (validId (length ol)) ch.
Proof.
  induction ch as [|i rest IH]; intros first; simpl.
  - constructor.
  - intros (_ & Hn & Hr & HL). constructor; [split; assumption|].
    eapply IH, HL.
Qed.

Lemma Linked_app ol l : forall ch first,
  Linked ol first ch -> Linked (ol ++ l) first ch.
Proof.
  induction ch as [|i rest IH]; intros first; simpl; [auto|].
  intros (-> & Hn & Hr & HL). repeat split; try lia.
  - rewrite length_app. lia.
  - rewrite app_nth1 by lia. apply IH, HL.
Qed.

Lemma nth_insert_ne (l : list Z) (k j : nat) x d :
  k <> j -> nth j (<[k := x]> l) d = nth j l d.
Proof.
  intros H. rewrite !nth_lookup, list_lookup_insert_ne by exact H.
  reflexivity.
Qed.

Lemma nth_insert_eq (l : list Z) (k : nat) x d :
  (k < length l)%nat -> nth k (<[k := x]> l) d = x.
Proof.
  intros H. rewrite nth_lookup, list_lookup_insert_eq by exact H.
  reflexivity.
Qed.

Lemma Linked_insert_notin ol (k : Z) x : forall ch first,
  0 <= k -> k ∉ ch ->
  Linked ol first ch -> Linked (<[Z.to_nat k := x]> ol) first ch.
Proof.
  induction ch as [|i rest IH]; intros first Hk Hn; simpl; [auto|].
  apply not_elem_of_cons in Hn. destruct Hn as [Hne Hn].
  intros (-> & Hnp & Hr & HL). rewrite length_insert.
  repeat split; try lia; try assumption.
  rewrite nth_insert_ne by lia. apply IH; assumption.
Qed.

(** The link of the tail of a chain is [NO_PAGE]. *)
Lemma Linked_tail ol : forall pre first lp,
  Linked ol first (pre ++ [lp]) -> nth (Z.to_nat lp) ol NO_PAGE = NO_PAGE.
Proof.
  induction pre as [|i pre IH]; intros first lp; simpl.
  - intros (_ & _ & _ & H). exact H.
  - intros (_ & _ & _ & H). eapply IH, H.
Qed.

(** Linking a page appended to the file behind the tail of a chain. *)
Lemma Linked_snoc ol : forall pre first lp,
  Z.of_nat (length ol) <> NO_PAGE ->
  NoDup (pre ++ [lp]) ->
  Linked ol first (pre ++ [lp]) ->
  Linked (<[Z.to_nat lp := Z.of_nat (length ol)]> (ol ++ [NO_PAGE])) first
    (pre ++ [lp; Z.of_nat (length ol)]).
Proof.
  intros pre first lp Hnew. revert first.
  induction pre as [|i pre IH]; intros first Hnd; simpl.
  - intros (-> & Hn & Hr & _). rewrite length_insert, length_app. simpl.
    split; [reflexivity|]. split; [exact Hn|]. split; [lia|].
    split; [rewrite nth_insert_eq by (rewrite length_app; simpl; lia);
            reflexivity|].
    split; [exact Hnew|]. split; [lia|].
    rewrite nth_insert_ne by lia. rewrite app_nth2 by lia.
    rewrite Nat2Z.id, Nat.sub_diag. reflexivity.
  - intros (-> & Hn & Hr & HL). rewrite length_insert, length_app. simpl.
    simpl in Hnd. apply NoDup_cons in Hnd. destruct Hnd as [Hi Hnd].
    assert (Hne : i <> lp).
    { intros ->. apply Hi. apply elem_of_app. right. constructor. }
    assert (Hlp : 0 <= lp).
    { pose proof (Linked_range _ _ _ HL) as Hv.
      apply Forall_app in Hv. destruct Hv as [_ Hv].
      apply Forall_cons in Hv. destruct Hv as [[Hv _] _]. lia. }
    split; [reflexivity|]. split; [exact Hn|]. split; [lia|].
    rewrite nth_insert_ne by lia. rewrite app_nth1 by lia.
    apply IH; assumption.
Qed.

Lemma Linked_single ol first :
  first = Z.of_nat (length ol) -> first <> NO_PAGE ->
  Linked (ol ++ [NO_PAGE]) first [first].
Proof.
  intros -> Hn. simpl. rewrite length_app. simpl.
  repeat split; try lia; try assumption.
  rewrite app_nth2 by lia. rewrite Nat2Z.id, Nat.sub_diag. reflexivity.
Qed.

(** The links fix the chain. *)
Lemma Linked_unique ol : forall ch ch' first,
  Linked ol first ch -> Linked ol first ch' -> ch = ch'.
Proof.
  induction ch as [|i ch IH]; intros [|i' ch'] first; simpl; auto.
  - intros -> (<- & Hn & _). contradiction.
  - intros (<- & Hn & _) ->. contradiction.
  - intros (-> & _ & _ & H) (<- & _ & _ & H'). f_equal. eapply IH; eassumption.
Qed.

(** ** Lists of chains *)

Lemma NoDup_range_length (l : list Z) (n : nat) :
  NoDup l -> Forall (fun i => 0 <= i < Z.of_nat n) l -> (length l <= n)%nat.
Proof.
  intros Hnd Hr.
  assert (Hs : l ⊆+ seqZ 0 (Z.of_nat n)).
  { apply NoDup_submseteq; [exact Hnd|]. intros x Hx.
    rewrite Forall_forall in Hr. apply elem_of_seqZ. specialize (Hr x Hx). lia. }
  apply submseteq_length in Hs. rewrite length_seqZ in Hs. lia.
Qed.

Lemma concat_lookup_split (chains : list (list Z)) (b : nat) ch :
  chains !! b = Some ch ->
  concat chains = concat (take b chains) ++ ch ++ concat (drop (S b) chains).
Proof.
  intros H. rewrite <- (take_drop_middle chains b ch H) at 1.
  rewrite concat_app, concat_cons. reflexivity.
Qed.

Lemma concat_insert_split (chains : list (list Z)) (b : nat) ch ch' :
  chains !! b = Some ch ->
  concat (<[b := ch']> chains) =
  concat (take b chains) ++ ch' ++ concat (drop (S b) chains).
Proof.
  intros H. rewrite insert_take_drop by (eapply lookup_lt_Some; exact H).
  rewrite concat_app, concat_cons. reflexivity.
Qed.

Lemma elem_of_chain_concat (chains : list (list Z)) (b : nat) ch i :
  chains !! b = Some ch -> i ∈ ch -> i ∈ concat chains.
Proof.
  intros H Hi. rewrite (concat_lookup_split _ _ _ H).
  apply elem_of_app. right. apply elem_of_app. left. exact Hi.
Qed.

Lemma NoDup_chain (chains : list (list Z)) (b : nat) ch :
  NoDup (concat chains) -> chains !! b = Some ch -> NoDup ch.
Proof.
  intros Hnd H. rewrite (concat_lookup_split _ _ _ H) in Hnd.
  apply NoDup_app in Hnd. destruct Hnd as (_ & _ & Hnd).
  apply NoDup_app in Hnd. destruct Hnd as (Hnd & _). exact Hnd.
Qed.

(** Chains of different buckets share no page. *)
Lemma chains_disjoint (chains : list (list Z)) (b b' : nat) ch ch' i :
  NoDup (concat chains) -> b <> b' ->
  chains !! b = Some ch -> chains !! b' = Some ch' ->
  i ∈ ch -> i ∉ ch'.
Proof.
  intros Hnd Hne H H' Hi Hi'.
  rewrite (concat_lookup_split _ _ _ H) in Hnd.
  apply NoDup_app in Hnd. destruct Hnd as (_ & Hl & Hnd).
  apply NoDup_app in Hnd. destruct Hnd as (_ & Hr & _).
  destruct (Nat.lt_ge_cases b' b) as [Hlt|Hge].
  - apply (Hl i).
    + apply (elem_of_chain_concat _ b' ch'); [|exact Hi'].
      rewrite lookup_take_lt by exact Hlt. exact H'.
    + apply elem_of_app. left. exact Hi.
  - apply (Hr i Hi).
    apply (elem_of_chain_concat _ (b' - S b) ch'); [|exact Hi'].
    rewrite lookup_drop. replace (S b + (b' - S b))%nat with b' by lia.
    exact H'.
Qed.

(** Extending one chain by a page that is on no chain. *)
Lemma NoDup_concat_snoc (chains : list (list Z)) (b : nat) ch x :
  NoDup (concat chains) -> chains !! b = Some ch -> x ∉ concat chains ->
  NoDup (concat (<[b := ch ++ [x]]> chains)).
Proof.
  intros Hnd H Hx. rewrite (concat_insert_split _ _ ch _ H).
  rewrite (concat_lookup_split _ _ _ H) in Hnd, Hx.
  rewrite !elem_of_app in Hx.
  apply NoDup_app in Hnd. destruct Hnd as (HA & Hl & Hnd).
  apply NoDup_app in Hnd. destruct Hnd as (Hc & Hr & HB).
  apply NoDup_app. split; [exact HA|]. split.
  - intros y Hy. rewrite !elem_of_app. intros [[Hy'|Hy']|Hy'].
    + apply (Hl y Hy). apply elem_of_app. left. exact Hy'.
    + apply list_elem_of_singleton in Hy'. subst y. tauto.
    + apply (Hl y Hy). apply elem_of_app. right. exact Hy'.
  - apply NoDup_app. split; [|split; [|exact HB]].
    + apply NoDup_app. split; [exact Hc|]. split; [|apply NoDup_singleton].
      intros y Hy Hy'. apply list_elem_of_singleton in Hy'. subst y. tauto.
    + intros y. rewrite elem_of_app. intros [Hy|Hy].
      * apply Hr, Hy.
      * apply list_elem_of_singleton in Hy. subst y. tauto.
Qed.

Lemma Linked_nil_inv ol first ch :
  Linked ol first ch -> first = NO_PAGE -> ch = [].
Proof.
  destruct ch as [|i rest]; [reflexivity|]. simpl.
  intros (-> & Hn & _) E. contradiction.
Qed.

Lemma Linked_cons_inv ol first ch :
  Linked ol first ch -> first <> NO_PAGE -> ch <> [].
Proof. destruct ch; simpl; [intros -> H; contradiction | discriminate]. Qed.

(** ** The structure under page updates *)

Lemma fmap_insert_same_link (l : list Page) (k : nat) pg pg' :
  l !! k = Some pg -> pg_ovflow pg' = pg_ovflow pg ->
  pg_ovflow <$> <[k := pg']> l = pg_ovflow <$> l.
Proof.
  intros H E. rewrite list_fmap_insert, E. apply list_insert_id.
  rewrite list_lookup_fmap, H. reflexivity.
Qed.

(** Updates that keep every link keep the chains. *)
Lemma Structure_same_links r r' chains :
  Structure r chains ->
  npages r' = npages r ->
  pg_ovflow <$> data r' = pg_ovflow <$> data r ->
  olinks r' = olinks r ->
  Forall wfPage (data r') -> Forall wfPage (ovflow r') ->
  Structure r' chains.
Proof.
  intros [Hn Hc Hl Hd Hwd Hwo] En Ed Eo Hwd' Hwo'.
  assert (Elen : length (data r') = length (data r)).
  { rewrite <- (length_fmap pg_ovflow (data r')), Ed. apply length_fmap. }
  constructor; try assumption.
  - rewrite Elen, En. exact Hn.
  - rewrite Elen. exact Hc.
  - intros b pg' ch Hb Hch. rewrite Eo.
    assert (Hb' : (pg_ovflow <$> data r) !! b = Some (pg_ovflow pg')).
    { rewrite <- Ed, list_lookup_fmap, Hb. reflexivity. }
    rewrite list_lookup_fmap in Hb'.
    destruct (data r !! b) as [pg|] eqn:E; [|discriminate].
    injection Hb' as <-. eapply Hl; eassumption.
Qed.

Lemma Structure_chain_range r chains (b : nat) ch :
  Structure r chains -> chains !! b = Some ch ->
  Forall (validId (length (ovflow r))) ch.
Proof.
  intros [Hn Hc Hl Hd Hwd Hwo] Hch.
  destruct (lookup_lt_is_Some_2 (data r) b) as [pg Hpg].
  { rewrite <- Hc. eapply lookup_lt_Some, Hch. }
  pose proof (Linked_range _ _ _ (Hl b pg ch Hpg Hch)) as H.
  unfold olinks in H. rewrite length_fmap in H. exact H.
Qed.

Lemma Forall_concat_chains (P : Z -> Prop) (chains : list (list Z)) :
  (forall (b : nat) ch, chains !! b = Some ch -> Forall P ch) ->
  Forall P (concat chains).
Proof.
  intros H. induction chains as [|ch chains IH]; simpl; [constructor|].
  apply Forall_app. split.
  - apply (H 0%nat ch). reflexivity.
  - apply IH. intros b ch' Hb. apply (H (S b) ch'). exact Hb.
Qed.

Lemma Structure_ids_range r chains :
  Structure r chains ->
  Forall (validId (length (ovflow r))) (concat chains).
Proof.
  intros HS. apply Forall_concat_chains. intros b ch Hb.
  eapply Structure_chain_range; eassumption.
Qed.

Lemma Structure_chain_length r chains (b : nat) ch :
  Structure r chains -> chains !! b = Some ch ->
  (length ch <= length (ovflow r))%nat.
Proof.
  intros HS Hch. apply NoDup_range_length.
  - eapply NoDup_chain; [apply (st_nodup _ _ HS) | exact Hch].
  - eapply Forall_impl; [eapply Structure_chain_range; eassumption|].
    intros i [Hi _]. exact Hi.
Qed.

(** ** What a placement does to the pages *)

(** [loc] is the page that received the tuple: [None] for the primary
    page of bucket [b], [Some i] for overflow page [i]. *)
Record PlacedAt (r r' : Reln) (chains chains' : list (list Z))
    (t : Tuple) (b : Z) (loc : option Z) : Prop := mkPlacedAt {
  pa_len_data : length (data r') = length (data r);
  pa_len_ov :
    (length (ovflow r) <= length (ovflow r') <= length (ovflow r) + 1)%nat;
  pa_data_hit : loc = None -> ptup (data r') b = ptup (data r) b ++ [t];
  pa_data_miss : forall k,
      loc <> None \/ k <> b -> ptup (data r') k = ptup (data r) k;
  pa_ov_hit : forall i,
      loc = Some i -> ptup (ovflow r') i = ptup (ovflow r) i ++ [t];
  pa_ov_miss : forall i,
      loc <> Some i -> ptup (ovflow r') i = ptup (ovflow r) i;
  pa_chains :
    chains' = chains \/
    exists ch, chains !! Z.to_nat b = Some ch /\
      loc = Some (Z.of_nat (length (ovflow r))) /\
      chains' = <[Z.to_nat b := ch ++ [Z.of_nat (length (ovflow r))]]> chains /\
      Forall (noRoom (ovflow r) t) ch;
  pa_primary_full : loc <> None -> noRoom (data r) t b;
  pa_first_fit : forall i,
      loc = Some i ->
      exists c1 c2, chains' !! Z.to_nat b = Some (c1 ++ i :: c2) /\
        Forall (noRoom (ovflow r) t) c1
}.

Lemma data_countInsert r : data (countInsert r) = data r.
Proof. unfold countInsert. destruct (splitting r); reflexivity. Qed.

Lemma ovflow_countInsert r : ovflow (countInsert r) = ovflow r.
Proof. unfold countInsert. destruct (splitting r); reflexivity. Qed.

Lemma npages_countInsert r : npages (countInsert r) = npages r.
Proof. unfold countInsert. destruct (splitting r); reflexivity. Qed.

Lemma Structure_pages r r' chains :
  data r' = data r -> ovflow r' = ovflow r -> npages r' = npages r ->
  Structure r chains -> Structure r' chains.
Proof.
  intros Ed Eo En [Hn Hc Hl Hd Hwd Hwo].
  constructor; unfold olinks; rewrite ?Ed, ?Eo, ?En; assumption.
Qed.

Lemma PlacedAt_pages r r1 r2 chains chains' t b loc :
  data r2 = data r1 -> ovflow r2 = ovflow r1 ->
  PlacedAt r r1 chains chains' t b loc ->
  PlacedAt r r2 chains chains' t b loc.
Proof.
  intros Ed Eo [H1 H2 H3 H4 H5 H6 H7 H8 H9].
  constructor; rewrite ?Ed, ?Eo; assumption.
Qed.

Lemma ptup_Some f i p : getPage f i = Some p -> ptup f i = pg_data p.
Proof. unfold ptup. intros ->. reflexivity. Qed.

Lemma Forall_wf_insert (l : list Page) (k : nat) pg :
  Forall wfPage l -> wfPage pg -> Forall wfPage (<[k := pg]> l).
Proof.
  intros Hl Hp. destruct (Nat.lt_ge_cases k (length l)).
  - apply Forall_insert; assumption.
  - rewrite list_insert_ge by lia. exact Hl.
Qed.

(** The tuple goes into the primary page. *)
Lemma place_primary_spec r chains t b pg pg' :
  Structure r chains ->
  getPage (data r) b = Some pg -> addToPage pg t = Some pg' ->
  let r' := set_data r (putPage (data r) b pg') in
  Structure r' chains /\ PlacedAt r r' chains chains t b None.
Proof.
  intros HS Hpg Ha r'.
  apply getPage_Some in Hpg as Hpg'. destruct Hpg' as [Hr Hlk].
  apply addToPage_Some in Ha as Ha'. destruct Ha' as [Hroom ->].
  split.
  - eapply Structure_same_links; [exact HS | reflexivity | | reflexivity | |].
    + simpl. unfold putPage. eapply fmap_insert_same_link; [exact Hlk|].
      reflexivity.
    + simpl. unfold putPage. apply Forall_wf_insert; [apply (st_wf_data _ _ HS)|].
      eapply addToPage_wf; exact Ha.
    + apply (st_wf_ovflow _ _ HS).
  - constructor; simpl; unfold putPage.
    + apply length_insert.
    + lia.
    + intros _. rewrite ptup_insert_eq by exact Hr.
      rewrite (ptup_Some _ _ _ Hpg). reflexivity.
    + intros k [Hk|Hk]; [contradiction|].
      unfold ptup, getPage. rewrite length_insert.
      destruct (Z.leb_spec 0 k); simpl; [|reflexivity].
      rewrite list_lookup_insert_ne by lia. reflexivity.
    + discriminate.
    + reflexivity.
    + left. reflexivity.
    + contradiction.
    + discriminate.
Qed.

(** The tuple goes into a page of the overflow chain. *)
Lemma place_chain_spec r chains t b c1 i c2 pg pg' :
  Structure r chains ->
  chains !! Z.to_nat b = Some (c1 ++ i :: c2) ->
  Forall (noRoom (ovflow r) t) c1 -> noRoom (data r) t b ->
  getPage (ovflow r) i = Some pg -> addToPage pg t = Some pg' ->
  let r' := set_ovflow r (putPage (ovflow r) i pg') in
  Structure r' chains /\ PlacedAt r r' chains chains t b (Some i).
Proof.
  intros HS Hch Hfull Hprim Hpg Ha r'.
  apply getPage_Some in Hpg as Hpg'. destruct Hpg' as [Hr Hlk].
  apply addToPage_Some in Ha as Ha'. destruct Ha' as [Hroom ->].
  split.
  - eapply Structure_same_links; [exact HS | reflexivity | reflexivity | | |].
    + unfold olinks. simpl. unfold putPage.
      eapply fmap_insert_same_link; [exact Hlk | reflexivity].
    + apply (st_wf_data _ _ HS).
    + simpl. unfold putPage.
      apply Forall_wf_insert; [apply (st_wf_ovflow _ _ HS)|].
      eapply addToPage_wf; exact Ha.
  - constructor; simpl; unfold putPage.
    + reflexivity.
    + rewrite length_insert. lia.
    + discriminate.
    + reflexivity.
    + intros j [= <-]. rewrite ptup_insert_eq by exact Hr.
      rewrite (ptup_Some _ _ _ Hpg). reflexivity.
    + intros j Hj. assert (Hne : i <> j) by congruence.
      unfold ptup, getPage. rewrite length_insert.
      destruct (Z.leb_spec 0 j); simpl; [|reflexivity].
      rewrite list_lookup_insert_ne by lia. reflexivity.
    + left. reflexivity.
    + intros _. exact Hprim.
    + intros j [= <-]. exists c1, c2. split; assumption.
Qed.

Lemma putPage_app_new (ov : list Page) (x y : Page) :
  putPage (ov ++ [x]) (Z.of_nat (length ov)) y = ov ++ [y].
Proof.
  unfold putPage. rewrite Nat2Z.id.
  rewrite insert_app_r_alt by lia. rewrite Nat.sub_diag. reflexivity.
Qed.

Lemma getPage_app_new (ov : list Page) (x : Page) :
  getPage (ov ++ [x]) (Z.of_nat (length ov)) = Some x.
Proof.
  apply getPage_Some. rewrite length_app, Nat2Z.id. simpl. split; [lia|].
  rewrite lookup_app_r by lia. rewrite Nat.sub_diag. reflexivity.
Qed.

Lemma ptup_app_new (ov : list Page) (x : Page) :
  ptup (ov ++ [x]) (Z.of_nat (length ov)) = pg_data x.
Proof. apply ptup_Some, getPage_app_new. Qed.

Lemma ptup_out (ov : list Page) (i : Z) :
  Z.of_nat (length ov) <= i -> ptup ov i = [].
Proof.
  intros H. unfold ptup, getPage.
  destruct (Z.ltb_spec i (Z.of_nat (length ov))); [lia|].
  rewrite andb_false_r. reflexivity.
Qed.

Lemma ptup_app_old (ov : list Page) (x : Page) (i : Z) :
  i <> Z.of_nat (length ov) -> ptup (ov ++ [x]) i = ptup ov i.
Proof.
  intros Hne. destruct (Z_lt_le_dec i (Z.of_nat (length ov))) as [Hlt|Hge].
  - apply ptup_app. exact Hlt.
  - rewrite (ptup_out ov) by lia. apply ptup_out.
    rewrite length_app. simpl. lia.
Qed.

Lemma noRoom_full (f : list Page) t i pg :
  getPage f i = Some pg -> addToPage pg t = None -> noRoom f t i.
Proof. intros H Ha pg0 H0. congruence. Qed.

Lemma ptup_insert_link (l : list Page) (k : Z) pg id (j : Z) :
  getPage l k = Some pg ->
  ptup (<[Z.to_nat k := pageSetOvflow pg id]> l) j = ptup l j.
Proof.
  intros H. apply getPage_Some in H as Hr. destruct Hr as [Hr _].
  destruct (Z.eq_dec k j) as [<-|Hne].
  - rewrite ptup_insert_eq by exact Hr. rewrite (ptup_Some _ _ _ H).
    reflexivity.
  - unfold ptup, getPage. rewrite length_insert.
    destruct (Z.leb_spec 0 j); simpl; [|reflexivity].
    rewrite list_lookup_insert_ne by lia. reflexivity.
Qed.

Lemma wfPage_setOvflow pg id : wfPage pg -> wfPage (pageSetOvflow pg id).
Proof. intros H. exact H. Qed.

Lemma wfPage_single t : fitsPage t -> wfPage (mkPage NO_PAGE [t]).
Proof. unfold wfPage, fitsPage, pageFree. simpl. lia. Qed.

Lemma Forall_wf_lookup (l : list Page) (k : Z) pg :
  Forall wfPage l -> getPage l k = Some pg -> wfPage pg.
Proof.
  intros Hl H. apply getPage_Some in H. destruct H as [_ H].
  rewrite Forall_forall in Hl. apply Hl. eapply list_elem_of_lookup_2, H.
Qed.

Lemma newId_not_on_chain r chains :
  Structure r chains -> Z.of_nat (length (ovflow r)) ∉ concat chains.
Proof.
  intros HS Hin. pose proof (Structure_ids_range _ _ HS) as Hr.
  rewrite Forall_forall in Hr. destruct (Hr _ Hin) as [H _]. lia.
Qed.

(** The bucket has no overflow page yet: a first one is appended and
    linked from the primary page. *)
Lemma place_first_spec r chains t b pg :
  Structure r chains ->
  getPage (data r) b = Some pg -> pg_ovflow pg = NO_PAGE ->
  addToPage pg t = None -> fitsPage t ->
  Z.of_nat (length (ovflow r)) < NO_PAGE ->
  let newp := Z.of_nat (length (ovflow r)) in
  let r' := set_ovflow
              (set_data r (putPage (data r) b (pageSetOvflow pg newp)))
              (ovflow r ++ [mkPage NO_PAGE [t]]) in
  let chains' := <[Z.to_nat b := [newp]]> chains in
  Structure r' chains' /\ PlacedAt r r' chains chains' t b (Some newp).
Proof.
  intros HS Hpg Hlink Ha Hfit Hlen newp r' chains'.
  apply getPage_Some in Hpg as Hpg'. destruct Hpg' as [Hr Hlk].
  destruct (lookup_lt_is_Some_2 chains (Z.to_nat b)) as [ch Hch].
  { rewrite (st_chains _ _ HS). lia. }
  pose proof (st_linked _ _ HS _ _ _ Hlk Hch) as HL.
  assert (ch = []) as -> by (eapply Linked_nil_inv; eassumption).
  assert (Eol : olinks r' = olinks r ++ [NO_PAGE]).
  { unfold olinks. simpl. rewrite fmap_app. reflexivity. }
  split.
  - constructor.
    + simpl. unfold putPage. rewrite length_insert. apply (st_npages _ _ HS).
    + unfold chains'. simpl. unfold putPage. rewrite !length_insert.
      apply (st_chains _ _ HS).
    + intros b0 pg0 ch0 Hb0 Hc0. rewrite Eol.
      simpl in Hb0. unfold putPage in Hb0. unfold chains' in Hc0.
      destruct (Nat.eq_dec (Z.to_nat b) b0) as [<-|Hne].
      * rewrite list_lookup_insert_eq in Hb0 by lia.
        rewrite list_lookup_insert_eq in Hc0
          by (eapply lookup_lt_Some; exact Hch).
        injection Hb0 as <-. injection Hc0 as <-. simpl pg_ovflow.
        apply Linked_single.
        -- unfold olinks. rewrite length_fmap. reflexivity.
        -- unfold newp. lia.
      * rewrite list_lookup_insert_ne in Hb0 by exact Hne.
        rewrite list_lookup_insert_ne in Hc0 by exact Hne.
        apply Linked_app. eapply (st_linked _ _ HS); eassumption.
    + unfold chains'. change [newp] with ([] ++ [newp]).
      apply NoDup_concat_snoc; [apply (st_nodup _ _ HS) | exact Hch |].
      apply newId_not_on_chain, HS.
    + simpl. unfold putPage. apply Forall_wf_insert; [apply (st_wf_data _ _ HS)|].
      apply wfPage_setOvflow. eapply Forall_wf_lookup; [|exact Hpg].
      apply (st_wf_data _ _ HS).
    + simpl. apply Forall_app. split; [apply (st_wf_ovflow _ _ HS)|].
      constructor; [apply wfPage_single, Hfit | constructor].
  - constructor; simpl; unfold putPage.
    + apply length_insert.
    + rewrite length_app. simpl. lia.
    + discriminate.
    + intros k _. apply ptup_insert_link, Hpg.
    + intros i [= <-]. unfold newp. rewrite ptup_app_new.
      rewrite ptup_out by lia. reflexivity.
    + intros i Hi. apply ptup_app_old. unfold newp in Hi. congruence.
    + right. exists []. split; [exact Hch|]. split; [reflexivity|].
      split; [reflexivity | constructor].
    + intros _. eapply noRoom_full; eassumption.
    + intros i [= <-]. exists [], []. split; [|constructor].
      unfold chains'. apply list_lookup_insert_eq.
      eapply lookup_lt_Some; exact Hch.
Qed.

(** Every page of the bucket is full: a page is appended and linked
    behind the tail of the chain. *)
Lemma place_tail_spec r chains t b c1 lp lpg :
  Structure r chains ->
  chains !! Z.to_nat b = Some (c1 ++ [lp]) ->
  Forall (noRoom (ovflow r) t) (c1 ++ [lp]) -> noRoom (data r) t b ->
  0 <= b ->
  getPage (ovflow r) lp = Some lpg -> fitsPage t ->
  Z.of_nat (length (ovflow r)) < NO_PAGE ->
  let newp := Z.of_nat (length (ovflow r)) in
  let r' := set_ovflow r
              (putPage (ovflow r ++ [mkPage NO_PAGE [t]]) lp
                 (pageSetOvflow lpg newp)) in
  let chains' := <[Z.to_nat b := (c1 ++ [lp]) ++ [newp]]> chains in
  Structure r' chains' /\ PlacedAt r r' chains chains' t b (Some newp).
Proof.
  intros HS Hch Hfull Hprim Hb0 Hlp Hfit Hlen newp r' chains'.
  apply getPage_Some in Hlp as Hlp'. destruct Hlp' as [Hr Hlk].
  assert (Hlp2 : getPage (ovflow r ++ [mkPage NO_PAGE [t]]) lp = Some lpg).
  { apply getPage_Some. rewrite length_app. split; [lia|].
    rewrite lookup_app_l by lia. exact Hlk. }
  assert (Eol : olinks r' =
                <[Z.to_nat lp := newp]> (olinks r ++ [NO_PAGE])).
  { unfold olinks. simpl. unfold putPage.
    rewrite list_fmap_insert, fmap_app. reflexivity. }
  assert (Hlen' : length (olinks r) = length (ovflow r)).
  { unfold olinks. apply length_fmap. }
  pose proof (NoDup_chain _ _ _ (st_nodup _ _ HS) Hch) as Hnd.
  split.
  - constructor.
    + apply (st_npages _ _ HS).
    + unfold chains'. rewrite length_insert. apply (st_chains _ _ HS).
    + intros b0 pg0 ch0 Hd0 Hc0. rewrite Eol. simpl in Hd0.
      unfold chains' in Hc0.
      destruct (Nat.eq_dec (Z.to_nat b) b0) as [<-|Hne].
      * rewrite list_lookup_insert_eq in Hc0
          by (eapply lookup_lt_Some; exact Hch).
        injection Hc0 as <-. rewrite <- app_assoc. simpl.
        unfold newp. rewrite <- Hlen'. apply Linked_snoc.
        -- rewrite Hlen'. lia.
        -- exact Hnd.
        -- eapply (st_linked _ _ HS); eassumption.
      * rewrite list_lookup_insert_ne in Hc0 by exact Hne.
        apply Linked_insert_notin; [lia| |].
        -- eapply (chains_disjoint chains (Z.to_nat b) b0);
             [apply (st_nodup _ _ HS) | exact Hne | exact Hch | exact Hc0 |].
           apply elem_of_app. right. constructor.
        -- apply Linked_app. eapply (st_linked _ _ HS); eassumption.
    + unfold chains'. apply NoDup_concat_snoc;
        [apply (st_nodup _ _ HS) | exact Hch |].
      apply newId_not_on_chain, HS.
    + apply (st_wf_data _ _ HS).
    + simpl. unfold putPage. apply Forall_wf_insert.
      * apply Forall_app. split; [apply (st_wf_ovflow _ _ HS)|].
        constructor; [apply wfPage_single, Hfit | constructor].
      * apply wfPage_setOvflow. eapply Forall_wf_lookup; [|exact Hlp].
        apply (st_wf_ovflow _ _ HS).
  - constructor; simpl; unfold putPage.
    + reflexivity.
    + rewrite length_insert, length_app. simpl. lia.
    + discriminate.
    + reflexivity.
    + intros i [= <-]. rewrite (ptup_insert_link _ _ _ _ _ Hlp2).
      unfold newp. rewrite ptup_app_new. rewrite ptup_out by lia. reflexivity.
    + intros i Hi. rewrite (ptup_insert_link _ _ _ _ _ Hlp2).
      apply ptup_app_old. unfold newp in Hi. congruence.
    + right. exists (c1 ++ [lp]). split; [exact Hch|]. split; [reflexivity|].
      split; [reflexivity | exact Hfull].
    + intros _. exact Hprim.
    + intros i [= <-]. exists (c1 ++ [lp]), []. split; [|exact Hfull].
      unfold chains'. apply list_lookup_insert_eq.
      eapply lookup_lt_Some; exact Hch.
Qed.

(** A placement in a well-formed relation succeeds for every tuple that
    fits in a page, returns the bucket of the tuple, keeps the relation
    well formed and adds the tuple to one page of that bucket. *)
Lemma place_spec r chains t :
  Structure r chains ->
  0 <= bucketOf r (tupleHash r t) < npages r -> fitsPage t ->
  Z.of_nat (length (ovflow r)) < NO_PAGE ->
  exists r' chains' loc,
    place r t = Some (r', bucketOf r (tupleHash r t)) /\
    Structure r' chains' /\
    PlacedAt r r' chains chains' t (bucketOf r (tupleHash r t)) loc.
Proof.
  intros HS Hb Hfit Hlen.
  unfold place. cbv zeta.
  set (b := bucketOf r (tupleHash r t)) in *. clearbody b.
  rewrite <- (st_npages _ _ HS) in Hb.
  destruct (getPage_in_range (data r) b Hb) as [pg Hpg]. rewrite Hpg.
  assert (Hw : wrap (Z.of_nat (length (ovflow r))) = Z.of_nat (length (ovflow r))).
  { apply wrap_small. unfold NO_PAGE in Hlen. lia. }
  destruct (lookup_lt_is_Some_2 chains (Z.to_nat b)) as [ch Hch].
  { rewrite (st_chains _ _ HS). lia. }
  apply getPage_Some in Hpg as Hpg'. destruct Hpg' as [_ Hlk].
  pose proof (st_linked _ _ HS _ _ _ Hlk Hch) as HL.
  destruct (addToPage pg t) as [pg'|] eqn:Ea.
  { destruct (place_primary_spec r chains t b pg pg' HS Hpg Ea) as [S1 P1].
    eexists _, chains, None. split; [reflexivity|]. split.
    - eapply Structure_pages; [apply data_countInsert | apply ovflow_countInsert
                              | apply npages_countInsert | exact S1].
    - eapply PlacedAt_pages; [apply data_countInsert | apply ovflow_countInsert
                             | exact P1]. }
  unfold pageOvflow. destruct (Z.eqb_spec (pg_ovflow pg) NO_PAGE) as [Hno|Hyes].
  - unfold addPage. rewrite Hw. cbn [set_ovflow set_data ovflow data].
    rewrite getPage_app_new, (addToPage_newPage t Hfit), putPage_app_new.
    destruct (place_first_spec r chains t b pg HS Hpg Hno Ea Hfit Hlen)
      as [S1 P1].
    eexists _, _, _. split; [reflexivity|]. split.
    + eapply Structure_pages; [apply data_countInsert | apply ovflow_countInsert
                              | apply npages_countInsert | exact S1].
    + eapply PlacedAt_pages; [apply data_countInsert | apply ovflow_countInsert
                             | exact P1].
  - pose proof (Structure_chain_length _ _ _ _ HS Hch) as Hrounds.
    destruct (scanChain_Linked (ovflow r) t ch (pg_ovflow pg) NO_PAGE pg
                (length (ovflow r)) HL Hrounds)
      as [(c1 & i & c2 & pi & pi' & -> & Hf & Hi & Hai & Hs)
         | (Hf & lp & lpg & Hs & Hend)]; rewrite Hs.
    + destruct (place_chain_spec r chains t b c1 i c2 pi pi' HS Hch Hf
                  (noRoom_full _ _ _ _ Hpg Ea) Hi Hai) as [S1 P1].
      eexists _, chains, (Some i). split; [reflexivity|]. split.
      * eapply Structure_pages; [apply data_countInsert
          | apply ovflow_countInsert | apply npages_countInsert | exact S1].
      * eapply PlacedAt_pages; [apply data_countInsert
          | apply ovflow_countInsert | exact P1].
    + destruct Hend as [(-> & _ & _) | (c1 & -> & Hlp)].
      { exfalso. simpl in HL. contradiction. }
      unfold addPage. rewrite Hw. cbn [set_ovflow set_data ovflow data].
      rewrite getPage_app_new, (addToPage_newPage t Hfit), putPage_app_new.
      destruct (place_tail_spec r chains t b c1 lp lpg HS Hch Hf
                  (noRoom_full _ _ _ _ Hpg Ea) ltac:(lia) Hlp Hfit Hlen)
        as [S1 P1].
      eexists _, _, _. split; [reflexivity|]. split.
      * eapply Structure_pages; [apply data_countInsert
          | apply ovflow_countInsert | apply npages_countInsert | exact S1].
      * eapply PlacedAt_pages; [apply data_countInsert
          | apply ovflow_countInsert | exact P1].
Qed.

(** ** The tuples of the buckets *)

(** Bucket [k]: its primary page, then its overflow pages in chain
    order. *)
Definition bucketContent (r : Reln) (chains : list (list Z)) (k : nat)
    : list Tuple :=
  ptup (data r) (Z.of_nat k) ++
  ocontent (ovflow r) (default [] (chains !! k)).

Definition allContent (r : Reln) (chains : list (list Z)) : list Tuple :=
  concat (bucketContent r chains <$> seq 0 (length chains)).

(** Address consistency: every tuple lies in the bucket of its hash. *)
Definition Addr (r : Reln) (chains : list (list Z)) : Prop :=
  forall (k : nat) u, (k < length chains)%nat ->
    u ∈ bucketContent r chains k ->
    bucketOf r (tupleHash r u) = Z.of_nat k.

Lemma concat_fmap_same {K} (f f' : K -> list Tuple) (ids : list K) :
  (forall j, j ∈ ids -> f' j = f j) ->
  concat (f' <$> ids) = concat (f <$> ids).
Proof.
  intros H. induction ids as [|j ids IH]; [reflexivity|].
  rewrite !fmap_cons, !concat_cons. rewrite H by constructor.
  f_equal. apply IH. intros j' Hj'. apply H. constructor. exact Hj'.
Qed.

(** One key gains a tuple, the others keep theirs. *)
Lemma concat_fmap_hit {K} (f f' : K -> list Tuple) (ids : list K) i t :
  NoDup ids -> i ∈ ids ->
  (forall j, j ∈ ids -> j <> i -> f' j = f j) ->
  f' i ≡ₚ t :: f i ->
  concat (f' <$> ids) ≡ₚ t :: concat (f <$> ids).
Proof.
  intros Hnd Hin Hother Hhit. induction ids as [|j ids IH].
  - inversion Hin.
  - apply NoDup_cons in Hnd. destruct Hnd as [Hj Hnd].
    rewrite !fmap_cons, !concat_cons.
    apply elem_of_cons in Hin. destruct Hin as [<-|Hin].
    + rewrite Hhit. simpl. constructor. apply Permutation_app_head.
      rewrite (concat_fmap_same f f' ids); [reflexivity|].
      intros j' Hj'. apply Hother; [constructor; exact Hj'|].
      intros ->. contradiction.
    + rewrite (Hother j) by (try constructor; intros ->; contradiction).
      rewrite IH; try assumption.
      * symmetry. apply Permutation_middle.
      * intros j' Hj' Hne. apply Hother; [constructor; exact Hj' | exact Hne].
Qed.

Lemma ocontent_same (ov ov' : list Page) (ids : list Z) :
  (forall j, j ∈ ids -> ptup ov' j = ptup ov j) ->
  ocontent ov' ids = ocontent ov ids.
Proof. apply concat_fmap_same. Qed.

Lemma ocontent_app_ids ov (l1 l2 : list Z) :
  ocontent ov (l1 ++ l2) = ocontent ov l1 ++ ocontent ov l2.
Proof. unfold ocontent. rewrite fmap_app, concat_app. reflexivity. Qed.

Lemma elem_of_ocontent ov ids u :
  u ∈ ocontent ov ids <-> exists i, i ∈ ids /\ u ∈ ptup ov i.
Proof.
  unfold ocontent. induction ids as [|j ids IH]; simpl.
  - split; [intros H; inversion H | intros (i & H & _); inversion H].
  - rewrite elem_of_app, IH. split.
    + intros [H | (i & Hi & Hu)].
      * exists j. split; [constructor | exact H].
      * exists i. split; [constructor; exact Hi | exact Hu].
    + intros (i & Hi & Hu). apply elem_of_cons in Hi.
      destruct Hi as [->|Hi]; [left; exact Hu | right; eauto].
Qed.

(** ** A placement, bucket by bucket *)

Section PlacedBuckets.

Variables (r r' : Reln) (chains chains' : list (list Z)).
Variables (t : Tuple) (b : Z) (loc : option Z).
Hypothesis HS : Structure r chains.
Hypothesis HS' : Structure r' chains'.
Hypothesis HP : PlacedAt r r' chains chains' t b loc.
Hypothesis Hb : 0 <= b < Z.of_nat (length chains).

Lemma PlacedAt_length : length chains' = length chains.
Proof.
  destruct (pa_chains _ _ _ _ _ _ _ HP) as [->|(ch & _ & _ & -> & _)];
    [reflexivity | apply length_insert].
Qed.

Lemma PlacedAt_chain_other (k : nat) :
  k <> Z.to_nat b -> chains' !! k = chains !! k.
Proof.
  intros Hk.
  destruct (pa_chains _ _ _ _ _ _ _ HP) as [->|(ch & _ & _ & -> & _)];
    [reflexivity|]. apply list_lookup_insert_ne. lia.
Qed.

Lemma PlacedAt_loc_chain i :
  loc = Some i -> exists ch', chains' !! Z.to_nat b = Some ch' /\ i ∈ ch'.
Proof.
  intros Hl. destruct (pa_first_fit _ _ _ _ _ _ _ HP i Hl) as (c1 & c2 & Hc & _).
  exists (c1 ++ i :: c2). split; [exact Hc|].
  apply elem_of_app. right. constructor.
Qed.

Lemma PlacedAt_bucket_other (k : nat) :
  k <> Z.to_nat b ->
  bucketContent r' chains' k = bucketContent r chains k.
Proof.
  intros Hk. unfold bucketContent.
  rewrite (PlacedAt_chain_other k Hk).
  rewrite (pa_data_miss _ _ _ _ _ _ _ HP) by (right; lia). f_equal.
  apply ocontent_same. intros j Hj.
  apply (pa_ov_miss _ _ _ _ _ _ _ HP). intros Hl.
  destruct (PlacedAt_loc_chain j Hl) as (ch' & Hc' & Hj').
  destruct (chains' !! k) as [chk|] eqn:Ek.
  - rewrite <- (PlacedAt_chain_other k Hk), Ek in Hj. simpl in Hj.
    eapply (chains_disjoint chains' (Z.to_nat b) k);
      [apply (st_nodup _ _ HS') | lia | exact Hc' | exact Ek | exact Hj'
      | exact Hj].
  - rewrite <- (PlacedAt_chain_other k Hk), Ek in Hj. inversion Hj.
Qed.

Lemma PlacedAt_bucket_hit :
  bucketContent r' chains' (Z.to_nat b)
    ≡ₚ t :: bucketContent r chains (Z.to_nat b).
Proof.
  unfold bucketContent. rewrite Z2Nat.id by lia.
  assert (Hcase : loc = None \/ exists i, loc = Some i).
  { clear. destruct loc; eauto. }
  destruct Hcase as [El|[i El]]; [|].
  2: { rewrite (pa_data_miss _ _ _ _ _ _ _ HP) by (left; congruence).
    rewrite Permutation_middle. apply Permutation_app_head.
    destruct (PlacedAt_loc_chain i El) as (ch' & Hc' & Hi).
    rewrite Hc'. simpl default.
    assert (Hhit : ocontent (ovflow r') ch' ≡ₚ t :: ocontent (ovflow r) ch').
    { apply (concat_fmap_hit _ _ _ i).
      - eapply NoDup_chain; [apply (st_nodup _ _ HS') | exact Hc'].
      - exact Hi.
      - intros j _ Hne. apply (pa_ov_miss _ _ _ _ _ _ _ HP). congruence.
      - rewrite (pa_ov_hit _ _ _ _ _ _ _ HP i El).
        rewrite <- Permutation_cons_append. reflexivity. }
    rewrite Hhit. constructor.
    destruct (pa_chains _ _ _ _ _ _ _ HP) as [E|(ch & Hch & Hl & E & _)].
    + rewrite <- E, Hc'. reflexivity.
    + rewrite Hch. simpl default. rewrite E in Hc'.
      rewrite list_lookup_insert_eq in Hc'
        by (eapply lookup_lt_Some; exact Hch).
      injection Hc' as <-. rewrite ocontent_app_ids.
      unfold ocontent at 2. simpl. rewrite ptup_out by lia.
      rewrite !app_nil_r. reflexivity. }
  - destruct (pa_chains _ _ _ _ _ _ _ HP) as [E|(ch & _ & Hl & _ & _)];
      [|congruence].
    rewrite E. rewrite (pa_data_hit _ _ _ _ _ _ _ HP El).
    rewrite (ocontent_same (ovflow r) (ovflow r'))
      by (intros j _; apply (pa_ov_miss _ _ _ _ _ _ _ HP); congruence).
    rewrite <- app_assoc. simpl. rewrite <- Permutation_middle. reflexivity.
Qed.

Lemma PlacedAt_allContent :
  allContent r' chains' ≡ₚ t :: allContent r chains.
Proof.
  unfold allContent. rewrite PlacedAt_length.
  apply (concat_fmap_hit _ _ _ (Z.to_nat b)).
  - apply NoDup_seq.
  - apply elem_of_seq. lia.
  - intros k _ Hk. apply PlacedAt_bucket_other, Hk.
  - apply PlacedAt_bucket_hit.
Qed.

End PlacedBuckets.

(** ** The split: the state in the middle of the re-insertions *)

Lemma room_not_noRoom (f : list Page) t i :
  0 <= i < Z.of_nat (length f) ->
  runLength (ptup f i) + tupLength t <= dataCap -> ~ noRoom f t i.
Proof.
  intros Hi Hroom Hno. destruct (getPage_in_range f i Hi) as [pg Hpg].
  specialize (Hno pg Hpg). apply addToPage_None in Hno.
  rewrite (ptup_Some _ _ _ Hpg) in Hroom. unfold pageFree in Hno. lia.
Qed.

Lemma NoDup_split_unique (a b a' b' : list Z) i :
  NoDup (a ++ i :: b) -> a ++ i :: b = a' ++ i :: b' -> a = a'.
Proof.
  revert a'. induction a as [|y a IH]; intros [|y' a'] Hnd E; simpl in *.
  - reflexivity.
  - injection E as <- E. exfalso. apply NoDup_cons in Hnd.
    destruct Hnd as [Hn _]. apply Hn. rewrite E.
    apply elem_of_app. right. constructor.
  - injection E as -> E. exfalso. apply NoDup_cons in Hnd.
    destruct Hnd as [Hn _]. apply Hn.
    apply elem_of_app. right. constructor.
  - injection E as <- E. f_equal. apply NoDup_cons in Hnd.
    destruct Hnd as [_ Hnd]. eapply IH; eassumption.
Qed.

Lemma concat_fmap_hit_list {K} (f f' : K -> list Tuple) (ids : list K) i l :
  NoDup ids -> i ∈ ids ->
  (forall j, j ∈ ids -> j <> i -> f' j = f j) ->
  f' i ≡ₚ l ++ f i ->
  concat (f' <$> ids) ≡ₚ l ++ concat (f <$> ids).
Proof.
  intros Hnd Hin Hother Hhit. induction ids as [|j ids IH].
  - inversion Hin.
  - apply NoDup_cons in Hnd. destruct Hnd as [Hj Hnd].
    rewrite !fmap_cons, !concat_cons.
    apply elem_of_cons in Hin. destruct Hin as [<-|Hin].
    + rewrite Hhit, <- app_assoc. do 2 apply Permutation_app_head.
      rewrite (concat_fmap_same f f' ids); [reflexivity|].
      intros j' Hj'. apply Hother; [constructor; exact Hj'|].
      intros ->. contradiction.
    + rewrite (Hother j) by (try constructor; intros ->; contradiction).
      rewrite IH; try assumption.
      * rewrite !app_assoc. apply Permutation_app_tail.
        apply Permutation_app_comm.
      * intros j' Hj' Hne. apply Hother; [constructor; exact Hj' | exact Hne].
Qed.

Lemma tupLength_le_runLength u l : u ∈ l -> tupLength u <= runLength l.
Proof.
  induction l as [|v l IH]; intros H; [inversion H|].
  apply elem_of_cons in H. simpl.
  pose proof (runLength_nonneg l). pose proof (tupLength_pos v).
  destruct H as [->|H]; [lia|]. specialize (IH H). lia.
Qed.

Lemma wfPage_fits pg u : wfPage pg -> u ∈ pg_data pg -> fitsPage u.
Proof.
  unfold wfPage, fitsPage, pageFree. intros Hw Hu.
  pose proof (tupLength_le_runLength u _ Hu). lia.
Qed.

Lemma wfPage_empty id : wfPage (pageSetOvflow newPage id).
Proof. unfold wfPage, pageFree, dataCap, PAGESIZE, HEADER. simpl. lia. Qed.

Lemma Linked_suffix ol : forall pre first i rest,
  Linked ol first (pre ++ i :: rest) ->
  Linked ol (nth (Z.to_nat i) ol NO_PAGE) rest.
Proof.
  induction pre as [|j pre IH]; intros first i rest; simpl.
  - intros (_ & _ & _ & H). exact H.
  - intros (_ & _ & _ & H). eapply IH, H.
Qed.

Lemma Linked_first ol first ids :
  Linked ol first ids -> first = hd NO_PAGE ids.
Proof. destruct ids; simpl; [auto | intros (-> & _); reflexivity]. Qed.

Definition ltup (s : Z) (rc : Reln) (x : option Z) : list Tuple :=
  match x with
  | None => ptup (data rc) s
  | Some i => ptup (ovflow rc) i
  end.

Definition xl (x : option Z) : list Z :=
  match x with
  | None => []
  | Some i => [i]
  end.

Section SplitLoop.

(** [r3] is the relation when the re-insertions start: bucket [s] is being
    split at depth [d], [cs] is its overflow chain, [base] the tuples of
    the relation before the split, [N] a bound on the overflow file and
    [frame] the tuples of the buckets before the split. *)
Variables (r3 : Reln) (s d : Z) (cs : list Z) (base : list Tuple) (N : Z).
Variable frame : nat -> list Tuple.
Hypothesis Hd : 0 <= d < 32.
Hypothesis Hs : 0 <= s < 2 ^ d.
Hypothesis Hdepth : depth r3 = d.
Hypothesis Hsp : sp r3 = s + 1.
Hypothesis Hnp : npages r3 = 2 ^ d + s + 1.
Hypothesis HN : N < NO_PAGE.

Definition hb (u : Tuple) : Z := bucketOf r3 (tupleHash r3 u).
Definition weak (u : Tuple) : Prop := getLower (tupleHash r3 u) d = s.

Lemma weak_bucket u : weak u -> hb u = s \/ hb u = s + 2 ^ d.
Proof.
  unfold weak, hb, bucketOf. rewrite Hdepth, Hsp. intros Hw. rewrite Hw.
  destruct (Z.ltb_spec s (s + 1)) as [_|]; [|lia].
  rewrite wrap_id by lia.
  destruct (getLower_succ (tupleHash r3 u) d Hd) as [E|E];
    rewrite E, Hw; [left | right]; reflexivity.
Qed.

Lemma hb_shape rc u :
  sameShape r3 rc -> bucketOf rc (tupleHash rc u) = hb u.
Proof.
  intros Sh. unfold hb.
  rewrite (tupleHash_shape _ _ _ Sh). apply bucketOf_shape, Sh.
Qed.

Record MidSplit (rc : Reln) (cc : list (list Z)) (done : list Z)
    (x : option Z) (rest : list Z) (todo : list Tuple) : Prop := mkMidSplit {
  ms_struct : Structure rc cc;
  ms_shape : sameShape r3 rc;
  ms_flags : InSplit rc;
  ms_chain : cc !! Z.to_nat s = Some cs;
  ms_pos : cs = done ++ xl x ++ rest;
  ms_primary_first : x = None -> done = [];
  ms_other : forall (k : nat) u,
      (k < length cc)%nat -> k <> Z.to_nat s ->
      u ∈ bucketContent rc cc k -> hb u = Z.of_nat k;
  ms_frame : forall k : nat,
      k <> Z.to_nat s -> k <> Z.to_nat (s + 2 ^ d) ->
      bucketContent rc cc k = frame k;
  ms_primary : forall u, u ∈ ptup (data rc) s -> hb u = s;
  ms_done : forall i u,
      i ∈ done ++ xl x -> u ∈ ptup (ovflow rc) i -> hb u = s;
  ms_rest : forall i u, i ∈ rest -> u ∈ ptup (ovflow rc) i -> weak u;
  ms_todo : Forall (fun u => weak u /\ fitsPage u) todo;
  ms_room : runLength (ltup s rc x) + runLength todo <= dataCap;
  ms_content : allContent rc cc ++ todo ≡ₚ base;
  ms_budget :
    Z.of_nat (length (ovflow rc)) + Z.of_nat (length todo) +
    Z.of_nat (length (ocontent (ovflow rc) rest)) <= N
}.

Section ReinsertStep.

Variables (rc r' : Reln) (cc cc' : list (list Z)).
Variables (done : list Z) (x : option Z) (rest : list Z).
Variables (t : Tuple) (todo : list Tuple) (loc : option Z).
Hypothesis M : MidSplit rc cc done x rest (t :: todo).
Hypothesis HS' : Structure r' cc'.
Hypothesis HP : PlacedAt rc r' cc cc' t (hb t) loc.

Lemma step_weak : weak t /\ fitsPage t.
Proof.
  pose proof (ms_todo _ _ _ _ _ _ M) as H. apply Forall_cons in H.
  destruct H as [H _]. exact H.
Qed.

Lemma step_npages : npages rc = 2 ^ d + s + 1.
Proof.
  destruct (ms_shape _ _ _ _ _ _ M) as (_ & _ & _ & Np & _). congruence.
Qed.

Lemma step_length_cc : Z.of_nat (length cc) = 2 ^ d + s + 1.
Proof.
  pose proof (ms_struct _ _ _ _ _ _ M) as HS.
  rewrite (st_chains _ _ HS), (st_npages _ _ HS). apply step_npages.
Qed.

Lemma step_bucket_range : 0 <= hb t < Z.of_nat (length cc).
Proof.
  rewrite step_length_cc. destruct step_weak as [Hw _].
  pose proof (pow2_lt_32 d Hd). destruct (weak_bucket t Hw); lia.
Qed.

Lemma step_cs_valid i :
  i ∈ cs -> 0 <= i < Z.of_nat (length (ovflow rc)).
Proof.
  intros Hi.
  pose proof (Structure_chain_range _ _ _ _ (ms_struct _ _ _ _ _ _ M)
                (ms_chain _ _ _ _ _ _ M)) as Hr.
  rewrite Forall_forall in Hr. destruct (Hr i Hi) as [H _]. exact H.
Qed.

Lemma step_x_in_cs i : x = Some i -> i ∈ cs.
Proof.
  intros ->. rewrite (ms_pos _ _ _ _ _ _ M). simpl.
  apply elem_of_app. right. constructor.
Qed.

(** The page the split is emptying has room for the tuple. *)
Lemma step_room_primary : x = None -> ~ noRoom (data rc) t s.
Proof.
  intros Hx. pose proof (ms_room _ _ _ _ _ _ M) as Hr.
  rewrite Hx in Hr. simpl in Hr. pose proof (runLength_nonneg todo).
  apply room_not_noRoom; [|lia].
  rewrite (st_npages _ _ (ms_struct _ _ _ _ _ _ M)), step_npages.
  pose proof (pow2_lt_32 d Hd). lia.
Qed.

Lemma step_room_ov i : x = Some i -> ~ noRoom (ovflow rc) t i.
Proof.
  intros Hx. pose proof (ms_room _ _ _ _ _ _ M) as Hr.
  rewrite Hx in Hr. simpl in Hr. pose proof (runLength_nonneg todo).
  apply room_not_noRoom; [|lia]. apply step_cs_valid, step_x_in_cs, Hx.
Qed.

(** The chain of the bucket being split does not grow. *)
Lemma step_chain : cc' !! Z.to_nat s = Some cs.
Proof.
  pose proof (ms_chain _ _ _ _ _ _ M) as Hch.
  destruct (Z.eq_dec (hb t) s) as [E|E].
  - destruct (pa_chains _ _ _ _ _ _ _ HP)
      as [->|(ch & Hc & Hl & _ & Hfull)]; [exact Hch|].
    exfalso. rewrite E, Hch in Hc. injection Hc as <-.
    assert (Hne : loc <> None) by congruence.
    pose proof (pa_primary_full _ _ _ _ _ _ _ HP Hne) as Hpf.
    rewrite E in Hpf.
    assert (Hcase : x = None \/ exists i, x = Some i)
      by (clear; destruct x; eauto).
    destruct Hcase as [Hx|[i Hx]].
    + exact (step_room_primary Hx Hpf).
    + apply (step_room_ov i Hx). rewrite Forall_forall in Hfull.
      apply Hfull, step_x_in_cs, Hx.
  - rewrite <- Hch.
    apply (PlacedAt_chain_other rc r' cc cc' t (hb t) loc HS' HP).
    pose proof step_bucket_range. lia.
Qed.

(** A tuple that lands on the chain of the bucket being split belongs to
    that bucket. *)
Lemma step_loc_bucket i : loc = Some i -> i ∈ cs -> hb t = s.
Proof.
  intros Hl Hi. destruct (Z.eq_dec (hb t) s) as [E|E]; [exact E|]. exfalso.
  destruct (PlacedAt_loc_chain rc r' cc cc' t (hb t) loc HP i Hl)
    as (ch' & Hc' & Hi').
  pose proof step_bucket_range.
  eapply (chains_disjoint cc' (Z.to_nat (hb t)) (Z.to_nat s));
    [apply (st_nodup _ _ HS') | lia | exact Hc' | exact step_chain
    | exact Hi' | exact Hi].
Qed.

(** It lands at or before the page being emptied. *)
Lemma step_loc_not_rest i : i ∈ rest -> loc <> Some i.
Proof.
  intros Hi Hl.
  assert (Hics : i ∈ cs).
  { rewrite (ms_pos _ _ _ _ _ _ M). rewrite !elem_of_app. auto. }
  pose proof (step_loc_bucket i Hl Hics) as E.
  assert (Hne : loc <> None) by congruence.
  pose proof (pa_primary_full _ _ _ _ _ _ _ HP Hne) as Hpf.
  rewrite E in Hpf.
  destruct (pa_first_fit _ _ _ _ _ _ _ HP i Hl) as (c1 & c2 & Hc & Hfull).
  rewrite E, step_chain in Hc. injection Hc as Hc.
  assert (Hcase : x = None \/ exists j, x = Some j)
    by (clear; destruct x; eauto).
  destruct Hcase as [Hx|[j Hx]].
  - exact (step_room_primary Hx Hpf).
  - apply list_elem_of_split in Hi. destruct Hi as (r1 & r2 & Hr).
    pose proof (ms_pos _ _ _ _ _ _ M) as Hpos.
    rewrite Hx, Hr in Hpos. simpl in Hpos.
    assert (Hnd : NoDup cs).
    { eapply NoDup_chain; [apply (st_nodup _ _ HS') | exact step_chain]. }
    assert (E1 : c1 = done ++ j :: r1).
    { symmetry. apply (NoDup_split_unique _ r2 _ c2 i).
      - rewrite <- app_assoc. simpl. rewrite <- Hpos. exact Hnd.
      - rewrite <- app_assoc. simpl. rewrite <- Hpos. exact Hc. }
    apply (step_room_ov j Hx). rewrite Forall_forall in Hfull.
    apply Hfull. rewrite E1. apply elem_of_app. right. constructor.
Qed.

End ReinsertStep.

(** One re-insertion keeps the state of the split. *)
Lemma reinsert_step rc cc done x rest t todo :
  MidSplit rc cc done x rest (t :: todo) ->
  exists r' cc',
    place rc t = Some (r', hb t) /\ MidSplit r' cc' done x rest todo.
Proof.
  intros M.
  pose proof (step_weak _ _ _ _ _ _ _ M) as [Hw Hfit].
  pose proof (step_bucket_range _ _ _ _ _ _ _ M) as Hbr.
  pose proof (ms_struct _ _ _ _ _ _ M) as HS.
  pose proof (ms_shape _ _ _ _ _ _ M) as Sh.
  pose proof (ms_budget _ _ _ _ _ _ M) as Hbud. simpl length in Hbud.
  assert (Hlen : Z.of_nat (length (ovflow rc)) < NO_PAGE) by lia.
  assert (Hbn : 0 <= bucketOf rc (tupleHash rc t) < npages rc).
  { rewrite (hb_shape rc t Sh), <- (st_npages _ _ HS), <- (st_chains _ _ HS).
    exact Hbr. }
  destruct (place_spec rc cc t HS Hbn Hfit Hlen)
    as (r' & cc' & loc & Hpl & HS' & HP).
  rewrite (hb_shape rc t Sh) in Hpl, HP.
  exists r', cc'. split; [exact Hpl|].
  pose proof (step_chain _ _ _ _ _ _ _ _ _ _ M HS' HP) as Hch'.
  pose proof (step_loc_bucket _ _ _ _ _ _ _ _ _ _ M HS' HP) as HlocB.
  pose proof (step_loc_not_rest _ _ _ _ _ _ _ _ _ _ M HS' HP) as HlocR.
  pose proof (PlacedAt_length _ _ _ _ _ _ _ HS' HP) as Hlcc.
  assert (Hq : Quiet rc r').
  { eapply place_Quiet; [apply (ms_flags _ _ _ _ _ _ M) | exact Hpl]. }
  assert (Hin_cs : forall i, i ∈ done ++ xl x -> i ∈ cs).
  { intros i Hi. rewrite (ms_pos _ _ _ _ _ _ M), app_assoc.
    apply elem_of_app. left. exact Hi. }
  constructor.
  - exact HS'.
  - eapply sameShape_trans; [exact Sh | apply Hq].
  - eapply InSplit_Quiet; [apply (ms_flags _ _ _ _ _ _ M) | exact Hq].
  - exact Hch'.
  - apply (ms_pos _ _ _ _ _ _ M).
  - apply (ms_primary_first _ _ _ _ _ _ M).
  - intros k u Hk Hks Hu. rewrite Hlcc in Hk.
    destruct (Nat.eq_dec k (Z.to_nat (hb t))) as [->|Hne].
    + rewrite (PlacedAt_bucket_hit _ _ _ _ _ _ _ HS' HP Hbr) in Hu.
      apply elem_of_cons in Hu. destruct Hu as [->|Hu]; [lia|].
      eapply (ms_other _ _ _ _ _ _ M); eassumption.
    + rewrite (PlacedAt_bucket_other _ _ _ _ _ _ _ HS' HP k Hne) in Hu.
      eapply (ms_other _ _ _ _ _ _ M); eassumption.
  - intros k Hk1 Hk2.
    rewrite (PlacedAt_bucket_other _ _ _ _ _ _ _ HS' HP k).
    + apply (ms_frame _ _ _ _ _ _ M); assumption.
    + destruct (weak_bucket t Hw) as [E|E]; rewrite E; assumption.
  - intros u Hu.
    assert (Hcase : (loc = None /\ s = hb t) \/ (loc <> None \/ s <> hb t)).
    { clear. destruct loc; [right; left; discriminate|].
      destruct (Z.eq_dec s (hb t)); auto. }
    destruct Hcase as [[Hl E]|Hmiss].
    + rewrite E, (pa_data_hit _ _ _ _ _ _ _ HP Hl), <- E in Hu.
      apply elem_of_app in Hu. destruct Hu as [Hu|Hu].
      * apply (ms_primary _ _ _ _ _ _ M), Hu.
      * apply list_elem_of_singleton in Hu. subst u. congruence.
    + rewrite (pa_data_miss _ _ _ _ _ _ _ HP s Hmiss) in Hu.
      apply (ms_primary _ _ _ _ _ _ M), Hu.
  - intros i u Hi Hu.
    assert (Hcase : loc = Some i \/ loc <> Some i).
    { clear. destruct loc as [j|]; [|right; discriminate].
      destruct (Z.eq_dec j i); [left | right]; congruence. }
    destruct Hcase as [Hl|Hl].
    + rewrite (pa_ov_hit _ _ _ _ _ _ _ HP i Hl) in Hu.
      apply elem_of_app in Hu. destruct Hu as [Hu|Hu].
      * eapply (ms_done _ _ _ _ _ _ M); eassumption.
      * apply list_elem_of_singleton in Hu. subst u.
        apply (HlocB i Hl), Hin_cs, Hi.
    + rewrite (pa_ov_miss _ _ _ _ _ _ _ HP i Hl) in Hu.
      eapply (ms_done _ _ _ _ _ _ M); eassumption.
  - intros i u Hi Hu.
    rewrite (pa_ov_miss _ _ _ _ _ _ _ HP i (HlocR i Hi)) in Hu.
    eapply (ms_rest _ _ _ _ _ _ M); eassumption.
  - pose proof (ms_todo _ _ _ _ _ _ M) as H. apply Forall_cons in H.
    apply H.
  - pose proof (ms_room _ _ _ _ _ _ M) as Hr. simpl runLength in Hr.
    assert (Hx : runLength (ltup s r' x) <=
                 runLength (ltup s rc x) + tupLength t).
    { pose proof (tupLength_pos t).
      assert (Hcase : x = None \/ exists i, x = Some i)
        by (clear; destruct x; eauto).
      destruct Hcase as [->|[i ->]]; simpl.
      - assert (Hc : (loc = None /\ s = hb t) \/ (loc <> None \/ s <> hb t)).
        { clear. destruct loc; [right; left; discriminate|].
          destruct (Z.eq_dec s (hb t)); auto. }
        destruct Hc as [[Hl E]|Hmiss].
        + rewrite E, (pa_data_hit _ _ _ _ _ _ _ HP Hl), runLength_app.
          simpl. lia.
        + rewrite (pa_data_miss _ _ _ _ _ _ _ HP s Hmiss). lia.
      - assert (Hc : loc = Some i \/ loc <> Some i).
        { clear. destruct loc as [j|]; [|right; discriminate].
          destruct (Z.eq_dec j i); [left | right]; congruence. }
        destruct Hc as [Hl|Hl].
        + rewrite (pa_ov_hit _ _ _ _ _ _ _ HP i Hl), runLength_app.
          simpl. lia.
        + rewrite (pa_ov_miss _ _ _ _ _ _ _ HP i Hl). lia. }
    lia.
  - rewrite (PlacedAt_allContent _ _ _ _ _ _ _ HS' HP Hbr).
    rewrite <- (ms_content _ _ _ _ _ _ M). simpl.
    apply Permutation_middle.
  - pose proof (pa_len_ov _ _ _ _ _ _ _ HP) as Hlo.
    rewrite (ocontent_same (ovflow rc) (ovflow r') rest).
    + lia.
    + intros j Hj. apply (pa_ov_miss _ _ _ _ _ _ _ HP), HlocR, Hj.
Qed.

(** All the tuples of the page held in memory are re-inserted. *)
Lemma reinsert_spec k : forall todo rc cc done x rest,
  MidSplit rc cc done x rest todo ->
  exists r' cc',
    reinsert (addToRelation (S k)) rc todo = Some r' /\
    MidSplit r' cc' done x rest [].
Proof.
  induction todo as [|t todo IH]; intros rc cc done x rest M.
  - exists rc, cc. split; [reflexivity | exact M].
  - destruct (reinsert_step _ _ _ _ _ _ _ M) as (r1 & cc1 & Hpl & M1).
    destruct (IH _ _ _ _ _ M1) as (r' & cc' & Hre & M').
    exists r', cc'. split; [|exact M'].
    cbn [reinsert]. rewrite addToRelation_nested.
    + rewrite Hpl. exact Hre.
    + destruct (ms_flags _ _ _ _ _ _ M) as (_ & I & C). congruence.
Qed.

(** The next page of the chain is read and overwritten with an empty page
    that keeps its link. *)
Lemma clear_next rc cc done x i rest' pgi :
  MidSplit rc cc done x (i :: rest') [] ->
  getPage (ovflow rc) i = Some pgi ->
  MidSplit
    (set_ovflow rc
       (putPage (ovflow rc) i (pageSetOvflow newPage (pageOvflow pgi))))
    cc (done ++ xl x) (Some i) rest' (pageData pgi).
Proof.
  intros M Hpg. set (rc1 := set_ovflow rc _).
  pose proof (ms_struct _ _ _ _ _ _ M) as HS.
  pose proof (ms_chain _ _ _ _ _ _ M) as Hch.
  pose proof (ms_pos _ _ _ _ _ _ M) as Hpos.
  pose proof (NoDup_chain _ _ _ (st_nodup _ _ HS) Hch) as Hnd.
  apply getPage_Some in Hpg as Hpg'. destruct Hpg' as [Hr Hlk].
  assert (Hics : i ∈ cs).
  { rewrite Hpos, !elem_of_app. right. right. constructor. }
  assert (Hnd' : NoDup ((done ++ xl x) ++ i :: rest')).
  { rewrite <- app_assoc, <- Hpos. exact Hnd. }
  apply NoDup_app in Hnd'. destruct Hnd' as (_ & Hdisj & Hnd').
  apply NoDup_cons in Hnd'. destruct Hnd' as [Hirest _].
  assert (Hov_other : forall j, j <> i -> 0 <= j ->
            ptup (ovflow rc1) j = ptup (ovflow rc) j).
  { intros j Hne Hj. simpl. unfold putPage. apply ptup_insert_ne; lia. }
  assert (Hov_i : ptup (ovflow rc1) i = []).
  { simpl. unfold putPage. rewrite ptup_insert_eq by exact Hr. reflexivity. }
  assert (Hcs_nonneg : forall j, j ∈ cs -> 0 <= j).
  { intros j Hj.
    pose proof (Structure_chain_range _ _ _ _ HS Hch) as Hv.
    rewrite Forall_forall in Hv. destruct (Hv j Hj) as [? _]. lia. }
  assert (Hbk : forall k : nat, k <> Z.to_nat s ->
            bucketContent rc1 cc k = bucketContent rc cc k).
  { intros k Hk. unfold bucketContent. f_equal.
    destruct (cc !! k) as [chk|] eqn:Ek; [|reflexivity]. simpl default.
    apply ocontent_same. intros j Hj. apply Hov_other.
    - intros ->. eapply (chains_disjoint cc (Z.to_nat s) k);
        [apply (st_nodup _ _ HS) | lia | exact Hch | exact Ek | exact Hics
        | exact Hj].
    - pose proof (Structure_chain_range _ _ _ _ HS Ek) as Hv.
      rewrite Forall_forall in Hv. destruct (Hv j Hj) as [? _]. lia. }
  constructor.
  - eapply Structure_same_links; [exact HS | reflexivity | reflexivity | | |].
    + unfold olinks. simpl. unfold putPage.
      eapply fmap_insert_same_link; [exact Hlk | reflexivity].
    + apply (st_wf_data _ _ HS).
    + simpl. unfold putPage.
      apply Forall_wf_insert; [apply (st_wf_ovflow _ _ HS) | apply wfPage_empty].
  - apply (ms_shape _ _ _ _ _ _ M).
  - apply (ms_flags _ _ _ _ _ _ M).
  - exact Hch.
  - rewrite Hpos, <- app_assoc. reflexivity.
  - discriminate.
  - intros k u Hk Hks Hu. rewrite (Hbk k Hks) in Hu.
    eapply (ms_other _ _ _ _ _ _ M); eassumption.
  - intros k Hk1 Hk2. rewrite (Hbk k Hk1).
    apply (ms_frame _ _ _ _ _ _ M); assumption.
  - apply (ms_primary _ _ _ _ _ _ M).
  - intros j u Hj Hu. destruct (Z.eq_dec j i) as [->|Hne].
    + rewrite Hov_i in Hu. inversion Hu.
    + simpl xl in Hj. apply elem_of_app in Hj. destruct Hj as [Hj|Hj].
      * rewrite Hov_other in Hu; [eapply (ms_done _ _ _ _ _ _ M); eassumption
          | exact Hne |].
        apply Hcs_nonneg. rewrite Hpos, app_assoc. apply elem_of_app. auto.
      * apply list_elem_of_singleton in Hj. contradiction.
  - intros j u Hj Hu.
    assert (Hne : j <> i) by (intros ->; contradiction).
    rewrite Hov_other in Hu; [|exact Hne|].
    + apply (ms_rest _ _ _ _ _ _ M j u); [constructor; exact Hj | exact Hu].
    + apply Hcs_nonneg. rewrite Hpos, !elem_of_app. right. right.
      constructor. exact Hj.
  - apply Forall_forall. intros u Hu. split.
    + apply (ms_rest _ _ _ _ _ _ M i u); [constructor|].
      rewrite (ptup_Some _ _ _ Hpg). exact Hu.
    + eapply wfPage_fits; [|exact Hu].
      eapply Forall_wf_lookup; [apply (st_wf_ovflow _ _ HS) | exact Hpg].
  - change (ltup s rc1 (Some i)) with (ptup (ovflow rc1) i).
    rewrite Hov_i. simpl.
    pose proof (Forall_wf_lookup _ _ _ (st_wf_ovflow _ _ HS) Hpg) as Hw.
    exact Hw.
  - rewrite <- (ms_content _ _ _ _ _ _ M), app_nil_r.
    rewrite Permutation_app_comm. symmetry. unfold allContent.
    apply (concat_fmap_hit_list _ _ _ (Z.to_nat s)).
    + apply NoDup_seq.
    + apply elem_of_seq. apply lookup_lt_Some in Hch. lia.
    + intros k _ Hk. symmetry. apply Hbk, Hk.
    + unfold bucketContent. rewrite Hch. simpl default.
      rewrite (Permutation_app_comm (pageData pgi)), <- app_assoc.
      apply Permutation_app_head.
      pose proof (ocontent_insert (ovflow rc) cs i pgi
                    (pageSetOvflow newPage (pageOvflow pgi)) Hnd) as Hoc.
      simpl in Hoc. rewrite app_nil_r in Hoc. symmetry. apply Hoc.
      * apply Forall_forall. intros j Hj. apply Hcs_nonneg, Hj.
      * exact Hics.
      * exact Hpg.
  - pose proof (ms_budget _ _ _ _ _ _ M) as Hb.
    unfold ocontent in Hb. rewrite fmap_cons, concat_cons, length_app in Hb.
    rewrite (ptup_Some _ _ _ Hpg) in Hb. simpl length in Hb.
    assert (E : ocontent (ovflow rc1) rest' = ocontent (ovflow rc) rest').
    { apply ocontent_same. intros j Hj. apply Hov_other.
      - intros ->. contradiction.
      - apply Hcs_nonneg. rewrite Hpos, !elem_of_app. right. right.
        constructor. exact Hj. }
    rewrite E. unfold ocontent. simpl ovflow. unfold putPage, pageData.
    rewrite length_insert. lia.
Qed.

(** The loop over the overflow chain of the bucket being split. *)
Lemma splitChain_spec k : forall rest rc cc done x rounds currId,
  MidSplit rc cc done x rest [] ->
  currId = hd NO_PAGE rest -> (length rest <= rounds)%nat ->
  exists r' cc' done' x',
    splitChain (addToRelation (S k)) rounds rc currId = Some r' /\
    MidSplit r' cc' done' x' [] [].
Proof.
  induction rest as [|i rest IH]; intros rc cc done x rounds currId M Hc Hr.
  - simpl in Hc. subst currId. exists rc, cc, done, x.
    split; [|exact M]. destruct rounds; reflexivity.
  - simpl in Hc. subst currId.
    pose proof (ms_struct _ _ _ _ _ _ M) as HS.
    pose proof (ms_chain _ _ _ _ _ _ M) as Hch.
    pose proof (ms_pos _ _ _ _ _ _ M) as Hpos.
    assert (Hv : validId (length (ovflow rc)) i).
    { pose proof (Structure_chain_range _ _ _ _ HS Hch) as Hv.
      rewrite Forall_forall in Hv. apply Hv.
      rewrite Hpos, !elem_of_app. right. right. constructor. }
    destruct Hv as [Hir Hin].
    destruct (getPage_in_range _ _ Hir) as [pgi Hpg].
    destruct rounds as [|n]; [simpl in Hr; lia|]. simpl in Hr.
    cbn [splitChain]. destruct (Z.eqb_spec i NO_PAGE) as [|_]; [contradiction|].
    rewrite Hpg.
    pose proof (clear_next _ _ _ _ _ _ _ M Hpg) as M1.
    destruct (reinsert_spec k _ _ _ _ _ _ M1) as (r2 & cc2 & Hre & M2).
    rewrite Hre.
    apply (IH r2 cc2 (done ++ xl x) (Some i) n); [exact M2 | | lia].
    (* the link read from the page is the next page of the chain *)
    destruct (lookup_lt_is_Some_2 (data rc) (Z.to_nat s)) as [pgs Hpgs].
    { rewrite <- (st_chains _ _ HS). eapply lookup_lt_Some, Hch. }
    pose proof (st_linked _ _ HS _ _ _ Hpgs Hch) as HL.
    rewrite Hpos, app_assoc in HL. apply Linked_suffix in HL.
    unfold olinks in HL. rewrite (nth_links _ _ _ Hpg) in HL.
    apply Linked_first in HL. exact HL.
Qed.

End SplitLoop.

(** ** The split: from the descriptor at rest to the re-insertions *)

(** The relation when the re-insertions start: one more primary page,
    the primary page of bucket [sp] emptied with its link kept, [sp]
    advanced. *)
Definition splitStart (r : Reln) (link : Z) : Reln :=
  mkReln (nattrs r) (depth r) (sp r + 1) (npages r + 1) (ntups r) (c r)
    (insertion r) (splitting r) (cv r)
    (putPage (data r ++ [newPage]) (sp r) (pageSetOvflow newPage link))
    (ovflow r).

Lemma bucketOf_advance r r3 h k :
  depth r3 = depth r -> sp r3 = sp r + 1 ->
  bucketOf r h = k -> k <> sp r -> bucketOf r3 h = k.
Proof.
  unfold bucketOf. intros -> ->.
  destruct (Z.ltb_spec (getLower h (depth r)) (sp r));
    destruct (Z.ltb_spec (getLower h (depth r)) (sp r + 1)); intros; lia.
Qed.

Lemma bucketOf_sp_weak r h :
  Counters r -> bucketOf r h = sp r -> getLower h (depth r) = sp r.
Proof.
  intros HC. pose proof (Counters_depth r HC) as Hd.
  destruct HC as (_ & Hs & _).
  pose proof (getLower_range h (depth r) ltac:(lia)).
  destruct (bucketOf_cases r h Hd) as [[-> ?] | [? [-> | ->]]]; lia.
Qed.

Lemma bucketContent_in_primary r chains (k : nat) u :
  u ∈ ptup (data r) (Z.of_nat k) -> u ∈ bucketContent r chains k.
Proof. intros H. unfold bucketContent. apply elem_of_app. auto. Qed.

Lemma bucketContent_in_chain r chains (k : nat) ch i u :
  chains !! k = Some ch -> i ∈ ch -> u ∈ ptup (ovflow r) i ->
  u ∈ bucketContent r chains k.
Proof.
  intros Hc Hi Hu. unfold bucketContent. rewrite Hc. simpl.
  apply elem_of_app. right. apply elem_of_ocontent. eauto.
Qed.

Lemma Structure_splitStart r chains pg :
  Structure r chains -> Counters r ->
  data r !! Z.to_nat (sp r) = Some pg ->
  Structure (splitStart r (pg_ovflow pg)) (chains ++ [[]]).
Proof.
  intros HS HC Hpg. destruct HC as (_ & Hsp & _).
  pose proof (lookup_lt_Some _ _ _ Hpg) as Hlt.
  constructor; simpl; unfold putPage.
  - rewrite length_insert, length_app. simpl.
    rewrite <- (st_npages _ _ HS). lia.
  - rewrite length_insert, !length_app. simpl.
    rewrite (st_chains _ _ HS). reflexivity.
  - intros b pg0 ch Hb Hc.
    destruct (Nat.eq_dec b (Z.to_nat (sp r))) as [->|Hne].
    + rewrite list_lookup_insert_eq in Hb by (rewrite length_app; lia).
      injection Hb as <-. simpl.
      rewrite lookup_app_l in Hc by (rewrite (st_chains _ _ HS); lia).
      eapply (st_linked _ _ HS); eassumption.
    + rewrite list_lookup_insert_ne in Hb by lia.
      destruct (Nat.lt_ge_cases b (length (data r))) as [Hl|Hg].
      * rewrite lookup_app_l in Hb by lia.
        rewrite lookup_app_l in Hc by (rewrite (st_chains _ _ HS); lia).
        eapply (st_linked _ _ HS); eassumption.
      * rewrite lookup_app_r in Hb by lia.
        rewrite lookup_app_r in Hc by (rewrite (st_chains _ _ HS); lia).
        rewrite (st_chains _ _ HS) in Hc.
        destruct (b - length (data r))%nat; [|discriminate].
        injection Hb as <-. injection Hc as <-. reflexivity.
  - rewrite concat_app. simpl. rewrite app_nil_r. apply (st_nodup _ _ HS).
  - apply Forall_wf_insert; [|apply (wfPage_empty (pg_ovflow pg))].
    apply Forall_app. split; [apply (st_wf_data _ _ HS)|].
    constructor; [apply (wfPage_empty NO_PAGE) | constructor].
  - apply (st_wf_ovflow _ _ HS).
Qed.

(** The buckets when the re-insertions start. *)
Lemma bucketContent_splitStart r chains pg cs (k : nat) :
  Structure r chains -> Counters r ->
  data r !! Z.to_nat (sp r) = Some pg ->
  chains !! Z.to_nat (sp r) = Some cs ->
  bucketContent (splitStart r (pg_ovflow pg)) (chains ++ [[]]) k =
  if decide (k = Z.to_nat (sp r)) then ocontent (ovflow r) cs
  else if decide (k < length chains)%nat then bucketContent r chains k
  else [].
Proof.
  intros HS HC Hpg Hcs. destruct HC as (_ & Hsp & _).
  pose proof (lookup_lt_Some _ _ _ Hpg) as Hlt.
  pose proof (st_chains _ _ HS) as Hlc.
  unfold bucketContent. simpl. unfold putPage.
  destruct (decide (k = Z.to_nat (sp r))) as [->|Hne].
  - rewrite Z2Nat.id by lia.
    rewrite ptup_insert_eq by (rewrite length_app; lia).
    rewrite lookup_app_l by lia. rewrite Hcs. reflexivity.
  - rewrite ptup_insert_ne by lia.
    destruct (decide (k < length chains)%nat) as [Hl|Hg].
    + rewrite ptup_app by lia. rewrite lookup_app_l by lia. reflexivity.
    + rewrite lookup_app_r by lia.
      assert (Hp : ptup (data r ++ [newPage]) (Z.of_nat k) = []).
      { destruct (Nat.eq_dec k (length (data r))) as [->|Hk].
        - rewrite ptup_app_new. reflexivity.
        - apply ptup_out. rewrite length_app. simpl. lia. }
      rewrite Hp. simpl.
      destruct (k - length chains)%nat as [|[|n]]; reflexivity.
Qed.


Lemma tupleHash_cv r r' t : cv r' = cv r -> tupleHash r' t = tupleHash r t.
Proof. intros E. unfold tupleHash, cvItem. rewrite E. reflexivity. Qed.

Lemma bucketContent_source r chains pg cs :
  Counters r ->
  data r !! Z.to_nat (sp r) = Some pg ->
  chains !! Z.to_nat (sp r) = Some cs ->
  bucketContent r chains (Z.to_nat (sp r)) =
  pg_data pg ++ ocontent (ovflow r) cs.
Proof.
  intros (_ & Hsp & _) Hpg Hcs. unfold bucketContent.
  rewrite Hcs. simpl. f_equal. apply ptup_Some, getPage_nat, Hpg.
Qed.

Lemma MidSplit_start r chains pg cs :
  Structure r chains -> Counters r -> Addr r chains -> InSplit r ->
  data r !! Z.to_nat (sp r) = Some pg ->
  chains !! Z.to_nat (sp r) = Some cs ->
  MidSplit (splitStart r (pg_ovflow pg)) (sp r) (depth r) cs
    (allContent r chains)
    (Z.of_nat (length (ovflow r)) +
     Z.of_nat (length (bucketContent r chains (Z.to_nat (sp r)))))
    (bucketContent r chains)
    (splitStart r (pg_ovflow pg)) (chains ++ [[]]) [] None cs (pg_data pg).
Proof.
  intros HS HC HA HI Hpg Hcs.
  pose proof HC as (_ & Hsp & _).
  pose proof (lookup_lt_Some _ _ _ Hpg) as Hlt.
  pose proof (st_chains _ _ HS) as Hlc.
  pose proof (bucketContent_source r chains pg cs HC Hpg Hcs) as Hsrc.
  set (r3 := splitStart r (pg_ovflow pg)).
  assert (Hbc := bucketContent_splitStart r chains pg cs).
  fold r3 in Hbc.
  assert (Hprim : ptup (data r3) (sp r) = []).
  { simpl. unfold putPage. rewrite ptup_insert_eq; [reflexivity|].
    rewrite length_app. lia. }
  assert (Hweak : forall u, u ∈ bucketContent r chains (Z.to_nat (sp r)) ->
                         weak r3 (sp r) (depth r) u).
  { intros u Hu. unfold weak.
    rewrite (tupleHash_cv r r3 u eq_refl).
    apply bucketOf_sp_weak; [exact HC|].
    rewrite (HA (Z.to_nat (sp r)) u) by (assumption || lia). lia. }
  constructor.
  - apply Structure_splitStart; assumption.
  - apply sameShape_refl.
  - exact HI.
  - rewrite lookup_app_l by lia. exact Hcs.
  - reflexivity.
  - reflexivity.
  - intros k u Hk Hks Hu. rewrite Hbc in Hu by assumption.
    destruct (decide (k = Z.to_nat (sp r))); [contradiction|].
    destruct (decide (k < length chains)%nat); [|inversion Hu].
    unfold hb. rewrite (tupleHash_cv r r3 u eq_refl).
    apply (bucketOf_advance r r3); [reflexivity | reflexivity | | lia].
    apply HA; assumption.
  - intros k Hk1 Hk2. rewrite Hbc by assumption.
    destruct (decide (k = Z.to_nat (sp r))); [contradiction|].
    destruct (decide (k < length chains)%nat) as [|Hg]; [reflexivity|].
    unfold bucketContent. rewrite ptup_out by lia.
    rewrite lookup_ge_None_2 by lia. reflexivity.
  - intros u Hu. rewrite Hprim in Hu. inversion Hu.
  - intros i u Hi. inversion Hi.
  - intros i u Hi Hu. apply Hweak.
    eapply bucketContent_in_chain; eassumption.
  - apply Forall_forall. intros u Hu. split.
    + apply Hweak. rewrite Hsrc. apply elem_of_app. auto.
    + apply (wfPage_fits pg u); [|exact Hu].
      pose proof (st_wf_data _ _ HS) as Hw. rewrite Forall_forall in Hw.
      apply Hw. eapply list_elem_of_lookup_2, Hpg.
  - change (ltup (sp r) r3 None) with (ptup (data r3) (sp r)).
    rewrite Hprim. simpl.
    pose proof (st_wf_data _ _ HS) as Hw. rewrite Forall_forall in Hw.
    apply (Hw pg). eapply list_elem_of_lookup_2, Hpg.
  - unfold allContent. rewrite length_app. simpl length.
    rewrite Nat.add_1_r, seq_S, fmap_app, concat_app. simpl.
    rewrite Hbc by assumption.
    destruct (decide (length chains = Z.to_nat (sp r))); [lia|].
    destruct (decide (length chains < length chains)%nat); [lia|].
    simpl. rewrite !app_nil_r. rewrite Permutation_app_comm. symmetry.
    apply (concat_fmap_hit_list _ _ _ (Z.to_nat (sp r))).
    + apply NoDup_seq.
    + apply elem_of_seq. lia.
    + intros k Hk Hne. apply elem_of_seq in Hk. rewrite Hbc by assumption.
      destruct (decide (k = Z.to_nat (sp r))); [contradiction|].
      destruct (decide (k < length chains)%nat); [reflexivity | lia].
    + rewrite Hbc by assumption.
      destruct (decide (Z.to_nat (sp r) = Z.to_nat (sp r))); [|contradiction].
      rewrite Hsrc. reflexivity.
  - rewrite Hsrc, length_app. simpl ovflow. lia.
Qed.


(** When the chain is exhausted every tuple lies in the bucket of its
    hash under the advanced split pointer. *)
Lemma MidSplit_end_addr r3 s d cs base N frame rc cc done x :
  0 <= s ->
  MidSplit r3 s d cs base N frame rc cc done x [] [] ->
  forall (k : nat) u, (k < length cc)%nat ->
    u ∈ bucketContent rc cc k -> hb r3 u = Z.of_nat k.
Proof.
  intros Hs M k u Hk Hu.
  destruct (Nat.eq_dec k (Z.to_nat s)) as [->|Hne].
  - rewrite Z2Nat.id by lia. unfold bucketContent in Hu.
    rewrite (ms_chain _ _ _ _ _ _ _ _ _ _ _ _ _ M) in Hu. simpl in Hu.
    rewrite Z2Nat.id in Hu by lia.
    apply elem_of_app in Hu. destruct Hu as [Hu|Hu].
    + apply (ms_primary _ _ _ _ _ _ _ _ _ _ _ _ _ M), Hu.
    + apply elem_of_ocontent in Hu. destruct Hu as (i & Hi & Hu).
      apply (ms_done _ _ _ _ _ _ _ _ _ _ _ _ _ M i u); [|exact Hu].
      rewrite (ms_pos _ _ _ _ _ _ _ _ _ _ _ _ _ M), app_nil_r in Hi. exact Hi.
  - eapply (ms_other _ _ _ _ _ _ _ _ _ _ _ _ _ M); eassumption.
Qed.

(** When [sp] reaches [2^d] the addresses of depth [d] below [sp] are the
    addresses of depth [d+1] with [sp = 0]. *)
Lemma bucketOf_wrap r3 r' h :
  0 <= depth r3 < 32 -> sp r3 = 2 ^ depth r3 ->
  depth r' = depth r3 + 1 -> sp r' = 0 ->
  bucketOf r' h = bucketOf r3 h.
Proof.
  intros Hd Hsp Hd' Hsp'. unfold bucketOf. rewrite Hd', Hsp', Hsp.
  pose proof (getLower_range h (depth r3) ltac:(lia)).
  pose proof (getLower_range h (depth r3 + 1) ltac:(lia)).
  destruct (Z.ltb_spec (getLower h (depth r3 + 1)) 0); [lia|].
  destruct (Z.ltb_spec (getLower h (depth r3)) (2 ^ depth r3)); [|lia].
  rewrite wrap_id by lia. reflexivity.
Qed.

Lemma Addr_pages r r' chains :
  data r' = data r -> ovflow r' = ovflow r ->
  (forall u, bucketOf r' (tupleHash r' u) = bucketOf r (tupleHash r u)) ->
  Addr r chains -> Addr r' chains.
Proof.
  intros Ed Eo Eb HA k u Hk Hu. rewrite Eb. apply HA; [exact Hk|].
  unfold bucketContent in *. rewrite Ed, Eo in Hu. exact Hu.
Qed.

Lemma allContent_pages r r' chains :
  data r' = data r -> ovflow r' = ovflow r ->
  allContent r' chains = allContent r chains.
Proof.
  intros Ed Eo. unfold allContent, bucketContent. rewrite Ed, Eo. reflexivity.
Qed.

Lemma bucketContent_pages r r' chains k :
  data r' = data r -> ovflow r' = ovflow r ->
  bucketContent r' chains k = bucketContent r chains k.
Proof. intros Ed Eo. unfold bucketContent. rewrite Ed, Eo. reflexivity. Qed.


(** ** The split as a whole *)

Record SplitPost (r r' : Reln) (chains chains' : list (list Z)) : Prop :=
  mkSplitPost {
  sp_struct : Structure r' chains';
  sp_counters : Counters r';
  sp_addr : Addr r' chains';
  sp_content : allContent r' chains' ≡ₚ allContent r chains;
  sp_ovlen :
    Z.of_nat (length (ovflow r')) <=
    Z.of_nat (length (ovflow r)) +
    Z.of_nat (length (bucketContent r chains (Z.to_nat (sp r))));
  sp_frame : forall k : nat,
      k <> Z.to_nat (sp r) -> k <> Z.to_nat (sp r + 2 ^ depth r) ->
      bucketContent r' chains' k = bucketContent r chains k
}.

Lemma splitSp_start_eq r pg :
  Counters r -> npages r + 1 < 2 ^ 32 ->
  data r !! Z.to_nat (sp r) = Some pg ->
  let r1 := set_npages (set_data r (fst (addPage (data r))))
              (wrap (npages r + 1)) in
  let r2 := set_data r1 (putPage (data r1) (sp r1)
                           (pageSetOvflow newPage (pageOvflow pg))) in
  getPage (data r1) (sp r1) = Some pg /\
  set_sp r2 (wrap (sp r2 + 1)) = splitStart r (pg_ovflow pg).
Proof.
  intros HC Hb Hpg. pose proof (Counters_depth r HC) as Hd.
  destruct HC as (_ & Hsp & Hn & Hn32).
  pose proof (pow2_lt_32 (depth r) Hd) as Hp.
  change (2 ^ 32) with 4294967296 in *.
  pose proof (lookup_lt_Some _ _ _ Hpg) as Hlt.
  cbv zeta. unfold addPage. cbn [fst set_npages set_data set_sp data sp].
  split.
  - apply getPage_Some. rewrite length_app. split; [lia|].
    rewrite lookup_app_l by lia. exact Hpg.
  - unfold splitStart, pageOvflow.
    cbn [nattrs depth sp npages ntups c insertion splitting cv data ovflow].
    rewrite !wrap_id by lia. reflexivity.
Qed.

Lemma splitSp_spec k r chains :
  Structure r chains -> Counters r -> Addr r chains -> InSplit r ->
  npages r + 1 < 2 ^ 32 ->
  Z.of_nat (length (ovflow r)) +
  Z.of_nat (length (bucketContent r chains (Z.to_nat (sp r)))) < NO_PAGE ->
  exists r' chains',
    splitSp (addToRelation (S k)) r = Some r' /\
    SplitPost r r' chains chains'.
Proof.
  intros HS HC HA HI Hb HN.
  pose proof (Counters_depth r HC) as Hd.
  pose proof HC as (_ & Hsp & Hn & Hn32).
  destruct (lookup_lt_is_Some_2 (data r) (Z.to_nat (sp r))) as [pg Hpg].
  { pose proof (st_npages _ _ HS). pose proof (pow2_lt_32 _ Hd). lia. }
  destruct (lookup_lt_is_Some_2 chains (Z.to_nat (sp r))) as [cs Hcs].
  { rewrite (st_chains _ _ HS). eapply lookup_lt_Some, Hpg. }
  destruct (splitSp_start_eq r pg HC Hb Hpg) as [Hget Hstart].
  cbv zeta in Hget, Hstart.
  unfold splitSp. cbv zeta. rewrite Hget, Hstart.
  set (r3 := splitStart r (pg_ovflow pg)) in *.
  pose proof (MidSplit_start r chains pg cs HS HC HA HI Hpg Hcs) as M0.
  fold r3 in M0.
  assert (H3d : depth r3 = depth r) by reflexivity.
  assert (H3s : sp r3 = sp r + 1) by reflexivity.
  assert (H3n : npages r3 = 2 ^ depth r + sp r + 1) by (simpl; lia).
  destruct (reinsert_spec r3 (sp r) (depth r) cs _ _ _ Hd Hsp H3d H3s H3n HN
              k _ _ _ _ _ _ M0) as (r4 & cc4 & Hre & M4).
  unfold pageData. rewrite Hre.
  assert (Hhd : pageOvflow pg = hd NO_PAGE cs).
  { eapply Linked_first. eapply (st_linked _ _ HS); eassumption. }
  destruct (splitChain_spec r3 (sp r) (depth r) cs _ _ _ Hd Hsp H3d H3s H3n HN
              k cs r4 cc4 [] None (length (ovflow r)) (pageOvflow pg) M4 Hhd
              (Structure_chain_length _ _ _ _ HS Hcs))
    as (r5 & cc5 & done' & x' & Hsc & M5).
  rewrite Hsc.
  pose proof (ms_struct _ _ _ _ _ _ _ _ _ _ _ _ _ M5) as HS5.
  pose proof (ms_shape _ _ _ _ _ _ _ _ _ _ _ _ _ M5) as Sh5.
  pose proof (MidSplit_end_addr _ _ _ _ _ _ _ _ _ _ _ (proj1 Hsp) M5) as HA5.
  pose proof (ms_content _ _ _ _ _ _ _ _ _ _ _ _ _ M5) as Hc5.
  rewrite app_nil_r in Hc5.
  pose proof (ms_budget _ _ _ _ _ _ _ _ _ _ _ _ _ M5) as Hb5.
  simpl length in Hb5.
  pose proof (ms_frame _ _ _ _ _ _ _ _ _ _ _ _ _ M5) as Hf5.
  destruct Sh5 as (Na5 & De5 & Sp5 & Np5 & Cc5 & Sl5 & Cv5).
  rewrite Sp5, De5, H3s, H3d, shiftl_1_depth by exact Hd.
  pose proof (pow2_lt_32 (depth r) Hd) as Hp.
  change (2 ^ 32) with 4294967296 in *.
  assert (Hlen5 : Z.of_nat (length cc5) = npages r + 1).
  { rewrite (st_chains _ _ HS5), (st_npages _ _ HS5), Np5. reflexivity. }
  destruct (Z.eqb_spec (sp r + 1) (2 ^ depth r)) as [Hw|Hnw].
  - eexists _, cc5. split; [reflexivity|]. constructor.
    + apply (Structure_pages r5); [reflexivity | reflexivity | reflexivity
                                  | exact HS5].
    + unfold Counters. simpl. rewrite wrap_id by lia. rewrite Np5, H3n.
      rewrite Z.pow_add_r, Z.pow_1_r by lia.
      change (2 ^ 32) with 4294967296. lia.
    + intros k0 u Hk0 Hu.
      rewrite (bucketContent_pages r5) in Hu by reflexivity.
      rewrite <- (HA5 k0 u Hk0 Hu). unfold hb.
      rewrite (tupleHash_cv r3 _ u) by (simpl; exact Cv5).
      apply bucketOf_wrap; simpl; rewrite ?wrap_id by lia; lia.
    + rewrite (allContent_pages r5) by reflexivity. exact Hc5.
    + simpl ovflow. lia.
    + intros k0 Hk1 Hk2. rewrite (bucketContent_pages r5) by reflexivity.
      apply Hf5; assumption.
  - exists r5, cc5. split; [reflexivity|]. constructor.
    + exact HS5.
    + unfold Counters. rewrite De5, Sp5, Np5, H3d, H3s, H3n.
      change (2 ^ 32) with 4294967296. lia.
    + intros k0 u Hk0 Hu. rewrite <- (HA5 k0 u Hk0 Hu). unfold hb.
      rewrite (tupleHash_cv r3 r5 u Cv5).
      unfold bucketOf. rewrite De5, Sp5. reflexivity.
    + exact Hc5.
    + lia.
    + exact Hf5.
Qed.


(** ** Insertion in a relation at rest *)

Lemma Counters_shape r r' : sameShape r r' -> Counters r -> Counters r'.
Proof.
  intros (_ & De & Sp & Np & _). unfold Counters. rewrite De, Sp, Np. auto.
Qed.

Lemma place_Inv r chains t :
  Structure r chains -> Counters r -> Addr r chains -> fitsPage t ->
  Z.of_nat (length (ovflow r)) < NO_PAGE ->
  exists r' chains' loc,
    place r t = Some (r', bucketOf r (tupleHash r t)) /\
    Structure r' chains' /\ Counters r' /\ Addr r' chains' /\
    sameShape r r' /\
    PlacedAt r r' chains chains' t (bucketOf r (tupleHash r t)) loc /\
    allContent r' chains' ≡ₚ t :: allContent r chains /\
    t ∈ bucketContent r' chains' (Z.to_nat (bucketOf r (tupleHash r t))).
Proof.
  intros HS HC HA Hfit Hlen.
  pose proof (bucketOf_range r (tupleHash r t) HC) as Hb.
  destruct (place_spec r chains t HS Hb Hfit Hlen)
    as (r' & chains' & loc & Hpl & HS' & HP).
  pose proof (place_counters _ _ _ _ Hpl) as (Sh & _).
  assert (Hbc : 0 <= bucketOf r (tupleHash r t) < Z.of_nat (length chains)).
  { rewrite (st_chains _ _ HS), (st_npages _ _ HS). exact Hb. }
  pose proof (PlacedAt_bucket_hit _ _ _ _ _ _ _ HS' HP Hbc) as Hhit.
  exists r', chains', loc. split; [exact Hpl|]. split; [exact HS'|].
  split; [eapply Counters_shape; eassumption|]. split; [|split; [exact Sh|]].
  - intros k u Hk Hu.
    rewrite (bucketOf_shape _ _ _ Sh), (tupleHash_shape _ _ _ Sh).
    rewrite (PlacedAt_length _ _ _ _ _ _ _ HS' HP) in Hk.
    destruct (Nat.eq_dec k (Z.to_nat (bucketOf r (tupleHash r t)))) as [->|Hne].
    + rewrite Hhit in Hu. apply elem_of_cons in Hu.
      destruct Hu as [->|Hu]; [lia|]. apply HA; assumption.
    + rewrite (PlacedAt_bucket_other _ _ _ _ _ _ _ HS' HP k Hne) in Hu.
      apply HA; assumption.
  - split; [exact HP|]. split.
    + apply (PlacedAt_allContent _ _ _ _ _ _ _ HS' HP Hbc).
    + rewrite Hhit. constructor.
Qed.

Lemma bucketContent_le_all r chains (k : nat) :
  (k < length chains)%nat ->
  (length (bucketContent r chains k) <= length (allContent r chains))%nat.
Proof.
  intros Hk. unfold allContent.
  assert (Hin : k ∈ seq 0 (length chains)) by (apply elem_of_seq; lia).
  induction (seq 0 (length chains)) as [|j ids IH]; [inversion Hin|].
  rewrite fmap_cons, concat_cons, length_app.
  apply elem_of_cons in Hin. destruct Hin as [->|Hin]; [lia|].
  specialize (IH Hin). lia.
Qed.

(** The invariant of a relation at rest. *)
Record Inv (r : Reln) (chains : list (list Z)) : Prop := mkInv {
  inv_struct : Structure r chains;
  inv_counters : Counters r;
  inv_addr : Addr r chains;
  inv_splitting : splitting r = false;
  inv_c : c r <> 0
}.

Lemma Inv_flags r chains v i :
  Inv r chains ->
  Structure (set_splitting (set_insertion r i) v) chains /\
  Counters (set_splitting (set_insertion r i) v) /\
  Addr (set_splitting (set_insertion r i) v) chains.
Proof.
  intros [HS HC HA _ _]. split; [|split].
  - apply (Structure_pages r); [reflexivity | reflexivity | reflexivity
                               | exact HS].
  - exact HC.
  - apply (Addr_pages r); [reflexivity | reflexivity | | exact HA].
    intros u.
    rewrite (tupleHash_cv r (set_splitting (set_insertion r i) v) u eq_refl).
    reflexivity.
Qed.


(** An insertion into a relation at rest, with room in the overflow file
    for the pages it may append: it succeeds for every tuple that fits in
    a page, returns the bucket of the tuple under the descriptor it
    leaves, keeps the invariant and adds exactly the tuple. *)
Lemma addToRelation_spec k r chains t :
  Inv r chains -> fitsPage t -> npages r + 1 < 2 ^ 32 ->
  Z.of_nat (length (ovflow r)) + Z.of_nat (length (allContent r chains)) + 1
    < NO_PAGE ->
  exists r' chains',
    addToRelation (S (S k)) r t = Some (r', bucketOf r' (tupleHash r' t)) /\
    Inv r' chains' /\
    allContent r' chains' ≡ₚ t :: allContent r chains /\
    t ∈ bucketContent r' chains' (Z.to_nat (bucketOf r' (tupleHash r' t))) /\
    Z.of_nat (length (ovflow r')) <=
      Z.of_nat (length (ovflow r)) + Z.of_nat (length (allContent r chains)) + 1.
Proof.
  intros HI Hfit Hb HN. rewrite addToRelation_unfold.
  destruct (insertion r =? c r).
  - set (r1 := set_splitting (set_insertion r 0) true).
    destruct (Inv_flags r chains true 0 HI) as (HS1 & HC1 & HA1).
    fold r1 in HS1, HC1, HA1.
    assert (HI1 : InSplit r1).
    { split; [reflexivity|]. split; [reflexivity|]. apply (inv_c _ _ HI). }
    assert (Hsrc : (length (bucketContent r1 chains (Z.to_nat (sp r1))) <=
                    length (allContent r chains))%nat).
    { rewrite (bucketContent_pages r r1) by reflexivity.
      apply bucketContent_le_all.
      rewrite (st_chains _ _ (inv_struct _ _ HI)).
      pose proof (st_npages _ _ (inv_struct _ _ HI)).
      destruct (inv_counters _ _ HI) as (_ & Hsp & Hn & _).
      change (sp r1) with (sp r). lia. }
    destruct (splitSp_spec k r1 chains HS1 HC1 HA1 HI1 Hb)
      as (r2 & c2 & Hsplit & [HS2 HC2 HA2 Hc2 Ho2 _]).
    { change (ovflow r1) with (ovflow r). lia. }
    rewrite Hsplit.
    pose proof (splitSp_counters _ (addToRelation_QuietIns (S k)) _ _ HI1 Hsplit)
      as (_ & Cc2 & _).
    set (r2' := set_splitting r2 false).
    assert (HS2' : Structure r2' c2).
    { apply (Structure_pages r2); [reflexivity | reflexivity | reflexivity
                                   | exact HS2]. }
    assert (HA2' : Addr r2' c2).
    { apply (Addr_pages r2); [reflexivity | reflexivity | | exact HA2].
      intros u. rewrite (tupleHash_cv r2 r2' u eq_refl). reflexivity. }
    change (ovflow r1) with (ovflow r) in Ho2.
    destruct (place_Inv r2' c2 t HS2' HC2 HA2' Hfit)
      as (r' & c' & loc & Hpl & HS' & HC' & HA' & Sh & HP & Hcont & Hin).
    { change (ovflow r2') with (ovflow r2). lia. }
    rewrite <- (bucketOf_shape _ _ _ Sh), <- (tupleHash_shape _ _ _ Sh)
      in Hpl, Hin.
    exists r', c'. split; [exact Hpl|]. split; [|split; [|split]].
    + constructor; try assumption.
      * destruct Sh as (_ & _ & _ & _ & _ & Sl & _). rewrite Sl. reflexivity.
      * destruct Sh as (_ & _ & _ & _ & Cc & _). rewrite Cc.
        change (c r2') with (c r2). rewrite Cc2. apply (inv_c _ _ HI).
    + rewrite Hcont. constructor.
      rewrite (allContent_pages r2 r2') by reflexivity. rewrite Hc2.
      rewrite (allContent_pages r r1) by reflexivity. reflexivity.
    + exact Hin.
    + pose proof (pa_len_ov _ _ _ _ _ _ _ HP) as Hlo.
      change (ovflow r2') with (ovflow r2) in Hlo. lia.
  - destruct HI as [HS HC HA Hsl Hc].
    destruct (place_Inv r chains t HS HC HA Hfit)
      as (r' & c' & loc & Hpl & HS' & HC' & HA' & Sh & HP & Hcont & Hin);
      [lia|].
    rewrite <- (bucketOf_shape _ _ _ Sh), <- (tupleHash_shape _ _ _ Sh)
      in Hpl, Hin.
    exists r', c'. split; [exact Hpl|]. split; [|split; [|split]].
    + constructor; try assumption.
      * destruct Sh as (_ & _ & _ & _ & _ & Sl & _). congruence.
      * destruct Sh as (_ & _ & _ & _ & Cc & _). congruence.
    + exact Hcont.
    + exact Hin.
    + pose proof (pa_len_ov _ _ _ _ _ _ _ HP) as Hlo. lia.
Qed.


(** A sequence of insertions.  The overflow file has room for the pages
    the insertions and their splits may append. *)
Lemma addAll_spec k : forall ts r chains,
  Inv r chains -> Forall fitsPage ts ->
  npages r + Z.of_nat (length ts) < 2 ^ 32 ->
  Z.of_nat (length (ovflow r)) +
  Z.of_nat (length ts) *
    (Z.of_nat (length (allContent r chains)) + Z.of_nat (length ts))
    < NO_PAGE ->
  exists r' chains' ps,
    addAll (S (S k)) r ts = Some (r', ps) /\
    Inv r' chains' /\
    allContent r' chains' ≡ₚ allContent r chains ++ ts /\
    Forall (fun p => p <> NO_PAGE) ps /\ length ps = length ts.
Proof.
  induction ts as [|t ts IH]; intros r chains HI Hfit Hb HN.
  - exists r, chains, []. split; [reflexivity|]. split; [exact HI|].
    rewrite app_nil_r. split; [reflexivity|]. split; [constructor | reflexivity].
  - apply Forall_cons in Hfit. destruct Hfit as [Hft Hfit].
    simpl length in Hb, HN. rewrite Nat2Z.inj_succ in Hb, HN.
    set (n := Z.of_nat (length ts)) in *.
    set (T := Z.of_nat (length (allContent r chains))) in *.
    assert (Hn0 : 0 <= n) by (unfold n; lia).
    assert (HT0 : 0 <= T) by (unfold T; lia).
    destruct (addToRelation_spec k r chains t HI Hft)
      as (r1 & c1 & Hadd & HI1 & Hc1 & Hin1 & Ho1); [lia | fold T; nia |].
    fold T in Ho1.
    pose proof (addToRelation_npages_le _ _ _ _ _ (inv_counters _ _ HI)
                  (inv_c _ _ HI) (inv_splitting _ _ HI) ltac:(lia) Hadd)
      as (Hnp & _).
    assert (HT1 : Z.of_nat (length (allContent r1 c1)) = T + 1).
    { rewrite (Permutation_length Hc1). simpl length. unfold T. lia. }
    destruct (IH r1 c1 HI1 Hfit) as (r' & c' & ps & Hall & HI' & Hc' & Hps & Hl);
      [fold n; lia | fold n; rewrite HT1; nia |].
    exists r', c', (bucketOf r1 (tupleHash r1 t) :: ps).
    split; [|split; [exact HI'|split; [|split]]].
    + cbn [addAll]. rewrite Hadd, Hall. reflexivity.
    + rewrite Hc', Hc1. simpl. apply Permutation_middle.
    + constructor; [|exact Hps].
      pose proof (bucketOf_range r1 (tupleHash r1 t) (inv_counters _ _ HI1)).
      destruct (inv_counters _ _ HI1) as (_ & _ & _ & H32).
      unfold NO_PAGE. lia.
    + simpl. rewrite Hl. reflexivity.
Qed.


(** ** Split destinations *)

(** C7.  At a split of bucket [sp] at depth [d], every tuple of the split
    source has, under the advanced split pointer, the address given by its
    low [d+1] hash bits, and that address is the old [sp] or the buddy
    [sp + 2^d]; the split succeeds and leaves every other bucket with the
    tuples it had, every tuple lying in the bucket of its hash. *)
Theorem split_destinations (k : nat) (r : Reln) (chains : list (list Z)) :
  Structure r chains -> Counters r -> Addr r chains -> InSplit r ->
  npages r + 1 < 2 ^ 32 ->
  Z.of_nat (length (ovflow r)) +
  Z.of_nat (length (bucketContent r chains (Z.to_nat (sp r)))) < NO_PAGE ->
  (forall u r3,
      u ∈ bucketContent r chains (Z.to_nat (sp r)) ->
      depth r3 = depth r -> sp r3 = sp r + 1 -> cv r3 = cv r ->
      bucketOf r3 (tupleHash r3 u) = getLower (tupleHash r u) (depth r + 1) /\
      (bucketOf r3 (tupleHash r3 u) = sp r \/
       bucketOf r3 (tupleHash r3 u) = sp r + 2 ^ depth r)) /\
  exists r' chains',
    splitSp (addToRelation (S k)) r = Some r' /\
    Structure r' chains' /\ Addr r' chains' /\
    forall b : nat,
      b <> Z.to_nat (sp r) -> b <> Z.to_nat (sp r + 2 ^ depth r) ->
      bucketContent r' chains' b = bucketContent r chains b.
Proof.
  intros HS HC HA HI Hb HN. split.
  - intros u r3 Hu Hd3 Hs3 Hc3.
    pose proof (Counters_depth r HC) as Hd.
    pose proof HC as (_ & Hsp & Hn & _).
    assert (Hk : (Z.to_nat (sp r) < length chains)%nat).
    { rewrite (st_chains _ _ HS). pose proof (st_npages _ _ HS).
      pose proof (pow2_lt_32 _ Hd). lia. }
    pose proof (HA _ u Hk Hu) as Hbu. rewrite Z2Nat.id in Hbu by lia.
    pose proof (bucketOf_sp_weak r _ HC Hbu) as Hw.
    rewrite (tupleHash_cv r r3 u Hc3).
    unfold bucketOf. rewrite Hd3, Hs3, Hw.
    destruct (Z.ltb_spec (sp r) (sp r + 1)); [|lia].
    rewrite wrap_id by lia. split; [reflexivity|].
    destruct (getLower_succ (tupleHash r u) (depth r) Hd) as [E|E];
      rewrite E, Hw; auto.
  - destruct (splitSp_spec k r chains HS HC HA HI Hb HN)
      as (r' & chains' & Hsplit & [HS' _ HA' _ _ Hf]).
    exists r', chains'. split; [exact Hsplit|]. split; [exact HS'|].
    split; [exact HA' | exact Hf].
Qed.


(** ** Insert addressing *)

(** The effective depth of a bucket (section 3): [d+1] below the split
    pointer and from [2^d] on, [d] otherwise. *)
Definition effDepth (r : Reln) (b : Z) : Z :=
  if (b <? sp r) || (2 ^ depth r <=? b) then depth r + 1 else depth r.

Lemma bucketOf_effDepth r h b :
  Counters r -> bucketOf r h = b -> getLower h (effDepth r b) = b.
Proof.
  intros HC Hb. pose proof (Counters_depth r HC) as Hd.
  destruct HC as (_ & Hs & _).
  pose proof (getLower_range h (depth r) ltac:(lia)) as Hl.
  unfold effDepth. unfold bucketOf in Hb.
  rewrite (wrap_id (depth r + 1)) in Hb by lia.
  destruct (Z.ltb_spec (getLower h (depth r)) (sp r)) as [Hlt|Hge].
  - destruct (getLower_succ h (depth r) Hd) as [E|E].
    + destruct (Z.ltb_spec b (sp r)); [simpl; exact Hb | lia].
    + destruct (Z.leb_spec (2 ^ depth r) b); [|lia].
      rewrite orb_true_r. exact Hb.
  - destruct (Z.ltb_spec b (sp r)); [lia|].
    destruct (Z.leb_spec (2 ^ depth r) b); [lia|]. simpl. exact Hb.
Qed.

(** C2, as amended.  In a relation at rest a tuple that fits in a page is
    stored in the bucket given by the low [d] bits of its composite hash,
    or the low [d+1] bits when those [d] bits are below [sp] ([d] and
    [sp] as the call leaves them), and that bucket id is returned; every
    tuple of every bucket then has the low bits of its hash, at the
    effective depth of the bucket, equal to the bucket id. *)
Theorem insert_addressing (k : nat) (r : Reln) (chains : list (list Z))
    (t : Tuple) :
  Inv r chains -> fitsPage t -> npages r + 1 < 2 ^ 32 ->
  Z.of_nat (length (ovflow r)) + Z.of_nat (length (allContent r chains)) + 1
    < NO_PAGE ->
  exists r' chains' p,
    addToRelation (S (S k)) r t = Some (r', p) /\
    p = (let h := tupleHash r' t in
         if getLower h (depth r') <? sp r'
         then getLower h (depth r' + 1) else getLower h (depth r')) /\
    p <> NO_PAGE /\
    t ∈ bucketContent r' chains' (Z.to_nat p) /\
    Inv r' chains' /\
    forall (b : nat) u,
      (b < length chains')%nat -> u ∈ bucketContent r' chains' b ->
      getLower (tupleHash r' u) (effDepth r' (Z.of_nat b)) = Z.of_nat b.
Proof.
  intros HI Hfit Hb HN.
  destruct (addToRelation_spec k r chains t HI Hfit Hb HN)
    as (r' & chains' & Hadd & HI' & _ & Hin & _).
  pose proof (inv_counters _ _ HI') as HC'.
  pose proof (Counters_depth r' HC') as Hd'.
  exists r', chains', (bucketOf r' (tupleHash r' t)).
  split; [exact Hadd|]. split; [|split; [|split; [exact Hin|split]]].
  - cbv zeta. unfold bucketOf. rewrite wrap_id by lia. reflexivity.
  - pose proof (bucketOf_range r' (tupleHash r' t) HC').
    destruct HC' as (_ & _ & _ & H32). unfold NO_PAGE. lia.
  - exact HI'.
  - intros b u Hlt Hu. apply bucketOf_effDepth; [exact HC'|].
    apply (inv_addr _ _ HI'); assumption.
Qed.


(** ** The NoSpace condition *)

Lemma addToPage_nofit pg t : ~ fitsPage t -> addToPage pg t = None.
Proof.
  intros H. apply addToPage_None. unfold fitsPage in H.
  pose proof (pageFree_nonneg pg). lia.
Qed.

(** A tuple larger than a page finds no room: the chain is walked to its
    end, a page is appended and the insertion gives up. *)
Lemma place_nofit r chains t :
  Structure r chains ->
  0 <= bucketOf r (tupleHash r t) < npages r -> ~ fitsPage t ->
  Z.of_nat (length (ovflow r)) < NO_PAGE ->
  exists r', place r t = Some (r', NO_PAGE).
Proof.
  intros HS Hb Hnf Hlen. unfold place. cbv zeta.
  set (b := bucketOf r (tupleHash r t)) in *. clearbody b.
  rewrite <- (st_npages _ _ HS) in Hb.
  destruct (getPage_in_range (data r) b Hb) as [pg Hpg]. rewrite Hpg.
  assert (Hw : wrap (Z.of_nat (length (ovflow r))) = Z.of_nat (length (ovflow r))).
  { apply wrap_small. unfold NO_PAGE in Hlen. lia. }
  destruct (lookup_lt_is_Some_2 chains (Z.to_nat b)) as [ch Hch].
  { rewrite (st_chains _ _ HS). lia. }
  apply getPage_Some in Hpg as Hpg'. destruct Hpg' as [_ Hlk].
  pose proof (st_linked _ _ HS _ _ _ Hlk Hch) as HL.
  rewrite (addToPage_nofit pg t Hnf).
  unfold pageOvflow. destruct (Z.eqb_spec (pg_ovflow pg) NO_PAGE) as [Hno|Hyes].
  - unfold addPage. rewrite Hw. cbn [set_ovflow set_data ovflow data].
    rewrite getPage_app_new, (addToPage_nofit newPage t Hnf).
    eexists. reflexivity.
  - pose proof (Structure_chain_length _ _ _ _ HS Hch) as Hrounds.
    destruct (scanChain_Linked (ovflow r) t ch (pg_ovflow pg) NO_PAGE pg
                (length (ovflow r)) HL Hrounds)
      as [(c1 & i & c2 & pi & pi' & _ & _ & _ & Hai & _)
         | (_ & lp & lpg & Hs & _)].
    + rewrite (addToPage_nofit pi t Hnf) in Hai. discriminate.
    + rewrite Hs. unfold addPage. rewrite Hw.
      cbn [set_ovflow set_data ovflow data].
      rewrite getPage_app_new, (addToPage_nofit newPage t Hnf).
      eexists. reflexivity.
Qed.

Lemma addToRelation_nofit k r chains t :
  Inv r chains -> ~ fitsPage t -> npages r + 1 < 2 ^ 32 ->
  Z.of_nat (length (ovflow r)) + Z.of_nat (length (allContent r chains)) + 1
    < NO_PAGE ->
  exists r', addToRelation (S (S k)) r t = Some (r', NO_PAGE).
Proof.
  intros HI Hnf Hb HN. rewrite addToRelation_unfold.
  destruct (insertion r =? c r).
  - set (r1 := set_splitting (set_insertion r 0) true).
    destruct (Inv_flags r chains true 0 HI) as (HS1 & HC1 & HA1).
    fold r1 in HS1, HC1, HA1.
    assert (HI1 : InSplit r1).
    { split; [reflexivity|]. split; [reflexivity|]. apply (inv_c _ _ HI). }
    assert (Hsrc : (length (bucketContent r1 chains (Z.to_nat (sp r1))) <=
                    length (allContent r chains))%nat).
    { rewrite (bucketContent_pages r r1) by reflexivity.
      apply bucketContent_le_all.
      rewrite (st_chains _ _ (inv_struct _ _ HI)).
      pose proof (st_npages _ _ (inv_struct _ _ HI)).
      destruct (inv_counters _ _ HI) as (_ & Hsp & Hn & _).
      change (sp r1) with (sp r). lia. }
    destruct (splitSp_spec k r1 chains HS1 HC1 HA1 HI1 Hb)
      as (r2 & c2 & Hsplit & [HS2 HC2 HA2 Hc2 Ho2 _]).
    { change (ovflow r1) with (ovflow r). lia. }
    rewrite Hsplit. change (ovflow r1) with (ovflow r) in Ho2.
    apply (place_nofit (set_splitting r2 false) c2 t).
    + apply (Structure_pages r2); [reflexivity | reflexivity | reflexivity
                                   | exact HS2].
    + apply (bucketOf_range (set_splitting r2 false)). exact HC2.
    + exact Hnf.
    + change (ovflow (set_splitting r2 false)) with (ovflow r2). lia.
  - destruct HI as [HS HC HA _ _].
    apply (place_nofit r chains t HS); [apply bucketOf_range, HC | exact Hnf
                                       | lia].
Qed.

(** C9.  In a relation at rest an insertion returns; it returns
    [NO_PAGE] if and only if the serialized tuple is longer than the data
    area of an empty page; a tuple that fits is stored in a page of the
    bucket that is returned. *)
Theorem nospace_condition (k : nat) (r : Reln) (chains : list (list Z))
    (t : Tuple) :
  Inv r chains -> npages r + 1 < 2 ^ 32 ->
  Z.of_nat (length (ovflow r)) + Z.of_nat (length (allContent r chains)) + 1
    < NO_PAGE ->
  exists r' p,
    addToRelation (S (S k)) r t = Some (r', p) /\
    (p = NO_PAGE <-> dataCap < tupLength t) /\
    (tupLength t <= dataCap ->
     exists chains',
       Inv r' chains' /\ t ∈ bucketContent r' chains' (Z.to_nat p) /\
       allContent r' chains' ≡ₚ t :: allContent r chains).
Proof.
  intros HI Hb HN.
  destruct (Z_le_gt_dec (tupLength t) dataCap) as [Hfit|Hnf].
  - destruct (addToRelation_spec k r chains t HI Hfit Hb HN)
      as (r' & chains' & Hadd & HI' & Hc & Hin & _).
    exists r', (bucketOf r' (tupleHash r' t)). split; [exact Hadd|]. split.
    + pose proof (bucketOf_range r' (tupleHash r' t) (inv_counters _ _ HI')).
      destruct (inv_counters _ _ HI') as (_ & _ & _ & H32).
      unfold NO_PAGE. split; lia.
    + intros _. exists chains'. split; [exact HI'|]. split; assumption.
  - destruct (addToRelation_nofit k r chains t HI) as (r' & Hadd);
      [unfold fitsPage; lia | exact Hb | exact HN |].
    exists r', NO_PAGE. split; [exact Hadd|]. split; [|lia].
    split; [lia | reflexivity].
Qed.


(** ** A failed insertion *)

Lemma getPage_insert_ne (f : list Page) (i j : Z) pg :
  0 <= i -> i <> j -> getPage (<[Z.to_nat i := pg]> f) j = getPage f j.
Proof.
  intros Hi Hne. unfold getPage. rewrite length_insert.
  destruct (Z.leb_spec 0 j); simpl; [|reflexivity].
  rewrite list_lookup_insert_ne by lia. reflexivity.
Qed.

(** C8, as amended.  When an insertion that triggers no split
    ([insertion <> c]) returns [NO_PAGE], the counters of the descriptor
    are unchanged, the overflow file is the old one with one empty page
    appended, every primary page other than the one of the tuple's bucket
    is unchanged, every primary page holds the tuples it held, and when
    the bucket already had an overflow chain its primary page is unchanged
    too. *)
Theorem failed_insert_state (fuel : nat) (r : Reln) (t : Tuple) (r' : Reln) :
  Counters r -> insertion r <> c r ->
  addToRelation fuel r t = Some (r', NO_PAGE) ->
  (nattrs r' = nattrs r /\ depth r' = depth r /\ sp r' = sp r /\
   npages r' = npages r /\ ntups r' = ntups r /\ c r' = c r /\
   insertion r' = insertion r /\ splitting r' = splitting r /\
   cv r' = cv r) /\
  ovflow r' = ovflow r ++ [newPage] /\
  length (data r') = length (data r) /\
  (forall b, ptup (data r') b = ptup (data r) b) /\
  (forall b, b <> bucketOf r (tupleHash r t) ->
     getPage (data r') b = getPage (data r) b) /\
  (forall pg, getPage (data r) (bucketOf r (tupleHash r t)) = Some pg ->
     pageOvflow pg <> NO_PAGE -> data r' = data r).
Proof.
  intros HC Hins. destruct fuel as [|k]; [discriminate|].
  rewrite addToRelation_nested by exact Hins.
  pose proof (bucketOf_range r (tupleHash r t) HC) as Hb.
  assert (Hnp : bucketOf r (tupleHash r t) <> NO_PAGE).
  { destruct HC as (_ & _ & _ & H32). unfold NO_PAGE. lia. }
  unfold place. cbv zeta.
  set (b := bucketOf r (tupleHash r t)) in *. clearbody b.
  destruct (getPage (data r) b) as [pg|] eqn:Hpg; [|discriminate].
  destruct (addToPage pg t) as [pg'|]; [intros H; inversion H; congruence|].
  destruct (Z.eqb_spec (pageOvflow pg) NO_PAGE) as [Hno|Hyes].
  - unfold addPage. cbn [set_ovflow set_data ovflow data].
    destruct (getPage (ovflow r ++ [newPage]) _) as [newpg|]; [|discriminate].
    destruct (addToPage newpg t); [intros H; inversion H; congruence|].
    intros [= <-]. cbn. unfold putPage.
    split; [repeat split|]. split; [reflexivity|].
    split; [apply length_insert|]. split; [|split].
    + intros b0. apply ptup_insert_link, Hpg.
    + intros b0 Hne. apply getPage_insert_ne; [lia | congruence].
    + intros pg0 [= <-] Hlink. contradiction.
  - destruct (scanChain _ _ _ _ _ _) as [[ovp ovpg'|prevp prevpg]|];
      [intros H; inversion H; congruence | | discriminate].
    unfold addPage. cbn [set_ovflow set_data ovflow data].
    destruct (getPage (ovflow r ++ [newPage]) _) as [newpg|]; [|discriminate].
    destruct (addToPage newpg t); [intros H; inversion H; congruence|].
    intros [= <-]. cbn.
    split; [repeat split|]. split; [reflexivity|].
    split; [reflexivity|]. split; [reflexivity|].
    split; [reflexivity|]. intros; reflexivity.
Qed.


(** ** The full-wildcard query *)

(** Every field of the pattern is the wildcard, one per attribute. *)
Definition fullWildcard (r : Reln) (pt : Tuple) : Prop :=
  length (tupleVals pt) = Z.to_nat (nattrs r) /\
  Forall (fun v => v = "?"%string) (tupleVals pt).

(** The choice vector names attributes of the schema. *)
Definition cvValid (r : Reln) : Prop :=
  forall i : nat, (Z.to_nat (fst (cvItem r i)) < Z.to_nat (nattrs r))%nat.

Lemma fullWildcard_match r pt t : fullWildcard r pt -> tupleMatch r pt t = true.
Proof.
  intros [Hl Hs]. unfold tupleMatch. apply forallb_forall. intros i Hi.
  apply in_seq in Hi. unfold fieldMatch, tupleField.
  destruct (lookup_lt_is_Some_2 (tupleVals pt) i) as [v Hv]; [lia|].
  rewrite Hv. rewrite Forall_forall in Hs.
  rewrite (Hs v) by (eapply list_elem_of_lookup_2, Hv). reflexivity.
Qed.

Lemma compilePattern_full r vals : forall idx kn stars,
  (forall i : nat, exists v, vals !! Z.to_nat (fst (cvItem r i)) = Some v /\
                             v = "?"%string) ->
  compilePattern r vals idx kn stars =
  Some (kn, stars ++ ((fun i : nat => Z.of_nat i mod 256) <$> idx)).
Proof.
  induction idx as [|i idx IH]; intros kn stars H; simpl.
  - rewrite app_nil_r. reflexivity.
  - destruct (H i) as (v & Hv & ->). destruct (cvItem r i) as [att bit].
    simpl in Hv. rewrite Hv. simpl. rewrite IH by exact H.
    rewrite <- app_assoc. reflexivity.
Qed.

Lemma star_positions (n : nat) :
  (n <= 256)%nat ->
  (fun i : nat => Z.of_nat i mod 256) <$> seq 0 n = Z.of_nat <$> seq 0 n.
Proof.
  intros Hn. apply list_fmap_ext. intros k i Hi.
  apply lookup_seq in Hi. destruct Hi as [-> Hk]. simpl.
  apply Z.mod_small. lia.
Qed.

Lemma setBit_land_ones bs m :
  0 <= m < 32 ->
  (if bitIsSet bs m then setBit (Z.land bs (Z.ones m)) m
   else Z.land bs (Z.ones m)) = Z.land bs (Z.ones (m + 1)).
Proof.
  intros Hm. unfold bitIsSet, setBit. rewrite Z.shiftl_1_l.
  pose proof (pow2_lt_32 m Hm) as Hp. rewrite wrap_small by lia.
  apply Z.bits_inj'. intros i Hi.
  destruct (Z.testbit bs m) eqn:Eb.
  - rewrite Z.lor_spec, !Z.land_spec, Z.pow2_bits_eqb by lia.
    destruct (Z.eqb_spec m i) as [->|Hne].
    + rewrite Eb, (Z.ones_spec_low (i + 1)) by lia. rewrite orb_true_r.
      reflexivity.
    + rewrite orb_false_r. destruct (Z_lt_le_dec i m).
      * rewrite !Z.ones_spec_low by lia. reflexivity.
      * rewrite !Z.ones_spec_high by lia. reflexivity.
  - rewrite !Z.land_spec. destruct (Z.eq_dec m i) as [->|Hne].
    + rewrite Eb. reflexivity.
    + destruct (Z_lt_le_dec i m).
      * rewrite !Z.ones_spec_low by lia. reflexivity.
      * rewrite !Z.ones_spec_high by lia. reflexivity.
Qed.

(** With a star at every position the scattered counter is the counter. *)
Lemma formUnknown_full (n : nat) bs :
  (n <= 32)%nat -> 0 <= bs < 2 ^ Z.of_nat n ->
  formUnknown (Z.of_nat n) (Z.of_nat <$> seq 0 n) bs = bs.
Proof.
  intros Hn Hbs. unfold formUnknown. rewrite Nat2Z.id.
  assert (H : forall m, (m <= n)%nat ->
            fold_left
              (fun u i => if bitIsSet bs (Z.of_nat i)
                          then setBit u (nth i (Z.of_nat <$> seq 0 n) 0) else u)
              (seq 0 m) 0 = Z.land bs (Z.ones (Z.of_nat m))).
  { induction m as [|m IH]; intros Hm.
    - simpl. rewrite Z.land_0_r. reflexivity.
    - rewrite seq_S, fold_left_app, IH by lia. simpl.
      assert (Hnth : nth m (Z.of_nat <$> seq 0 n) 0 = Z.of_nat m).
      { rewrite nth_lookup, list_lookup_fmap, lookup_seq_lt by lia.
        reflexivity. }
      rewrite Hnth, setBit_land_ones by lia. f_equal. f_equal. lia. }
  rewrite H by lia. rewrite Z.land_ones by lia. apply Z.mod_small. exact Hbs.
Qed.

Lemma formUnknown_zero n stars : formUnknown n stars 0 = 0.
Proof.
  unfold formUnknown. induction (seq 0 (Z.to_nat n)) as [|i l IH];
    [reflexivity|].
  simpl. unfold bitIsSet at 1. rewrite Z.testbit_0_l. exact IH.
Qed.

Lemma getLower_zero k : getLower 0 k = 0.
Proof. unfold getLower. destruct (k =? 0); [reflexivity | apply Z.land_0_l]. Qed.

Lemma bucketOf_zero r : bucketOf r 0 = 0.
Proof. unfold bucketOf. rewrite !getLower_zero. destruct (0 <? sp r); reflexivity. Qed.


Lemma length_le_runLength (l : list Tuple) : Z.of_nat (length l) <= runLength l.
Proof.
  induction l as [|t l IH]; simpl length; simpl runLength; [lia|].
  pose proof (tupLength_pos t). lia.
Qed.

Lemma set_scan_id q : set_scan q (curpage q) (nTupleScanned q) = q.
Proof. destruct q. reflexivity. Qed.

Lemma getNextLoop_unfold rounds q :
  getNextLoop rounds q =
  match scanPage q with
  | (Some t, q1) => Some (Some t, q1)
  | (None, q1) =>
      match scanOvflow (length (ovflow (rel q1))) q1 with
      | None => None
      | Some (Some t, q2) => Some (Some t, q2)
      | Some (None, q2) =>
          if bitSeq q2 =? bitSeqMax q2 then Some (None, q2)
          else
            match rounds with
            | O => None
            | S k =>
                match advance q2 with
                | None => None
                | Some q3 => getNextLoop k q3
                end
            end
      end
  end.
Proof. destruct rounds; reflexivity. Qed.

Section FullScan.

Variables (r : Reln) (chains : list (list Z)) (pt : Tuple).
Hypothesis HS : Structure r chains.
Hypothesis HC : Counters r.
Hypothesis Hfw : fullWildcard r pt.

(** The state of a full-wildcard scan; [cr] are the overflow pages of the
    current bucket still to be read. *)
Record QInv (q : Query) (cr : list Z) : Prop := mkQInv {
  qi_rel : rel q = r;
  qi_query : query q = pt;
  qi_known : known q = 0;
  qi_nstars : nstars q = depth r + 1;
  qi_stars : starBits q = Z.of_nat <$> seq 0 (Z.to_nat (depth r + 1));
  qi_max : bitSeqMax q = 2 ^ (depth r + 1) - 1;
  qi_seq : 0 <= bitSeq q <= bitSeqMax q;
  qi_linked : Linked (olinks r) (pg_ovflow (curpage q)) cr;
  qi_len : (length cr <= length (ovflow r))%nat;
  qi_scanned :
    0 <= nTupleScanned q <= Z.of_nat (length (pg_data (curpage q)));
  qi_wf : wfPage (curpage q);
  qi_skip : npages r <= bitSeq q ->
    cr = [] /\ drop (Z.to_nat (nTupleScanned q)) (pg_data (curpage q)) = []
}.

(** The buckets behind the current one. *)
Definition laterBuckets (bs : Z) : list Tuple :=
  concat (bucketContent r chains <$>
            seq (S (Z.to_nat bs)) (Z.to_nat (npages r) - S (Z.to_nat bs))).

(** What the scan has still to return. *)
Definition remaining (q : Query) (cr : list Z) : list Tuple :=
  drop (Z.to_nat (nTupleScanned q)) (pg_data (curpage q)) ++
  ocontent (ovflow r) cr ++ laterBuckets (bitSeq q).

Lemma scanPage_full q cr :
  QInv q cr ->
  match drop (Z.to_nat (nTupleScanned q)) (pg_data (curpage q)) with
  | [] => scanPage q = (None, q)
  | t :: l =>
      exists q', scanPage q = (Some t, q') /\ QInv q' cr /\
        bitSeq q' = bitSeq q /\
        drop (Z.to_nat (nTupleScanned q')) (pg_data (curpage q')) = l
  end.
Proof.
  intros Q. unfold scanPage, pageData.
  rewrite (qi_rel _ _ Q), (qi_query _ _ Q).
  destruct (drop _ _) as [|t l] eqn:Ed; simpl.
  - rewrite set_scan_id. reflexivity.
  - rewrite (fullWildcard_match r pt t Hfw).
    pose proof (qi_scanned _ _ Q) as Hn.
    pose proof (qi_wf _ _ Q) as Hw. unfold wfPage, pageFree in Hw.
    pose proof (length_le_runLength (pg_data (curpage q))) as Hl.
    assert (Hlt : (Z.to_nat (nTupleScanned q)
                   < length (pg_data (curpage q)))%nat).
    { destruct (Nat.lt_ge_cases (Z.to_nat (nTupleScanned q))
                  (length (pg_data (curpage q)))) as [|Hge]; [assumption|].
      rewrite drop_ge in Ed by exact Hge. discriminate. }
    assert (Hwr : wrap (nTupleScanned q + 1) = nTupleScanned q + 1).
    { apply wrap_id. unfold dataCap, PAGESIZE, HEADER in Hw. lia. }
    rewrite Hwr. eexists. split; [reflexivity|].
    assert (Hdrop : drop (Z.to_nat (nTupleScanned q + 1)) (pg_data (curpage q))
                    = l).
    { replace (Z.to_nat (nTupleScanned q + 1))
        with (Z.to_nat (nTupleScanned q) + 1)%nat by lia.
      rewrite <- drop_drop, Ed. reflexivity. }
    split; [|split; [reflexivity | exact Hdrop]].
    destruct Q. constructor; simpl; try assumption.
    + lia.
    + intros Hsk. destruct (qi_skip0 Hsk) as [_ E].
      rewrite E in Ed. discriminate.
Qed.


Lemma QInv_set_page q i rest pgi :
  QInv q (i :: rest) -> getPage (ovflow r) i = Some pgi ->
  QInv (set_scan q pgi 0) rest.
Proof.
  intros Q Hpg. pose proof (qi_linked _ _ Q) as HL.
  unfold olinks in HL. apply Linked_cons_page in HL.
  destruct HL as (_ & _ & pg' & Hpg' & HL).
  rewrite Hpg in Hpg'. injection Hpg' as <-.
  pose proof (qi_len _ _ Q) as Hlen. simpl in Hlen.
  destruct Q. constructor; simpl; try assumption.
  - lia.
  - lia.
  - eapply Forall_wf_lookup; [apply (st_wf_ovflow _ _ HS) | exact Hpg].
  - intros Hsk. destruct (qi_skip0 Hsk) as [E _]. discriminate.
Qed.

(** The overflow pages of the bucket, once the current page is done. *)
Lemma scanOvflow_full : forall cr q rounds,
  QInv q cr ->
  drop (Z.to_nat (nTupleScanned q)) (pg_data (curpage q)) = [] ->
  (length cr <= rounds)%nat ->
  exists res q' cr',
    scanOvflow rounds q = Some (res, q') /\ QInv q' cr' /\
    bitSeq q' = bitSeq q /\
    match res with
    | Some t =>
        ocontent (ovflow r) cr =
        t :: drop (Z.to_nat (nTupleScanned q')) (pg_data (curpage q')) ++
             ocontent (ovflow r) cr'
    | None =>
        ocontent (ovflow r) cr = [] /\ cr' = [] /\
        drop (Z.to_nat (nTupleScanned q')) (pg_data (curpage q')) = []
    end.
Proof.
  induction cr as [|i rest IH]; intros q rounds Q Hex Hr.
  - pose proof (qi_linked _ _ Q) as HL. simpl in HL.
    exists None, q, []. split.
    + destruct rounds; simpl; unfold pageOvflow; rewrite HL; reflexivity.
    + split; [exact Q|]. split; [reflexivity|]. repeat split. exact Hex.
  - pose proof (qi_linked _ _ Q) as HL.
    unfold olinks in HL. apply Linked_cons_page in HL.
    destruct HL as (Hlink & Hn & pgi & Hpg & HL).
    destruct rounds as [|n]; [simpl in Hr; lia|]. simpl in Hr.
    cbn [scanOvflow]. unfold pageOvflow. rewrite Hlink.
    destruct (Z.eqb_spec i NO_PAGE) as [|_]; [contradiction|].
    rewrite (qi_rel _ _ Q), Hpg.
    pose proof (QInv_set_page q i rest pgi Q Hpg) as Q1.
    pose proof (scanPage_full _ _ Q1) as Hsp.
    change (drop (Z.to_nat (nTupleScanned (set_scan q pgi 0)))
              (pg_data (curpage (set_scan q pgi 0))))
      with (pg_data pgi) in Hsp.
    assert (Hoc : ocontent (ovflow r) (i :: rest) =
                  pg_data pgi ++ ocontent (ovflow r) rest).
    { unfold ocontent. rewrite fmap_cons, concat_cons.
      rewrite (ptup_Some _ _ _ Hpg). reflexivity. }
    destruct (pg_data pgi) as [|t l] eqn:Ed.
    + rewrite Hsp.
      destruct (IH (set_scan q pgi 0) n Q1) as (res & q' & cr' & Hs & Q' & Hb & Hres).
      { simpl. rewrite Ed. reflexivity. }
      { lia. }
      exists res, q', cr'. split; [exact Hs|]. split; [exact Q'|].
      split; [exact Hb|]. rewrite Hoc. exact Hres.
    + destruct Hsp as (q' & Hs & Q' & Hb & Hd).
      rewrite Hs. exists (Some t), q', rest.
      split; [reflexivity|]. split; [exact Q'|]. split; [exact Hb|].
      rewrite Hoc, Hd. reflexivity.
Qed.


Lemma laterBuckets_next bs :
  0 <= bs -> bs + 1 < npages r ->
  laterBuckets bs =
  bucketContent r chains (Z.to_nat (bs + 1)) ++ laterBuckets (bs + 1).
Proof.
  intros H0 H1. unfold laterBuckets.
  replace (Z.to_nat (npages r) - S (Z.to_nat bs))%nat
    with (S (Z.to_nat (npages r) - S (Z.to_nat (bs + 1)))) by lia.
  cbn [seq]. rewrite fmap_cons, concat_cons.
  replace (S (Z.to_nat bs)) with (Z.to_nat (bs + 1)) by lia. reflexivity.
Qed.

Lemma laterBuckets_end bs :
  0 <= bs -> npages r <= bs + 1 -> laterBuckets bs = [].
Proof.
  intros H0 H1. unfold laterBuckets.
  replace (Z.to_nat (npages r) - S (Z.to_nat bs))%nat with 0%nat by lia.
  reflexivity.
Qed.

(** The step to the next value of [bitSeq]: the bucket with that number
    is read, or nothing when there is no such bucket. *)
Lemma nextBucket_full q :
  QInv q [] -> bitSeq q < bitSeqMax q ->
  exists q1,
    nextBucket q =
    Some (q1, if bitSeq q + 1 <? npages r then Some (bitSeq q + 1) else None) /\
    bitSeq q1 = bitSeq q + 1.
Proof.
  intros Q Hlt. pose proof (Counters_depth r HC) as Hd.
  pose proof (qi_seq _ _ Q) as Hbs. pose proof (qi_max _ _ Q) as Hmax.
  assert (Hp : 0 < 2 ^ (depth r + 1) <= 2 ^ 32).
  { split; [apply Z.pow_pos_nonneg; lia | apply Z.pow_le_mono_r; lia]. }
  change (2 ^ 32) with 4294967296 in Hp.
  unfold nextBucket.
  rewrite (qi_nstars _ _ Q), (qi_stars _ _ Q), (qi_known _ _ Q), (qi_rel _ _ Q).
  destruct (Z.leb_spec 0 (depth r + 1 - 1)) as [_|]; [|lia].
  assert (Htop : (Z.of_nat <$> seq 0 (Z.to_nat (depth r + 1)))
                   !! Z.to_nat (depth r + 1 - 1) = Some (depth r)).
  { rewrite list_lookup_fmap, lookup_seq_lt by lia. simpl. f_equal. lia. }
  rewrite Htop, Z.eqb_refl. cbn [negb].
  rewrite (wrap_id (bitSeq q + 1)) by lia.
  rewrite (wrap_id (depth r + 1)) by lia.
  assert (Hunk : formUnknown (depth r + 1)
                   (Z.of_nat <$> seq 0 (Z.to_nat (depth r + 1)))
                   (bitSeq q + 1) = bitSeq q + 1).
  { rewrite <- (Z2Nat.id (depth r + 1)) at 1 by lia.
    apply formUnknown_full; [lia|]. rewrite Z2Nat.id by lia. lia. }
  rewrite Hunk, Z.lor_0_r.
  rewrite getLower_mod by lia. rewrite Z.mod_small by lia.
  destruct (bitSeq q + 1 <? npages r); eexists; split; reflexivity.
Qed.

Lemma advance_full q :
  QInv q [] ->
  drop (Z.to_nat (nTupleScanned q)) (pg_data (curpage q)) = [] ->
  bitSeq q < bitSeqMax q ->
  exists q' cr',
    advance q = Some q' /\ QInv q' cr' /\ bitSeq q' = bitSeq q + 1 /\
    drop (Z.to_nat (nTupleScanned q')) (pg_data (curpage q')) ++
    ocontent (ovflow r) cr' ++ laterBuckets (bitSeq q') =
    laterBuckets (bitSeq q).
Proof.
  intros Q Hex Hlt.
  destruct (nextBucket_full q Q Hlt) as (q1 & Hnb & Hb1).
  pose proof (nextBucket_fields _ _ _ Hnb) as (R1 & _ & B1 & M1 & N1 & S1 & K1).
  pose proof (qi_seq _ _ Q) as Hbs.
  assert (Hcp : curpage q1 = curpage q /\ nTupleScanned q1 = nTupleScanned q
                /\ query q1 = query q).
  { revert Hnb. unfold nextBucket.
    destruct (0 <=? nstars q - 1); [|discriminate].
    destruct (starBits q !! _); [|discriminate].
    destruct (negb _); [intros [= <- _]; auto|].
    destruct (_ <? _); intros [= <- _]; auto. }
  destruct Hcp as (Ecp & Ent & Eq).
  unfold advance. rewrite Hnb.
  destruct (Z.ltb_spec (bitSeq q + 1) (npages r)) as [Hin|Hout].
  - rewrite R1, (qi_rel _ _ Q).
    assert (Hr : 0 <= bitSeq q + 1 < Z.of_nat (length (data r))).
    { rewrite (st_npages _ _ HS). lia. }
    destruct (getPage_in_range _ _ Hr) as [pg Hpg]. rewrite Hpg.
    apply getPage_Some in Hpg as Hpg'. destruct Hpg' as [_ Hlk].
    destruct (lookup_lt_is_Some_2 chains (Z.to_nat (bitSeq q + 1))) as [ch Hch].
    { rewrite (st_chains _ _ HS). lia. }
    eexists _, ch. split; [reflexivity|]. split; [|split].
    + destruct Q. constructor; simpl.
      * congruence.
      * congruence.
      * congruence.
      * congruence.
      * congruence.
      * congruence.
      * lia.
      * eapply (st_linked _ _ HS); eassumption.
      * eapply Structure_chain_length; eassumption.
      * lia.
      * eapply Forall_wf_lookup; [apply (st_wf_data _ _ HS) | exact Hpg].
      * intros Hsk. lia.
    + simpl. exact Hb1.
    + simpl. rewrite Hb1, (laterBuckets_next (bitSeq q)) by lia.
      rewrite app_assoc. f_equal. unfold bucketContent.
      rewrite Hch, Z2Nat.id by lia. simpl.
      rewrite (ptup_Some _ _ _ Hpg). reflexivity.
  - exists q1, []. split; [reflexivity|].
    split; [|split; [exact Hb1|]].
    + destruct Q. constructor.
      * congruence.
      * congruence.
      * congruence.
      * congruence.
      * congruence.
      * congruence.
      * lia.
      * rewrite Ecp. assumption.
      * assumption.
      * rewrite Ecp, Ent. assumption.
      * rewrite Ecp. assumption.
      * intros _. rewrite Ecp, Ent. split; [reflexivity | exact Hex].
    + rewrite Ecp, Ent, Hex, Hb1. simpl.
      rewrite !laterBuckets_end by lia. reflexivity.
Qed.


(** One call of the scan: the next tuple of what remains, or the null
    result when nothing remains. *)
Lemma getNextLoop_full : forall m q cr rounds,
  QInv q cr ->
  (Z.to_nat (bitSeqMax q - bitSeq q) <= m)%nat -> (m <= rounds)%nat ->
  exists res q',
    getNextLoop rounds q = Some (res, q') /\
    match res with
    | None => remaining q cr = []
    | Some t => exists cr', QInv q' cr' /\ remaining q cr = t :: remaining q' cr'
    end.
Proof.
  induction m as [|m IH]; intros q cr rounds Q Hm Hr;
    rewrite getNextLoop_unfold;
    pose proof (scanPage_full q cr Q) as Hsp;
    pose proof (qi_seq _ _ Q) as Hbs; pose proof (qi_max _ _ Q) as Hmax;
    pose proof (Counters_depth r HC) as Hd;
    pose proof HC as (_ & Hsp' & Hnp & _);
    (assert (Hnpmax : npages r <= bitSeqMax q + 1)
      by (rewrite Hmax, Z.pow_add_r, Z.pow_1_r by lia; lia));
    unfold remaining;
    (destruct (drop (Z.to_nat (nTupleScanned q)) (pg_data (curpage q)))
      as [|t l] eqn:Ed;
     [|destruct Hsp as (q' & Hs & Q' & Hb & Hdr); rewrite Hs;
       exists (Some t), q'; split; [reflexivity|]; exists cr;
       split; [exact Q'|]; unfold remaining; rewrite Hdr, Hb; reflexivity]);
    rewrite Hsp, (qi_rel _ _ Q);
    destruct (scanOvflow_full cr q (length (ovflow r)) Q Ed (qi_len _ _ Q))
      as (res & q2 & cr2 & Hso & Q2 & Hb2 & Hres);
    rewrite Hso;
    (destruct res as [t|];
     [exists (Some t), q2; split; [reflexivity|]; exists cr2;
      split; [exact Q2|]; unfold remaining; rewrite Hres, Hb2; simpl;
      rewrite <- app_assoc; reflexivity|]);
    destruct Hres as (Hoc & -> & Hex2); rewrite Hoc; simpl;
    pose proof (qi_max _ _ Q2) as Hmax2;
    (destruct (Z.eqb_spec (bitSeq q2) (bitSeqMax q2)) as [He|Hne];
     [exists None, q2; split; [reflexivity|];
      apply laterBuckets_end; lia|]).
  - exfalso. lia.
  - destruct rounds as [|k]; [lia|].
    pose proof (qi_seq _ _ Q2) as Hbs2.
    destruct (advance_full q2 Q2 Hex2 ltac:(lia)) as (q3 & cr3 & Ha & Q3 & Hb3 & Hrem).
    rewrite Ha.
    destruct (IH q3 cr3 k Q3) as (res & q' & Hg & Hres).
    { rewrite (qi_max _ _ Q3), Hb3. lia. }
    { lia. }
    exists res, q'. split; [exact Hg|].
    unfold remaining in Hres. rewrite Hrem, Hb2 in Hres. exact Hres.
Qed.

Lemma getNextTuple_full q cr :
  QInv q cr ->
  exists res q',
    getNextTuple q = Some (res, q') /\
    match res with
    | None => remaining q cr = []
    | Some t => exists cr', QInv q' cr' /\ remaining q cr = t :: remaining q' cr'
    end.
Proof.
  intros Q. unfold getNextTuple.
  pose proof (qi_seq _ _ Q) as Hbs. pose proof (qi_max _ _ Q) as Hmax.
  pose proof (Counters_depth r HC) as Hd.
  assert (Hp : 0 < 2 ^ (depth r + 1) <= 2 ^ 32).
  { split; [apply Z.pow_pos_nonneg; lia | apply Z.pow_le_mono_r; lia]. }
  change (2 ^ 32) with 4294967296 in Hp.
  rewrite wrap_id by lia.
  apply (getNextLoop_full (Z.to_nat (bitSeqMax q - bitSeq q)) q cr _ Q); lia.
Qed.

(** Running the scan to exhaustion returns what remains, in order. *)
Lemma drain_full : forall (n : nat) q cr calls,
  QInv q cr -> length (remaining q cr) = n -> (n <= calls)%nat ->
  exists q', drain calls q = Some (remaining q cr, q').
Proof.
  induction n as [|n IH]; intros q cr calls Q Hn Hc;
    destruct (getNextTuple_full q cr Q) as (res & q1 & Hg & Hres).
  - destruct res as [t|].
    + destruct Hres as (cr' & _ & E). rewrite E in Hn. discriminate.
    + rewrite Hres. exists q1.
      destruct calls; simpl; rewrite Hg; reflexivity.
  - destruct res as [t|].
    + destruct Hres as (cr' & Q1 & E). rewrite E in Hn |- *.
      simpl in Hn. destruct calls as [|k]; [lia|].
      destruct (IH q1 cr' k Q1) as (q' & Hd); [lia | lia |].
      exists q'. simpl. rewrite Hg, Hd. reflexivity.
    + rewrite Hres in Hn. discriminate.
Qed.


(** The scan starts at bucket 0 with everything still to return. *)
Lemma startQuery_full :
  cvValid r ->
  exists q cr,
    startQuery r pt = Some q /\ QInv q cr /\
    remaining q cr = allContent r chains.
Proof.
  intros Hcv. pose proof (Counters_depth r HC) as Hd.
  pose proof HC as (_ & Hsp & Hnp & _).
  pose proof (pow2_lt_32 (depth r) Hd) as Hp.
  destruct Hfw as [Hlen Hstar].
  assert (Hvals : forall i : nat, exists v,
            tupleVals pt !! Z.to_nat (fst (cvItem r i)) = Some v /\
            v = "?"%string).
  { intros i. destruct (lookup_lt_is_Some_2 (tupleVals pt)
                          (Z.to_nat (fst (cvItem r i)))) as [v Hv].
    { rewrite Hlen. apply Hcv. }
    exists v. split; [exact Hv|]. rewrite Forall_forall in Hstar.
    apply Hstar. eapply list_elem_of_lookup_2, Hv. }
  unfold startQuery, firstBucket.
  rewrite (compilePattern_full r (tupleVals pt) _ 0 [] Hvals).
  rewrite (wrap_id (depth r + 1)) by lia. cbn [app].
  rewrite star_positions by lia.
  set (stars := Z.of_nat <$> seq 0 (Z.to_nat (depth r + 1))).
  assert (Hns : Z.of_nat (length stars) = depth r + 1).
  { unfold stars. rewrite length_fmap, length_seq. lia. }
  rewrite formUnknown_zero. cbn [Z.lor]. rewrite bucketOf_zero.
  assert (Hr0 : 0 <= 0 < Z.of_nat (length (data r))).
  { rewrite (st_npages _ _ HS). lia. }
  destruct (getPage_in_range _ _ Hr0) as [pg Hpg]. rewrite Hpg.
  apply getPage_Some in Hpg as Hpg'. destruct Hpg' as [_ Hlk].
  destruct (lookup_lt_is_Some_2 chains 0) as [ch Hch].
  { rewrite (st_chains _ _ HS). lia. }
  eexists _, ch. split; [reflexivity|]. split.
  - constructor; simpl; try reflexivity; try assumption.
    + rewrite <- Hns. rewrite starMask_ones by lia. rewrite Z.ones_equiv.
      rewrite Hns. lia.
    + rewrite starMask_ones by lia.
      rewrite Z.ones_equiv, Hns.
      assert (0 < 2 ^ (depth r + 1)) by (apply Z.pow_pos_nonneg; lia). lia.
    + eapply (st_linked _ _ HS); eassumption.
    + eapply Structure_chain_length; eassumption.
    + lia.
    + eapply Forall_wf_lookup; [apply (st_wf_data _ _ HS) | exact Hpg].
    + intros Hsk. lia.
  - assert (Hb0 : bucketContent r chains 0 =
                  pg_data pg ++ ocontent (ovflow r) ch).
    { unfold bucketContent. rewrite Hch. cbn [default].
      change (Z.of_nat 0) with 0. rewrite (ptup_Some _ _ _ Hpg). reflexivity. }
    unfold remaining. cbn [nTupleScanned curpage bitSeq].
    change (Z.to_nat 0) with 0%nat. rewrite drop_0.
    unfold allContent, laterBuckets.
    assert (Hlc : length chains = S (Z.to_nat (npages r) - 1)).
    { rewrite (st_chains _ _ HS). pose proof (st_npages _ _ HS). lia. }
    rewrite Hlc. change (Z.to_nat 0) with 0%nat.
    cbn [seq]. rewrite fmap_cons, concat_cons, Hb0, <- app_assoc.
    reflexivity.
Qed.

End FullScan.


(** ** Round trip *)

Lemma addAll_shape fuel : forall ts r r' ps,
  c r <> 0 -> splitting r = false ->
  addAll fuel r ts = Some (r', ps) ->
  nattrs r' = nattrs r /\ cv r' = cv r.
Proof.
  induction ts as [|t ts IH]; intros r r' ps Hc Hs; simpl.
  - intros [= <- _]. split; reflexivity.
  - destruct (addToRelation fuel r t) as [[r1 p]|] eqn:E; [|discriminate].
    destruct (addAll fuel r1 ts) as [[r2 ps']|] eqn:E2; [|discriminate].
    intros [= <- _].
    apply addToRelation_counters in E; [|assumption|assumption].
    destruct E as (Na & Cc & Cv & Sl & _).
    destruct (IH r1 r2 ps') as (Na2 & Cv2); [congruence | exact Sl | exact E2|].
    split; congruence.
Qed.

(** The full-wildcard query of a relation at rest returns its tuples. *)
Lemma query_all r chains pt (calls : nat) :
  Inv r chains -> cvValid r -> fullWildcard r pt ->
  (length (allContent r chains) <= calls)%nat ->
  exists q q',
    startQuery r pt = Some q /\
    drain calls q = Some (allContent r chains, q').
Proof.
  intros [HS HC _ _ _] Hcv Hfw Hcalls.
  destruct (startQuery_full r chains pt HS HC Hfw Hcv) as (q & cr & Hq & Q & Hrem).
  destruct (drain_full r chains pt HS HC Hfw _ q cr calls Q eq_refl) as (q' & Hd).
  { rewrite Hrem. exact Hcalls. }
  exists q, q'. split; [exact Hq|]. rewrite <- Hrem. exact Hd.
Qed.

(** C1.  In a relation at rest, inserting tuples that each fit in a page
    (with the splits this triggers) and then running a full-wildcard query
    to exhaustion returns, as a multiset, the tuples the relation held
    together with the inserted ones; for a relation that held none, the
    inserted multiset. *)
Theorem roundtrip (k calls : nat) (r : Reln) (chains : list (list Z))
    (ts : list Tuple) (pt : Tuple) :
  Inv r chains -> cvValid r -> fullWildcard r pt ->
  Forall fitsPage ts ->
  npages r + Z.of_nat (length ts) < 2 ^ 32 ->
  Z.of_nat (length (ovflow r)) +
  Z.of_nat (length ts) *
    (Z.of_nat (length (allContent r chains)) + Z.of_nat (length ts))
    < NO_PAGE ->
  (length (allContent r chains) + length ts <= calls)%nat ->
  exists r' ps q out q',
    addAll (S (S k)) r ts = Some (r', ps) /\
    startQuery r' pt = Some q /\
    drain calls q = Some (out, q') /\
    out ≡ₚ allContent r chains ++ ts /\
    (allContent r chains = [] -> out ≡ₚ ts).
Proof.
  intros HI Hcv Hfw Hfit Hb HN Hcalls.
  destruct (addAll_spec k ts r chains HI Hfit Hb HN)
    as (r' & chains' & ps & Hadd & HI' & Hc & _ & _).
  destruct (addAll_shape _ _ _ _ _ (inv_c _ _ HI) (inv_splitting _ _ HI) Hadd)
    as (Na & Cv).
  assert (Hcv' : cvValid r').
  { intros i. unfold cvItem. rewrite Cv, Na. apply Hcv. }
  assert (Hfw' : fullWildcard r' pt).
  { unfold fullWildcard. rewrite Na. exact Hfw. }
  destruct (query_all r' chains' pt calls HI' Hcv' Hfw') as (q & q' & Hq & Hd).
  { rewrite (Permutation_length Hc), length_app. exact Hcalls. }
  exists r', ps, q, (allContent r' chains'), q'.
  split; [exact Hadd|]. split; [exact Hq|]. split; [exact Hd|].
  split; [exact Hc|]. intros E. rewrite Hc, E. reflexivity.
Qed.


(** ** A freshly created relation *)

Lemma concat_repeat_nil {A} (n : nat) : concat (repeat (@nil A) n) = [].
Proof. induction n as [|n IH]; [reflexivity | exact IH]. Qed.

Lemma lookup_repeat_Some {A} (x y : A) (n i : nat) :
  repeat x n !! i = Some y -> y = x.
Proof.
  revert i. induction n as [|n IH]; intros i; [destruct i; discriminate|].
  destruct i as [|i]; simpl; [congruence | apply IH].
Qed.

Lemma ptup_repeat_newPage (n : nat) (i : Z) : ptup (repeat newPage n) i = [].
Proof.
  unfold ptup. destruct (getPage (repeat newPage n) i) as [pg|] eqn:E;
    [|reflexivity].
  apply getPage_Some in E. destruct E as [_ E].
  apply lookup_repeat_Some in E. subst. reflexivity.
Qed.

Lemma newRelation_Some na np d cvv r :
  newRelation na np d cvv = Some r ->
  r = mkReln na d 0 np 0 (c r) 0 false cvv (repeat newPage (Z.to_nat np)) [].
Proof.
  unfold newRelation. destruct (wrap (10 * na) =? 0); [discriminate|].
  intros [= <-]. reflexivity.
Qed.

Lemma bucketContent_newRelation na np d cvv r (n k : nat) :
  newRelation na np d cvv = Some r ->
  bucketContent r (repeat [] n) k = [].
Proof.
  intros Hr. apply newRelation_Some in Hr. rewrite Hr.
  unfold bucketContent. cbn [data ovflow].
  rewrite ptup_repeat_newPage. simpl.
  destruct (repeat [] n !! k) as [ch|] eqn:E; [|reflexivity].
  apply lookup_repeat_Some in E. subst. reflexivity.
Qed.

Lemma allContent_newRelation na np d cvv r (n : nat) :
  newRelation na np d cvv = Some r ->
  allContent r (repeat [] n) = [].
Proof.
  intros Hr.
  unfold allContent. generalize (seq 0 (length (repeat (@nil Z) n))).
  intros l. induction l as [|k l IH]; [reflexivity|].
  rewrite fmap_cons, concat_cons.
  rewrite (bucketContent_newRelation na np d cvv r n k Hr). exact IH.
Qed.

(** The relation [newRelation] makes with [2^d] pages at depth [d] is well
    linked, its counters agree and every bucket holds what belongs to it,
    whatever the capacity [c]. *)
Lemma newRelation_layout na d cvv r :
  0 <= d < 32 -> newRelation na (2 ^ d) d cvv = Some r ->
  Structure r (repeat [] (Z.to_nat (2 ^ d))) /\ Counters r /\
  Addr r (repeat [] (Z.to_nat (2 ^ d))) /\ splitting r = false.
Proof.
  intros Hd Hr. pose proof (pow2_lt_32 d Hd) as Hp.
  assert (H0 : 0 < 2 ^ d) by (apply Z.pow_pos_nonneg; lia).
  pose proof (newRelation_Some _ _ _ _ _ Hr) as Er.
  split; [|split; [|split]].
  - rewrite Er. split.
    + cbn [data npages]. rewrite repeat_length. lia.
    + cbn [data]. rewrite !repeat_length. reflexivity.
    + cbn [data]. intros b pg ch Hpg Hch.
      apply lookup_repeat_Some in Hpg. apply lookup_repeat_Some in Hch.
      subst.
      reflexivity.
    + rewrite concat_repeat_nil. constructor.
    + cbn [data]. apply Forall_forall. intros pg Hin.
      apply list_elem_of_In, repeat_spec in Hin. subst.
      apply (wfPage_empty NO_PAGE).
    + cbn [ovflow]. constructor.
  - rewrite Er. unfold Counters. cbn [depth sp npages]. lia.
  - intros k u _ Hu.
    rewrite (bucketContent_newRelation _ _ _ _ _ _ _ Hr) in Hu.
    apply elem_of_nil in Hu. contradiction.
  - rewrite Er. reflexivity.
Qed.

(** [newRelation] with [2^d] pages at depth [d] and a capacity that is
    not zero is a relation at rest. *)
Lemma Inv_newRelation na d cvv r :
  0 <= d < 32 -> newRelation na (2 ^ d) d cvv = Some r -> c r <> 0 ->
  Inv r (repeat [] (Z.to_nat (2 ^ d))).
Proof.
  intros Hd Hr Hc.
  destruct (newRelation_layout na d cvv r Hd Hr) as (HS & HC & HA & Hsp).
  split; assumption.
Qed.


(** * Further properties of the engine *)

(** ** The value returned by an insertion *)

(** X1.  The comment above [addToRelation] (lines 129-133): the value
    returned is [NO_PAGE] or the index of a primary data page, the bucket
    of the tuple under the depth and split pointer the call leaves,
    whichever page of the bucket took the tuple. *)
Theorem insert_returns_primary_page (fuel : nat) (r : Reln) (t : Tuple)
    (r' : Reln) (p : PageID) :
  Counters r -> c r <> 0 -> splitting r = false ->
  npages r + 1 < 2 ^ 32 ->
  addToRelation fuel r t = Some (r', p) ->
  p = NO_PAGE \/
  (p = bucketOf r' (tupleHash r' t) /\ 0 <= p < npages r' /\ p <> NO_PAGE).
Proof.
  intros HC Hc Hs Hb E.
  pose proof (addToRelation_Counters _ _ _ _ _ HC Hc Hs Hb E) as [HC' _].
  pose proof (addToRelation_counters _ _ _ _ _ Hc Hs E)
    as (_ & _ & _ & _ & _ & H).
  cbv zeta in H. destruct H as [(-> & _)|(-> & _)]; [left; reflexivity|].
  right. split; [reflexivity|].
  pose proof (bucketOf_range r' (tupleHash r' t) HC') as Hr.
  split; [exact Hr|]. destruct HC' as (_ & _ & _ & Hlt).
  unfold NO_PAGE. lia.
Qed.

(** ** First fit *)

(** X2.  An insertion that triggers no split puts a tuple that fits into
    the first page of its bucket that has room, in the order primary page,
    then the overflow chain: into the primary page ([loc = None]) or into
    overflow page [i], in which case the primary page and every page of
    the chain before [i] had no room.  A page is added to the chain only
    when no page of the bucket had room, and then it is the page appended
    to the overflow file.  All other pages keep their tuples. *)
Theorem insert_first_fit (k : nat) (r : Reln) (chains : list (list Z))
    (t : Tuple) :
  Inv r chains -> fitsPage t -> insertion r <> c r ->
  Z.of_nat (length (ovflow r)) < NO_PAGE ->
  exists r' chains' loc,
    addToRelation (S k) r t = Some (r', bucketOf r (tupleHash r t)) /\
    Structure r' chains' /\
    (loc = None ->
     ptup (data r') (bucketOf r (tupleHash r t))
       = ptup (data r) (bucketOf r (tupleHash r t)) ++ [t]) /\
    (forall i, loc = Some i ->
       noRoom (data r) t (bucketOf r (tupleHash r t)) /\
       ptup (ovflow r') i = ptup (ovflow r) i ++ [t] /\
       exists c1 c2,
         chains' !! Z.to_nat (bucketOf r (tupleHash r t))
           = Some (c1 ++ i :: c2) /\
         Forall (noRoom (ovflow r) t) c1) /\
    (chains' = chains \/
     exists ch,
       chains !! Z.to_nat (bucketOf r (tupleHash r t)) = Some ch /\
       Forall (noRoom (ovflow r) t) ch /\
       loc = Some (Z.of_nat (length (ovflow r))) /\
       chains' = <[Z.to_nat (bucketOf r (tupleHash r t)) :=
                     ch ++ [Z.of_nat (length (ovflow r))]]> chains) /\
    (forall b, loc <> None \/ b <> bucketOf r (tupleHash r t) ->
       ptup (data r') b = ptup (data r) b) /\
    (forall i, loc <> Some i -> ptup (ovflow r') i = ptup (ovflow r) i).
Proof.
  intros [HS HC HA _ _] Hfit Hne HN.
  destruct (place_Inv r chains t HS HC HA Hfit HN)
    as (r' & chains' & loc & Hp & HS' & _ & _ & _ & HP & _).
  exists r', chains', loc. rewrite addToRelation_nested by exact Hne.
  split; [exact Hp|]. split; [exact HS'|].
  split; [apply (pa_data_hit _ _ _ _ _ _ _ HP)|].
  split.
  { intros i Hi. split.
    - apply (pa_primary_full _ _ _ _ _ _ _ HP). rewrite Hi. discriminate.
    - split; [apply (pa_ov_hit _ _ _ _ _ _ _ HP), Hi|].
      apply (pa_first_fit _ _ _ _ _ _ _ HP), Hi. }
  split.
  { destruct (pa_chains _ _ _ _ _ _ _ HP) as [E|(ch & E1 & E2 & E3 & E4)];
      [left; exact E|].
    right. exists ch. split; [exact E1|]. split; [exact E4|].
    split; [exact E2 | exact E3]. }
  split; [apply (pa_data_miss _ _ _ _ _ _ _ HP)|].
  apply (pa_ov_miss _ _ _ _ _ _ _ HP).
Qed.

(** ** What a split keeps *)

(** X3.  [splitSp], called as [addToRelation] calls it, returns; it adds
    exactly one page to the data file, and the relation holds the same
    multiset of tuples afterwards, each in the bucket of its hash. *)
Theorem split_preserves_tuples (k : nat) (r : Reln) (chains : list (list Z)) :
  Structure r chains -> Counters r -> Addr r chains -> InSplit r ->
  npages r + 1 < 2 ^ 32 ->
  Z.of_nat (length (ovflow r)) +
  Z.of_nat (length (bucketContent r chains (Z.to_nat (sp r)))) < NO_PAGE ->
  exists r' chains',
    splitSp (addToRelation (S k)) r = Some r' /\
    Structure r' chains' /\ Addr r' chains' /\
    allContent r' chains' ≡ₚ allContent r chains /\
    npages r' = npages r + 1 /\
    length (data r') = S (length (data r)) /\
    ntups r' = ntups r.
Proof.
  intros HS HC HA HI Hb HN.
  destruct (splitSp_spec k r chains HS HC HA HI Hb HN) as (r' & chains' & E & P).
  exists r', chains'. split; [exact E|].
  destruct P as [HS' HC' HA' Hcont _ _].
  split; [exact HS'|]. split; [exact HA'|]. split; [exact Hcont|].
  pose proof (splitSp_counters _ (addToRelation_QuietIns (S k)) _ _ HI E)
    as (_ & _ & _ & _ & _ & Nt & Np & _).
  destruct HC as (_ & Hsp & Hnp & Hlt).
  assert (H0 : 0 < 2 ^ depth r) by lia.
  rewrite wrap_small in Np by lia.
  split; [exact Np|]. split; [|exact Nt].
  pose proof (st_npages _ _ HS) as L. pose proof (st_npages _ _ HS') as L'.
  lia.
Qed.


(** ** The split schedule *)

(** The counters of a relation at rest determine depth and split pointer
    from the number of pages. *)
Lemma Counters_log2 r :
  Counters r ->
  depth r = Z.log2 (npages r) /\ sp r = npages r - 2 ^ Z.log2 (npages r).
Proof.
  intros (Hd & Hs & Hn & _).
  assert (E : Z.log2 (npages r) = depth r).
  { apply Z.log2_unique; [exact Hd|].
    rewrite Z.pow_succ_r by exact Hd. lia. }
  rewrite E. split; [reflexivity | lia].
Qed.

(** One successful call: the split is due exactly when [insertion = c]. *)
Lemma insert_counts fuel r t r' p :
  Counters r -> splitting r = false ->
  0 <= insertion r <= c r -> c r <> 0 -> c r < 2 ^ 32 ->
  0 <= ntups r -> ntups r + 1 < 2 ^ 32 -> npages r + 1 < 2 ^ 32 ->
  addToRelation fuel r t = Some (r', p) -> p <> NO_PAGE ->
  Counters r' /\ splitting r' = false /\ c r' = c r /\
  ntups r' = ntups r + 1 /\
  (if insertion r =? c r
   then npages r' = npages r + 1 /\ insertion r' = 1
   else npages r' = npages r /\ insertion r' = insertion r + 1).
Proof.
  intros HC Hs Hi Hc Hc32 Hn0 Hn Hb E Hp.
  pose proof (addToRelation_Counters _ _ _ _ _ HC Hc Hs Hb E) as [HC' Hnp].
  pose proof (addToRelation_counters _ _ _ _ _ Hc Hs E)
    as (_ & Cc & _ & Sl & _ & H).
  cbv zeta in H. destruct H as [(-> & _)|(_ & Nt & In)]; [contradiction|].
  split; [exact HC'|]. split; [exact Sl|]. split; [exact Cc|].
  change (2 ^ 32) with 4294967296 in *.
  rewrite wrap_id in Nt by lia. split; [exact Nt|].
  destruct (Z.eqb_spec (insertion r) (c r)) as [Ei|Ei].
  - split; [apply Hnp|]. rewrite In. apply wrap_id. lia.
  - split; [apply Hnp|]. rewrite In. apply wrap_id. lia.
Qed.

Lemma split_schedule_aux fuel : forall ts r t r' ps,
  Counters r -> splitting r = false ->
  0 <= insertion r <= c r -> c r <> 0 -> c r < 2 ^ 32 ->
  0 <= ntups r ->
  ntups r + Z.of_nat (length (t :: ts)) < 2 ^ 32 ->
  npages r + Z.of_nat (length (t :: ts)) < 2 ^ 32 ->
  addAll fuel r (t :: ts) = Some (r', ps) ->
  Forall (fun p => p <> NO_PAGE) ps ->
  Counters r' /\ c r' = c r /\
  ntups r' = ntups r + Z.of_nat (length (t :: ts)) /\
  npages r' =
    npages r + (insertion r + Z.of_nat (length (t :: ts)) - 1) / c r /\
  insertion r' =
    (insertion r + Z.of_nat (length (t :: ts)) - 1) mod c r + 1.
Proof.
  induction ts as [|t2 ts IH]; intros r t r' ps HC Hs Hi Hc Hc32 Hn0 Hn Hb E Hps.
  - cbn [addAll] in E.
    destruct (addToRelation fuel r t) as [[r1 p]|] eqn:E1; [|discriminate].
    injection E as <- <-. apply Forall_cons in Hps. destruct Hps as [Hp _].
    simpl length in *.
    destruct (insert_counts _ _ _ _ _ HC Hs Hi Hc Hc32 Hn0
                ltac:(lia) ltac:(lia) E1 Hp) as (HC1 & _ & Cc & Nt & H).
    split; [exact HC1|]. split; [exact Cc|]. split; [lia|].
    replace (insertion r + Z.of_nat 1 - 1) with (insertion r) by lia.
    destruct (Z.eqb_spec (insertion r) (c r)) as [Ei|Ei]; destruct H as [Hnp Hin].
    + rewrite Ei, Z.div_same, Z.mod_same by lia. lia.
    + rewrite Z.div_small, Z.mod_small by lia. lia.
  - remember (t2 :: ts) as l eqn:El. cbn [addAll] in E.
    destruct (addToRelation fuel r t) as [[r1 p]|] eqn:E1; [|discriminate].
    destruct (addAll fuel r1 l) as [[r2 ps2]|] eqn:E2; [|discriminate].
    injection E as <- <-. apply Forall_cons in Hps. destruct Hps as [Hp Hps].
    assert (Hl : Z.of_nat (length (t :: l)) = Z.of_nat (length l) + 1).
    { simpl length. lia. }
    assert (Hl1 : 1 <= Z.of_nat (length l)).
    { rewrite El. simpl length. lia. }
    rewrite Hl in *.
    destruct (insert_counts _ _ _ _ _ HC Hs Hi Hc Hc32 Hn0
                ltac:(lia) ltac:(lia) E1 Hp) as (HC1 & Sl1 & Cc1 & Nt1 & H).
    assert (Hi1 : 0 <= insertion r1 <= c r1 /\ npages r1 <= npages r + 1).
    { rewrite Cc1.
      destruct (Z.eqb_spec (insertion r) (c r)); destruct H; lia. }
    destruct Hi1 as [Hi1 Hnp1]. subst l.
    destruct (IH r1 t2 r2 ps2 HC1 Sl1 Hi1) as (HC2 & Cc2 & Nt2 & Np2 & In2);
      try assumption; try lia; try congruence.
    split; [exact HC2|]. split; [congruence|]. split; [lia|].
    rewrite Np2, In2, Cc1.
    set (m := Z.of_nat (length (t2 :: ts))) in *.
    destruct (Z.eqb_spec (insertion r) (c r)) as [Ei|Ei];
      destruct H as [Hnp Hin]; rewrite Hnp, Hin.
    + rewrite Ei.
      replace (c r + (m + 1) - 1) with (1 * c r + (1 + m - 1)) by lia.
      rewrite Z.div_add_l by lia.
      rewrite (Z.add_comm (1 * c r)), Z.mod_add by lia.
      split; [lia | reflexivity].
    + replace (insertion r + 1 + m - 1) with (insertion r + (m + 1) - 1) by lia.
      split; reflexivity.
Qed.

(** X4.  A split happens at every call that finds [insertion = c], that
    is once every [c] successful insertions.  After [n >= 1] insertions
    that all succeed, from a relation at rest with [insertion = i]:
    [npages] has grown by [(i + n - 1) / c], [insertion] is
    [(i + n - 1) mod c + 1], [ntups] has grown by [n], the depth is
    [log2 npages] and the split pointer [npages - 2^depth]. *)
Theorem split_schedule (fuel : nat) (r : Reln) (ts : list Tuple)
    (r' : Reln) (ps : list PageID) :
  Counters r -> splitting r = false ->
  0 <= insertion r <= c r -> c r <> 0 -> c r < 2 ^ 32 ->
  0 <= ntups r ->
  ntups r + Z.of_nat (length ts) < 2 ^ 32 ->
  npages r + Z.of_nat (length ts) < 2 ^ 32 ->
  ts <> [] ->
  addAll fuel r ts = Some (r', ps) ->
  Forall (fun p => p <> NO_PAGE) ps ->
  npages r' = npages r + (insertion r + Z.of_nat (length ts) - 1) / c r /\
  insertion r' = (insertion r + Z.of_nat (length ts) - 1) mod c r + 1 /\
  ntups r' = ntups r + Z.of_nat (length ts) /\
  depth r' = Z.log2 (npages r') /\
  sp r' = npages r' - 2 ^ Z.log2 (npages r').
Proof.
  intros HC Hs Hi Hc Hc32 Hn0 Hn Hb Hne E Hps.
  destruct ts as [|t ts]; [contradiction|].
  destruct (split_schedule_aux fuel ts r t r' ps HC Hs Hi Hc Hc32 Hn0 Hn Hb E Hps)
    as (HC' & _ & Nt & Np & In).
  split; [exact Np|]. split; [exact In|]. split; [exact Nt|].
  apply Counters_log2, HC'.
Qed.


(** ** The statistics report ([relationStats], lines 296-325)

    The report is modelled by the values it prints: the header line and,
    for every bucket, one entry for the primary page and one for each page
    of its overflow chain, in the order printed. *)

(** One entry [(id, #tuples, free bytes, ovflow)]. *)
Record PageStat : Type := mkPageStat {
  ps_id : PageID;
  ps_ntups : Count;
  ps_space : Count;
  ps_ovflow : Offset
}.

Record Stats : Type := mkStats {
  st_nattrs : Count;
  st_pages : Count;
  st_tuples : Count;
  st_depth : Count;
  st_splitp : Offset;
  st_chvec : list ChVecItem;
  st_buckets : list (list PageStat)
}.

Definition pageStat (id : PageID) (p : Page) : PageStat :=
  mkPageStat id (pageNTuples p) (wrap (pageFreeSpace p)) (pageOvflow p).

(** Lines 314-322: the [while (ovid != NO_PAGE)] loop over the chain.  The
    rounds are bounded as in [scanChain]; [None] is a failed read or a
    chain that loops. *)
Fixpoint chainStats (rounds : nat) (ov : File) (ovid : Offset)
    : option (list PageStat) :=
  if ovid =? NO_PAGE then Some []
  else
    match rounds with
    | O => None
    | S k =>
        match getPage ov ovid with
        | None => None
        | Some p =>
            match chainStats k ov (pageOvflow p) with
            | None => None
            | Some l => Some (pageStat ovid p :: l)
            end
        end
    end.

(** Lines 307-323: the body of the loop over the buckets. *)
Definition bucketStats (r : Reln) (pid : Offset) : option (list PageStat) :=
  match getPage (data r) pid with
  | None => None
  | Some p =>
      match chainStats (length (ovflow r)) (ovflow r) (pageOvflow p) with
      | None => None
      | Some l => Some (pageStat pid p :: l)
      end
  end.

Definition relationStats (r : Reln) : option Stats :=
  match mapM (bucketStats r) (seqZ 0 (npages r)) with
  | None => None
  | Some rows =>
      Some (mkStats (nattrs r) (npages r) (ntups r) (depth r) (sp r) (cv r)
              rows)
  end.

(** The tuples a list of entries reports. *)
Definition statTuples (l : list PageStat) : Z :=
  fold_right (fun s a => ps_ntups s + a) 0 l.

Definition statOk (s : PageStat) : Prop :=
  0 <= ps_ntups s /\ 0 <= ps_space s <= dataCap /\
  ps_ntups s <= dataCap - ps_space s.

Lemma statTuples_app l1 l2 :
  statTuples (l1 ++ l2) = statTuples l1 + statTuples l2.
Proof.
  induction l1 as [|s l1 IH]; simpl; [reflexivity|]. rewrite IH. lia.
Qed.

Lemma pageStat_ok id p : wfPage p -> statOk (pageStat id p).
Proof.
  unfold wfPage, statOk, pageStat, pageNTuples, pageFreeSpace. simpl.
  intros Hw. pose proof (length_le_runLength (pg_data p)) as Hl.
  pose proof (runLength_nonneg (pg_data p)) as H0.
  unfold pageFree in *. fold dataCap.
  assert (Hcap : dataCap = 1012) by reflexivity.
  change (PAGESIZE - HEADER) with dataCap.
  rewrite wrap_id by lia. lia.
Qed.

Lemma chainStats_Linked (ov : list Page) :
  Forall wfPage ov ->
  forall ch first rounds,
  Linked (pg_ovflow <$> ov) first ch -> (length ch <= rounds)%nat ->
  exists l,
    chainStats rounds ov first = Some l /\
    ps_id <$> l = ch /\
    statTuples l = Z.of_nat (length (ocontent ov ch)) /\
    Forall statOk l.
Proof.
  intros Hwf. induction ch as [|i rest IH]; intros first rounds HL Hr.
  - simpl in HL. subst first. exists []. split.
    + destruct rounds; reflexivity.
    + split; [reflexivity|]. split; [reflexivity | constructor].
  - apply Linked_cons_page in HL. destruct HL as (-> & Hn & pg & Hpg & HL).
    destruct rounds as [|k]; [simpl in Hr; lia|]. simpl in Hr.
    destruct (IH (pg_ovflow pg) k HL ltac:(lia)) as (l & El & Eid & Et & Eok).
    exists (pageStat i pg :: l). simpl chainStats.
    destruct (Z.eqb_spec i NO_PAGE) as [|_]; [contradiction|].
    rewrite Hpg. unfold pageOvflow. rewrite El.
    split; [reflexivity|]. split; [rewrite fmap_cons, Eid; reflexivity|].
    split.
    + unfold ocontent. rewrite fmap_cons, concat_cons, length_app.
      fold (ocontent ov rest). cbn [statTuples fold_right].
      fold (statTuples l). rewrite Et, (ptup_Some _ _ _ Hpg).
      unfold pageStat, pageNTuples. simpl. lia.
    + constructor; [|exact Eok]. apply pageStat_ok.
      apply getPage_Some in Hpg. destruct Hpg as [_ Hpg].
      rewrite Forall_forall in Hwf. eapply Hwf, list_elem_of_lookup_2, Hpg.
Qed.

Lemma bucketStats_spec r chains (b : nat) ch :
  Structure r chains -> chains !! b = Some ch ->
  exists row,
    bucketStats r (Z.of_nat b) = Some row /\
    ps_id <$> row = Z.of_nat b :: ch /\
    statTuples row = Z.of_nat (length (bucketContent r chains b)) /\
    Forall statOk row.
Proof.
  intros HS Hch.
  assert (Hb : (b < length (data r))%nat).
  { rewrite <- (st_chains _ _ HS). eapply lookup_lt_Some, Hch. }
  destruct (lookup_lt_is_Some_2 _ _ Hb) as [pg Hpg].
  pose proof (st_linked _ _ HS b pg ch Hpg Hch) as HL.
  pose proof (Structure_chain_length r chains b ch HS Hch) as Hlen.
  destruct (chainStats_Linked (ovflow r) (st_wf_ovflow _ _ HS) ch
              (pg_ovflow pg) (length (ovflow r)) HL Hlen)
    as (l & El & Eid & Et & Eok).
  exists (pageStat (Z.of_nat b) pg :: l). unfold bucketStats.
  rewrite (proj2 (getPage_nat _ _ _) Hpg). unfold pageOvflow. rewrite El.
  split; [reflexivity|]. split; [rewrite fmap_cons, Eid; reflexivity|].
  split.
  - unfold bucketContent. rewrite Hch. simpl default. rewrite length_app.
    rewrite (ptup_Some _ _ _ (proj2 (getPage_nat _ _ _) Hpg)).
    cbn [statTuples fold_right]. fold (statTuples l). rewrite Et.
    unfold pageStat, pageNTuples. simpl. lia.
  - constructor; [|exact Eok]. apply pageStat_ok.
    pose proof (st_wf_data _ _ HS) as Hwf. rewrite Forall_forall in Hwf.
    eapply Hwf, list_elem_of_lookup_2, Hpg.
Qed.

Lemma statTuples_rows (f : nat -> list Tuple) (idx : list nat) rows :
  Forall2 (fun b row => statTuples row = Z.of_nat (length (f b))) idx rows ->
  statTuples (concat rows) = Z.of_nat (length (concat (f <$> idx))).
Proof.
  induction 1 as [|b row idx rows Hb _ IH]; [reflexivity|].
  rewrite fmap_cons, !concat_cons, statTuples_app, length_app, IH, Hb. lia.
Qed.


Lemma Forall2_seq_impl {B} (P Q : nat -> B -> Prop) (n : nat) (rows : list B) :
  Forall2 P (seq 0 n) rows ->
  (forall b row, (b < n)%nat -> P b row -> Q b row) ->
  Forall2 Q (seq 0 n) rows.
Proof.
  intros H HPQ. apply Forall2_same_length_lookup in H. destruct H as [Hl H].
  apply Forall2_same_length_lookup. split; [exact Hl|].
  intros i x y Hx Hy. pose proof Hx as Hx'. apply lookup_seq in Hx'.
  destruct Hx' as [-> Hi]. simpl in Hi. apply HPQ; [exact Hi|].
  apply (H i); assumption.
Qed.

(** The report on a well-linked relation. *)
Lemma relationStats_spec (r : Reln) (chains : list (list Z)) :
  Structure r chains ->
  exists out,
    relationStats r = Some out /\
    (st_nattrs out, st_pages out, st_tuples out, st_depth out, st_splitp out)
      = (nattrs r, npages r, ntups r, depth r, sp r) /\
    length (st_buckets out) = length chains /\
    (forall (b : nat) ch, chains !! b = Some ch ->
       exists row, st_buckets out !! b = Some row /\
                   ps_id <$> row = Z.of_nat b :: ch /\
                   statTuples row
                     = Z.of_nat (length (bucketContent r chains b))) /\
    statTuples (concat (st_buckets out))
      = Z.of_nat (length (allContent r chains)) /\
    Forall statOk (concat (st_buckets out)).
Proof.
  intros HS.
  assert (Hn : npages r = Z.of_nat (length chains)).
  { rewrite (st_chains _ _ HS). symmetry. apply (st_npages _ _ HS). }
  assert (Hsome : is_Some (mapM (bucketStats r) (seqZ 0 (npages r)))).
  { apply mapM_is_Some, Forall_forall. intros x Hx.
    apply list_elem_of_lookup in Hx. destruct Hx as [i Hi].
    apply lookup_seqZ in Hi. destruct Hi as [-> Hi].
    destruct (lookup_lt_is_Some_2 chains i) as [ch Hch]; [lia|].
    destruct (bucketStats_spec r chains i ch HS Hch) as (row & E & _).
    rewrite Z.add_0_l. simpl. rewrite E. eexists. reflexivity. }
  destruct Hsome as [rows Hrows].
  exists (mkStats (nattrs r) (npages r) (ntups r) (depth r) (sp r) (cv r) rows).
  unfold relationStats. rewrite Hrows. split; [reflexivity|].
  split; [reflexivity|]. cbn [st_buckets].
  apply mapM_Some_1 in Hrows. unfold seqZ in Hrows.
  apply Forall2_fmap_l in Hrows. rewrite Hn, Nat2Z.id in Hrows.
  assert (HF : Forall2
            (fun (b : nat) row =>
               exists ch, chains !! b = Some ch /\
                 ps_id <$> row = Z.of_nat b :: ch /\
                 statTuples row = Z.of_nat (length (bucketContent r chains b)) /\
                 Forall statOk row)
            (seq 0 (length chains)) rows).
  { apply (Forall2_seq_impl _ _ _ _ Hrows). intros b row Hb E. simpl in E.
    rewrite Z.add_0_r in E.
    destruct (lookup_lt_is_Some_2 chains b Hb) as [ch Hch].
    destruct (bucketStats_spec r chains b ch HS Hch) as (row' & E' & P).
    exists ch. split; [exact Hch|]. congruence. }
  pose proof (Forall2_length _ _ _ HF) as Hlen. rewrite length_seq in Hlen.
  split; [symmetry; exact Hlen|]. split; [|split].
  - intros b ch Hch.
    assert (Hb : (b < length chains)%nat) by (eapply lookup_lt_Some, Hch).
    destruct (Forall2_lookup_l _ _ _ b b HF) as (row & Hrow & ch' & Hch' & Hid & Ht & _).
    { apply lookup_seq_lt. exact Hb. }
    exists row. split; [exact Hrow|]. split; [congruence | exact Ht].
  - unfold allContent. apply statTuples_rows.
    apply (Forall2_impl _ _ _ _ HF). intros b row (ch & _ & _ & Ht & _).
    exact Ht.
  - apply Forall_concat, Forall_forall. intros row Hrow.
    apply list_elem_of_lookup in Hrow. destruct Hrow as [i Hi].
    destruct (Forall2_lookup_r _ _ _ i row HF Hi) as (b & _ & ch & _ & _ & _ & Hok).
    exact Hok.
Qed.

(** X5.  On a relation whose chains are well linked [relationStats]
    reads every page it asks for and ends; it reports the header values
    of the descriptor, one row per bucket in bucket order, in each row the
    primary page followed by the pages of the overflow chain in chain
    order; the tuple counts it prints add up to the number of tuples
    stored, and every free-space figure lies between 0 and the size of the
    data area. *)
Theorem relationStats_report (r : Reln) (chains : list (list Z)) :
  Structure r chains ->
  exists out,
    relationStats r = Some out /\
    (st_nattrs out, st_pages out, st_tuples out, st_depth out, st_splitp out)
      = (nattrs r, npages r, ntups r, depth r, sp r) /\
    length (st_buckets out) = length chains /\
    (forall (b : nat) ch, chains !! b = Some ch ->
       exists row, st_buckets out !! b = Some row /\
                   ps_id <$> row = Z.of_nat b :: ch /\
                   statTuples row
                     = Z.of_nat (length (bucketContent r chains b))) /\
    statTuples (concat (st_buckets out))
      = Z.of_nat (length (allContent r chains)) /\
    Forall statOk (concat (st_buckets out)).
Proof.
  intros HS. apply relationStats_spec, HS.
Qed.


(** ** The tuple counter and the stored tuples *)

Lemma addAll_ntups_all fuel : forall ts r r' ps,
  c r <> 0 -> splitting r = false ->
  0 <= ntups r -> ntups r + Z.of_nat (length ts) < 2 ^ 32 ->
  addAll fuel r ts = Some (r', ps) ->
  Forall (fun p => p <> NO_PAGE) ps ->
  ntups r' = ntups r + Z.of_nat (length ts).
Proof.
  induction ts as [|t ts IH]; intros r r' ps Hc Hs Hn0 Hn E Hps.
  - simpl in E. injection E as <- <-. simpl. lia.
  - cbn [addAll] in E.
    destruct (addToRelation fuel r t) as [[r1 p]|] eqn:E1; [|discriminate].
    destruct (addAll fuel r1 ts) as [[r2 ps2]|] eqn:E2; [|discriminate].
    injection E as <- <-. apply Forall_cons in Hps. destruct Hps as [Hp Hps].
    simpl length in *. rewrite Nat2Z.inj_succ in *.
    pose proof (addToRelation_counters _ _ _ _ _ Hc Hs E1)
      as (_ & Cc & _ & Sl & _ & H).
    cbv zeta in H. destruct H as [(-> & _)|(_ & Nt & _)]; [contradiction|].
    change (2 ^ 32) with 4294967296 in *.
    rewrite wrap_id in Nt by lia.
    rewrite (IH r1 r2 ps2); try assumption; try congruence; lia.
Qed.

(** X6.  The tuple counter of the descriptor counts the stored tuples:
    if [ntups] is the number of tuples in the pages of the relation, it
    still is after any sequence of insertions of tuples that fit, splits
    included; the report of [relationStats] then shows in its header the
    sum of the tuple counts of its rows. *)
Theorem stats_tuple_total (k : nat) (r : Reln) (chains : list (list Z))
    (ts : list Tuple) :
  Inv r chains ->
  Z.of_nat (length (allContent r chains)) = ntups r ->
  Forall fitsPage ts ->
  npages r + Z.of_nat (length ts) < 2 ^ 32 ->
  ntups r + Z.of_nat (length ts) < 2 ^ 32 ->
  Z.of_nat (length (ovflow r)) +
  Z.of_nat (length ts) *
    (Z.of_nat (length (allContent r chains)) + Z.of_nat (length ts))
    < NO_PAGE ->
  exists r' chains' ps out,
    addAll (S (S k)) r ts = Some (r', ps) /\
    Inv r' chains' /\
    Z.of_nat (length (allContent r' chains')) = ntups r' /\
    ntups r' = ntups r + Z.of_nat (length ts) /\
    relationStats r' = Some out /\
    st_tuples out = ntups r' /\
    statTuples (concat (st_buckets out)) = st_tuples out.
Proof.
  intros HI Hst Hfit Hb Hn HN.
  destruct (addAll_spec k ts r chains HI Hfit Hb HN)
    as (r' & chains' & ps & E & HI' & Hperm & Hps & _).
  assert (Nt : ntups r' = ntups r + Z.of_nat (length ts)).
  { apply (addAll_ntups_all _ _ _ _ _ (inv_c _ _ HI) (inv_splitting _ _ HI)
             ltac:(lia) Hn E Hps). }
  assert (Hst' : Z.of_nat (length (allContent r' chains')) = ntups r').
  { rewrite (Permutation_length Hperm), length_app, Nt. lia. }
  destruct (relationStats_spec r' chains' (inv_struct _ _ HI'))
    as (out & Eo & Hh & _ & _ & Ht & _).
  exists r', chains', ps, out.
  split; [exact E|]. split; [exact HI'|]. split; [exact Hst'|].
  split; [exact Nt|]. split; [exact Eo|].
  injection Hh as _ _ Htu _ _.
  split; [exact Htu|]. rewrite Ht, Htu. exact Hst'.
Qed.


(** * Partial-match queries

    The star positions of a query select the bits of the bucket address
    that the scan enumerates.  [scatter] spreads the bits of the counter
    over the star positions, as [formUnknown] does; [gather] reads them
    back. *)

Lemma testbit_setBit v i j :
  0 <= i < 32 -> 0 <= j ->
  Z.testbit (setBit v i) j = Z.testbit v j || (i =? j).
Proof.
  intros Hi Hj. unfold setBit. rewrite Z.shiftl_1_l.
  pose proof (pow2_lt_32 i Hi) as Hp. rewrite wrap_small by lia.
  rewrite Z.lor_spec, Z.pow2_bits_eqb by lia. reflexivity.
Qed.

Fixpoint scatter (stars : list Z) (bs : Z) : Z :=
  match stars with
  | [] => 0
  | s :: rest =>
      Z.lor (if Z.odd bs then 2 ^ s else 0) (scatter rest (Z.div2 bs))
  end.

Fixpoint gather (stars : list Z) (k : Z) : Z :=
  match stars with
  | [] => 0
  | s :: rest => Z.b2z (Z.testbit k s) + 2 * gather rest k
  end.

Lemma scatter_nonneg stars : forall bs, 0 <= scatter stars bs.
Proof.
  induction stars as [|s rest IH]; intros bs; simpl; [lia|].
  apply Z.lor_nonneg. split; [|apply IH].
  destruct (Z.odd bs); [apply Z.pow_nonneg|]; lia.
Qed.

(** A bit of [scatter] is set only at a star position. *)
Lemma scatter_bit_in stars : forall bs j,
  Forall (fun s => 0 <= s) stars -> 0 <= j ->
  Z.testbit (scatter stars bs) j = true -> j ∈ stars.
Proof.
  induction stars as [|s rest IH]; intros bs j Hs Hj; simpl.
  - rewrite Z.bits_0. discriminate.
  - apply Forall_cons in Hs. destruct Hs as [Hs0 Hs].
    rewrite Z.lor_spec. intros H. apply orb_true_iff in H.
    destruct H as [H|H].
    + destruct (Z.odd bs); [|rewrite Z.bits_0 in H; discriminate].
      rewrite Z.pow2_bits_eqb in H by lia. apply Z.eqb_eq in H. subst.
      constructor.
    + apply elem_of_cons. right. eapply IH; eassumption.
Qed.

Lemma gather_range stars : forall k,
  0 <= gather stars k < 2 ^ Z.of_nat (length stars).
Proof.
  induction stars as [|s rest IH]; intros k; simpl gather; simpl length.
  - simpl. lia.
  - rewrite Nat2Z.inj_succ, Z.pow_succ_r by lia.
    specialize (IH k). destruct (Z.testbit k s); simpl Z.b2z; lia.
Qed.

Lemma gather_ext stars : forall a b,
  (forall s, s ∈ stars -> Z.testbit a s = Z.testbit b s) ->
  gather stars a = gather stars b.
Proof.
  induction stars as [|s rest IH]; intros a b H; simpl; [reflexivity|].
  rewrite (H s) by constructor. f_equal. f_equal. apply IH.
  intros s' Hs'. apply H. apply elem_of_cons. right. exact Hs'.
Qed.

(** Reading back what was scattered. *)
Lemma gather_scatter stars : forall bs,
  NoDup stars -> Forall (fun s => 0 <= s) stars ->
  0 <= bs < 2 ^ Z.of_nat (length stars) ->
  gather stars (scatter stars bs) = bs.
Proof.
  induction stars as [|s rest IH]; intros bs Hnd Hs Hbs.
  - simpl in *. lia.
  - apply NoDup_cons in Hnd. destruct Hnd as [Hnin Hnd].
    apply Forall_cons in Hs. destruct Hs as [Hs0 Hs].
    simpl length in Hbs. rewrite Nat2Z.inj_succ, Z.pow_succ_r in Hbs by lia.
    cbn [gather scatter].
    assert (Hd : 0 <= Z.div2 bs < 2 ^ Z.of_nat (length rest)).
    { rewrite Z.div2_div. split; [apply Z.div_pos; lia|].
      apply Z.div_lt_upper_bound; lia. }
    assert (Hbit : Z.testbit (Z.lor (if Z.odd bs then 2 ^ s else 0)
                                (scatter rest (Z.div2 bs))) s = Z.odd bs).
    { rewrite Z.lor_spec.
      assert (Hr : Z.testbit (scatter rest (Z.div2 bs)) s = false).
      { destruct (Z.testbit (scatter rest (Z.div2 bs)) s) eqn:E;
          [|reflexivity].
        exfalso. apply Hnin. eapply scatter_bit_in; eassumption. }
      rewrite Hr, orb_false_r. destruct (Z.odd bs).
      - rewrite Z.pow2_bits_eqb by lia. apply Z.eqb_refl.
      - apply Z.bits_0. }
    rewrite Hbit.
    rewrite (gather_ext rest _ (scatter rest (Z.div2 bs))).
    + rewrite IH by assumption. rewrite (Z.div2_odd bs) at 3. lia.
    + intros s' Hs'. rewrite Z.lor_spec.
      assert (Hne : s <> s') by (intros ->; contradiction).
      destruct (Z.odd bs); [|rewrite Z.bits_0; reflexivity].
      rewrite Forall_forall in Hs. pose proof (Hs s' Hs').
      rewrite Z.pow2_bits_eqb by lia.
      destruct (Z.eqb_spec s s'); [contradiction | reflexivity].
Qed.

(** Scattering what was gathered from [k] gives [k] at the star
    positions and nothing elsewhere. *)
Lemma scatter_gather_bit stars : forall k j,
  Forall (fun s => 0 <= s) stars -> 0 <= j ->
  Z.testbit (scatter stars (gather stars k)) j =
  bool_decide (j ∈ stars) && Z.testbit k j.
Proof.
  induction stars as [|s rest IH]; intros k j Hs Hj.
  - simpl. rewrite Z.bits_0. reflexivity.
  - apply Forall_cons in Hs. destruct Hs as [Hs0 Hs].
    cbn [scatter gather].
    assert (Ho : Z.odd (Z.b2z (Z.testbit k s) + 2 * gather rest k)
                 = Z.testbit k s).
    { rewrite Z.odd_add_mul_2. destruct (Z.testbit k s); reflexivity. }
    assert (Hd : Z.div2 (Z.b2z (Z.testbit k s) + 2 * gather rest k)
                 = gather rest k).
    { rewrite Z.div2_div. destruct (Z.testbit k s); simpl Z.b2z.
      - rewrite Z.add_comm, Z.mul_comm, Z.div_add_l by lia.
        change (1 / 2) with 0. lia.
      - rewrite Z.add_0_l, Z.mul_comm, Z.div_mul by lia. reflexivity. }
    rewrite Ho, Hd, Z.lor_spec, IH by assumption.
    destruct (Z.eq_dec s j) as [->|Hne].
    + rewrite (bool_decide_eq_true_2 (j ∈ j :: rest)) by constructor.
      destruct (Z.testbit k j) eqn:Ek.
      * rewrite Z.pow2_bits_eqb, Z.eqb_refl by lia. reflexivity.
      * rewrite Z.bits_0, andb_false_r. reflexivity.
    + assert (Hl : Z.testbit (if Z.testbit k s then 2 ^ s else 0) j = false).
      { destruct (Z.testbit k s); [|apply Z.bits_0].
        rewrite Z.pow2_bits_eqb by lia.
        destruct (Z.eqb_spec s j); [contradiction | reflexivity]. }
      rewrite Hl. simpl. f_equal. apply bool_decide_ext.
      rewrite elem_of_cons. split; [auto | intros [->|]; [contradiction|auto]].
Qed.


Lemma fold_left_ext_in {A B} (f g : A -> B -> A) (l : list B) :
  (forall u i, i ∈ l -> f u i = g u i) ->
  forall u, fold_left f l u = fold_left g l u.
Proof.
  induction l as [|x l IH]; intros H u; simpl; [reflexivity|].
  rewrite (H u x) by constructor. apply IH.
  intros u' i Hi. apply H. apply elem_of_cons. right. exact Hi.
Qed.

Lemma formUnknown_from bs : forall stars (a : nat) u,
  Forall (fun s => 0 <= s < 32) stars ->
  fold_left
    (fun u i => if bitIsSet bs (Z.of_nat i)
                then setBit u (nth (i - a) stars 0) else u)
    (seq a (length stars)) u
  = Z.lor u (scatter stars (Z.shiftr bs (Z.of_nat a))).
Proof.
  induction stars as [|s rest IH]; intros a u Hs.
  - simpl. rewrite Z.lor_0_r. reflexivity.
  - apply Forall_cons in Hs. destruct Hs as [Hs0 Hs].
    simpl length. cbn [seq fold_left]. rewrite Nat.sub_diag. cbn [nth].
    rewrite (fold_left_ext_in _
               (fun u i => if bitIsSet bs (Z.of_nat i)
                           then setBit u (nth (i - S a) rest 0) else u)).
    2:{ intros u' i Hi. apply list_elem_of_In, in_seq in Hi.
        replace (i - a)%nat with (S (i - S a)) by lia. reflexivity. }
    rewrite IH by exact Hs. cbn [scatter].
    assert (Ho : Z.odd (Z.shiftr bs (Z.of_nat a)) = bitIsSet bs (Z.of_nat a)).
    { rewrite <- Z.bit0_odd, Z.shiftr_spec by lia. reflexivity. }
    assert (Hd : Z.div2 (Z.shiftr bs (Z.of_nat a))
                 = Z.shiftr bs (Z.of_nat (S a))).
    { rewrite Z.div2_spec, Z.shiftr_shiftr by lia. f_equal. lia. }
    rewrite Ho, Hd. destruct (bitIsSet bs (Z.of_nat a)).
    + unfold setBit. rewrite Z.shiftl_1_l.
      pose proof (pow2_lt_32 s Hs0). rewrite wrap_small by lia.
      rewrite Z.lor_assoc. reflexivity.
    + rewrite Z.lor_0_l. reflexivity.
Qed.

(** [formUnknown] scatters the counter over the star positions. *)
Lemma formUnknown_scatter stars bs :
  Forall (fun s => 0 <= s < 32) stars ->
  formUnknown (Z.of_nat (length stars)) stars bs = scatter stars bs.
Proof.
  intros Hs. unfold formUnknown. rewrite Nat2Z.id.
  rewrite (fold_left_ext_in _
             (fun u i => if bitIsSet bs (Z.of_nat i)
                         then setBit u (nth (i - 0) stars 0) else u)).
  2:{ intros u i _. rewrite Nat.sub_0_r. reflexivity. }
  rewrite formUnknown_from by exact Hs.
  rewrite Z.lor_0_l. simpl. rewrite Z.shiftr_0_r. reflexivity.
Qed.

(** The bits of a fold of [setBit] over positions [0 .. n-1]. *)
Lemma fold_setBit_bits (P : nat -> bool) : forall (n : nat) j,
  (n <= 32)%nat -> 0 <= j ->
  Z.testbit
    (fold_left (fun h i => if P i then setBit h (Z.of_nat i) else h)
       (seq 0 n) 0) j
  = (j <? Z.of_nat n) && P (Z.to_nat j).
Proof.
  induction n as [|n IH]; intros j Hn Hj.
  - simpl. rewrite Z.bits_0.
    destruct (Z.ltb_spec j (Z.of_nat 0)); [lia | reflexivity].
  - rewrite seq_S, fold_left_app. cbn [fold_left Nat.add].
    destruct (P n) eqn:EP.
    + rewrite testbit_setBit, IH by lia.
      destruct (Z.eqb_spec (Z.of_nat n) j) as [<-|Hne].
      * rewrite Nat2Z.id, EP, orb_true_r.
        destruct (Z.ltb_spec (Z.of_nat n) (Z.of_nat (S n))); [reflexivity | lia].
      * rewrite orb_false_r.
        destruct (Z.ltb_spec j (Z.of_nat n)), (Z.ltb_spec j (Z.of_nat (S n)));
          try reflexivity; lia.
    + rewrite IH by lia.
      destruct (Z.ltb_spec j (Z.of_nat n)), (Z.ltb_spec j (Z.of_nat (S n)));
        try reflexivity; try lia.
      assert (j = Z.of_nat n) by lia. subst. rewrite Nat2Z.id, EP.
      reflexivity.
Qed.

(** The hash bit that the choice vector puts at position [i]. *)
Definition cvBit (r : Reln) (vals : list string) (i : nat) : bool :=
  bitIsSet (hash_any (nth (Z.to_nat (fst (cvItem r i))) vals EmptyString))
    (snd (cvItem r i)).

Lemma tupleHash_bit r t j :
  0 <= j -> Z.testbit (tupleHash r t) j =
            (j <? 32) && cvBit r (tupleVals t) (Z.to_nat j).
Proof.
  intros Hj. unfold tupleHash.
  rewrite (fold_left_ext_in _
             (fun h i => if cvBit r (tupleVals t) i
                         then setBit h (Z.of_nat i) else h)).
  2:{ intros u i _. unfold cvBit. destruct (cvItem r i). reflexivity. }
  rewrite (fold_setBit_bits _ MAXCHVEC) by (unfold MAXCHVEC; lia).
  reflexivity.
Qed.


(** Position [i] of the choice vector asks for an attribute that the
    pattern leaves open. *)
Definition starAt (r : Reln) (vals : list string) (i : nat) : bool :=
  match vals !! Z.to_nat (fst (cvItem r i)) with
  | Some v => isStar v
  | None => false
  end.

Lemma existsb_seq_eq (Q : nat -> bool) (n : nat) j :
  0 <= j ->
  existsb (fun i => (Z.of_nat i =? j) && Q i) (seq 0 n)
  = (j <? Z.of_nat n) && Q (Z.to_nat j).
Proof.
  intros Hj. induction n as [|n IH].
  - simpl. destruct (Z.ltb_spec j (Z.of_nat 0)); [lia | reflexivity].
  - rewrite seq_S, existsb_app, IH. cbn [existsb Nat.add].
    rewrite orb_false_r.
    destruct (Z.eqb_spec (Z.of_nat n) j) as [<-|Hne].
    + rewrite Nat2Z.id.
      destruct (Z.ltb_spec (Z.of_nat n) (Z.of_nat n)); [lia|].
      destruct (Z.ltb_spec (Z.of_nat n) (Z.of_nat (S n))); [|lia].
      reflexivity.
    + rewrite orb_false_r.
      destruct (Z.ltb_spec j (Z.of_nat n)), (Z.ltb_spec j (Z.of_nat (S n)));
        try reflexivity; lia.
Qed.

Lemma compilePattern_spec r vals :
  (forall i : nat, is_Some (vals !! Z.to_nat (fst (cvItem r i)))) ->
  forall idx kn stars,
  Forall (fun i : nat => (i < 32)%nat) idx ->
  exists kn',
    compilePattern r vals idx kn stars
      = Some (kn', stars ++ (Z.of_nat <$> List.filter (starAt r vals) idx)) /\
    forall j, 0 <= j ->
      Z.testbit kn' j =
      Z.testbit kn j ||
      existsb (fun i => (Z.of_nat i =? j) &&
                        (negb (starAt r vals i) && cvBit r vals i)) idx.
Proof.
  intros Hv. induction idx as [|i idx IH]; intros kn stars Hidx.
  - exists kn. simpl. rewrite app_nil_r. split; [reflexivity|].
    intros j _. rewrite orb_false_r. reflexivity.
  - apply Forall_cons in Hidx. destruct Hidx as [Hi Hidx].
    cbn [compilePattern List.filter existsb].
    destruct (Hv i) as [v Ev].
    assert (Est : starAt r vals i = isStar v) by (unfold starAt; rewrite Ev; reflexivity).
    assert (Ecb : cvBit r vals i = bitIsSet (hash_any v) (snd (cvItem r i))).
    { unfold cvBit. rewrite (nth_lookup_Some _ _ _ _ Ev). reflexivity. }
    rewrite Est, Ecb. destruct (cvItem r i) as [att bit] eqn:Ecv.
    simpl fst in Ev. rewrite Ev. simpl snd.
    destruct (isStar v) eqn:Es; cbn [negb].
    + destruct (IH kn (stars ++ [Z.of_nat i mod 256]) Hidx) as (kn' & E & Hb).
      exists kn'. split.
      * rewrite E, <- app_assoc, fmap_cons. cbn [app].
        rewrite Z.mod_small by lia. reflexivity.
      * intros j Hj. rewrite (Hb j Hj), andb_false_r. reflexivity.
    + destruct (IH (if bitIsSet (hash_any v) bit
                    then setBit kn (Z.of_nat i) else kn) stars Hidx)
        as (kn' & E & Hb).
      exists kn'. split; [exact E|].
      intros j Hj. rewrite (Hb j Hj). cbn [andb].
      destruct (bitIsSet (hash_any v) bit).
      * rewrite testbit_setBit by lia. rewrite andb_true_r, orb_assoc.
        reflexivity.
      * rewrite andb_false_r. reflexivity.
Qed.


Lemma omap_ext_all {A B} (f g : A -> option B) (l : list A) :
  (forall x, f x = g x) -> omap f l = omap g l.
Proof.
  intros H. induction l as [|x l IH]; [reflexivity|].
  csimpl. rewrite H. destruct (g x); [f_equal|]; exact IH.
Qed.

Lemma omap_length_le {A B} (f : A -> option B) (l : list A) :
  (length (omap f l) <= length l)%nat.
Proof.
  induction l as [|x l IH]; csimpl; [lia|].
  destruct (f x); simpl; lia.
Qed.

Section PartialScan.

Variables (r : Reln) (chains : list (list Z)) (pt : Tuple).
Hypothesis HS : Structure r chains.
Hypothesis HC : Counters r.
Hypothesis Hcv : cvValid r.
Hypothesis Hpt : (Z.to_nat (nattrs r) <= length (tupleVals pt))%nat.

(** The star positions among [cv[0..depth]], in increasing order. *)
Definition pstars : list Z :=
  Z.of_nat <$>
    List.filter (starAt r (tupleVals pt)) (seq 0 (Z.to_nat (depth r + 1))).

(** The known bits, as [startQuery] computes them. *)
Definition pknown : Bits :=
  match compilePattern r (tupleVals pt)
          (seq 0 (Z.to_nat (depth r + 1))) 0 [] with
  | Some (kn, _) => kn
  | None => 0
  end.

(** The position [depth] is a star position. *)
Definition starTop : bool := starAt r (tupleVals pt) (Z.to_nat (depth r)).

(** The composite hash for the value [bs] of the counter. *)
Definition malHash (bs : Z) : Bits := Z.lor (scatter pstars bs) pknown.

(** The bucket read for the value [bs] of the counter (lines 166-188). *)
Definition bucketAt (bs : Z) : option Z :=
  if starTop then
    let p := getLower (malHash bs) (depth r + 1) in
    if p <? npages r then Some p else None
  else Some (bucketOf r (malHash bs)).

Lemma pattern_vals (i : nat) :
  is_Some (tupleVals pt !! Z.to_nat (fst (cvItem r i))).
Proof. apply lookup_lt_is_Some_2. pose proof (Hcv i). lia. Qed.

Lemma compile_eq :
  compilePattern r (tupleVals pt) (seq 0 (Z.to_nat (depth r + 1))) 0 []
  = Some (pknown, pstars).
Proof.
  pose proof (Counters_depth r HC) as Hd.
  destruct (compilePattern_spec r (tupleVals pt) pattern_vals
              (seq 0 (Z.to_nat (depth r + 1))) 0 []) as (kn & E & _).
  { apply Forall_forall. intros i Hi. apply list_elem_of_In, in_seq in Hi. lia. }
  unfold pknown. rewrite E. reflexivity.
Qed.

Lemma pknown_bit j :
  0 <= j ->
  Z.testbit pknown j =
  (j <? depth r + 1) &&
  (negb (starAt r (tupleVals pt) (Z.to_nat j)) &&
   cvBit r (tupleVals pt) (Z.to_nat j)).
Proof.
  intros Hj. pose proof (Counters_depth r HC) as Hd.
  destruct (compilePattern_spec r (tupleVals pt) pattern_vals
              (seq 0 (Z.to_nat (depth r + 1))) 0 []) as (kn & E & Hb).
  { apply Forall_forall. intros i Hi. apply list_elem_of_In, in_seq in Hi. lia. }
  unfold pknown. rewrite E, (Hb j Hj), Z.bits_0, orb_false_l.
  rewrite existsb_seq_eq by exact Hj. rewrite Z2Nat.id by lia. reflexivity.
Qed.

Lemma pstars_elem s :
  s ∈ pstars <->
  0 <= s <= depth r /\ starAt r (tupleVals pt) (Z.to_nat s) = true.
Proof.
  pose proof (Counters_depth r HC) as Hd. unfold pstars.
  rewrite list_elem_of_fmap. split.
  - intros (i & -> & Hi). apply list_elem_of_In, filter_In in Hi.
    destruct Hi as [Hi Hst]. apply in_seq in Hi. rewrite Nat2Z.id.
    split; [lia | exact Hst].
  - intros [Hs Hst]. exists (Z.to_nat s). split; [lia|].
    apply list_elem_of_In, filter_In. split; [|exact Hst].
    apply in_seq. lia.
Qed.

Lemma pstars_range : Forall (fun s => 0 <= s < 32) pstars.
Proof.
  pose proof (Counters_depth r HC) as Hd.
  apply Forall_forall. intros s Hs. apply pstars_elem in Hs. lia.
Qed.

Lemma pstars_nonneg : Forall (fun s => 0 <= s) pstars.
Proof. eapply Forall_impl; [apply pstars_range|]. simpl. intros; lia. Qed.

Lemma pstars_NoDup : NoDup pstars.
Proof.
  unfold pstars. apply NoDup_fmap; [apply Nat2Z.inj'|].
  apply NoDup_ListNoDup, List.NoDup_filter, List.seq_NoDup.
Qed.

Lemma pstars_length : (length pstars <= Z.to_nat (depth r + 1))%nat.
Proof.
  unfold pstars. rewrite length_fmap.
  etransitivity; [apply List.filter_length_le|]. rewrite length_seq. lia.
Qed.

Lemma pstars_pow :
  0 < 2 ^ Z.of_nat (length pstars) <= 2 ^ (depth r + 1) /\
  2 ^ (depth r + 1) <= 4294967296.
Proof.
  pose proof (Counters_depth r HC) as Hd. pose proof pstars_length as Hl.
  split; [split|].
  - apply Z.pow_pos_nonneg; lia.
  - apply Z.pow_le_mono_r; lia.
  - change 4294967296 with (2 ^ 32). apply Z.pow_le_mono_r; lia.
Qed.

(** The highest star position is [depth] exactly when [depth] is one. *)
Lemma pstars_top top :
  pstars !! Z.to_nat (Z.of_nat (length pstars) - 1) = Some top ->
  pstars <> [] ->
  (top =? depth r) = starTop.
Proof.
  pose proof (Counters_depth r HC) as Hd. intros Hl Hne.
  assert (Hsplit : pstars =
            (Z.of_nat <$> List.filter (starAt r (tupleVals pt))
                            (seq 0 (Z.to_nat (depth r)))) ++
            (if starTop then [depth r] else [])).
  { unfold pstars.
    replace (Z.to_nat (depth r + 1)) with (S (Z.to_nat (depth r))) by lia.
    rewrite seq_S, List.filter_app, fmap_app. f_equal.
    cbn [List.filter Nat.add]. fold starTop. destruct starTop; [|reflexivity].
    simpl. rewrite Z2Nat.id by lia. reflexivity. }
  destruct starTop eqn:Et.
  - rewrite Hsplit in Hl. rewrite length_app in Hl. simpl length in Hl.
    rewrite lookup_app_r in Hl by lia.
    replace (_ - _)%nat with 0%nat in Hl by lia. simpl in Hl.
    injection Hl as <-. apply Z.eqb_refl.
  - rewrite app_nil_r in Hsplit.
    assert (Hin : top ∈ pstars) by (eapply list_elem_of_lookup_2, Hl).
    rewrite Hsplit in Hin. apply list_elem_of_fmap in Hin.
    destruct Hin as (i & -> & Hi). apply list_elem_of_In, filter_In in Hi.
    destruct Hi as [Hi _]. apply in_seq in Hi.
    destruct (Z.eqb_spec (Z.of_nat i) (depth r)); [lia | reflexivity].
Qed.


(** The tuples of a list that match the pattern. *)
Definition matching (l : list Tuple) : list Tuple :=
  List.filter (tupleMatch r pt) l.

Definition contentAt (o : option Z) : list Tuple :=
  match o with
  | Some k => bucketContent r chains (Z.to_nat k)
  | None => []
  end.

(** What the buckets behind the value [bs] of the counter hold. *)
Definition qlater (bs : Z) : list Tuple :=
  concat ((fun b => matching (contentAt (bucketAt b))) <$>
            seqZ (bs + 1) (2 ^ Z.of_nat (length pstars) - 1 - bs)).

(** The state of a scan; [cr] are the overflow pages of the current
    bucket still to be read. *)
Record PInv (q : Query) (cr : list Z) : Prop := mkPInv {
  pi_rel : rel q = r;
  pi_query : query q = pt;
  pi_known : known q = pknown;
  pi_nstars : nstars q = Z.of_nat (length pstars);
  pi_stars : starBits q = pstars;
  pi_max : bitSeqMax q = 2 ^ Z.of_nat (length pstars) - 1;
  pi_seq : 0 <= bitSeq q <= bitSeqMax q;
  pi_linked : Linked (olinks r) (pg_ovflow (curpage q)) cr;
  pi_len : (length cr <= length (ovflow r))%nat;
  pi_scanned :
    0 <= nTupleScanned q <= Z.of_nat (length (pg_data (curpage q)));
  pi_wf : wfPage (curpage q)
}.

(** What the scan has still to return, in the order it returns it. *)
Definition pending (q : Query) (cr : list Z) : list Tuple :=
  matching (drop (Z.to_nat (nTupleScanned q)) (pg_data (curpage q))) ++
  matching (ocontent (ovflow r) cr) ++ qlater (bitSeq q).

Lemma matching_app l1 l2 : matching (l1 ++ l2) = matching l1 ++ matching l2.
Proof. apply List.filter_app. Qed.

Lemma scanTuples_part : forall ts n,
  0 <= n -> n + Z.of_nat (length ts) < 4294967296 ->
  match matching ts with
  | [] => scanTuples r pt ts n = (None, n + Z.of_nat (length ts))
  | t :: l =>
      exists k : nat,
        (1 <= k <= length ts)%nat /\
        scanTuples r pt ts n = (Some t, n + Z.of_nat k) /\
        matching (drop k ts) = l
  end.
Proof.
  induction ts as [|t ts IH]; intros n Hn Hb.
  - simpl. f_equal. lia.
  - simpl length in Hb. rewrite Nat2Z.inj_succ in Hb.
    unfold matching. cbn [List.filter scanTuples].
    rewrite (wrap_id (n + 1)) by lia.
    destruct (tupleMatch r pt t) eqn:Em.
    + exists 1%nat. split; [simpl; lia|]. split; [reflexivity|].
      reflexivity.
    + specialize (IH (n + 1) ltac:(lia) ltac:(lia)). unfold matching in IH.
      destruct (List.filter (tupleMatch r pt) ts) as [|t' l].
      * rewrite IH. simpl length. f_equal. lia.
      * destruct IH as (k & Hk & E & Hd). exists (S k).
        split; [simpl; lia|]. split; [rewrite E; f_equal; lia|].
        exact Hd.
Qed.

Lemma scanPage_part q cr :
  PInv q cr ->
  exists res q',
    scanPage q = (res, q') /\ PInv q' cr /\ bitSeq q' = bitSeq q /\
    match res with
    | Some t =>
        matching (drop (Z.to_nat (nTupleScanned q)) (pg_data (curpage q)))
        = t :: matching (drop (Z.to_nat (nTupleScanned q'))
                          (pg_data (curpage q')))
    | None =>
        matching (drop (Z.to_nat (nTupleScanned q)) (pg_data (curpage q)))
        = [] /\
        drop (Z.to_nat (nTupleScanned q')) (pg_data (curpage q')) = []
    end.
Proof.
  intros Q. unfold scanPage, pageData.
  rewrite (pi_rel _ _ Q), (pi_query _ _ Q).
  pose proof (pi_scanned _ _ Q) as Hn.
  pose proof (pi_wf _ _ Q) as Hw. unfold wfPage, pageFree in Hw.
  pose proof (length_le_runLength (pg_data (curpage q))) as Hl.
  assert (Hcap : dataCap = 1012) by reflexivity.
  set (n := nTupleScanned q) in *. set (ts := pg_data (curpage q)) in *.
  assert (Hdl : Z.of_nat (length (drop (Z.to_nat n) ts))
                = Z.of_nat (length ts) - n).
  { rewrite length_drop. lia. }
  pose proof (scanTuples_part (drop (Z.to_nat n) ts) n ltac:(lia) ltac:(lia))
    as Hsc.
  destruct (matching (drop (Z.to_nat n) ts)) as [|t l] eqn:Em.
  - rewrite Hsc. exists None. eexists. split; [reflexivity|].
    split; [|split; [reflexivity|]].
    + destruct Q. constructor; simpl; try assumption. fold ts. lia.
    + split; [reflexivity|]. simpl. fold ts. apply drop_ge. lia.
  - destruct Hsc as (k & Hk & E & Hd). rewrite E.
    exists (Some t). eexists. split; [reflexivity|].
    split; [|split; [reflexivity|]].
    + destruct Q. constructor; simpl; try assumption. fold ts. lia.
    + simpl. fold ts. rewrite drop_drop in Hd.
      replace (Z.to_nat (n + Z.of_nat k)) with (Z.to_nat n + k)%nat by lia.
      rewrite Hd. reflexivity.
Qed.


Lemma PInv_set_page q i rest pgi :
  PInv q (i :: rest) -> getPage (ovflow r) i = Some pgi ->
  PInv (set_scan q pgi 0) rest.
Proof.
  intros Q Hpg. pose proof (pi_linked _ _ Q) as HL.
  unfold olinks in HL. apply Linked_cons_page in HL.
  destruct HL as (_ & _ & pg' & Hpg' & HL).
  rewrite Hpg in Hpg'. injection Hpg' as <-.
  pose proof (pi_len _ _ Q) as Hlen. simpl in Hlen.
  destruct Q. constructor; simpl; try assumption.
  - lia.
  - lia.
  - eapply Forall_wf_lookup; [apply (st_wf_ovflow _ _ HS) | exact Hpg].
Qed.

(** The overflow pages of the bucket, once the current page is done. *)
Lemma scanOvflow_part : forall cr q rounds,
  PInv q cr ->
  drop (Z.to_nat (nTupleScanned q)) (pg_data (curpage q)) = [] ->
  (length cr <= rounds)%nat ->
  exists res q' cr',
    scanOvflow rounds q = Some (res, q') /\ PInv q' cr' /\
    bitSeq q' = bitSeq q /\
    match res with
    | Some t =>
        matching (ocontent (ovflow r) cr) =
        t :: matching (drop (Z.to_nat (nTupleScanned q'))
                         (pg_data (curpage q'))) ++
             matching (ocontent (ovflow r) cr')
    | None =>
        matching (ocontent (ovflow r) cr) = [] /\ cr' = [] /\
        drop (Z.to_nat (nTupleScanned q')) (pg_data (curpage q')) = []
    end.
Proof.
  induction cr as [|i rest IH]; intros q rounds Q Hex Hr.
  - pose proof (pi_linked _ _ Q) as HL. simpl in HL.
    exists None, q, []. split.
    + destruct rounds; simpl; unfold pageOvflow; rewrite HL; reflexivity.
    + split; [exact Q|]. split; [reflexivity|]. repeat split. exact Hex.
  - pose proof (pi_linked _ _ Q) as HL.
    unfold olinks in HL. apply Linked_cons_page in HL.
    destruct HL as (Hlink & Hn & pgi & Hpg & HL).
    destruct rounds as [|n]; [simpl in Hr; lia|]. simpl in Hr.
    cbn [scanOvflow]. unfold pageOvflow. rewrite Hlink.
    destruct (Z.eqb_spec i NO_PAGE) as [|_]; [contradiction|].
    rewrite (pi_rel _ _ Q), Hpg.
    pose proof (PInv_set_page q i rest pgi Q Hpg) as Q1.
    destruct (scanPage_part _ _ Q1) as (res1 & q1 & Hs1 & Q1' & Hb1 & Hres1).
    change (drop (Z.to_nat (nTupleScanned (set_scan q pgi 0)))
              (pg_data (curpage (set_scan q pgi 0))))
      with (pg_data pgi) in Hres1.
    assert (Hoc : matching (ocontent (ovflow r) (i :: rest)) =
                  matching (pg_data pgi) ++ matching (ocontent (ovflow r) rest)).
    { unfold ocontent. rewrite fmap_cons, concat_cons, matching_app.
      rewrite (ptup_Some _ _ _ Hpg). reflexivity. }
    rewrite Hs1. destruct res1 as [t|].
    + exists (Some t), q1, rest.
      split; [reflexivity|]. split; [exact Q1'|]. split; [exact Hb1|].
      rewrite Hoc, Hres1. reflexivity.
    + destruct Hres1 as [Hm1 Hd1].
      destruct (IH q1 n Q1' Hd1 ltac:(lia))
        as (res & q' & cr' & Hs & Q' & Hb & Hres).
      exists res, q', cr'. split; [exact Hs|]. split; [exact Q'|].
      split; [rewrite Hb; exact Hb1|]. rewrite Hoc, Hm1. exact Hres.
Qed.


Lemma bucketAt_range bs k : bucketAt bs = Some k -> 0 <= k < npages r.
Proof.
  pose proof (Counters_depth r HC) as Hd. unfold bucketAt.
  destruct starTop.
  - cbv zeta. destruct (Z.ltb_spec (getLower (malHash bs) (depth r + 1))
                          (npages r)); [|discriminate].
    intros [= <-].
    pose proof (getLower_range (malHash bs) (depth r + 1) ltac:(lia)). lia.
  - intros [= <-]. apply bucketOf_range, HC.
Qed.

Lemma qlater_next bs :
  bs < 2 ^ Z.of_nat (length pstars) - 1 ->
  qlater bs = matching (contentAt (bucketAt (bs + 1))) ++ qlater (bs + 1).
Proof.
  intros H. unfold qlater. rewrite seqZ_cons by lia.
  rewrite fmap_cons, concat_cons.
  replace (Z.succ (bs + 1)) with (bs + 1 + 1) by lia.
  replace (Z.pred (2 ^ Z.of_nat (length pstars) - 1 - bs))
    with (2 ^ Z.of_nat (length pstars) - 1 - (bs + 1)) by lia.
  reflexivity.
Qed.

Lemma qlater_end bs :
  2 ^ Z.of_nat (length pstars) - 1 <= bs -> qlater bs = [].
Proof. intros H. unfold qlater. rewrite seqZ_nil by lia. reflexivity. Qed.

(** The step to the next value of the counter. *)
Lemma nextBucket_part q :
  PInv q [] -> bitSeq q < bitSeqMax q ->
  exists q1,
    nextBucket q = Some (q1, bucketAt (bitSeq q + 1)) /\
    bitSeq q1 = bitSeq q + 1 /\
    curpage q1 = curpage q /\ nTupleScanned q1 = nTupleScanned q /\
    query q1 = query q.
Proof.
  intros Q Hlt. pose proof (Counters_depth r HC) as Hd.
  pose proof (pi_seq _ _ Q) as Hbs. pose proof (pi_max _ _ Q) as Hmax.
  pose proof pstars_pow as [Hp1 Hp2].
  assert (Hne : pstars <> []).
  { intros E. rewrite E in Hmax. simpl in Hmax. lia. }
  assert (Hlen : (0 < length pstars)%nat).
  { destruct pstars; [contradiction | simpl; lia]. }
  destruct (lookup_lt_is_Some_2 pstars
              (Z.to_nat (Z.of_nat (length pstars) - 1))) as [top Htop]; [lia|].
  pose proof (pstars_top top Htop Hne) as Het.
  unfold nextBucket.
  rewrite (pi_nstars _ _ Q), (pi_stars _ _ Q), (pi_known _ _ Q), (pi_rel _ _ Q).
  destruct (Z.leb_spec 0 (Z.of_nat (length pstars) - 1)) as [_|]; [|lia].
  rewrite Htop, Het.
  rewrite (wrap_id (bitSeq q + 1)) by lia.
  rewrite (wrap_id (depth r + 1)) by lia.
  rewrite formUnknown_scatter by apply pstars_range.
  unfold bucketAt, malHash. cbv zeta.
  destruct starTop; cbn [negb].
  - destruct (_ <? _); eexists; (split; [reflexivity|]); simpl; auto.
  - eexists; (split; [reflexivity|]); simpl; auto.
Qed.

Lemma advance_part q :
  PInv q [] ->
  drop (Z.to_nat (nTupleScanned q)) (pg_data (curpage q)) = [] ->
  bitSeq q < bitSeqMax q ->
  exists q' cr',
    advance q = Some q' /\ PInv q' cr' /\ bitSeq q' = bitSeq q + 1 /\
    matching (drop (Z.to_nat (nTupleScanned q')) (pg_data (curpage q'))) ++
    matching (ocontent (ovflow r) cr')
    = matching (contentAt (bucketAt (bitSeq q + 1))).
Proof.
  intros Q Hex Hlt.
  destruct (nextBucket_part q Q Hlt) as (q1 & Hnb & Hb1 & Ecp & Ent & Eq).
  pose proof (nextBucket_fields _ _ _ Hnb) as (R1 & _ & _ & M1 & N1 & S1 & K1).
  pose proof (pi_seq _ _ Q) as Hbs.
  unfold advance. rewrite Hnb.
  destruct (bucketAt (bitSeq q + 1)) as [k|] eqn:Ek.
  - pose proof (bucketAt_range _ _ Ek) as Hk.
    rewrite R1, (pi_rel _ _ Q).
    assert (Hr : 0 <= k < Z.of_nat (length (data r))).
    { rewrite (st_npages _ _ HS). exact Hk. }
    destruct (getPage_in_range _ _ Hr) as [pg Hpg]. rewrite Hpg.
    apply getPage_Some in Hpg as Hpg'. destruct Hpg' as [_ Hlk].
    destruct (lookup_lt_is_Some_2 chains (Z.to_nat k)) as [ch Hch].
    { rewrite (st_chains _ _ HS). lia. }
    eexists _, ch. split; [reflexivity|]. split; [|split].
    + destruct Q. constructor; simpl; try congruence; try lia;
        first [ eapply (st_linked _ _ HS); eassumption
              | eapply Structure_chain_length; eassumption
              | eapply Forall_wf_lookup;
                [apply (st_wf_data _ _ HS) | exact Hpg] ].
    + simpl. exact Hb1.
    + simpl. rewrite <- matching_app. f_equal. unfold bucketContent.
      rewrite Hch, Z2Nat.id by lia. simpl.
      rewrite (ptup_Some _ _ _ Hpg). reflexivity.
  - exists q1, []. split; [reflexivity|].
    split; [|split; [exact Hb1|]].
    + destruct Q. constructor; try congruence; try lia; try assumption;
        rewrite ?Ecp, ?Ent; assumption.
    + rewrite Ecp, Ent, Hex. reflexivity.
Qed.


(** One call of the scan: the next matching tuple of what is pending, or
    the null result when nothing is. *)
Lemma getNextLoop_part : forall m q cr rounds,
  PInv q cr ->
  (Z.to_nat (bitSeqMax q - bitSeq q) <= m)%nat -> (m <= rounds)%nat ->
  exists res q',
    getNextLoop rounds q = Some (res, q') /\
    match res with
    | None => pending q cr = []
    | Some t => exists cr', PInv q' cr' /\ pending q cr = t :: pending q' cr'
    end.
Proof.
  induction m as [|m IH]; intros q cr rounds Q Hm Hr;
    rewrite getNextLoop_unfold;
    destruct (scanPage_part q cr Q) as (res1 & q1 & Hs1 & Q1 & Hb1 & Hres1);
    rewrite Hs1;
    (destruct res1 as [t|];
     [exists (Some t), q1; split; [reflexivity|]; exists cr;
      split; [exact Q1|]; unfold pending; rewrite Hres1, Hb1; reflexivity|]);
    destruct Hres1 as [Hm1 Hd1]; rewrite (pi_rel _ _ Q1);
    destruct (scanOvflow_part cr q1 (length (ovflow r)) Q1 Hd1 (pi_len _ _ Q1))
      as (res2 & q2 & cr2 & Hs2 & Q2 & Hb2 & Hres2);
    rewrite Hs2;
    (destruct res2 as [t|];
     [exists (Some t), q2; split; [reflexivity|]; exists cr2;
      split; [exact Q2|]; unfold pending;
      rewrite Hm1, Hres2, Hb2, Hb1; simpl; rewrite <- app_assoc; reflexivity|]);
    destruct Hres2 as (Hm2 & -> & Hd2);
    pose proof (pi_max _ _ Q) as Hmax; pose proof (pi_max _ _ Q2) as Hmax2;
    pose proof (pi_seq _ _ Q2) as Hbs2;
    (assert (Hpend : pending q cr = qlater (bitSeq q2))
      by (unfold pending; rewrite Hm1, Hm2, Hb2, Hb1; reflexivity));
    (destruct (Z.eqb_spec (bitSeq q2) (bitSeqMax q2)) as [He|Hne];
     [exists None, q2; split; [reflexivity|];
      rewrite Hpend; apply qlater_end; lia|]).
  - exfalso. lia.
  - destruct rounds as [|k]; [lia|].
    destruct (advance_part q2 Q2 Hd2 ltac:(lia))
      as (q3 & cr3 & Ha & Q3 & Hb3 & Hcont).
    rewrite Ha.
    destruct (IH q3 cr3 k Q3) as (res & q' & Hg & Hres).
    { rewrite (pi_max _ _ Q3), Hb3. lia. }
    { lia. }
    exists res, q'. split; [exact Hg|].
    assert (E : pending q cr = pending q3 cr3).
    { rewrite Hpend, (qlater_next (bitSeq q2)) by lia.
      unfold pending. rewrite Hb3, <- Hcont, <- app_assoc. reflexivity. }
    rewrite E. exact Hres.
Qed.

Lemma getNextTuple_part q cr :
  PInv q cr ->
  exists res q',
    getNextTuple q = Some (res, q') /\
    match res with
    | None => pending q cr = []
    | Some t => exists cr', PInv q' cr' /\ pending q cr = t :: pending q' cr'
    end.
Proof.
  intros Q. unfold getNextTuple.
  pose proof (pi_seq _ _ Q) as Hbs. pose proof (pi_max _ _ Q) as Hmax.
  pose proof pstars_pow as [Hp1 Hp2].
  rewrite wrap_id by lia.
  apply (getNextLoop_part (Z.to_nat (bitSeqMax q - bitSeq q)) q cr _ Q); lia.
Qed.

(** Running the scan to exhaustion returns what is pending, in order. *)
Lemma drain_part : forall (n : nat) q cr calls,
  PInv q cr -> length (pending q cr) = n -> (n <= calls)%nat ->
  exists q', drain calls q = Some (pending q cr, q').
Proof.
  induction n as [|n IH]; intros q cr calls Q Hn Hc;
    destruct (getNextTuple_part q cr Q) as (res & q1 & Hg & Hres).
  - destruct res as [t|].
    + destruct Hres as (cr' & _ & E). rewrite E in Hn. discriminate.
    + rewrite Hres. exists q1.
      destruct calls; simpl; rewrite Hg; reflexivity.
  - destruct res as [t|].
    + destruct Hres as (cr' & Q1 & E). rewrite E in Hn |- *.
      simpl in Hn. destruct calls as [|k]; [lia|].
      destruct (IH q1 cr' k Q1) as (q' & Hd); [lia | lia |].
      exists q'. simpl. rewrite Hg, Hd. reflexivity.
    + rewrite Hres in Hn. discriminate.
Qed.


Lemma getLower_bits v k j :
  0 <= k <= 32 -> 0 <= j ->
  Z.testbit (getLower v k) j = (j <? k) && Z.testbit v j.
Proof.
  intros Hk Hj. rewrite getLower_mod by exact Hk.
  destruct (Z.ltb_spec j k).
  - rewrite Z.mod_pow2_bits_low by lia. reflexivity.
  - rewrite Z.mod_pow2_bits_high by lia. reflexivity.
Qed.

Lemma getLower_ext a b k :
  0 <= k <= 32 ->
  (forall j, 0 <= j < k -> Z.testbit a j = Z.testbit b j) ->
  getLower a k = getLower b k.
Proof.
  intros Hk H. apply Z.bits_inj'. intros j Hj.
  rewrite !getLower_bits by assumption.
  destruct (Z.ltb_spec j k); [|reflexivity]. simpl. apply H. lia.
Qed.

Lemma scatter_zero stars : scatter stars 0 = 0.
Proof. induction stars as [|s rest IH]; simpl; [reflexivity | exact IH]. Qed.

Lemma malHash_zero : malHash 0 = pknown.
Proof. unfold malHash. rewrite scatter_zero. reflexivity. Qed.

(** The first bucket follows the rule of the later ones. *)
Lemma bucketAt_first : bucketAt 0 = Some (bucketOf r (malHash 0)).
Proof.
  pose proof (Counters_depth r HC) as Hd. pose proof HC as (_ & Hsp & Hnp & _).
  unfold bucketAt. destruct starTop eqn:Et; [|reflexivity]. cbv zeta.
  rewrite malHash_zero.
  assert (E : getLower pknown (depth r + 1) = getLower pknown (depth r)).
  { apply Z.bits_inj'. intros j Hj. rewrite !getLower_bits by lia.
    destruct (Z.ltb_spec j (depth r + 1)), (Z.ltb_spec j (depth r));
      try reflexivity; try lia.
    assert (j = depth r) by lia. subst j. simpl.
    rewrite pknown_bit by lia. fold starTop. rewrite Et.
    rewrite andb_false_r. reflexivity. }
  pose proof (getLower_range pknown (depth r) ltac:(lia)) as Hr.
  unfold bucketOf. cbv zeta. rewrite (wrap_id (depth r + 1)) by lia.
  rewrite E. destruct (Z.ltb_spec (getLower pknown (depth r)) (npages r)); [|lia].
  destruct (_ <? sp r); reflexivity.
Qed.

(** The scan starts with everything still to return. *)
Lemma startQuery_part :
  exists q cr,
    startQuery r pt = Some q /\ PInv q cr /\
    pending q cr =
    concat ((fun b => matching (contentAt (bucketAt b))) <$>
              seqZ 0 (2 ^ Z.of_nat (length pstars))).
Proof.
  pose proof (Counters_depth r HC) as Hd.
  pose proof pstars_pow as [Hp1 Hp2]. pose proof pstars_length as Hlen.
  unfold startQuery, firstBucket.
  rewrite (wrap_id (depth r + 1)) by lia. rewrite compile_eq.
  rewrite formUnknown_scatter by apply pstars_range.
  rewrite scatter_zero.
  replace (Z.lor 0 pknown) with (malHash 0) by (rewrite malHash_zero; reflexivity).
  pose proof bucketAt_first as Hf.
  pose proof (bucketAt_range _ _ Hf) as Hk.
  set (k := bucketOf r (malHash 0)) in *.
  assert (Hr : 0 <= k < Z.of_nat (length (data r))).
  { rewrite (st_npages _ _ HS). exact Hk. }
  destruct (getPage_in_range _ _ Hr) as [pg Hpg]. rewrite Hpg.
  destruct (lookup_lt_is_Some_2 chains (Z.to_nat k)) as [ch Hch].
  { rewrite (st_chains _ _ HS). lia. }
  apply getPage_Some in Hpg as Hpg'. destruct Hpg' as [_ Hlk].
  eexists _, ch. split; [reflexivity|]. split.
  - constructor; simpl; try reflexivity.
    + rewrite starMask_ones by lia. apply Z.ones_equiv.
    + rewrite starMask_ones by lia. rewrite Z.ones_equiv. lia.
    + eapply (st_linked _ _ HS); eassumption.
    + eapply Structure_chain_length; eassumption.
    + lia.
    + eapply Forall_wf_lookup; [apply (st_wf_data _ _ HS) | exact Hpg].
  - unfold pending. cbn [nTupleScanned curpage bitSeq].
    change (Z.to_nat 0) with 0%nat. rewrite drop_0.
    rewrite seqZ_cons by lia. rewrite fmap_cons, concat_cons, Hf.
    rewrite app_assoc, <- matching_app. f_equal.
    + f_equal. unfold contentAt, bucketContent. rewrite Hch, Z2Nat.id by lia.
      simpl. rewrite (ptup_Some _ _ _ Hpg). reflexivity.
    + unfold qlater.
      replace (Z.succ 0) with (0 + 1) by lia.
      replace (Z.pred (2 ^ Z.of_nat (length pstars)))
        with (2 ^ Z.of_nat (length pstars) - 1 - 0) by lia.
      reflexivity.
Qed.


(** In-section form of the order of the results. *)
Lemma query_order_part (calls : nat) :
  (length (concat ((fun b => matching (contentAt (bucketAt b))) <$>
                     seqZ 0 (2 ^ Z.of_nat (length pstars)))) <= calls)%nat ->
  exists q out q',
    startQuery r pt = Some q /\ drain calls q = Some (out, q') /\
    nstars q = Z.of_nat (length pstars) /\
    out = concat ((fun b => matching (contentAt (bucketAt b))) <$>
                    seqZ 0 (2 ^ Z.of_nat (length pstars))).
Proof.
  intros Hcalls.
  destruct startQuery_part as (q & cr & Hq & Q & Hpend).
  rewrite <- Hpend in Hcalls.
  destruct (drain_part _ q cr calls Q eq_refl Hcalls) as (q' & Hd).
  exists q, (pending q cr), q'. split; [exact Hq|]. split; [exact Hd|].
  split; [apply (pi_nstars _ _ Q) | exact Hpend].
Qed.

(** *** The buckets a query reads *)

Lemma pstars_decide j :
  0 <= j ->
  bool_decide (j ∈ pstars) =
  (j <? depth r + 1) && starAt r (tupleVals pt) (Z.to_nat j).
Proof.
  intros Hj. destruct (Z.ltb_spec j (depth r + 1)); simpl.
  - destruct (starAt r (tupleVals pt) (Z.to_nat j)) eqn:Es.
    + apply bool_decide_eq_true_2, pstars_elem. split; [lia | exact Es].
    + apply bool_decide_eq_false_2. intros Hin. apply pstars_elem in Hin.
      destruct Hin as [_ Hin]. congruence.
  - apply bool_decide_eq_false_2. intros Hin. apply pstars_elem in Hin. lia.
Qed.

(** At a star position the composite hash has the scattered bit. *)
Lemma malHash_star bs s :
  s ∈ pstars -> Z.testbit (malHash bs) s = Z.testbit (scatter pstars bs) s.
Proof.
  intros Hs. apply pstars_elem in Hs. destruct Hs as [Hs Hst].
  unfold malHash. rewrite Z.lor_spec, pknown_bit by lia.
  rewrite Hst. simpl. rewrite andb_false_r, orb_false_r. reflexivity.
Qed.

(** A bucket address has the bits of the hash below [depth]. *)
Lemma bucketOf_low_bits h j :
  0 <= j < depth r -> Z.testbit (bucketOf r h) j = Z.testbit h j.
Proof.
  intros Hj. pose proof (Counters_depth r HC) as Hd. unfold bucketOf.
  cbv zeta. rewrite (wrap_id (depth r + 1)) by lia.
  destruct (_ <? sp r); rewrite getLower_bits by lia.
  - destruct (Z.ltb_spec j (depth r + 1)); [reflexivity | lia].
  - destruct (Z.ltb_spec j (depth r)); [reflexivity | lia].
Qed.

(** The bucket read for [bs] has the bits of [bs] at the star positions:
    the counter can be read back from the bucket address. *)
Lemma bucketAt_gather bs k :
  0 <= bs < 2 ^ Z.of_nat (length pstars) ->
  bucketAt bs = Some k -> gather pstars k = bs.
Proof.
  intros Hbs Hk. pose proof (Counters_depth r HC) as Hd.
  transitivity (gather pstars (scatter pstars bs));
    [|apply (gather_scatter pstars bs pstars_NoDup pstars_nonneg Hbs)].
  apply gather_ext. intros s Hs. rewrite <- (malHash_star bs s Hs).
  apply pstars_elem in Hs. destruct Hs as [Hs Hst].
  unfold bucketAt in Hk. destruct starTop eqn:Et.
  - cbv zeta in Hk. destruct (_ <? npages r); [|discriminate].
    injection Hk as <-. rewrite getLower_bits by lia.
    destruct (Z.ltb_spec s (depth r + 1)); [reflexivity | lia].
  - injection Hk as <-.
    assert (s <> depth r).
    { intros ->. unfold starTop in Et. congruence. }
    apply bucketOf_low_bits. lia.
Qed.

Hypothesis HA : Addr r chains.

(** A tuple that matches has the known bits of the pattern in its hash. *)
Lemma match_known_bit u j :
  tupleMatch r pt u = true ->
  0 <= j <= depth r -> starAt r (tupleVals pt) (Z.to_nat j) = false ->
  Z.testbit pknown j = Z.testbit (tupleHash r u) j.
Proof.
  intros Hm Hj Hst. pose proof (Counters_depth r HC) as Hd.
  rewrite pknown_bit, tupleHash_bit by lia. rewrite Hst.
  destruct (Z.ltb_spec j (depth r + 1)); [|lia].
  destruct (Z.ltb_spec j 32); [|lia]. simpl.
  unfold cvBit. f_equal. f_equal.
  set (att := Z.to_nat (fst (cvItem r (Z.to_nat j)))).
  assert (Hatt : (att < Z.to_nat (nattrs r))%nat) by apply Hcv.
  unfold tupleMatch in Hm. rewrite forallb_forall in Hm.
  specialize (Hm att ltac:(apply in_seq; lia)).
  unfold starAt in Hst. fold att in Hst.
  unfold fieldMatch, tupleField in Hm.
  destruct (tupleVals pt !! att) as [v|] eqn:Ev; [|discriminate].
  rewrite Hst in Hm. simpl in Hm.
  destruct (tupleVals u !! att) as [w|] eqn:Ew; [|discriminate].
  apply String.eqb_eq in Hm. subst w.
  rewrite (nth_lookup_Some _ _ _ _ Ev), (nth_lookup_Some _ _ _ _ Ew).
  reflexivity.
Qed.

(** Every bucket that holds a matching tuple is read, at the value of the
    counter gathered from its address. *)
Lemma bucketAt_cover (k : nat) u :
  (k < length chains)%nat -> u ∈ bucketContent r chains k ->
  tupleMatch r pt u = true ->
  bucketAt (gather pstars (Z.of_nat k)) = Some (Z.of_nat k).
Proof.
  intros Hk Hu Hm. pose proof (Counters_depth r HC) as Hd.
  pose proof HC as (_ & Hsp & Hnp & _).
  pose proof (HA k u Hk Hu) as Hb.
  set (h := tupleHash r u) in *.
  assert (Hrange : 0 <= Z.of_nat k < npages r).
  { rewrite <- Hb. apply bucketOf_range, HC. }
  assert (HC1 : forall j, 0 <= j < depth r ->
            Z.testbit (Z.of_nat k) j = Z.testbit h j).
  { intros j Hj. rewrite <- Hb. apply bucketOf_low_bits. exact Hj. }
  assert (Hmal : forall j, 0 <= j < depth r ->
            Z.testbit (malHash (gather pstars (Z.of_nat k))) j = Z.testbit h j).
  { intros j Hj. unfold malHash.
    rewrite Z.lor_spec, scatter_gather_bit by (apply pstars_nonneg || lia).
    rewrite pstars_decide by lia.
    destruct (Z.ltb_spec j (depth r + 1)); [|lia]. simpl.
    destruct (starAt r (tupleVals pt) (Z.to_nat j)) eqn:Es.
    - rewrite pknown_bit, Es by lia. simpl.
      rewrite andb_false_r, orb_false_r. apply HC1. exact Hj.
    - simpl. apply match_known_bit; [exact Hm | lia | exact Es]. }
  unfold bucketAt. destruct starTop eqn:Et.
  - cbv zeta.
    assert (E : getLower (malHash (gather pstars (Z.of_nat k))) (depth r + 1)
                = Z.of_nat k).
    { assert (Hk2 : Z.of_nat k < 2 ^ (depth r + 1)).
      { rewrite Z.pow_add_r, Z.pow_1_r by lia. lia. }
      rewrite <- (Z.mod_small (Z.of_nat k) (2 ^ (depth r + 1))) at 2 by lia.
      rewrite <- getLower_mod by lia. apply getLower_ext; [lia|].
      intros j Hj. destruct (Z.eq_dec j (depth r)) as [->|Hne].
      - unfold malHash.
        rewrite Z.lor_spec, scatter_gather_bit by (apply pstars_nonneg || lia).
        rewrite pstars_decide, pknown_bit by lia. fold starTop. rewrite Et.
        destruct (Z.ltb_spec (depth r) (depth r + 1)); [|lia]. simpl.
        rewrite orb_false_r. reflexivity.
      - rewrite Hmal by lia. symmetry. apply HC1. lia. }
    rewrite E. destruct (Z.ltb_spec (Z.of_nat k) (npages r)); [reflexivity | lia].
  - f_equal. transitivity (bucketOf r h); [|exact Hb].
    assert (Hmal' : forall j, 0 <= j < depth r + 1 ->
              Z.testbit (malHash (gather pstars (Z.of_nat k))) j
              = Z.testbit h j).
    { intros j Hj. destruct (Z.eq_dec j (depth r)) as [->|Hne];
        [|apply Hmal; lia].
      unfold malHash.
      rewrite Z.lor_spec, scatter_gather_bit by (apply pstars_nonneg || lia).
      rewrite pstars_decide by lia. fold starTop. rewrite Et, andb_false_r.
      simpl. apply match_known_bit; [exact Hm | lia | exact Et]. }
    unfold bucketOf. cbv zeta. rewrite (wrap_id (depth r + 1)) by lia.
    rewrite (getLower_ext _ h (depth r)) by (try lia; intros; apply Hmal'; lia).
    rewrite (getLower_ext _ h (depth r + 1)) by (try lia; intros; apply Hmal'; lia).
    reflexivity.
Qed.


Lemma concat_fmap_perm {A B} (G : A -> list B) (l l' : list A) :
  l ≡ₚ l' -> concat (G <$> l) ≡ₚ concat (G <$> l').
Proof.
  induction 1 as [|x l l' _ IH|x y l|l1 l2 l3 _ IH1 _ IH2].
  - reflexivity.
  - rewrite !fmap_cons, !concat_cons. apply Permutation_app; [reflexivity|].
    exact IH.
  - rewrite !fmap_cons, !concat_cons. apply Permutation_app_swap_app.
  - etransitivity; eassumption.
Qed.

Lemma concat_omap {A B} (f : A -> option Z) (g : option Z -> list B) :
  g None = [] ->
  forall l, concat ((fun b => g (f b)) <$> l)
            = concat ((fun k => g (Some k)) <$> omap f l).
Proof.
  intros Hg. induction l as [|x l IH]; [reflexivity|].
  rewrite fmap_cons, concat_cons. cbn [omap list_omap].
  destruct (f x) as [k|].
  - rewrite fmap_cons, concat_cons, IH. reflexivity.
  - rewrite Hg, IH. reflexivity.
Qed.

Lemma NoDup_omap_inj {A} (f : A -> option Z) (l : list A) :
  NoDup l ->
  (forall x y z, x ∈ l -> y ∈ l -> f x = Some z -> f y = Some z -> x = y) ->
  NoDup (omap f l).
Proof.
  induction 1 as [|x l Hx Hnd IH]; intros Hinj; [constructor|].
  cbn [omap list_omap]. destruct (f x) as [z|] eqn:Ez.
  - constructor.
    + intros Hin. apply list_elem_of_omap in Hin.
      destruct Hin as (y & Hy & Efy).
      apply Hx. rewrite (Hinj x y z); [exact Hy | constructor | | exact Ez | exact Efy].
      apply elem_of_cons. right. exact Hy.
    + apply IH. intros a b c Ha Hb. apply Hinj; apply elem_of_cons; right; assumption.
  - apply IH. intros a b c Ha Hb. apply Hinj; apply elem_of_cons; right; assumption.
Qed.

Lemma concat_filter_nil {A B} (P : A -> bool) (F : A -> list B) (l : list A) :
  (forall k, k ∈ l -> P k = false -> F k = []) ->
  concat (F <$> List.filter P l) = concat (F <$> l).
Proof.
  induction l as [|x l IH]; intros H; [reflexivity|].
  cbn [List.filter]. rewrite fmap_cons, concat_cons.
  assert (IH' : concat (F <$> List.filter P l) = concat (F <$> l)).
  { apply IH. intros k Hk. apply H. apply elem_of_cons. right. exact Hk. }
  destruct (P x) eqn:Ex.
  - rewrite fmap_cons, concat_cons, IH'. reflexivity.
  - rewrite (H x) by (constructor || exact Ex). rewrite IH'. reflexivity.
Qed.

Lemma matching_concat (ls : list (list Tuple)) :
  matching (concat ls) = concat (matching <$> ls).
Proof.
  induction ls as [|l ls IH]; [reflexivity|].
  rewrite concat_cons, matching_app, fmap_cons, concat_cons, IH. reflexivity.
Qed.

(** Bucket [k] is read by the query. *)
Definition visited (k : Z) : bool :=
  match bucketAt (gather pstars k) with
  | Some k' => k' =? k
  | None => false
  end.

(** The buckets the query reads hold, between them and once each, the
    matching tuples of the relation. *)
Lemma visited_content :
  concat ((fun b => matching (contentAt (bucketAt b))) <$>
            seqZ 0 (2 ^ Z.of_nat (length pstars)))
  ≡ₚ matching (allContent r chains).
Proof.
  pose proof (st_npages _ _ HS) as Hnp. rewrite <- (st_chains _ _ HS) in Hnp.
  set (Fz := fun k : Z => matching (contentAt (Some k))).
  rewrite (concat_omap bucketAt (fun o => matching (contentAt o)) eq_refl).
  fold Fz.
  transitivity (concat (Fz <$> List.filter visited
                                 (seqZ 0 (Z.of_nat (length chains))))).
  - apply concat_fmap_perm, NoDup_Permutation.
    + apply NoDup_omap_inj; [apply NoDup_seqZ|].
      intros x y z Hx Hy Ex Ey. apply elem_of_seqZ in Hx, Hy.
      rewrite <- (bucketAt_gather x z) by (assumption || lia).
      apply bucketAt_gather; [lia | exact Ey].
    + apply NoDup_ListNoDup, List.NoDup_filter, NoDup_ListNoDup, NoDup_seqZ.
    + intros k. rewrite list_elem_of_omap, list_elem_of_In, filter_In.
      rewrite <- list_elem_of_In, elem_of_seqZ. split.
      * intros (bs & Hbs & Ek). apply elem_of_seqZ in Hbs.
        pose proof (bucketAt_range _ _ Ek) as Hk.
        split; [lia|]. unfold visited.
        rewrite (bucketAt_gather bs k) by (assumption || lia).
        rewrite Ek. apply Z.eqb_refl.
      * intros [Hk Hv]. unfold visited in Hv.
        destruct (bucketAt (gather pstars k)) as [k'|] eqn:Ek; [|discriminate].
        apply Z.eqb_eq in Hv. subst k'.
        exists (gather pstars k). split; [|exact Ek].
        apply elem_of_seqZ. pose proof (gather_range pstars k). lia.
  - rewrite concat_filter_nil.
    + unfold allContent. rewrite matching_concat, <- list_fmap_compose.
      unfold seqZ. rewrite Nat2Z.id, <- list_fmap_compose.
      match goal with |- ?a ≡ₚ ?b => replace b with a; [reflexivity|] end.
      f_equal. apply list_fmap_ext. intros i k _. simpl. unfold Fz, contentAt.
      rewrite Z.add_0_r, Nat2Z.id. reflexivity.
    + intros k Hk Hv. apply elem_of_seqZ in Hk. unfold Fz, contentAt.
      destruct (matching (bucketContent r chains (Z.to_nat k))) as [|u l] eqn:Em;
        [reflexivity|].
      exfalso.
      assert (Hin : In u (matching (bucketContent r chains (Z.to_nat k)))).
      { rewrite Em. left. reflexivity. }
      apply filter_In in Hin. destruct Hin as [Hin Hmatch].
      apply list_elem_of_In in Hin.
      pose proof (bucketAt_cover (Z.to_nat k) u ltac:(lia) Hin Hmatch) as Hc.
      rewrite Z2Nat.id in Hc by lia. unfold visited in Hv.
      rewrite Hc, Z.eqb_refl in Hv. discriminate.
Qed.

(** A query of a relation at rest returns, in the order of the scan, the
    matching tuples of the buckets it reads. *)
Lemma query_part (calls : nat) :
  (length (matching (allContent r chains)) <= calls)%nat ->
  exists q out q',
    startQuery r pt = Some q /\ drain calls q = Some (out, q') /\
    out ≡ₚ matching (allContent r chains).
Proof.
  intros Hcalls.
  destruct startQuery_part as (q & cr & Hq & Q & Hpend).
  pose proof visited_content as Hperm. rewrite <- Hpend in Hperm.
  destruct (drain_part _ q cr calls Q eq_refl) as (q' & Hd).
  { rewrite (Permutation_length Hperm). exact Hcalls. }
  exists q, (pending q cr), q'. split; [exact Hq|]. split; [exact Hd|].
  exact Hperm.
Qed.


(** *** The primary pages a query reads *)

(** The pages read up to the value [bitSeq] of the counter: one for every
    value that has a bucket, in the order of the values. *)
Definition FInv (q : Query) : Prop :=
  fetched q = omap bucketAt (seqZ 0 (bitSeq q + 1)).

Lemma omap_bucketAt_next bs :
  0 <= bs ->
  omap bucketAt (seqZ 0 (bs + 1 + 1)) =
  omap bucketAt (seqZ 0 (bs + 1)) ++
  match bucketAt (bs + 1) with Some p => [p] | None => [] end.
Proof.
  intros Hbs. rewrite (seqZ_app 0 (bs + 1) 1) by lia.
  rewrite omap_app. f_equal.
Qed.

Lemma startQuery_fetch q :
  startQuery r pt = Some q -> FInv q /\ bitSeq q = 0.
Proof.
  pose proof (Counters_depth r HC) as Hd.
  unfold startQuery, firstBucket.
  rewrite (wrap_id (depth r + 1)) by lia. rewrite compile_eq.
  rewrite formUnknown_scatter by apply pstars_range.
  rewrite scatter_zero.
  replace (Z.lor 0 pknown) with (malHash 0) by (rewrite malHash_zero; reflexivity).
  destruct (getPage _ _); [|discriminate]. intros [= <-].
  split; [|reflexivity]. unfold FInv. cbn [fetched bitSeq].
  change (seqZ 0 (0 + 1)) with [0]. simpl. rewrite bucketAt_first. reflexivity.
Qed.

Lemma advance_fetch q q' :
  PInv q [] -> bitSeq q < bitSeqMax q -> FInv q ->
  advance q = Some q' -> FInv q'.
Proof.
  intros Q Hlt HF Ha.
  pose proof (pi_seq _ _ Q) as Hbs.
  destruct (nextBucket_part q Q Hlt) as (q1 & Hnb & Hb1 & _).
  destruct (advance_fetched _ _ Ha) as (q1' & op & Hnb' & _ & Hb & _ & _ & _ & _ & Hf).
  rewrite Hnb in Hnb'. injection Hnb' as <- <-.
  pose proof (nextBucket_fields _ _ _ Hnb) as (_ & _ & Hw & _).
  unfold FInv. rewrite Hf, Hb, <- Hw, Hb1, HF.
  symmetry. apply omap_bucketAt_next. lia.
Qed.

Lemma getNextLoop_fetch : forall rounds q cr res q',
  PInv q cr -> FInv q ->
  getNextLoop rounds q = Some (res, q') ->
  FInv q' /\ (res = None -> bitSeq q' = bitSeqMax q').
Proof.
  induction rounds as [|k IH]; intros q cr res q' Q HF;
    rewrite getNextLoop_unfold;
    destruct (scanPage_part q cr Q) as (res1 & q1 & Hs1 & Q1 & Hb1 & Hres1);
    pose proof (scanPage_fields _ _ _ Hs1) as (_ & Hf1 & _);
    rewrite Hs1;
    (destruct res1 as [t|];
     [intros [= <- <-]; split; [|discriminate];
      unfold FInv; rewrite Hf1, Hb1; exact HF|]);
    destruct Hres1 as [Hm1 Hd1]; rewrite (pi_rel _ _ Q1);
    destruct (scanOvflow_part cr q1 (length (ovflow r)) Q1 Hd1 (pi_len _ _ Q1))
      as (res2 & q2 & cr2 & Hs2 & Q2 & Hb2 & Hres2);
    pose proof (scanOvflow_fields _ _ _ _ Hs2) as (_ & Hf2 & _);
    rewrite Hs2;
    (assert (HF2 : FInv q2)
      by (unfold FInv; rewrite Hf2, Hf1, Hb2, Hb1; exact HF));
    (destruct res2 as [t|];
     [intros [= <- <-]; split; [exact HF2 | discriminate]|]);
    destruct Hres2 as (Hm2 & -> & Hd2);
    pose proof (pi_seq _ _ Q2) as Hbs2;
    (destruct (Z.eqb_spec (bitSeq q2) (bitSeqMax q2)) as [He|Hne];
     [intros [= <- <-]; split; [exact HF2 | intros _; exact He]|]).
  - discriminate.
  - destruct (advance_part q2 Q2 Hd2 ltac:(lia))
      as (q3 & cr3 & Ha & Q3 & Hb3 & _).
    rewrite Ha. intros Hg.
    apply (IH q3 cr3 res q' Q3); [|exact Hg].
    apply (advance_fetch q2 q3 Q2); [lia | exact HF2 | exact Ha].
Qed.

Lemma getNextTuple_fetch q cr res q' :
  PInv q cr -> FInv q -> getNextTuple q = Some (res, q') ->
  FInv q' /\ (res = None -> bitSeq q' = bitSeqMax q') /\
  bitSeqMax q' = bitSeqMax q /\ nstars q' = nstars q.
Proof.
  intros Q HF Hg. unfold getNextTuple in Hg.
  pose proof (pi_seq _ _ Q) as Hbs. pose proof (pi_max _ _ Q) as Hmax.
  pose proof pstars_pow as [Hp1 Hp2].
  destruct (getNextLoop_fetch _ q cr res q' Q HF Hg) as [H1 H2].
  apply getNextLoop_trace in Hg; [|lia|lia].
  destruct Hg as (_ & M & N & _).
  auto.
Qed.

Lemma drain_fetch : forall calls q cr out q',
  PInv q cr -> FInv q -> drain calls q = Some (out, q') ->
  FInv q' /\ bitSeq q' = bitSeqMax q' /\
  bitSeqMax q' = bitSeqMax q /\ nstars q' = nstars q.
Proof.
  induction calls as [|k IH]; intros q cr out q' Q HF;
    destruct (getNextTuple_part q cr Q) as (res & q1 & Hg & Hres);
    destruct (getNextTuple_fetch q cr res q1 Q HF Hg) as (F1 & E1 & M1 & N1);
    simpl; rewrite Hg; destruct res as [t|].
  - discriminate.
  - intros [= _ <-]. auto.
  - destruct Hres as (cr' & Q1 & _).
    destruct (drain k q1) as [[ts q2]|] eqn:Hd; [|discriminate].
    intros [= _ <-].
    destruct (IH q1 cr' ts q2 Q1 F1 Hd) as (F2 & E2 & M2 & N2).
    repeat split; try assumption; congruence.
  - intros [= _ <-]. auto.
Qed.

(** The code's choice of the page for the value [bs] of the counter, in
    the fields of the query. *)
Lemma bucketAt_fields q cr bs :
  PInv q cr ->
  bucketAt bs =
  let h := Z.lor (formUnknown (nstars q) (starBits q) bs) (known q) in
  match starBits q !! Z.to_nat (nstars q - 1) with
  | Some top =>
      if top =? depth (rel q) then
        let p := getLower h (depth (rel q) + 1) in
        if p <? npages (rel q) then Some p else None
      else Some (bucketOf (rel q) h)
  | None => Some (bucketOf (rel q) h)
  end.
Proof.
  intros Q.
  rewrite (pi_nstars _ _ Q), (pi_stars _ _ Q), (pi_known _ _ Q), (pi_rel _ _ Q).
  rewrite formUnknown_scatter by apply pstars_range.
  cbv zeta. fold (malHash bs). unfold bucketAt.
  destruct (pstars !! Z.to_nat (Z.of_nat (length pstars) - 1)) as [top|] eqn:Et.
  - assert (Hne : pstars <> []).
    { intros E. rewrite E in Et. discriminate. }
    rewrite (pstars_top top Et Hne). destruct starTop; reflexivity.
  - assert (Hnil : pstars = []).
    { destruct pstars as [|s l] eqn:E; [reflexivity|]. exfalso.
      apply lookup_ge_None in Et. simpl in Et. lia. }
    assert (Hst : starTop = false).
    { destruct starTop eqn:Es; [|reflexivity]. exfalso.
      pose proof (Counters_depth r HC) as Hd.
      assert (Hin : depth r ∈ pstars).
      { apply pstars_elem. split; [lia | exact Es]. }
      rewrite Hnil in Hin. apply elem_of_nil in Hin. exact Hin. }
    rewrite Hst. reflexivity.
Qed.


(** A query run to exhaustion has stepped the counter from 0 to
    [2^nstars - 1] and read, in this order, the page of every value that
    has one. *)
Lemma query_fetch_part (calls : nat) :
  (length (concat ((fun b => matching (contentAt (bucketAt b))) <$>
                     seqZ 0 (2 ^ Z.of_nat (length pstars)))) <= calls)%nat ->
  exists q out q',
    startQuery r pt = Some q /\ drain calls q = Some (out, q') /\
    bitSeq q = 0 /\ bitSeqMax q = 2 ^ nstars q - 1 /\
    bitSeq q' = 2 ^ nstars q - 1 /\
    fetched q' =
      omap (fun bs =>
              let h := Z.lor (formUnknown (nstars q) (starBits q) bs)
                         (known q) in
              match starBits q !! Z.to_nat (nstars q - 1) with
              | Some top =>
                  if top =? depth r then
                    let p := getLower h (depth r + 1) in
                    if p <? npages r then Some p else None
                  else Some (bucketOf r h)
              | None => Some (bucketOf r h)
              end)
           (seqZ 0 (2 ^ nstars q)).
Proof.
  intros Hcalls.
  destruct startQuery_part as (q & cr & Hq & Q & Hpend).
  destruct (drain_part _ q cr calls Q eq_refl) as (q' & Hd).
  { rewrite Hpend. exact Hcalls. }
  destruct (startQuery_fetch q Hq) as [HF H0].
  destruct (drain_fetch calls q cr _ q' Q HF Hd) as (HF' & He & Hm & _).
  pose proof (pi_max _ _ Q) as Hmax. pose proof (pi_nstars _ _ Q) as Hn.
  exists q, (pending q cr), q'.
  split; [exact Hq|]. split; [exact Hd|]. split; [exact H0|].
  rewrite Hn. split; [exact Hmax|]. split; [congruence|].
  unfold FInv in HF'. rewrite HF', He, Hm, Hmax.
  replace (2 ^ Z.of_nat (length pstars) - 1 + 1)
    with (2 ^ Z.of_nat (length pstars)) by lia.
  apply omap_ext_all. intros bs.
  rewrite (bucketAt_fields q cr bs Q), Hn, (pi_rel _ _ Q). reflexivity.
Qed.

End PartialScan.


(** ** Partial-match retrieval *)

(** The query of a relation at rest. *)
Lemma query_rest (calls : nat) (r : Reln) (chains : list (list Z))
    (pt : Tuple) :
  Inv r chains -> cvValid r ->
  (Z.to_nat (nattrs r) <= length (tupleVals pt))%nat ->
  (length (List.filter (tupleMatch r pt) (allContent r chains)) <= calls)%nat ->
  exists q out q',
    startQuery r pt = Some q /\ drain calls q = Some (out, q') /\
    out ≡ₚ List.filter (tupleMatch r pt) (allContent r chains).
Proof.
  intros [HS HC HA _ _] Hcv Hpt Hcalls.
  exact (query_part r chains pt HS HC Hcv Hpt HA calls Hcalls).
Qed.

(** X7.  A query of a relation at rest, with any pattern that has a
    field for every attribute, returns exactly the stored tuples that
    match the pattern, each as often as it is stored: run to exhaustion
    it reads every page it asks for, ends with the null result, and the
    tuples returned are a permutation of the matching tuples of the
    relation. *)
Theorem query_exact (calls : nat) (r : Reln) (chains : list (list Z))
    (pt : Tuple) :
  Inv r chains -> cvValid r ->
  (Z.to_nat (nattrs r) <= length (tupleVals pt))%nat ->
  (length (List.filter (tupleMatch r pt) (allContent r chains)) <= calls)%nat ->
  exists q out q',
    startQuery r pt = Some q /\ drain calls q = Some (out, q') /\
    out ≡ₚ List.filter (tupleMatch r pt) (allContent r chains).
Proof.
  intros HI Hcv Hpt Hcalls. apply query_rest; assumption.
Qed.

Lemma filter_perm {A} (P : A -> bool) (l l' : list A) :
  l ≡ₚ l' -> List.filter P l ≡ₚ List.filter P l'.
Proof.
  induction 1 as [|x l l' _ IH|x y l|l1 l2 l3 _ IH1 _ IH2].
  - reflexivity.
  - simpl. destruct (P x); [constructor|]; exact IH.
  - simpl. destruct (P x), (P y); try reflexivity. apply perm_swap.
  - etransitivity; eassumption.
Qed.

Lemma tupleMatch_nattrs r r' pt t :
  nattrs r' = nattrs r -> tupleMatch r' pt t = tupleMatch r pt t.
Proof. intros E. unfold tupleMatch. rewrite E. reflexivity. Qed.

(** X9.  On a relation just created with [2^d] pages every query returns
    the null result at its first call, for any number of attributes
    [newRelation] returns a relation for. *)
Theorem query_new_relation (na d : Z) (cvv : list ChVecItem) (pt : Tuple)
    (r : Reln) :
  0 <= d < 32 ->
  newRelation na (2 ^ d) d cvv = Some r ->
  cvValid r ->
  (Z.to_nat (nattrs r) <= length (tupleVals pt))%nat ->
  exists q q',
    startQuery r pt = Some q /\ getNextTuple q = Some (None, q').
Proof.
  intros Hd Hr Hcv Hpt.
  destruct (newRelation_layout na d cvv r Hd Hr) as (HS & HC & HA & _).
  destruct (query_part r _ pt HS HC Hcv Hpt HA 0)
    as (q & out & q' & Hq & Hdr & _).
  { unfold matching.
    rewrite (allContent_newRelation _ _ _ _ _ _ Hr). simpl. lia. }
  exists q. simpl in Hdr.
  destruct (getNextTuple q) as [[[t|] q1]|]; try discriminate.
  exists q1. split; [exact Hq | reflexivity].
Qed.


(** ** The relation after a failed insertion *)

(** A tuple larger than a page: the state [place] leaves is well linked
    and every bucket holds the tuples it held.  The empty page appended
    to the overflow file is the first page of the chain of the bucket when
    the bucket had none, and belongs to no chain otherwise. *)
Lemma place_nofit_state r chains t :
  Structure r chains ->
  0 <= bucketOf r (tupleHash r t) < npages r -> ~ fitsPage t ->
  Z.of_nat (length (ovflow r)) < NO_PAGE ->
  exists r' chains',
    place r t = Some (r', NO_PAGE) /\
    Structure r' chains' /\ sameShape r r' /\
    ntups r' = ntups r /\ insertion r' = insertion r /\
    length chains' = length chains /\
    ovflow r' = ovflow r ++ [newPage] /\
    forall k, bucketContent r' chains' k = bucketContent r chains k.
Proof.
  intros HS Hb Hnf Hlen. unfold place. cbv zeta.
  set (b := bucketOf r (tupleHash r t)) in *. clearbody b.
  pose proof Hb as Hb'. rewrite <- (st_npages _ _ HS) in Hb.
  destruct (getPage_in_range (data r) b Hb) as [pg Hpg]. rewrite Hpg.
  assert (Hw : wrap (Z.of_nat (length (ovflow r))) = Z.of_nat (length (ovflow r))).
  { apply wrap_small. unfold NO_PAGE in Hlen. lia. }
  destruct (lookup_lt_is_Some_2 chains (Z.to_nat b)) as [ch Hch].
  { rewrite (st_chains _ _ HS). lia. }
  apply getPage_Some in Hpg as Hpg'. destruct Hpg' as [_ Hlk].
  pose proof (st_linked _ _ HS _ _ _ Hlk Hch) as HL.
  rewrite (addToPage_nofit pg t Hnf).
  assert (Hoc : forall (k : nat) ids x, chains !! k = Some ids ->
            ocontent (ovflow r ++ [x]) ids = ocontent (ovflow r) ids).
  { intros k ids x Hk. apply ocontent_app.
    eapply Forall_impl; [eapply Structure_chain_range; eassumption|].
    intros i [Hi _]. simpl. lia. }
  unfold pageOvflow. destruct (Z.eqb_spec (pg_ovflow pg) NO_PAGE) as [Hno|Hyes].
  - unfold addPage. rewrite Hw. cbn [set_ovflow set_data ovflow data].
    rewrite getPage_app_new, (addToPage_nofit newPage t Hnf).
    set (newp := Z.of_nat (length (ovflow r))).
    assert (ch = []) as -> by (eapply Linked_nil_inv; eassumption).
    eexists. exists (<[Z.to_nat b := [newp]]> chains).
    split; [reflexivity|]. split; [|split; [|split; [|split; [|split; [|split]]]]].
    + constructor.
      * simpl. unfold putPage. rewrite length_insert. apply (st_npages _ _ HS).
      * simpl. unfold putPage. rewrite !length_insert. apply (st_chains _ _ HS).
      * intros b0 pg0 ch0 Hb0 Hc0.
        assert (Eol : forall d0,
                  olinks (mkReln (nattrs r) (depth r) (sp r) (npages r) (ntups r)
                            (c r) (insertion r) (splitting r) (cv r) d0
                            (ovflow r ++ [newPage]))
                  = olinks r ++ [NO_PAGE]).
        { intros d0. unfold olinks. simpl. rewrite fmap_app. reflexivity. }
        unfold set_data, set_ovflow in *. cbn [data ovflow nattrs depth sp npages
          ntups c insertion splitting cv] in *. rewrite Eol.
        unfold putPage in Hb0.
        destruct (Nat.eq_dec (Z.to_nat b) b0) as [<-|Hne].
        -- rewrite list_lookup_insert_eq in Hb0 by lia.
           rewrite list_lookup_insert_eq in Hc0
             by (eapply lookup_lt_Some; exact Hch).
           injection Hb0 as <-. injection Hc0 as <-. simpl pg_ovflow.
           apply Linked_single.
           ++ unfold olinks. rewrite length_fmap. reflexivity.
           ++ unfold newp. lia.
        -- rewrite list_lookup_insert_ne in Hb0 by exact Hne.
           rewrite list_lookup_insert_ne in Hc0 by exact Hne.
           apply Linked_app. eapply (st_linked _ _ HS); eassumption.
      * change [newp] with ([] ++ [newp]).
        apply NoDup_concat_snoc; [apply (st_nodup _ _ HS) | exact Hch |].
        apply newId_not_on_chain, HS.
      * simpl. unfold putPage.
        apply Forall_wf_insert; [apply (st_wf_data _ _ HS)|].
        apply wfPage_setOvflow. eapply Forall_wf_lookup; [|exact Hpg].
        apply (st_wf_data _ _ HS).
      * simpl. apply Forall_app. split; [apply (st_wf_ovflow _ _ HS)|].
        constructor; [apply (wfPage_empty NO_PAGE) | constructor].
    + repeat split; reflexivity.
    + reflexivity.
    + reflexivity.
    + apply length_insert.
    + reflexivity.
    + intros k. unfold bucketContent. cbn [set_ovflow set_data ovflow data].
      unfold putPage. rewrite (ptup_insert_link _ _ _ _ _ Hpg). f_equal.
      destruct (Nat.eq_dec (Z.to_nat b) k) as [<-|Hne].
      * rewrite list_lookup_insert_eq by (eapply lookup_lt_Some; exact Hch).
        rewrite Hch. simpl. unfold ocontent. simpl.
        unfold newp. rewrite ptup_app_new. reflexivity.
      * rewrite list_lookup_insert_ne by exact Hne.
        destruct (chains !! k) as [ids|] eqn:Ek; [|reflexivity].
        simpl. apply (Hoc k). exact Ek.
  - pose proof (Structure_chain_length _ _ _ _ HS Hch) as Hrounds.
    destruct (scanChain_Linked (ovflow r) t ch (pg_ovflow pg) NO_PAGE pg
                (length (ovflow r)) HL Hrounds)
      as [(c1 & i & c2 & pi & pi' & _ & _ & _ & Hai & _)
         | (_ & lp & lpg & Hs & _)].
    + rewrite (addToPage_nofit pi t Hnf) in Hai. discriminate.
    + rewrite Hs. unfold addPage. rewrite Hw.
      cbn [set_ovflow set_data ovflow data].
      rewrite getPage_app_new, (addToPage_nofit newPage t Hnf).
      eexists. exists chains.
      split; [reflexivity|]. split; [|split; [|split; [|split; [|split; [|split]]]]].
      * constructor.
        -- apply (st_npages _ _ HS).
        -- apply (st_chains _ _ HS).
        -- intros b0 pg0 ch0 Hb0 Hc0.
           assert (Eol : olinks (set_ovflow r (ovflow r ++ [newPage]))
                         = olinks r ++ [NO_PAGE]).
           { unfold olinks. simpl. rewrite fmap_app. reflexivity. }
           fold (set_ovflow r (ovflow r ++ [newPage])). rewrite Eol.
           apply Linked_app. eapply (st_linked _ _ HS); eassumption.
        -- apply (st_nodup _ _ HS).
        -- apply (st_wf_data _ _ HS).
        -- simpl. apply Forall_app. split; [apply (st_wf_ovflow _ _ HS)|].
           constructor; [apply (wfPage_empty NO_PAGE) | constructor].
      * repeat split; reflexivity.
      * reflexivity.
      * reflexivity.
      * reflexivity.
      * reflexivity.
      * intros k. unfold bucketContent. cbn [ovflow data]. f_equal.
        destruct (chains !! k) as [ids|] eqn:Ek; [|reflexivity].
        simpl. apply (Hoc k). exact Ek.
Qed.


Lemma nofit_Inv r chains r' chains' :
  Structure r' chains' -> sameShape r r' ->
  length chains' = length chains ->
  (forall k, bucketContent r' chains' k = bucketContent r chains k) ->
  Counters r -> Addr r chains -> splitting r = false -> c r <> 0 ->
  Inv r' chains' /\ allContent r' chains' = allContent r chains.
Proof.
  intros HS' Sh Hl Hbc HC HA Hs Hc. split.
  - constructor.
    + exact HS'.
    + apply (Counters_shape r); assumption.
    + intros k u Hk Hu. rewrite Hbc in Hu. rewrite Hl in Hk.
      rewrite (bucketOf_shape _ _ _ Sh), (tupleHash_shape _ _ _ Sh).
      apply HA; assumption.
    + destruct Sh as (_ & _ & _ & _ & _ & Sl & _). congruence.
    + destruct Sh as (_ & _ & _ & _ & Cc & _). congruence.
  - unfold allContent. rewrite Hl. f_equal. apply list_fmap_ext.
    intros i k _. apply Hbc.
Qed.

Lemma addToRelation_nofit_spec (k : nat) (r : Reln) (chains : list (list Z))
    (t : Tuple) :
  Inv r chains -> ~ fitsPage t -> npages r + 1 < 2 ^ 32 ->
  Z.of_nat (length (ovflow r)) + Z.of_nat (length (allContent r chains)) + 1
    < NO_PAGE ->
  exists r' chains',
    addToRelation (S (S k)) r t = Some (r', NO_PAGE) /\
    Inv r' chains' /\
    allContent r' chains' ≡ₚ allContent r chains /\
    ntups r' = ntups r /\
    Z.of_nat (length (ovflow r')) <=
      Z.of_nat (length (ovflow r)) + Z.of_nat (length (allContent r chains)) + 1.
Proof.
  intros HI Hnf Hb HN. rewrite addToRelation_unfold.
  destruct (insertion r =? c r).
  - set (r1 := set_splitting (set_insertion r 0) true).
    destruct (Inv_flags r chains true 0 HI) as (HS1 & HC1 & HA1).
    fold r1 in HS1, HC1, HA1.
    assert (HI1 : InSplit r1).
    { split; [reflexivity|]. split; [reflexivity|]. apply (inv_c _ _ HI). }
    assert (Hsrc : (length (bucketContent r1 chains (Z.to_nat (sp r1))) <=
                    length (allContent r chains))%nat).
    { rewrite (bucketContent_pages r r1) by reflexivity.
      apply bucketContent_le_all.
      rewrite (st_chains _ _ (inv_struct _ _ HI)).
      pose proof (st_npages _ _ (inv_struct _ _ HI)).
      destruct (inv_counters _ _ HI) as (_ & Hsp & Hn & _).
      change (sp r1) with (sp r). lia. }
    destruct (splitSp_spec k r1 chains HS1 HC1 HA1 HI1 Hb)
      as (r2 & c2 & Hsplit & [HS2 HC2 HA2 Hc2 Ho2 _]).
    { change (ovflow r1) with (ovflow r). lia. }
    rewrite Hsplit.
    pose proof (splitSp_counters _ (addToRelation_QuietIns (S k)) _ _ HI1 Hsplit)
      as (_ & Cc2 & _ & _ & _ & Nt2 & _).
    set (r2' := set_splitting r2 false).
    assert (HS2' : Structure r2' c2).
    { apply (Structure_pages r2); [reflexivity | reflexivity | reflexivity
                                   | exact HS2]. }
    assert (HA2' : Addr r2' c2).
    { apply (Addr_pages r2); [reflexivity | reflexivity | | exact HA2].
      intros u. rewrite (tupleHash_cv r2 r2' u eq_refl). reflexivity. }
    change (ovflow r1) with (ovflow r) in Ho2.
    destruct (place_nofit_state r2' c2 t HS2')
      as (r' & c' & Hpl & HS' & Sh & Nt & _ & Hl & Eov & Hbc).
    { apply (bucketOf_range r2'). exact HC2. }
    { exact Hnf. }
    { change (ovflow r2') with (ovflow r2). lia. }
    destruct (nofit_Inv r2' c2 r' c' HS' Sh Hl Hbc HC2 HA2' eq_refl)
      as [HI' Hall].
    { change (c r2') with (c r2). rewrite Cc2. apply (inv_c _ _ HI). }
    exists r', c'. split; [exact Hpl|]. split; [exact HI'|]. split.
    + rewrite Hall, (allContent_pages r2 r2') by reflexivity. rewrite Hc2.
      rewrite (allContent_pages r r1) by reflexivity. reflexivity.
    + split.
      * rewrite Nt. change (ntups r2') with (ntups r2). rewrite Nt2. reflexivity.
      * rewrite Eov, length_app. change (ovflow r2') with (ovflow r2).
        simpl length. lia.
  - destruct HI as [HS HC HA Hsl Hc].
    destruct (place_nofit_state r chains t HS)
      as (r' & c' & Hpl & HS' & Sh & Nt & _ & Hl & Eov & Hbc).
    { apply bucketOf_range, HC. }
    { exact Hnf. }
    { lia. }
    destruct (nofit_Inv r chains r' c' HS' Sh Hl Hbc HC HA Hsl Hc) as [HI' Hall].
    exists r', c'. split; [exact Hpl|]. split; [exact HI'|].
    split; [rewrite Hall; reflexivity|]. split; [exact Nt|].
    rewrite Eov, length_app. simpl length. lia.
Qed.

(** X10.  A failed insertion leaves the relation at rest: after
    [addToRelation] has returned [NO_PAGE] for a tuple longer than the
    data area of a page, with or without the split that was due, the
    chains are well linked, every tuple lies in the bucket of its hash,
    the relation holds the tuples it held, and [ntups] is unchanged. *)
Theorem failed_insert_at_rest (k : nat) (r : Reln) (chains : list (list Z))
    (t : Tuple) :
  Inv r chains -> ~ fitsPage t -> npages r + 1 < 2 ^ 32 ->
  Z.of_nat (length (ovflow r)) + Z.of_nat (length (allContent r chains)) + 1
    < NO_PAGE ->
  exists r' chains',
    addToRelation (S (S k)) r t = Some (r', NO_PAGE) /\
    Inv r' chains' /\
    allContent r' chains' ≡ₚ allContent r chains /\
    ntups r' = ntups r.
Proof.
  intros HI Hnf Hb HN.
  destruct (addToRelation_nofit_spec k r chains t HI Hnf Hb HN)
    as (r' & chains' & E & HI' & Hc & Nt & _).
  exists r', chains'. auto.
Qed.


(** ** Sequences of insertions, failed ones included *)

Definition fitsb (t : Tuple) : bool := tupLength t <=? dataCap.

Lemma fitsb_spec t : fitsb t = true <-> fitsPage t.
Proof. unfold fitsb, fitsPage. apply Z.leb_le. Qed.

(** Any sequence of insertions into a relation at rest. *)
Lemma addAll_any_spec (k : nat) : forall (ts : list Tuple)
    (r : Reln) (chains : list (list Z)),
  Inv r chains ->
  npages r + Z.of_nat (length ts) < 2 ^ 32 ->
  Z.of_nat (length (ovflow r)) +
  Z.of_nat (length ts) *
    (Z.of_nat (length (allContent r chains)) + Z.of_nat (length ts))
    < NO_PAGE ->
  exists r' chains' ps,
    addAll (S (S k)) r ts = Some (r', ps) /\
    Inv r' chains' /\
    allContent r' chains' ≡ₚ allContent r chains ++ List.filter fitsb ts /\
    Forall2 (fun t p => p = NO_PAGE <-> ~ fitsPage t) ts ps.
Proof.
  induction ts as [|t ts IH]; intros r chains HI Hb HN.
  - exists r, chains, []. split; [reflexivity|]. split; [exact HI|].
    simpl. rewrite app_nil_r. split; [reflexivity | constructor].
  - simpl length in Hb, HN. rewrite Nat2Z.inj_succ in Hb, HN.
    set (n := Z.of_nat (length ts)) in *.
    set (T := Z.of_nat (length (allContent r chains))) in *.
    assert (Hn0 : 0 <= n) by (unfold n; lia).
    assert (HT0 : 0 <= T) by (unfold T; lia).
    assert (Hstep : exists r1 c1 p,
              addToRelation (S (S k)) r t = Some (r1, p) /\ Inv r1 c1 /\
              allContent r1 c1 ≡ₚ
                allContent r chains ++ List.filter fitsb [t] /\
              (p = NO_PAGE <-> ~ fitsPage t) /\
              Z.of_nat (length (ovflow r1)) <=
                Z.of_nat (length (ovflow r)) + T + 1).
    { destruct (fitsb t) eqn:Ef.
      - apply fitsb_spec in Ef as Hfit.
        destruct (addToRelation_spec k r chains t HI Hfit)
          as (r1 & c1 & Hadd & HI1 & Hc1 & _ & Ho1); [lia | fold T; nia |].
        exists r1, c1, (bucketOf r1 (tupleHash r1 t)).
        split; [exact Hadd|]. split; [exact HI1|]. split; [|split].
        + simpl. rewrite Ef, Hc1. apply Permutation_cons_append.
        + pose proof (bucketOf_range r1 (tupleHash r1 t) (inv_counters _ _ HI1)).
          destruct (inv_counters _ _ HI1) as (_ & _ & _ & H32).
          unfold NO_PAGE. split; [lia | contradiction].
        + exact Ho1.
      - assert (Hnf : ~ fitsPage t).
        { intros H. apply fitsb_spec in H. congruence. }
        destruct (addToRelation_nofit_spec k r chains t HI Hnf)
          as (r1 & c1 & Hadd & HI1 & Hc1 & _ & Ho1); [lia | fold T; nia |].
        exists r1, c1, NO_PAGE.
        split; [exact Hadd|]. split; [exact HI1|]. split; [|split].
        + simpl. rewrite Ef, app_nil_r. exact Hc1.
        + split; auto.
        + exact Ho1. }
    destruct Hstep as (r1 & c1 & p & Hadd & HI1 & Hc1 & Hp & Ho1).
    pose proof (addToRelation_npages_le _ _ _ _ _ (inv_counters _ _ HI)
                  (inv_c _ _ HI) (inv_splitting _ _ HI) ltac:(lia) Hadd)
      as (Hnp & _).
    assert (HT1 : Z.of_nat (length (allContent r1 c1)) <= T + 1).
    { rewrite (Permutation_length Hc1), length_app. simpl.
      destruct (fitsb t); simpl; unfold T; lia. }
    destruct (IH r1 c1 HI1) as (r' & c' & ps & Hall & HI' & Hc' & Hps);
      [fold n; lia | fold n; nia |].
    exists r', c', (p :: ps).
    split; [|split; [exact HI'|split]].
    + cbn [addAll]. rewrite Hadd, Hall. reflexivity.
    + rewrite Hc', Hc1, <- app_assoc.
      change (t :: ts) with ([t] ++ ts). rewrite List.filter_app. reflexivity.
    + constructor; assumption.
Qed.

(** X11.  The relation stores exactly the tuples that fit: any sequence
    of insertions into a relation at rest goes through, leaves the
    relation at rest and adds to it the tuples of the sequence that fit in
    a page; the call for a tuple returns [NO_PAGE] exactly when the tuple
    does not fit. *)
Theorem insertions_store_fitting (k : nat) : forall (ts : list Tuple)
    (r : Reln) (chains : list (list Z)),
  Inv r chains ->
  npages r + Z.of_nat (length ts) < 2 ^ 32 ->
  Z.of_nat (length (ovflow r)) +
  Z.of_nat (length ts) *
    (Z.of_nat (length (allContent r chains)) + Z.of_nat (length ts))
    < NO_PAGE ->
  exists r' chains' ps,
    addAll (S (S k)) r ts = Some (r', ps) /\
    Inv r' chains' /\
    allContent r' chains' ≡ₚ allContent r chains ++ List.filter fitsb ts /\
    Forall2 (fun t p => p = NO_PAGE <-> ~ fitsPage t) ts ps.
Proof.
  intros ts r chains HI Hb HN. apply addAll_any_spec; assumption.
Qed.


(** X8.  Insertion followed by retrieval, for any tuples and any
    pattern: after a sequence of insertions into a relation at rest,
    splits and failed insertions included, a query returns the tuples
    that match its pattern among those the relation held and those of the
    sequence that fit in a page, and no others. *)
Theorem insert_then_query (k calls : nat) (r : Reln) (chains : list (list Z))
    (ts : list Tuple) (pt : Tuple) :
  Inv r chains -> cvValid r ->
  (Z.to_nat (nattrs r) <= length (tupleVals pt))%nat ->
  npages r + Z.of_nat (length ts) < 2 ^ 32 ->
  Z.of_nat (length (ovflow r)) +
  Z.of_nat (length ts) *
    (Z.of_nat (length (allContent r chains)) + Z.of_nat (length ts))
    < NO_PAGE ->
  (length (allContent r chains) + length ts <= calls)%nat ->
  exists r' ps q out q',
    addAll (S (S k)) r ts = Some (r', ps) /\
    startQuery r' pt = Some q /\
    drain calls q = Some (out, q') /\
    out ≡ₚ List.filter (tupleMatch r pt)
             (allContent r chains ++ List.filter fitsb ts).
Proof.
  intros HI Hcv Hpt Hb HN Hcalls.
  destruct (addAll_any_spec k ts r chains HI Hb HN)
    as (r' & chains' & ps & Hall & HI' & Hperm & _).
  destruct (addAll_shape _ _ _ _ _ (inv_c _ _ HI) (inv_splitting _ _ HI) Hall)
    as [Hna Hcvr].
  assert (Hcv' : cvValid r').
  { intros i. unfold cvItem. rewrite Hcvr, Hna. apply Hcv. }
  assert (Hfl : forall l, List.filter (tupleMatch r' pt) l
                          = List.filter (tupleMatch r pt) l).
  { intros l. apply List.filter_ext. intros t. apply tupleMatch_nattrs, Hna. }
  destruct (query_rest calls r' chains' pt HI' Hcv') as (q & out & q' & Hq & Hd & Ho).
  { rewrite Hna. exact Hpt. }
  { etransitivity; [apply List.filter_length_le|].
    rewrite (Permutation_length Hperm), length_app.
    pose proof (List.filter_length_le fitsb ts). lia. }
  exists r', ps, q, out, q'. split; [exact Hall|]. split; [exact Hq|].
  split; [exact Hd|]. rewrite Ho, Hfl. apply filter_perm, Hperm.
Qed.


(** X12.  The order of the results.  A query on a well-linked relation
    returns its tuples bucket by bucket, for the values [0, 1, ...,
    2^nstars - 1] of the counter in this order (a value whose bucket does
    not exist contributes nothing); within a bucket the matching tuples of
    the primary page come first, then those of each overflow page in chain
    order, each page in the order it stores them. *)
Theorem query_order (calls : nat) (r : Reln) (chains : list (list Z))
    (pt : Tuple) :
  Structure r chains -> Counters r -> cvValid r ->
  (Z.to_nat (nattrs r) <= length (tupleVals pt))%nat ->
  (length (concat ((fun b => List.filter (tupleMatch r pt)
                               (contentAt r chains (bucketAt r pt b))) <$>
                     seqZ 0 (2 ^ Z.of_nat (length (pstars r pt)))))
   <= calls)%nat ->
  exists q out q',
    startQuery r pt = Some q /\ drain calls q = Some (out, q') /\
    nstars q = Z.of_nat (length (pstars r pt)) /\
    out = concat ((fun b => List.filter (tupleMatch r pt)
                              (contentAt r chains (bucketAt r pt b))) <$>
                    seqZ 0 (2 ^ nstars q)).
Proof.
  intros HS HC Hcv Hpt Hcalls.
  destruct (query_order_part r chains pt HS HC Hcv Hpt calls Hcalls)
    as (q & out & q' & Hq & Hd & Hn & Ho).
  exists q, out, q'. rewrite Hn. auto.
Qed.

(** C5.  A query run to exhaustion steps [bitSeq] from 0 to
    [bitSeqMax = 2^nstars - 1] and reads one primary page for every value
    of the counter that has a bucket, in the order of the values: when the
    highest star position is [depth] the bucket of a value is the low
    [depth+1] bits of [known | unknown], whatever [sp] is, and a value whose
    bucket is not below [npages] is passed over without a read; otherwise
    it is the bucket of [known | unknown] under linear hashing.  So a query
    reads at most [2^nstars] primary pages, 8 when [nstars = 3]. *)
Theorem wildcard_bucket_enumeration (calls : nat) (r : Reln)
    (chains : list (list Z)) (pt : Tuple) :
  Structure r chains -> Counters r -> cvValid r ->
  (Z.to_nat (nattrs r) <= length (tupleVals pt))%nat ->
  (length (concat ((fun b => List.filter (tupleMatch r pt)
                               (contentAt r chains (bucketAt r pt b))) <$>
                     seqZ 0 (2 ^ Z.of_nat (length (pstars r pt)))))
   <= calls)%nat ->
  exists q out q',
    startQuery r pt = Some q /\ drain calls q = Some (out, q') /\
    bitSeq q = 0 /\ bitSeqMax q = 2 ^ nstars q - 1 /\
    bitSeq q' = 2 ^ nstars q - 1 /\
    fetched q' =
      omap (fun bs =>
              let h := Z.lor (formUnknown (nstars q) (starBits q) bs)
                         (known q) in
              match starBits q !! Z.to_nat (nstars q - 1) with
              | Some top =>
                  if top =? depth r then
                    let p := getLower h (depth r + 1) in
                    if p <? npages r then Some p else None
                  else Some (bucketOf r h)
              | None => Some (bucketOf r h)
              end)
           (seqZ 0 (2 ^ nstars q)) /\
    Z.of_nat (length (fetched q')) <= 2 ^ nstars q /\
    (nstars q = 3 -> Z.of_nat (length (fetched q')) <= 8).
Proof.
  intros HS HC Hcv Hpt Hcalls.
  destruct (query_fetch_part r chains pt HS HC Hcv Hpt calls Hcalls)
    as (q & out & q' & Hq & Hd & H0 & Hm & He & Hf).
  pose proof (Counters_depth r HC) as Hdep.
  pose proof (startQuery_fields r pt q Hdep Hq) as (_ & _ & Hn & _).
  assert (Hlen : Z.of_nat (length (fetched q')) <= 2 ^ nstars q).
  { rewrite Hf.
    etransitivity; [apply Nat2Z.inj_le, omap_length_le|].
    rewrite length_seqZ.
    assert (0 < 2 ^ nstars q) by (apply Z.pow_pos_nonneg; lia). lia. }
  exists q, out, q'.
  split; [exact Hq|]. split; [exact Hd|]. split; [exact H0|].
  split; [exact Hm|]. split; [exact He|]. split; [exact Hf|].
  split; [exact Hlen|]. intros H3. rewrite H3 in Hlen. exact Hlen.
Qed.

End Engine.


(** * Worked examples

    The theorems above at a concrete relation.  The hash of a field is
    the code of its first character; the choice vector alternates the two
    attributes over bits 0 to 15. *)

Definition firstChar (s : string) : Bits :=
  match s with
  | EmptyString => 0
  | String a _ => Z.of_nat (nat_of_ascii a)
  end.

Definition ex_cv : list ChVecItem :=
  flat_map (fun b => [(0, b); (1, b)]) (seqZ 0 16).

(** Two attributes, two pages, depth 1: [c = 1024/20 = 51]. *)
Definition ex_reln : Reln :=
  mkReln 2 1 0 (2 ^ 1) 0 51 0 false ex_cv (repeat newPage 2) [].

Lemma ex_reln_new : newRelation 2 (2 ^ 1) 1 ex_cv = Some ex_reln.
Proof. reflexivity. Qed.

Definition ex_chains : list (list Z) := repeat [] (Z.to_nat (2 ^ 1)).

(** The tuples ["a,a"], ["b,a"], ..., ["z,a"], ["a,b"], ... *)
Definition ex_tuple (i : nat) : Tuple :=
  String (ascii_of_nat (97 + i mod 26))
    (String "," (String (ascii_of_nat (97 + i / 26)) EmptyString)).

Definition ex_tuples (n : nat) : list Tuple := map ex_tuple (seq 0 n).

(** A tuple of 1012 characters: longer than the data area of a page. *)
Definition ex_long : Tuple :=
  String "a" (String "," (string_of_list_ascii (repeat "b"%char 1010))).

Lemma ex_reln_Inv : Inv firstChar ex_reln ex_chains.
Proof.
  unfold ex_chains.
  apply (Inv_newRelation firstChar 2 1 ex_cv ex_reln);
    [lia | exact ex_reln_new | vm_compute; discriminate].
Qed.

Lemma ex_reln_empty : allContent ex_reln ex_chains = [].
Proof.
  unfold ex_chains.
  apply (allContent_newRelation 2 (2 ^ 1) 1 ex_cv ex_reln _ ex_reln_new).
Qed.

Lemma ex_cv_valid r : cv r = ex_cv -> nattrs r = 2 -> cvValid r.
Proof.
  intros Hcv Hn i. unfold cvItem. rewrite Hcv, Hn.
  assert (H : Forall (fun it : Z * Z => (Z.to_nat (fst it) < Z.to_nat 2)%nat)
                ex_cv).
  { unfold ex_cv. simpl. repeat (constructor; [simpl; lia|]). constructor. }
  rewrite Forall_forall in H.
  destruct (nth_in_or_default i ex_cv (0, 0)) as [Hin|E].
  - apply H, list_elem_of_In, Hin.
  - rewrite E. simpl. lia.
Qed.

Lemma ex_wildcard r : nattrs r = 2 -> fullWildcard r "?,?".
Proof.
  intros Hn. split; [rewrite Hn; reflexivity|].
  simpl. repeat constructor.
Qed.

Lemma ex_tuples_fit n : Forall fitsPage (ex_tuples n).
Proof.
  apply Forall_forall. intros t Ht. apply list_elem_of_In, in_map_iff in Ht.
  destruct Ht as (i & <- & _). unfold fitsPage, tupLength, ex_tuple.
  simpl. unfold dataCap, PAGESIZE, HEADER. lia.
Qed.


(** Sixty tuples into the empty relation (one split, at the 52nd
    insertion), then the query [?,?] run to its end. *)
Lemma roundtrip_witness :
  exists r' ps q out q',
    addAll firstChar 2 ex_reln (ex_tuples 60) = Some (r', ps) /\
    startQuery firstChar r' "?,?" = Some q /\
    drain 60 q = Some (out, q') /\
    out ≡ₚ allContent ex_reln ex_chains ++ ex_tuples 60 /\
    (allContent ex_reln ex_chains = [] -> out ≡ₚ ex_tuples 60).
Proof.
  apply (roundtrip firstChar 0 60 ex_reln ex_chains (ex_tuples 60) "?,?").
  - exact ex_reln_Inv.
  - apply ex_cv_valid; reflexivity.
  - apply ex_wildcard. reflexivity.
  - apply ex_tuples_fit.
  - vm_compute. reflexivity.
  - rewrite ex_reln_empty. vm_compute. reflexivity.
  - rewrite ex_reln_empty. vm_compute. repeat constructor.
Defined.

(** The tuple ["a,b"] into the empty relation. *)
Lemma insert_addressing_witness :
  exists r' chains' p,
    addToRelation firstChar 2 ex_reln "a,b" = Some (r', p) /\
    p = (let h := tupleHash firstChar r' "a,b" in
         if getLower h (depth r') <? sp r'
         then getLower h (depth r' + 1) else getLower h (depth r')) /\
    p <> NO_PAGE /\
    "a,b"%string ∈ bucketContent r' chains' (Z.to_nat p) /\
    Inv firstChar r' chains' /\
    forall (b : nat) u,
      (b < length chains')%nat -> u ∈ bucketContent r' chains' b ->
      getLower (tupleHash firstChar r' u) (effDepth r' (Z.of_nat b))
        = Z.of_nat b.
Proof.
  apply (insert_addressing firstChar 0 ex_reln ex_chains "a,b").
  - exact ex_reln_Inv.
  - vm_compute. discriminate.
  - vm_compute. reflexivity.
  - rewrite ex_reln_empty. vm_compute. reflexivity.
Defined.

(** The oversized tuple into the empty relation. *)
Lemma nospace_condition_witness :
  exists r' p,
    addToRelation firstChar 2 ex_reln ex_long = Some (r', p) /\
    (p = NO_PAGE <-> dataCap < tupLength ex_long) /\
    (tupLength ex_long <= dataCap ->
     exists chains',
       Inv firstChar r' chains' /\
       ex_long ∈ bucketContent r' chains' (Z.to_nat p) /\
       allContent r' chains' ≡ₚ ex_long :: allContent ex_reln ex_chains).
Proof.
  apply (nospace_condition firstChar 0 ex_reln ex_chains ex_long).
  - exact ex_reln_Inv.
  - vm_compute. reflexivity.
  - rewrite ex_reln_empty. vm_compute. reflexivity.
Defined.


(** The relation after the sixty insertions, and the bucket ids they
    returned. *)
Definition ex_loaded : option (Reln * list PageID) :=
  Eval vm_compute in addAll firstChar 2 ex_reln (ex_tuples 60).

Definition ex_after : Reln :=
  match ex_loaded with
  | Some (r, _) => r
  | None => ex_reln
  end.

Definition ex_ids : list PageID :=
  match ex_loaded with
  | Some (_, ps) => ps
  | None => []
  end.

Lemma ex_loaded_eq :
  addAll firstChar 2 ex_reln (ex_tuples 60) = Some (ex_after, ex_ids).
Proof. vm_compute. reflexivity. Qed.

Example ex_after_counters :
  (depth ex_after, sp ex_after, npages ex_after, ntups ex_after,
   insertion ex_after) = (1, 1, 3, 60, 9).
Proof. reflexivity. Qed.

Lemma count_consistency_witness :
  (npages ex_after = 2 ^ depth ex_after + sp ex_after /\
   0 <= sp ex_after < 2 ^ depth ex_after) /\
  (forall t r1 p, npages ex_reln + 1 < 2 ^ 32 ->
      addToRelation firstChar 2 ex_reln t = Some (r1, p) ->
      if insertion ex_reln =? c ex_reln
      then npages r1 = npages ex_reln + 1 /\
           (if sp ex_reln + 1 =? 2 ^ depth ex_reln
            then sp r1 = 0 /\ depth r1 = depth ex_reln + 1
            else sp r1 = sp ex_reln + 1 /\ depth r1 = depth ex_reln)
      else npages r1 = npages ex_reln /\ sp r1 = sp ex_reln /\
           depth r1 = depth ex_reln).
Proof.
  apply (count_consistency firstChar 2 ex_reln (ex_tuples 60) ex_after ex_ids).
  - exact (inv_counters _ _ _ ex_reln_Inv).
  - vm_compute. discriminate.
  - reflexivity.
  - vm_compute. reflexivity.
  - exact ex_loaded_eq.
Defined.

Lemma tuple_counting_witness :
  ntups ex_after = ntups ex_reln + succeeded ex_ids /\
  (forall t r1 p, npages ex_reln + 1 < 2 ^ 32 ->
      addToRelation firstChar 2 ex_reln t = Some (r1, p) ->
      let i0 := if insertion ex_reln =? c ex_reln then 0
                else insertion ex_reln in
      (p = NO_PAGE /\ ntups r1 = ntups ex_reln /\ insertion r1 = i0) \/
      (p <> NO_PAGE /\ ntups r1 = wrap (ntups ex_reln + 1) /\
       insertion r1 = wrap (i0 + 1))) /\
  (forall k r2,
      splitSp (addToRelation firstChar k)
        (set_splitting (set_insertion ex_reln 0) true) = Some r2 ->
      ntups r2 = ntups ex_reln /\ insertion r2 = 0).
Proof.
  apply (tuple_counting firstChar 2 ex_reln (ex_tuples 60) ex_after ex_ids).
  - exact (inv_counters _ _ _ ex_reln_Inv).
  - vm_compute. discriminate.
  - reflexivity.
  - vm_compute. reflexivity.
  - vm_compute. discriminate.
  - vm_compute. reflexivity.
  - exact ex_loaded_eq.
Defined.


Lemma ex_after_Counters : Counters ex_after.
Proof.
  unfold Counters. change (depth ex_after) with 1.
  change (sp ex_after) with 1. change (npages ex_after) with 3. lia.
Qed.

(** The first answer to the query [a,?] on the loaded relation. *)
Lemma getNextTuple_sound_witness :
  exists q t q',
    startQuery firstChar ex_after "a,?" = Some q /\
    getNextTuple q = Some (Some t, q') /\
    tupleMatch (rel q) (query q) t = true /\
    forall (i : nat) (pv : string),
      (i < Z.to_nat (nattrs (rel q)))%nat ->
      tupleField (query q) i = Some pv -> pv <> "?"%string ->
      tupleField t i = Some pv.
Proof.
  eexists _, _, _. split; [vm_compute; reflexivity|].
  refine (let H := _ in conj H (getNextTuple_sound _ _ _ H)).
  vm_compute. reflexivity.
Defined.

(** Depth 2 with one bucket split: five pages, and three stars in the
    low three bits of the query [?,?]. *)
Definition ex_deep : Reln :=
  mkReln 2 2 1 5 4 51 4 false ex_cv
    [mkPage NO_PAGE ["b,b"%string]; mkPage NO_PAGE ["a,a"%string];
     mkPage NO_PAGE ["b,a"%string]; newPage;
     mkPage NO_PAGE ["d,b"%string]] [].

Definition ex_five : list (list Z) := [[]; []; []; []; []].

Lemma ex_deep_Structure : Structure ex_deep ex_five.
Proof.
  split.
  - reflexivity.
  - reflexivity.
  - intros b pg ch Hpg Hch.
    destruct b as [|[|[|[|[|b]]]]]; cbn in Hpg, Hch; try discriminate;
      injection Hpg as <-; injection Hch as <-; reflexivity.
  - constructor.
  - repeat (constructor; [vm_compute; discriminate|]). constructor.
  - constructor.
Qed.

Lemma ex_deep_Counters : Counters ex_deep.
Proof. unfold Counters. cbn [ex_deep depth sp npages]. lia. Qed.

(** The query [?,?] steps through the eight values of the counter and
    reads the five pages there are: the values 5, 6 and 7 are skipped. *)
Lemma ex_deep_fetched :
  exists q out q',
    startQuery firstChar ex_deep "?,?" = Some q /\
    drain 4 q = Some (out, q') /\ nstars q = 3 /\
    bitSeq q' = 7 /\ fetched q' = [0; 1; 2; 3; 4].
Proof.
  eexists _, _, _.
  split; [vm_compute; reflexivity|].
  split; [vm_compute; reflexivity|].
  vm_compute. repeat split.
Qed.

Lemma wildcard_bucket_enumeration_witness :
  exists q out q',
    startQuery firstChar ex_deep "?,?" = Some q /\
    drain 4 q = Some (out, q') /\
    bitSeq q = 0 /\ bitSeqMax q = 2 ^ nstars q - 1 /\
    bitSeq q' = 2 ^ nstars q - 1 /\
    fetched q' =
      omap (fun bs =>
              let h := Z.lor (formUnknown (nstars q) (starBits q) bs)
                         (known q) in
              match starBits q !! Z.to_nat (nstars q - 1) with
              | Some top =>
                  if top =? depth ex_deep then
                    let p := getLower h (depth ex_deep + 1) in
                    if p <? npages ex_deep then Some p else None
                  else Some (bucketOf ex_deep h)
              | None => Some (bucketOf ex_deep h)
              end)
           (seqZ 0 (2 ^ nstars q)) /\
    Z.of_nat (length (fetched q')) <= 2 ^ nstars q /\
    (nstars q = 3 -> Z.of_nat (length (fetched q')) <= 8).
Proof.
  apply (wildcard_bucket_enumeration firstChar 4 ex_deep ex_five "?,?").
  - exact ex_deep_Structure.
  - exact ex_deep_Counters.
  - apply ex_cv_valid; reflexivity.
  - vm_compute. repeat constructor.
  - vm_compute. repeat constructor.
Defined.

Lemma query_fetch_below_npages_witness :
  (forall pt kn stars p,
      firstBucket firstChar ex_after pt = Some (kn, stars, p) ->
      0 <= p < npages ex_after) /\
  (forall q q1 p,
      rel q = ex_after -> nextBucket q = Some (q1, Some p) ->
      0 <= p < npages ex_after) /\
  (forall pt q q',
      startQuery firstChar ex_after pt = Some q -> QueryCalls q q' ->
      Forall (fun p => 0 <= p < npages ex_after) (fetched q')).
Proof.
  apply (query_fetch_below_npages firstChar ex_after).
  exact ex_after_Counters.
Defined.


(** A relation in the middle of an insertion that splits bucket 0:
    [splitting] is set and [insertion] is reset. *)
Definition ex_split : Reln :=
  mkReln 2 1 0 2 4 51 0 true ex_cv
    [mkPage NO_PAGE ["b,b"; "b,a"; "d,c"]%string;
     mkPage NO_PAGE ["a,a"%string]] [].

Lemma ex_split_Structure : Structure ex_split [[]; []].
Proof.
  split.
  - reflexivity.
  - reflexivity.
  - intros b pg ch Hpg Hch.
    destruct b as [|[|b]]; cbn in Hpg, Hch; try discriminate;
      injection Hpg as <-; injection Hch as <-; reflexivity.
  - constructor.
  - repeat (constructor; [vm_compute; discriminate|]). constructor.
  - constructor.
Qed.

Lemma ex_split_Addr : Addr firstChar ex_split [[]; []].
Proof.
  intros k u Hk Hu.
  destruct k as [|[|k]]; [| |simpl in Hk; lia]; cbn in Hu;
    repeat (apply elem_of_cons in Hu; destruct Hu as [->|Hu];
            [vm_compute; reflexivity|]);
    apply elem_of_nil in Hu; contradiction.
Qed.

Example ex_split_result :
  option_map (fun r => (depth r, sp r, npages r, pg_data <$> data r))
    (splitSp (addToRelation firstChar 1) ex_split)
  = Some (1, 1, 3, [["b,b"]; ["a,a"]; ["b,a"; "d,c"]]%string).
Proof. vm_compute. reflexivity. Qed.

Lemma split_destinations_witness :
  (forall u r3,
      u ∈ bucketContent ex_split [[]; []] (Z.to_nat (sp ex_split)) ->
      depth r3 = depth ex_split -> sp r3 = sp ex_split + 1 ->
      cv r3 = cv ex_split ->
      bucketOf r3 (tupleHash firstChar r3 u)
        = getLower (tupleHash firstChar ex_split u) (depth ex_split + 1) /\
      (bucketOf r3 (tupleHash firstChar r3 u) = sp ex_split \/
       bucketOf r3 (tupleHash firstChar r3 u)
         = sp ex_split + 2 ^ depth ex_split)) /\
  exists r' chains',
    splitSp (addToRelation firstChar 1) ex_split = Some r' /\
    Structure r' chains' /\ Addr firstChar r' chains' /\
    forall b : nat,
      b <> Z.to_nat (sp ex_split) ->
      b <> Z.to_nat (sp ex_split + 2 ^ depth ex_split) ->
      bucketContent r' chains' b = bucketContent ex_split [[]; []] b.
Proof.
  apply (split_destinations firstChar 0 ex_split [[]; []]).
  - exact ex_split_Structure.
  - vm_compute. repeat split; discriminate.
  - exact ex_split_Addr.
  - split; [reflexivity|]. split; [reflexivity|]. vm_compute. discriminate.
  - vm_compute. reflexivity.
  - vm_compute. reflexivity.
Defined.

(** The oversized tuple into the empty relation: no split is due. *)
Lemma failed_insert_state_witness :
  exists r',
    addToRelation firstChar 2 ex_reln ex_long = Some (r', NO_PAGE) /\
    (nattrs r' = nattrs ex_reln /\ depth r' = depth ex_reln /\
     sp r' = sp ex_reln /\ npages r' = npages ex_reln /\
     ntups r' = ntups ex_reln /\ c r' = c ex_reln /\
     insertion r' = insertion ex_reln /\
     splitting r' = splitting ex_reln /\ cv r' = cv ex_reln) /\
    ovflow r' = ovflow ex_reln ++ [newPage] /\
    length (data r') = length (data ex_reln) /\
    (forall b, ptup (data r') b = ptup (data ex_reln) b) /\
    (forall b, b <> bucketOf ex_reln (tupleHash firstChar ex_reln ex_long) ->
       getPage (data r') b = getPage (data ex_reln) b) /\
    (forall pg,
       getPage (data ex_reln)
         (bucketOf ex_reln (tupleHash firstChar ex_reln ex_long)) = Some pg ->
       pageOvflow pg <> NO_PAGE -> data r' = data ex_reln).
Proof.
  eexists. split; [vm_compute; reflexivity|].
  apply (failed_insert_state firstChar 2 ex_reln ex_long).
  - exact (inv_counters _ _ _ ex_reln_Inv).
  - vm_compute. discriminate.
  - vm_compute. reflexivity.
Defined.


(** C2 as stated fails for a tuple longer than the data area of a page:
    the bucket of the tuple is 1, the call returns [NO_PAGE] and no page
    of either file holds a tuple afterwards. *)
Lemma oversized_insert_not_stored :
  exists r',
    addToRelation firstChar 2 ex_reln ex_long = Some (r', NO_PAGE) /\
    (let h := tupleHash firstChar r' ex_long in
     if getLower h (depth r') <? sp r'
     then getLower h (depth r' + 1) else getLower h (depth r')) = 1 /\
    NO_PAGE <> 1 /\
    concat (pg_data <$> data r' ++ ovflow r') = [].
Proof.
  eexists. split; [vm_compute; reflexivity|].
  split; [vm_compute; reflexivity|].
  split; [vm_compute; discriminate|].
  vm_compute. reflexivity.
Qed.

(** C8 as stated fails when the insertion is the one that splits: after
    51 insertions the next call splits bucket 0 before it looks for room,
    so the call with the oversized tuple returns [NO_PAGE] with one more
    primary page, the split pointer advanced, [insertion] reset and the
    tuples of bucket 0 divided between pages 0 and 2. *)
Lemma failed_insert_after_split :
  exists r ps r',
    addAll firstChar 2 ex_reln (ex_tuples 51) = Some (r, ps) /\
    addToRelation firstChar 2 r ex_long = Some (r', NO_PAGE) /\
    (npages r, sp r, insertion r) = (2, 0, 51) /\
    (npages r', sp r', insertion r') = (3, 1, 0) /\
    pageNTuples <$> data r = [25; 26] /\
    pageNTuples <$> data r' = [12; 26; 13].
Proof.
  eexists _, _, _. split; [vm_compute; reflexivity|].
  split; [vm_compute; reflexivity|].
  repeat split; vm_compute; reflexivity.
Qed.


(** ** The further properties at the examples *)

Lemma insert_returns_primary_page_witness :
  exists r' p,
    addToRelation firstChar 2 ex_reln "a,b" = Some (r', p) /\
    (p = NO_PAGE \/
     (p = bucketOf r' (tupleHash firstChar r' "a,b") /\
      0 <= p < npages r' /\ p <> NO_PAGE)).
Proof.
  eexists _, _. split; [vm_compute; reflexivity|].
  apply (insert_returns_primary_page firstChar 2 ex_reln "a,b").
  - exact (inv_counters _ _ _ ex_reln_Inv).
  - vm_compute. discriminate.
  - reflexivity.
  - vm_compute. reflexivity.
  - vm_compute. reflexivity.
Defined.

Lemma insert_first_fit_witness :
  exists r' chains' loc,
    addToRelation firstChar 1 ex_reln "a,b"
      = Some (r', bucketOf ex_reln (tupleHash firstChar ex_reln "a,b")) /\
    Structure r' chains' /\
    (loc = None ->
     ptup (data r') (bucketOf ex_reln (tupleHash firstChar ex_reln "a,b"))
       = ptup (data ex_reln)
           (bucketOf ex_reln (tupleHash firstChar ex_reln "a,b"))
         ++ ["a,b"%string]) /\
    (forall i, loc = Some i ->
       noRoom (data ex_reln) "a,b"
         (bucketOf ex_reln (tupleHash firstChar ex_reln "a,b")) /\
       ptup (ovflow r') i = ptup (ovflow ex_reln) i ++ ["a,b"%string] /\
       exists c1 c2,
         chains' !! Z.to_nat
                      (bucketOf ex_reln (tupleHash firstChar ex_reln "a,b"))
           = Some (c1 ++ i :: c2) /\
         Forall (noRoom (ovflow ex_reln) "a,b") c1) /\
    (chains' = ex_chains \/
     exists ch,
       ex_chains !! Z.to_nat
                      (bucketOf ex_reln (tupleHash firstChar ex_reln "a,b"))
         = Some ch /\
       Forall (noRoom (ovflow ex_reln) "a,b") ch /\
       loc = Some (Z.of_nat (length (ovflow ex_reln))) /\
       chains' =
         <[Z.to_nat (bucketOf ex_reln (tupleHash firstChar ex_reln "a,b")) :=
             ch ++ [Z.of_nat (length (ovflow ex_reln))]]> ex_chains) /\
    (forall b,
       loc <> None \/
       b <> bucketOf ex_reln (tupleHash firstChar ex_reln "a,b") ->
       ptup (data r') b = ptup (data ex_reln) b) /\
    (forall i, loc <> Some i ->
       ptup (ovflow r') i = ptup (ovflow ex_reln) i).
Proof.
  apply (insert_first_fit firstChar 0 ex_reln ex_chains "a,b").
  - exact ex_reln_Inv.
  - vm_compute. discriminate.
  - vm_compute. discriminate.
  - vm_compute. reflexivity.
Defined.

Lemma split_preserves_tuples_witness :
  exists r' chains',
    splitSp (addToRelation firstChar 1) ex_split = Some r' /\
    Structure r' chains' /\ Addr firstChar r' chains' /\
    allContent r' chains' ≡ₚ allContent ex_split [[]; []] /\
    npages r' = npages ex_split + 1 /\
    length (data r') = S (length (data ex_split)) /\
    ntups r' = ntups ex_split.
Proof.
  apply (split_preserves_tuples firstChar 0 ex_split [[]; []]).
  - exact ex_split_Structure.
  - vm_compute. repeat split; discriminate.
  - exact ex_split_Addr.
  - split; [reflexivity|]. split; [reflexivity|]. vm_compute. discriminate.
  - vm_compute. reflexivity.
  - vm_compute. reflexivity.
Defined.

Lemma ex_ids_ok : Forall (fun p => p <> NO_PAGE) ex_ids.
Proof.
  apply Forall_forall. intros p Hp.
  assert (H : Forall (fun p => 0 <= p <= 2) ex_ids).
  { unfold ex_ids, ex_loaded. repeat (constructor; [lia|]). constructor. }
  rewrite Forall_forall in H. specialize (H p Hp). unfold NO_PAGE. lia.
Qed.

Lemma split_schedule_witness :
  npages ex_after =
    npages ex_reln +
    (insertion ex_reln + Z.of_nat (length (ex_tuples 60)) - 1) / c ex_reln /\
  insertion ex_after =
    (insertion ex_reln + Z.of_nat (length (ex_tuples 60)) - 1) mod c ex_reln
    + 1 /\
  ntups ex_after = ntups ex_reln + Z.of_nat (length (ex_tuples 60)) /\
  depth ex_after = Z.log2 (npages ex_after) /\
  sp ex_after = npages ex_after - 2 ^ Z.log2 (npages ex_after).
Proof.
  apply (split_schedule firstChar 2 ex_reln (ex_tuples 60) ex_after ex_ids).
  - exact (inv_counters _ _ _ ex_reln_Inv).
  - reflexivity.
  - vm_compute. split; discriminate.
  - vm_compute. discriminate.
  - vm_compute. reflexivity.
  - vm_compute. discriminate.
  - vm_compute. reflexivity.
  - vm_compute. reflexivity.
  - discriminate.
  - exact ex_loaded_eq.
  - exact ex_ids_ok.
Defined.


(** Two buckets without overflow pages. *)
Definition ex_two : list (list Z) := [[]; []].

(** The relation of [ex_split] at rest: four tuples in two buckets. *)
Definition ex_rest : Reln := set_splitting ex_split false.

Lemma ex_rest_Inv : Inv firstChar ex_rest ex_two.
Proof.
  constructor.
  - apply (Structure_pages ex_split); [reflexivity | reflexivity | reflexivity|].
    exact ex_split_Structure.
  - vm_compute. repeat split; discriminate.
  - apply (Addr_pages firstChar ex_split); [reflexivity | reflexivity | |].
    + intros u. rewrite (tupleHash_cv firstChar ex_split ex_rest u eq_refl).
      unfold bucketOf. reflexivity.
    + exact ex_split_Addr.
  - reflexivity.
  - vm_compute. discriminate.
Qed.

Lemma ex_rest_cvValid : cvValid ex_rest.
Proof. apply ex_cv_valid; reflexivity. Qed.

Lemma relationStats_report_witness :
  exists out,
    relationStats ex_rest = Some out /\
    (st_nattrs out, st_pages out, st_tuples out, st_depth out, st_splitp out)
      = (nattrs ex_rest, npages ex_rest, ntups ex_rest, depth ex_rest,
         sp ex_rest) /\
    length (st_buckets out) = length ex_two /\
    (forall (b : nat) ch, ex_two !! b = Some ch ->
       exists row, st_buckets out !! b = Some row /\
                   ps_id <$> row = Z.of_nat b :: ch /\
                   statTuples row
                     = Z.of_nat (length (bucketContent ex_rest ex_two b))) /\
    statTuples (concat (st_buckets out))
      = Z.of_nat (length (allContent ex_rest ex_two)) /\
    Forall statOk (concat (st_buckets out)).
Proof.
  apply (relationStats_report ex_rest ex_two).
  exact (inv_struct _ _ _ ex_rest_Inv).
Defined.

Example ex_rest_stats :
  option_map (fun out => (st_tuples out, st_buckets out)) (relationStats ex_rest)
  = Some (4, [[mkPageStat 0 3 1000 NO_PAGE]; [mkPageStat 1 1 1008 NO_PAGE]]).
Proof. vm_compute. reflexivity. Qed.

Lemma stats_tuple_total_witness :
  exists r' chains' ps out,
    addAll firstChar 2 ex_rest (ex_tuples 60) = Some (r', ps) /\
    Inv firstChar r' chains' /\
    Z.of_nat (length (allContent r' chains')) = ntups r' /\
    ntups r' = ntups ex_rest + Z.of_nat (length (ex_tuples 60)) /\
    relationStats r' = Some out /\
    st_tuples out = ntups r' /\
    statTuples (concat (st_buckets out)) = st_tuples out.
Proof.
  apply (stats_tuple_total firstChar 0 ex_rest ex_two (ex_tuples 60)).
  - exact ex_rest_Inv.
  - vm_compute. reflexivity.
  - apply ex_tuples_fit.
  - vm_compute. reflexivity.
  - vm_compute. reflexivity.
  - vm_compute. reflexivity.
Defined.

(** The query [b,?] on the four tuples returns ["b,b"] and ["b,a"]. *)
Lemma query_exact_witness :
  exists q out q',
    startQuery firstChar ex_rest "b,?" = Some q /\
    drain 4 q = Some (out, q') /\
    out ≡ₚ List.filter (tupleMatch ex_rest "b,?")
             (allContent ex_rest ex_two).
Proof.
  apply (query_exact firstChar 4 ex_rest ex_two "b,?").
  - exact ex_rest_Inv.
  - exact ex_rest_cvValid.
  - vm_compute. repeat constructor.
  - vm_compute. repeat constructor.
Defined.

Example ex_rest_query :
  option_map fst
    (match startQuery firstChar ex_rest "b,?" with
     | Some q => drain 4 q
     | None => None
     end)
  = Some ["b,b"; "b,a"]%string.
Proof. vm_compute. reflexivity. Qed.

Lemma insert_then_query_witness :
  exists r' ps q out q',
    addAll firstChar 2 ex_rest (ex_tuples 60 ++ [ex_long]) = Some (r', ps) /\
    startQuery firstChar r' "b,?" = Some q /\
    drain 70 q = Some (out, q') /\
    out ≡ₚ List.filter (tupleMatch ex_rest "b,?")
             (allContent ex_rest ex_two ++
              List.filter fitsb (ex_tuples 60 ++ [ex_long])).
Proof.
  apply (insert_then_query firstChar 0 70 ex_rest ex_two
           (ex_tuples 60 ++ [ex_long]) "b,?").
  - exact ex_rest_Inv.
  - exact ex_rest_cvValid.
  - vm_compute. repeat constructor.
  - vm_compute. reflexivity.
  - vm_compute. reflexivity.
  - vm_compute. repeat constructor.
Defined.

Lemma query_new_relation_witness :
  newRelation 2 (2 ^ 1) 1 ex_cv = Some ex_reln /\
  exists q q',
    startQuery firstChar ex_reln "a,?" = Some q /\
    getNextTuple q = Some (None, q').
Proof.
  split; [reflexivity|].
  apply (query_new_relation firstChar 2 1 ex_cv "a,?" ex_reln).
  - lia.
  - reflexivity.
  - apply ex_cv_valid; reflexivity.
  - vm_compute. repeat constructor.
Defined.

Lemma failed_insert_at_rest_witness :
  exists r' chains',
    addToRelation firstChar 2 ex_rest ex_long = Some (r', NO_PAGE) /\
    Inv firstChar r' chains' /\
    allContent r' chains' ≡ₚ allContent ex_rest ex_two /\
    ntups r' = ntups ex_rest.
Proof.
  apply (failed_insert_at_rest firstChar 0 ex_rest ex_two ex_long).
  - exact ex_rest_Inv.
  - vm_compute. intros H. apply H. reflexivity.
  - vm_compute. reflexivity.
  - vm_compute. reflexivity.
Defined.

Lemma insertions_store_fitting_witness :
  exists r' chains' ps,
    addAll firstChar 2 ex_rest (ex_tuples 3 ++ [ex_long]) = Some (r', ps) /\
    Inv firstChar r' chains' /\
    allContent r' chains' ≡ₚ
      allContent ex_rest ex_two ++
      List.filter fitsb (ex_tuples 3 ++ [ex_long]) /\
    Forall2 (fun t p => p = NO_PAGE <-> ~ fitsPage t)
      (ex_tuples 3 ++ [ex_long]) ps.
Proof.
  apply (insertions_store_fitting firstChar 0 (ex_tuples 3 ++ [ex_long])
           ex_rest ex_two).
  - exact ex_rest_Inv.
  - vm_compute. reflexivity.
  - vm_compute. reflexivity.
Defined.


Example ex_rest_buckets :
  (pstars ex_rest "?,b", bucketAt firstChar ex_rest "?,b" <$> seqZ 0 2)
  = ([0], [Some 0; Some 1]).
Proof. vm_compute. reflexivity. Qed.

Lemma query_order_witness :
  exists q out q',
    startQuery firstChar ex_rest "?,?" = Some q /\
    drain 4 q = Some (out, q') /\
    nstars q = Z.of_nat (length (pstars ex_rest "?,?")) /\
    out = concat ((fun b => List.filter (tupleMatch ex_rest "?,?")
                              (contentAt ex_rest ex_two
                                 (bucketAt firstChar ex_rest "?,?" b))) <$>
                    seqZ 0 (2 ^ nstars q)).
Proof.
  apply (query_order firstChar 4 ex_rest ex_two "?,?").
  - exact (inv_struct _ _ _ ex_rest_Inv).
  - exact (inv_counters _ _ _ ex_rest_Inv).
  - exact ex_rest_cvValid.
  - vm_compute. repeat constructor.
  - vm_compute. repeat constructor.
Defined.


(** * Person names ([src/ass1/pname.c])

    A [PersonName] value is the string [name] of the varlena struct; a C
    string is modelled by the characters before its terminating NUL. *)

Module PName.

Definition code (a : ascii) : Z := Z.of_nat (nat_of_ascii a).

(** [strcmp] of the C library: the order of the first characters that
    differ, as unsigned bytes, the end of a string counting as 0.  C fixes
    the sign of the result only; the difference of the two bytes stands
    for it here, and the properties below depend on the sign alone. *)
Fixpoint strcmp (a b : string) : Z :=
  match a, b with
  | EmptyString, EmptyString => 0
  | EmptyString, String y _ => - code y
  | String x _, EmptyString => code x
  | String x a', String y b' =>
      if Ascii.eqb x y then strcmp a' b' else code x - code y
  end.

(** The idiom [p = strrchr(s, ch); *p = '\0'; p++;]: the string before
    the last [ch] and the string behind it; [None] when [strrchr] returns
    [NULL], which the code dereferences. *)
Fixpoint splitLast (ch : ascii) (s : string) : option (string * string) :=
  match s with
  | EmptyString => None
  | String a rest =>
      match splitLast ch rest with
      | Some (pre, suf) => Some (String a pre, suf)
      | None => if Ascii.eqb a ch then Some (EmptyString, rest) else None
      end
  end.

(** [pname_cmp_internal]: family names first, given names on a tie. *)
Definition pname_cmp_internal (a b : string) : option Z :=
  match splitLast "," a, splitLast "," b with
  | Some (aFamily, aGiven), Some (bFamily, bGiven) =>
      let cmpResult := strcmp aFamily bFamily in
      Some (if cmpResult =? 0 then strcmp aGiven bGiven else cmpResult)
  | _, _ => None
  end.

Definition pname_lt (a b : string) : option bool :=
  option_map (fun x => x <? 0) (pname_cmp_internal a b).
Definition pname_le (a b : string) : option bool :=
  option_map (fun x => x <=? 0) (pname_cmp_internal a b).
Definition pname_eq (a b : string) : option bool :=
  option_map (fun x => x =? 0) (pname_cmp_internal a b).
Definition pname_ge (a b : string) : option bool :=
  option_map (fun x => x >=? 0) (pname_cmp_internal a b).
Definition pname_gt (a b : string) : option bool :=
  option_map (fun x => x >? 0) (pname_cmp_internal a b).

(** [pname_neq] compares the whole names. *)
Definition pname_neq (a b : string) : bool := negb (strcmp a b =? 0).

Definition pname_cmp (a b : string) : option Z := pname_cmp_internal a b.

(** [family], [given]: the parts before and behind the last comma. *)
Definition family (pname : string) : option string :=
  option_map fst (splitLast "," pname).

Definition given (pname : string) : option string :=
  option_map snd (splitLast "," pname).

(** The loop [while (given[i] != '\0' && given[i] != ' ') i++;] and the
    cut [given[i] = '\0']. *)
Fixpoint firstWord (s : string) : string :=
  match s with
  | EmptyString => EmptyString
  | String a rest =>
      if Ascii.eqb a " " then EmptyString else String a (firstWord rest)
  end.

(** [show]: the first given name, a space, the family name. *)
Definition show (pname : string) : option string :=
  match splitLast "," pname with
  | Some (fam, giv) => Some (firstWord giv ++ " " ++ fam)%string
  | None => None
  end.

Section Hash.

(** [hash_any] of PostgreSQL is a parameter. *)
Variable hash_any : string -> Z.

(** The unsigned 32-bit hash is stored in an [int]. *)
Definition toInt32 (x : Z) : Z :=
  let u := wrap x in if u <? 2 ^ 31 then u else u - 2 ^ 32.

Definition pname_hash (a : string) : Z := toInt32 (hash_any a).

End Hash.

(** A C string holds no NUL. *)
Fixpoint isCString (s : string) : bool :=
  match s with
  | EmptyString => true
  | String a rest => negb (Ascii.eqb a zero) && isCString rest
  end.

(** ** [strcmp] *)

Lemma code_inj x y : code x = code y -> x = y.
Proof.
  unfold code. intros H. apply Nat2Z.inj in H.
  rewrite <- (ascii_nat_embedding x), <- (ascii_nat_embedding y), H.
  reflexivity.
Qed.

Lemma code_range x : 0 <= code x < 256.
Proof. unfold code. pose proof (nat_ascii_bounded x). lia. Qed.

Lemma code_pos x : Ascii.eqb x zero = false -> 0 < code x.
Proof.
  intros H. pose proof (code_range x).
  destruct (Z.eq_dec (code x) 0) as [E|]; [|lia].
  assert (x = zero) by (apply code_inj; rewrite E; reflexivity).
  subst x. discriminate.
Qed.

Lemma isCString_cons x s :
  isCString (String x s) = true ->
  Ascii.eqb x zero = false /\ isCString s = true.
Proof.
  simpl. intros H. apply andb_true_iff in H. destruct H as [H1 H2].
  split; [|exact H2]. destruct (Ascii.eqb x zero); [discriminate | reflexivity].
Qed.

Lemma strcmp_refl a : strcmp a a = 0.
Proof.
  induction a as [|x a IH]; simpl; [reflexivity|].
  rewrite Ascii.eqb_refl. exact IH.
Qed.

Lemma strcmp_eq a : forall b,
  isCString a = true -> isCString b = true ->
  strcmp a b = 0 -> a = b.
Proof.
  induction a as [|x a IH]; intros [|y b] Ha Hb; simpl.
  - reflexivity.
  - apply isCString_cons in Hb. destruct Hb as [Hy _].
    pose proof (code_pos y Hy). lia.
  - apply isCString_cons in Ha. destruct Ha as [Hx _].
    pose proof (code_pos x Hx). lia.
  - apply isCString_cons in Ha. destruct Ha as [_ Ha].
    apply isCString_cons in Hb. destruct Hb as [_ Hb].
    destruct (Ascii.eqb_spec x y) as [->|Hne].
    + intros H. f_equal. apply IH; assumption.
    + intros H. exfalso. apply Hne, code_inj. lia.
Qed.

Lemma strcmp_antisym a : forall b, strcmp b a = - strcmp a b.
Proof.
  induction a as [|x a IH]; intros [|y b]; simpl; try lia.
  rewrite (Ascii.eqb_sym y x). destruct (Ascii.eqb x y); [apply IH | lia].
Qed.

Lemma strcmp_lt_trans a : forall b c',
  isCString a = true -> isCString b = true -> isCString c' = true ->
  strcmp a b < 0 -> strcmp b c' < 0 -> strcmp a c' < 0.
Proof.
  induction a as [|x a IH]; intros [|y b] [|z c'] Ha Hb Hc; simpl;
    repeat match goal with
    | H : isCString (String ?u _) = true |- _ =>
        apply isCString_cons in H;
        let Hu := fresh "Hu" in
        destruct H as [Hu H]; apply code_pos in Hu
    end; try lia.
  destruct (Ascii.eqb_spec x y) as [->|Hxy];
    destruct (Ascii.eqb_spec y z) as [->|Hyz].
  - apply IH; assumption.
  - lia.
  - destruct (Ascii.eqb_spec x z) as [->|Hxz]; [contradiction | lia].
  - destruct (Ascii.eqb_spec x z) as [->|Hxz]; lia.
Qed.

(** ** [splitLast] *)

Fixpoint hasChar (ch : ascii) (s : string) : bool :=
  match s with
  | EmptyString => false
  | String a rest => Ascii.eqb a ch || hasChar ch rest
  end.

Lemma splitLast_None ch s : splitLast ch s = None <-> hasChar ch s = false.
Proof.
  induction s as [|a s IH]; simpl; [tauto|].
  destruct (splitLast ch s) as [[pre suf]|].
  - destruct (hasChar ch s); [|destruct IH as [_ IH]; discriminate IH; reflexivity].
    rewrite orb_true_r. split; discriminate.
  - destruct IH as [IH _]. rewrite IH by reflexivity. rewrite orb_false_r.
    destruct (Ascii.eqb a ch); split; try discriminate; reflexivity.
Qed.

Lemma splitLast_Some ch s pre suf :
  splitLast ch s = Some (pre, suf) ->
  s = (pre ++ String ch suf)%string /\ hasChar ch suf = false.
Proof.
  revert pre suf. induction s as [|a s IH]; intros pre suf; simpl;
    [discriminate|].
  destruct (splitLast ch s) as [[p1 s1]|] eqn:E.
  - intros [= <- <-]. destruct (IH p1 s1 eq_refl) as [-> Hn].
    split; [reflexivity | exact Hn].
  - destruct (Ascii.eqb_spec a ch) as [->|]; [|discriminate].
    intros [= <- <-]. split; [reflexivity|]. apply splitLast_None, E.
Qed.

Lemma splitLast_app ch pre suf :
  hasChar ch suf = false ->
  splitLast ch (pre ++ String ch suf) = Some (pre, suf).
Proof.
  intros Hn. induction pre as [|a pre IH]; simpl.
  - rewrite (proj2 (splitLast_None ch suf) Hn), Ascii.eqb_refl. reflexivity.
  - rewrite IH. reflexivity.
Qed.

Lemma isCString_app a b :
  isCString (a ++ b) = isCString a && isCString b.
Proof.
  induction a as [|x a IH]; simpl; [reflexivity|].
  rewrite IH, andb_assoc. reflexivity.
Qed.

Lemma splitLast_cstring ch s pre suf :
  isCString s = true -> splitLast ch s = Some (pre, suf) ->
  isCString pre = true /\ isCString suf = true.
Proof.
  intros Hs E. apply splitLast_Some in E. destruct E as [-> _].
  rewrite isCString_app in Hs. apply andb_true_iff in Hs.
  destruct Hs as [H1 H2]. apply isCString_cons in H2. tauto.
Qed.

(** ** The comparison *)

(** The names the comparison reads without a fault: C strings with a
    comma. *)
Definition validName (n : string) : bool := isCString n && hasChar "," n.

Lemma validName_split n :
  validName n = true ->
  exists f g, splitLast "," n = Some (f, g) /\
    n = (f ++ String "," g)%string /\ hasChar "," g = false /\
    isCString f = true /\ isCString g = true.
Proof.
  unfold validName. intros H. apply andb_true_iff in H.
  destruct H as [Hc Hh].
  destruct (splitLast "," n) as [[f g]|] eqn:E.
  - destruct (splitLast_Some _ _ _ _ E) as [Hn Hg].
    destruct (splitLast_cstring _ _ _ _ Hc E) as [Hf Hgc].
    exists f, g. repeat split; assumption.
  - apply splitLast_None in E. congruence.
Qed.

Lemma cmp_internal_swap a b :
  pname_cmp_internal b a = option_map Z.opp (pname_cmp_internal a b).
Proof.
  unfold pname_cmp_internal.
  destruct (splitLast "," a) as [[fa ga]|], (splitLast "," b) as [[fb gb]|];
    simpl; try reflexivity.
  rewrite (strcmp_antisym fa fb), (strcmp_antisym ga gb).
  destruct (Z.eqb_spec (strcmp fa fb) 0), (Z.eqb_spec (- strcmp fa fb) 0);
    try lia; reflexivity.
Qed.

Lemma cmp_internal_zero a b :
  validName a = true -> validName b = true ->
  (pname_cmp_internal a b = Some 0 <-> a = b).
Proof.
  intros Ha Hb.
  destruct (validName_split a Ha) as (fa & ga & Ea & Na & _ & Hfa & Hga).
  destruct (validName_split b Hb) as (fb & gb & Eb & Nb & _ & Hfb & Hgb).
  unfold pname_cmp_internal. rewrite Ea, Eb. split.
  - intros [= H]. destruct (Z.eqb_spec (strcmp fa fb) 0) as [E|E]; [|lia].
    apply strcmp_eq in E; [|assumption..]. apply strcmp_eq in H; [|assumption..].
    congruence.
  - intros ->. rewrite Ea in Eb. injection Eb as -> ->.
    rewrite !strcmp_refl. reflexivity.
Qed.

Lemma cmp_internal_lt_trans a b c' x y :
  validName a = true -> validName b = true -> validName c' = true ->
  pname_cmp_internal a b = Some x -> x < 0 ->
  pname_cmp_internal b c' = Some y -> y < 0 ->
  exists z, pname_cmp_internal a c' = Some z /\ z < 0.
Proof.
  intros Ha Hb Hc.
  destruct (validName_split a Ha) as (fa & ga & Ea & _ & _ & Hfa & Hga).
  destruct (validName_split b Hb) as (fb & gb & Eb & _ & _ & Hfb & Hgb).
  destruct (validName_split c' Hc) as (fc & gc & Ec & _ & _ & Hfc & Hgc).
  unfold pname_cmp_internal. rewrite Ea, Eb, Ec.
  intros [= <-] Hx [= <-] Hy. eexists. split; [reflexivity|].
  destruct (Z.eqb_spec (strcmp fa fb) 0) as [E1|E1];
    destruct (Z.eqb_spec (strcmp fb fc) 0) as [E2|E2].
  - apply strcmp_eq in E1; [|assumption..]. apply strcmp_eq in E2; [|assumption..].
    subst fb fc. rewrite strcmp_refl. simpl.
    apply (strcmp_lt_trans ga gb gc); assumption.
  - apply strcmp_eq in E1; [|assumption..]. subst fb.
    destruct (Z.eqb_spec (strcmp fa fc) 0); [contradiction | exact Hy].
  - apply strcmp_eq in E2; [|assumption..]. subst fc.
    destruct (Z.eqb_spec (strcmp fa fb) 0); [contradiction | exact Hx].
  - pose proof (strcmp_lt_trans fa fb fc Hfa Hfb Hfc Hx Hy) as Hz.
    destruct (Z.eqb_spec (strcmp fa fc) 0); [lia | exact Hz].
Qed.

Lemma cmp_internal_defined a b :
  validName a = true -> validName b = true ->
  exists x, pname_cmp_internal a b = Some x.
Proof.
  intros Ha Hb.
  destruct (validName_split a Ha) as (fa & ga & Ea & _).
  destruct (validName_split b Hb) as (fb & gb & Eb & _).
  unfold pname_cmp_internal. rewrite Ea, Eb. eexists. reflexivity.
Qed.

Lemma neq_spec a b :
  isCString a = true -> isCString b = true ->
  (pname_neq a b = false <-> a = b).
Proof.
  intros Ha Hb. unfold pname_neq. split.
  - intros H. destruct (Z.eqb_spec (strcmp a b) 0) as [E|E]; [|discriminate].
    apply strcmp_eq; assumption.
  - intros ->. rewrite strcmp_refl. reflexivity.
Qed.

(** X13.  The operator declarations of [pname.source] hold of the C
    functions on names with a comma: [>] is the commutator of [<] and [>=]
    of [<=], [=] commutes with itself, [>=] is the negator of [<], [>] of
    [<=] and [<>] of [=], although [pname_neq] compares the whole strings
    and the others the two parts. *)
Theorem pname_operator_laws a b :
  validName a = true -> validName b = true ->
  exists x, pname_cmp a b = Some x /\
    pname_gt a b = pname_lt b a /\
    pname_ge a b = pname_le b a /\
    pname_eq a b = pname_eq b a /\
    pname_ge a b = option_map negb (pname_lt a b) /\
    pname_gt a b = option_map negb (pname_le a b) /\
    pname_eq a b = Some (negb (pname_neq a b)).
Proof.
  intros Ha Hb. destruct (cmp_internal_defined a b Ha Hb) as [x Hx].
  exists x. split; [exact Hx|].
  assert (Hzero : pname_neq a b = negb (x =? 0)).
  { pose proof (cmp_internal_zero a b Ha Hb) as Hz.
    unfold validName in Ha, Hb.
    apply andb_true_iff in Ha. apply andb_true_iff in Hb.
    pose proof (neq_spec a b (proj1 Ha) (proj1 Hb)) as Hn.
    destruct (Z.eqb_spec x 0) as [->|Hne]; simpl.
    - apply Hn, Hz, Hx.
    - destruct (pname_neq a b); [reflexivity|]. exfalso.
      apply Hne. destruct Hn as [Hn _]. destruct Hz as [_ Hz].
      rewrite (Hz (Hn eq_refl)) in Hx. congruence. }
  unfold pname_gt, pname_lt, pname_ge, pname_le, pname_eq.
  rewrite (cmp_internal_swap a b), Hx, Hzero. simpl.
  repeat split; f_equal.
  - destruct (Z.gtb_spec x 0), (Z.ltb_spec (- x) 0); try lia; reflexivity.
  - destruct (Z.geb_spec x 0), (Z.leb_spec (- x) 0); try lia; reflexivity.
  - destruct (Z.eqb_spec x 0), (Z.eqb_spec (- x) 0); try lia; reflexivity.
  - destruct (Z.geb_spec x 0), (Z.ltb_spec x 0); try lia; reflexivity.
  - destruct (Z.gtb_spec x 0), (Z.leb_spec x 0); try lia; reflexivity.
  - rewrite negb_involutive. reflexivity.
Qed.

(** X14.  [pname_lt] is a strict total order on the names with a comma:
    no name is below itself, the relation is transitive, and of two names
    exactly one of [<], [=], [>] holds, [=] holding of the same string
    only. *)
Theorem pname_strict_total_order a b c' :
  validName a = true -> validName b = true -> validName c' = true ->
  pname_lt a a = Some false /\
  (pname_lt a b = Some true -> pname_lt b c' = Some true ->
   pname_lt a c' = Some true) /\
  (pname_eq a b = Some true <-> a = b) /\
  ((pname_lt a b, pname_eq a b, pname_gt a b) =
     (Some true, Some false, Some false) \/
   (pname_lt a b, pname_eq a b, pname_gt a b) =
     (Some false, Some true, Some false) \/
   (pname_lt a b, pname_eq a b, pname_gt a b) =
     (Some false, Some false, Some true)).
Proof.
  intros Ha Hb Hc.
  destruct (cmp_internal_defined a b Ha Hb) as [x Hx].
  pose proof (cmp_internal_zero a b Ha Hb) as Hz.
  split; [|split; [|split]].
  - unfold pname_lt.
    rewrite (proj2 (cmp_internal_zero a a Ha Ha) eq_refl). reflexivity.
  - unfold pname_lt. rewrite Hx.
    destruct (cmp_internal_defined b c' Hb Hc) as [y Hy]. rewrite Hy.
    simpl. intros [= H1] [= H2].
    apply Z.ltb_lt in H1. apply Z.ltb_lt in H2.
    destruct (cmp_internal_lt_trans a b c' x y Ha Hb Hc Hx H1 Hy H2)
      as (z & -> & Hlt).
    simpl. f_equal. apply Z.ltb_lt, Hlt.
  - unfold pname_eq. rewrite <- Hz, Hx. simpl. split.
    + intros [= H]. apply Z.eqb_eq in H. congruence.
    + intros [= ->]. reflexivity.
  - unfold pname_lt, pname_eq, pname_gt. rewrite Hx. simpl.
    destruct (Z.ltb_spec x 0), (Z.eqb_spec x 0), (Z.gtb_spec x 0);
      try lia; auto.
Qed.

Section HashLaws.

Variable hash_any : string -> Z.

(** X15.  Names that [pname_eq] holds of have the same [pname_hash], as
    the hash operator class asks of its equality and hash function. *)
Theorem pname_hash_eq a b :
  validName a = true -> validName b = true ->
  pname_eq a b = Some true ->
  pname_hash hash_any a = pname_hash hash_any b.
Proof.
  intros Ha Hb H. unfold pname_eq in H.
  destruct (pname_cmp_internal a b) as [x|] eqn:Hx; [|discriminate].
  injection H as H. apply Z.eqb_eq in H. subst x.
  apply (cmp_internal_zero a b Ha Hb) in Hx. subst b. reflexivity.
Qed.

End HashLaws.

(** ** The input function *)

(** POSIX extended regular expressions, as far as the pattern of
    [pname_in] uses them: bracket expressions, concatenation, alternation
    and repetition. *)
Inductive regex : Type :=
  | RNone
  | REps
  | RClass (f : ascii -> bool)
  | RCat (r1 r2 : regex)
  | RAlt (r1 r2 : regex)
  | RStar (r : regex).

Fixpoint nullable (r : regex) : bool :=
  match r with
  | RNone => false
  | REps => true
  | RClass _ => false
  | RCat r1 r2 => nullable r1 && nullable r2
  | RAlt r1 r2 => nullable r1 || nullable r2
  | RStar _ => true
  end.

Fixpoint deriv (a : ascii) (r : regex) : regex :=
  match r with
  | RNone => RNone
  | REps => RNone
  | RClass f => if f a then REps else RNone
  | RCat r1 r2 =>
      if nullable r1 then RAlt (RCat (deriv a r1) r2) (deriv a r2)
      else RCat (deriv a r1) r2
  | RAlt r1 r2 => RAlt (deriv a r1) (deriv a r2)
  | RStar r1 => RCat (deriv a r1) (RStar r1)
  end.

(** [regexec] on a pattern anchored at both ends: the whole string is in
    the language of the expression. *)
Fixpoint regexec (r : regex) (s : string) : bool :=
  match s with
  | EmptyString => nullable r
  | String a rest => regexec (deriv a r) rest
  end.

Definition inRange (lo hi a : ascii) : bool :=
  (code lo <=? code a) && (code a <=? code hi).

Definition isChar (ch a : ascii) : bool := Ascii.eqb a ch.

(** [[A-Z]] and [[A-Za-z'-]]. *)
Definition upper : regex := RClass (inRange "A" "Z").
Definition letter : regex :=
  RClass (fun a => inRange "A" "Z" a || inRange "a" "z" a
                   || isChar "'" a || isChar "-" a).

(** [[A-Z][A-Za-z'-]+] and [[A-Z][A-Za-z'-]+([ ][A-Z][A-Za-z'-]+)*]. *)
Definition word : regex := RCat upper (RCat letter (RStar letter)).
Definition words : regex :=
  RCat word (RStar (RCat (RClass (isChar " ")) word)).

(** The pattern of [pname_in], between [^] and [$]. *)
Definition pattern : regex :=
  RCat words
    (RCat (RClass (isChar ","))
       (RCat (RAlt (RClass (isChar " ")) REps) words)).

(** [formatMatch]: the pattern is compiled and run on the string; every
    status but [REG_NOMATCH] counts as a match, and the matcher is taken
    not to run out of memory. *)
Definition formatMatch (pat : regex) (str : string) : bool := regexec pat str.

(** What a call comes to: a value, the error that [ereport] raises, or
    the use of the [NULL] that [strrchr] returns. *)
Inductive result : Type :=
  | Value (name : string)
  | InvalidSyntax
  | NullPointer.

(** The step over one space behind the comma. *)
Definition skipSpace (given : string) : string :=
  match given with
  | String a rest => if Ascii.eqb a " " then rest else given
  | EmptyString => given
  end.

Definition pname_in (str : string) : result :=
  if negb (formatMatch pattern str) then InvalidSyntax
  else
    match splitLast "," str with
    | Some (fam, giv) => Value (fam ++ String "," (skipSpace giv))
    | None => NullPointer
    end.

Definition pname_out (a : string) : string := a.

(** The language of an expression. *)
Inductive matches : regex -> string -> Prop :=
  | MEps : matches REps EmptyString
  | MClass f a : f a = true -> matches (RClass f) (String a EmptyString)
  | MCat r1 r2 s1 s2 :
      matches r1 s1 -> matches r2 s2 -> matches (RCat r1 r2) (s1 ++ s2)
  | MAltL r1 r2 s : matches r1 s -> matches (RAlt r1 r2) s
  | MAltR r1 r2 s : matches r2 s -> matches (RAlt r1 r2) s
  | MStarNil r : matches (RStar r) EmptyString
  | MStarApp r s1 s2 :
      matches r s1 -> matches (RStar r) s2 -> matches (RStar r) (s1 ++ s2).

Lemma string_app_nil (s : string) : (s ++ "")%string = s.
Proof. induction s as [|a s IH]; simpl; [reflexivity | rewrite IH; reflexivity]. Qed.

Lemma string_app_assoc (s1 s2 s3 : string) :
  ((s1 ++ s2) ++ s3)%string = (s1 ++ (s2 ++ s3))%string.
Proof. induction s1 as [|a s IH]; simpl; [reflexivity | rewrite IH; reflexivity]. Qed.

Lemma string_app_empty (s1 s2 : string) :
  (s1 ++ s2)%string = EmptyString -> s1 = EmptyString /\ s2 = EmptyString.
Proof. destruct s1; simpl; [tauto | discriminate]. Qed.

Lemma nullable_spec r : nullable r = true <-> matches r EmptyString.
Proof.
  induction r as [| |f|r1 IH1 r2 IH2|r1 IH1 r2 IH2|r IH]; simpl.
  - split; [discriminate | intros H; inversion H].
  - split; [intros _; constructor | reflexivity].
  - split; [discriminate | intros H; inversion H].
  - rewrite andb_true_iff, IH1, IH2. split.
    + intros [H1 H2]. apply (MCat r1 r2 EmptyString EmptyString); assumption.
    + intros H. inversion H as [| |? ? s1 s2 H1 H2| | | |]; subst.
      match goal with E : (_ ++ _)%string = EmptyString |- _ =>
        apply string_app_empty in E; destruct E as [-> ->] end.
      tauto.
  - rewrite orb_true_iff, IH1, IH2. split.
    + intros [H|H]; [apply MAltL | apply MAltR]; exact H.
    + intros H. inversion H; subst; tauto.
  - split; [intros _; constructor | reflexivity].
Qed.

Lemma star_cons r a s :
  matches (RStar r) (String a s) ->
  exists s1 s2, s = (s1 ++ s2)%string /\
    matches r (String a s1) /\ matches (RStar r) s2.
Proof.
  intros H. remember (RStar r) as r' eqn:Er. remember (String a s) as t eqn:Et.
  revert Er s Et.
  induction H as [| | | | | |r0 s1 s2 H1 _ H2 IH2]; intros Er sx Et;
    try discriminate.
  injection Er as ->. destruct s1 as [|b s1]; simpl in Et.
  - apply IH2; [reflexivity | exact Et].
  - injection Et as Eb Es. subst b sx. exists s1, s2. tauto.
Qed.

Lemma deriv_spec a r : forall s,
  matches (deriv a r) s <-> matches r (String a s).
Proof.
  induction r as [| |f|r1 IH1 r2 IH2|r1 IH1 r2 IH2|r IH]; intros s; simpl.
  - split; intros H; inversion H.
  - split; intros H; inversion H.
  - destruct (f a) eqn:Ef; split; intros H; inversion H; subst.
    + constructor. exact Ef.
    + constructor.
    + congruence.
  - assert (Hcat : matches (RCat (deriv a r1) r2) s <->
                   exists s1 s2, s = (s1 ++ s2)%string /\
                     matches r1 (String a s1) /\ matches r2 s2).
    { split.
      - intros H. inversion H as [| |? ? s1 s2 H1 H2| | | |]; subst.
        exists s1, s2. rewrite <- IH1. tauto.
      - intros (s1 & s2 & -> & H1 & H2). constructor; [apply IH1, H1 | exact H2]. }
    assert (Hmain : matches (RCat r1 r2) (String a s) <->
                    (exists s1 s2, s = (s1 ++ s2)%string /\
                       matches r1 (String a s1) /\ matches r2 s2) \/
                    (matches r1 EmptyString /\ matches r2 (String a s))).
    { split.
      - intros H. inversion H as [| |? ? s1 s2 H1 H2| | | |]; subst.
        match goal with E : (_ ++ _)%string = String a s |- _ =>
          destruct s1 as [|b s1]; simpl in E;
          [right; subst s2; tauto
          |injection E as Eb Es; subst b s; left; exists s1, s2; tauto] end.
      - intros [(s1 & s2 & -> & H1 & H2)|[H1 H2]].
        + apply (MCat r1 r2 (String a s1) s2); assumption.
        + apply (MCat r1 r2 EmptyString (String a s)); assumption. }
    rewrite Hmain. destruct (nullable r1) eqn:En.
    + split.
      * intros H. inversion H; subst.
        -- left. apply Hcat. assumption.
        -- right. split; [apply nullable_spec, En | apply IH2; assumption].
      * intros [H|[_ H]]; [apply MAltL, Hcat, H | apply MAltR, IH2, H].
    + rewrite Hcat. split; [tauto|]. intros [H|[H _]]; [exact H|].
      apply nullable_spec in H. congruence.
  - split.
    + intros H. inversion H; subst;
        [apply MAltL, IH1 | apply MAltR, IH2]; assumption.
    + intros H. inversion H; subst;
        [apply MAltL, IH1 | apply MAltR, IH2]; assumption.
  - split.
    + intros H. inversion H as [| |? ? s1 s2 H1 H2| | | |]; subst.
      apply (MStarApp r (String a s1) s2); [apply IH, H1 | exact H2].
    + intros H. apply star_cons in H. destruct H as (s1 & s2 & -> & H1 & H2).
      constructor; [apply IH, H1 | exact H2].
Qed.

Lemma regexec_spec s : forall r, regexec r s = true <-> matches r s.
Proof.
  induction s as [|a s IH]; intros r; simpl.
  - apply nullable_spec.
  - rewrite IH. apply deriv_spec.
Qed.

(** *** The strings the pattern accepts *)

Fixpoint strChars (P : ascii -> bool) (s : string) : bool :=
  match s with
  | EmptyString => true
  | String a rest => P a && strChars P rest
  end.

Fixpoint classesIn (P : ascii -> bool) (r : regex) : Prop :=
  match r with
  | RClass f => forall a, f a = true -> P a = true
  | RCat r1 r2 | RAlt r1 r2 => classesIn P r1 /\ classesIn P r2
  | RStar r1 => classesIn P r1
  | RNone | REps => True
  end.

Lemma strChars_app P s1 s2 :
  strChars P (s1 ++ s2) = strChars P s1 && strChars P s2.
Proof.
  induction s1 as [|a s1 IH]; simpl; [reflexivity|].
  rewrite IH, andb_assoc. reflexivity.
Qed.

Lemma matches_chars P r s :
  classesIn P r -> matches r s -> strChars P s = true.
Proof.
  intros Hc H. induction H; simpl in *; try reflexivity.
  - rewrite (Hc a) by assumption. reflexivity.
  - rewrite strChars_app, IHmatches1, IHmatches2 by tauto. reflexivity.
  - apply IHmatches; tauto.
  - apply IHmatches; tauto.
  - rewrite strChars_app, IHmatches1, IHmatches2 by tauto. reflexivity.
Qed.

Lemma hasChar_strChars ch s :
  hasChar ch s = negb (strChars (fun a => negb (Ascii.eqb a ch)) s).
Proof.
  induction s as [|a s IH]; simpl; [reflexivity|].
  rewrite IH. destruct (Ascii.eqb a ch); reflexivity.
Qed.

Lemma isCString_strChars s :
  isCString s = strChars (fun a => negb (Ascii.eqb a zero)) s.
Proof. induction s as [|a s IH]; simpl; [reflexivity | rewrite IH; reflexivity]. Qed.

Lemma hasChar_app ch s1 s2 :
  hasChar ch (s1 ++ s2) = hasChar ch s1 || hasChar ch s2.
Proof.
  induction s1 as [|a s1 IH]; simpl; [reflexivity|].
  rewrite IH, orb_assoc. reflexivity.
Qed.

(** The characters of a name: letters, apostrophe, hyphen and space. *)
Definition nameChar (a : ascii) : bool :=
  inRange "A" "Z" a || inRange "a" "z" a || isChar "'" a || isChar "-" a
  || isChar " " a.

Lemma words_classes : classesIn nameChar words.
Proof.
  assert (Hu : forall a, inRange "A" "Z" a = true -> nameChar a = true).
  { intros a H. unfold nameChar. rewrite H. reflexivity. }
  assert (Hl : forall a,
    inRange "A" "Z" a || inRange "a" "z" a || isChar "'" a || isChar "-" a
      = true -> nameChar a = true).
  { intros a H. unfold nameChar. rewrite H. reflexivity. }
  assert (Hs : forall a, isChar " " a = true -> nameChar a = true).
  { intros a H. unfold nameChar. rewrite H. apply orb_true_r. }
  simpl. tauto.
Qed.

Lemma nameChar_not a ch :
  nameChar ch = false -> nameChar a = true -> negb (Ascii.eqb a ch) = true.
Proof.
  intros Hch Ha. destruct (Ascii.eqb_spec a ch) as [->|]; [congruence | reflexivity].
Qed.

Lemma classesIn_weaken (P Q : ascii -> bool) r :
  (forall a, P a = true -> Q a = true) -> classesIn P r -> classesIn Q r.
Proof.
  intros HPQ. induction r; simpl; try tauto. intros H a Ha. apply HPQ, H, Ha.
Qed.

Lemma words_without ch w :
  nameChar ch = false -> matches words w -> hasChar ch w = false.
Proof.
  intros Hch H. rewrite hasChar_strChars.
  rewrite (matches_chars (fun a => negb (Ascii.eqb a ch)) words w);
    [reflexivity | | exact H].
  apply (classesIn_weaken nameChar); [|apply words_classes].
  intros a. apply nameChar_not, Hch.
Qed.

Lemma words_cstring w : matches words w -> isCString w = true.
Proof.
  intros H. rewrite isCString_strChars.
  apply (matches_chars _ words); [|exact H].
  apply (classesIn_weaken nameChar); [|apply words_classes].
  intros a. apply nameChar_not. reflexivity.
Qed.

Lemma words_head w :
  matches words w ->
  exists u rest, w = String u rest /\ inRange "A" "Z" u = true.
Proof.
  unfold words, word, upper. intros H.
  inversion H as [| |? ? s1 s2 H1 H2| | | |]; subst.
  inversion H1 as [| |? ? s3 s4 H3 H4| | | |]; subst.
  inversion H3; subst. simpl. eauto.
Qed.

Lemma pattern_parts s :
  matches pattern s <->
  exists f g, matches words f /\ matches words g /\
    (s = (f ++ String "," g)%string \/
     s = (f ++ String "," (String " " g))%string).
Proof.
  unfold pattern. split.
  - intros H.
    inversion H as [| |? ? f s2 Hf H2| | | |]; subst.
    inversion H2 as [| |? ? s3 s4 H3 H4| | | |]; subst.
    inversion H4 as [| |? ? s5 g H5 Hg| | | |]; subst.
    inversion H3 as [|? a Ha| | | | |]; subst.
    unfold isChar in Ha. apply Ascii.eqb_eq in Ha. subst a.
    exists f, g. split; [exact Hf|]. split; [exact Hg|].
    inversion H5 as [| | |? ? ? H6|? ? ? H6| |]; subst.
    + inversion H6 as [|? b Hb| | | | |]; subst.
      unfold isChar in Hb. apply Ascii.eqb_eq in Hb. subst b.
      right. reflexivity.
    + inversion H6; subst. left. reflexivity.
  - intros (f & g & Hf & Hg & [->| ->]).
    + constructor; [exact Hf|].
      apply (MCat _ _ (String "," EmptyString) g); [constructor; reflexivity|].
      apply (MCat _ _ EmptyString g); [|exact Hg]. apply MAltR. constructor.
    + constructor; [exact Hf|].
      apply (MCat _ _ (String "," EmptyString) (String " " g));
        [constructor; reflexivity|].
      apply (MCat _ _ (String " " EmptyString) g); [|exact Hg].
      apply MAltL. constructor. reflexivity.
Qed.

Lemma skipSpace_words g : matches words g -> skipSpace g = g.
Proof.
  intros H. destruct (words_head g H) as (u & rest & -> & Hu). simpl.
  destruct (Ascii.eqb_spec u " ") as [->|]; [discriminate | reflexivity].
Qed.

Lemma pname_in_spec s n :
  pname_in s = Value n <->
  exists f g, matches words f /\ matches words g /\
    n = (f ++ String "," g)%string /\
    (s = n \/ s = (f ++ String "," (String " " g))%string).
Proof.
  unfold pname_in, formatMatch. split.
  - destruct (regexec pattern s) eqn:E; simpl; [|discriminate].
    apply regexec_spec, pattern_parts in E.
    destruct E as (f & g & Hf & Hg & Hs).
    assert (Hg' : hasChar "," g = false) by (apply words_without; [reflexivity | exact Hg]).
    destruct Hs as [->| ->].
    + rewrite splitLast_app by exact Hg'. rewrite skipSpace_words by exact Hg.
      intros [= <-]. exists f, g. tauto.
    + rewrite splitLast_app by (simpl; exact Hg'). simpl.
      intros [= <-]. exists f, g. tauto.
  - intros (f & g & Hf & Hg & -> & Hs).
    assert (Hg' : hasChar "," g = false) by (apply words_without; [reflexivity | exact Hg]).
    assert (E : regexec pattern s = true).
    { apply regexec_spec, pattern_parts. exists f, g.
      destruct Hs as [->| ->]; tauto. }
    rewrite E. simpl. destruct Hs as [->| ->].
    + rewrite splitLast_app by exact Hg'. rewrite skipSpace_words by exact Hg.
      reflexivity.
    + rewrite splitLast_app by (simpl; exact Hg'). reflexivity.
Qed.

Lemma word_no_space w : matches word w -> hasChar " " w = false.
Proof.
  intros H. rewrite hasChar_strChars.
  rewrite (matches_chars (fun a => negb (Ascii.eqb a " ")) word w);
    [reflexivity | | exact H].
  simpl. repeat split; intros a Ha;
    (destruct (Ascii.eqb_spec a " ") as [->|]; [discriminate Ha | reflexivity]).
Qed.

Lemma firstWord_app w rest :
  hasChar " " w = false ->
  rest = EmptyString \/ (exists r, rest = String " " r) ->
  firstWord (w ++ rest) = w.
Proof.
  intros Hw Hr. induction w as [|a w IH]; simpl in *.
  - destruct Hr as [->|[r ->]]; reflexivity.
  - apply orb_false_iff in Hw. destruct Hw as [Ha Hw].
    rewrite Ha, IH by exact Hw. reflexivity.
Qed.

Lemma star_space_head r rest :
  matches (RStar (RCat (RClass (isChar " ")) r)) rest ->
  rest = EmptyString \/ (exists t, rest = String " " t).
Proof.
  intros H. destruct rest as [|a rest]; [left; reflexivity|]. right.
  apply star_cons in H. destruct H as (s1 & s2 & -> & H1 & _).
  inversion H1 as [| |? ? s3 s4 H3 H4| | | |]; subst.
  inversion H3 as [|? b Hb| | | | |]; subst.
  unfold isChar in Hb. apply Ascii.eqb_eq in Hb. subst b.
  match goal with E : (_ ++ _)%string = String a _ |- _ =>
    simpl in E; injection E as <- _ end.
  eauto.
Qed.

Lemma words_first g :
  matches words g ->
  exists w rest, g = (w ++ rest)%string /\ matches word w /\
    (rest = EmptyString \/ (exists r, rest = String " " r)) /\
    firstWord g = w.
Proof.
  unfold words. intros H.
  inversion H as [| |? ? w rest Hw Hrest| | | |]; subst.
  apply (star_space_head word) in Hrest.
  exists w, rest. split; [reflexivity|]. split; [exact Hw|].
  split; [exact Hrest|].
  apply firstWord_app; [apply word_no_space, Hw | exact Hrest].
Qed.

Lemma pname_in_valid s n : pname_in s = Value n -> validName n = true.
Proof.
  intros H. apply pname_in_spec in H.
  destruct H as (f & g & Hf & Hg & -> & _). unfold validName.
  rewrite isCString_app, hasChar_app. simpl.
  rewrite (words_cstring f Hf), (words_cstring g Hg). simpl.
  apply orb_true_r.
Qed.

(** X16.  [pname_in] stores a canonical form: the accepted input itself,
    or the input without the one space behind its comma; the stored name
    has a comma and no NUL, [family] and [given] are its two parts, and
    reading the output of [pname_out] back gives the same name. *)
Theorem pname_in_canonical s n :
  pname_in s = Value n ->
  validName n = true /\
  pname_in (pname_out n) = Value n /\
  exists f g, family n = Some f /\ given n = Some g /\
    n = (f ++ "," ++ g)%string /\
    (s = n \/ s = (f ++ ", " ++ g)%string).
Proof.
  intros H. split; [exact (pname_in_valid s n H)|].
  apply pname_in_spec in H. destruct H as (f & g & Hf & Hg & -> & Hs).
  assert (Hg' : hasChar "," g = false)
    by (apply words_without; [reflexivity | exact Hg]).
  split.
  - apply pname_in_spec. exists f, g. tauto.
  - exists f, g. unfold family, given.
    rewrite splitLast_app by exact Hg'. simpl. tauto.
Qed.

(** X17.  [pname_in] never uses the [NULL] of [strrchr]: a string
    without a comma fails the pattern and raises the syntax error. *)
Theorem pname_in_never_null s : pname_in s <> NullPointer.
Proof.
  unfold pname_in, formatMatch.
  destruct (regexec pattern s) eqn:E; simpl; [|discriminate].
  apply regexec_spec, pattern_parts in E.
  destruct E as (f & g & Hf & Hg & Hs).
  assert (Hg' : hasChar "," g = false)
    by (apply words_without; [reflexivity | exact Hg]).
  destruct Hs as [->| ->].
  - rewrite splitLast_app by exact Hg'. discriminate.
  - rewrite splitLast_app by (simpl; exact Hg'). discriminate.
Qed.

(** X18.  On a stored name [show] gives the first given name, a space
    and the family name; the first given name is a whole word of the
    pattern, the given names going on behind it with a space or not at
    all. *)
Theorem show_first_given s n :
  pname_in s = Value n ->
  exists f w rest,
    show n = Some (w ++ " " ++ f)%string /\
    family n = Some f /\ given n = Some (w ++ rest)%string /\
    regexec word w = true /\
    (rest = EmptyString \/ exists r, rest = String " " r).
Proof.
  intros H. apply pname_in_spec in H.
  destruct H as (f & g & Hf & Hg & -> & _).
  assert (Hg' : hasChar "," g = false)
    by (apply words_without; [reflexivity | exact Hg]).
  destruct (words_first g Hg) as (w & rest & Eg & Hw & Hrest & Hfw).
  exists f, w, rest. unfold show, family, given.
  rewrite splitLast_app by exact Hg'. simpl. rewrite Hfw, <- Eg.
  repeat split; try reflexivity; [apply regexec_spec, Hw | exact Hrest].
Qed.

(** ** Worked examples *)

Definition ex_john : string := "Smith,John".
Definition ex_jane : string := "Smith,Jane".
Definition ex_adams : string := "Adams,Zoe".
Definition ex_input : string := "Van Der Berg, Anna-Maria Louise".
Definition ex_stored : string := "Van Der Berg,Anna-Maria Louise".

Lemma ex_input_stored : pname_in ex_input = Value ex_stored.
Proof. vm_compute. reflexivity. Qed.

Lemma pname_operator_laws_witness :
  validName ex_john = true /\ validName ex_jane = true /\
  exists x, pname_cmp ex_john ex_jane = Some x /\
    pname_gt ex_john ex_jane = pname_lt ex_jane ex_john /\
    pname_ge ex_john ex_jane = pname_le ex_jane ex_john /\
    pname_eq ex_john ex_jane = pname_eq ex_jane ex_john /\
    pname_ge ex_john ex_jane = option_map negb (pname_lt ex_john ex_jane) /\
    pname_gt ex_john ex_jane = option_map negb (pname_le ex_john ex_jane) /\
    pname_eq ex_john ex_jane = Some (negb (pname_neq ex_john ex_jane)).
Proof.
  split; [reflexivity|]. split; [reflexivity|].
  apply (pname_operator_laws ex_john ex_jane); reflexivity.
Defined.

Lemma pname_strict_total_order_witness :
  pname_lt ex_adams ex_jane = Some true /\
  pname_lt ex_jane ex_john = Some true /\
  pname_lt ex_adams ex_john = Some true.
Proof.
  split; [reflexivity|]. split; [reflexivity|].
  apply (pname_strict_total_order ex_adams ex_jane ex_john);
    reflexivity.
Defined.

Lemma pname_hash_eq_witness :
  pname_eq ex_john ex_john = Some true /\
  pname_hash (fun s => Z.of_nat (String.length s)) ex_john =
  pname_hash (fun s => Z.of_nat (String.length s)) ex_john.
Proof.
  split; [reflexivity|].
  apply (pname_hash_eq (fun s => Z.of_nat (String.length s)) ex_john ex_john);
    reflexivity.
Defined.

Lemma pname_in_canonical_witness :
  pname_in ex_input = Value ex_stored /\
  validName ex_stored = true /\
  pname_in (pname_out ex_stored) = Value ex_stored /\
  exists f g, family ex_stored = Some f /\ given ex_stored = Some g /\
    ex_stored = (f ++ "," ++ g)%string /\
    (ex_input = ex_stored \/ ex_input = (f ++ ", " ++ g)%string).
Proof.
  split; [exact ex_input_stored|].
  apply (pname_in_canonical ex_input ex_stored). exact ex_input_stored.
Defined.

Lemma show_first_given_witness :
  pname_in ex_input = Value ex_stored /\
  exists f w rest,
    show ex_stored = Some (w ++ " " ++ f)%string /\
    family ex_stored = Some f /\ given ex_stored = Some (w ++ rest)%string /\
    regexec word w = true /\
    (rest = EmptyString \/ exists r, rest = String " " r).
Proof.
  split; [exact ex_input_stored|].
  apply (show_first_given ex_input ex_stored). exact ex_input_stored.
Defined.

(** X19.  The space behind the comma does not matter: for family and
    given names of the pattern, the input with one space behind the comma
    and the input without it are both accepted and stored as the same
    name, the one without the space. *)
Theorem pname_in_space_insensitive f g :
  regexec words f = true -> regexec words g = true ->
  pname_in (f ++ ", " ++ g) = Value (f ++ "," ++ g)%string /\
  pname_in (f ++ "," ++ g) = Value (f ++ "," ++ g)%string /\
  pname_eq (f ++ "," ++ g) (f ++ "," ++ g) = Some true.
Proof.
  intros Hf Hg. apply regexec_spec in Hf. apply regexec_spec in Hg.
  assert (H1 : pname_in (f ++ ", " ++ g) = Value (f ++ "," ++ g)%string).
  { apply pname_in_spec. exists f, g. simpl. tauto. }
  assert (H2 : pname_in (f ++ "," ++ g) = Value (f ++ "," ++ g)%string).
  { apply pname_in_spec. exists f, g. simpl. tauto. }
  split; [exact H1|]. split; [exact H2|].
  pose proof (pname_in_valid _ _ H2) as Hv.
  unfold pname_eq.
  rewrite (proj2 (cmp_internal_zero _ _ Hv Hv) eq_refl). reflexivity.
Qed.

Lemma pname_in_space_insensitive_witness :
  pname_in ("Van Der Berg" ++ ", " ++ "Anna-Maria Louise") =
    Value ("Van Der Berg" ++ "," ++ "Anna-Maria Louise")%string /\
  pname_in ("Van Der Berg" ++ "," ++ "Anna-Maria Louise") =
    Value ("Van Der Berg" ++ "," ++ "Anna-Maria Louise")%string /\
  pname_eq ("Van Der Berg" ++ "," ++ "Anna-Maria Louise")
    ("Van Der Berg" ++ "," ++ "Anna-Maria Louise") = Some true.
Proof.
  apply (pname_in_space_insensitive "Van Der Berg" "Anna-Maria Louise");
    vm_compute; reflexivity.
Defined.

End PName.
